(** * Flash Point fire-rescue simulation: a shallow embedding of
      [flashpointModel.py] and the properties of its core engine.

    Positions and all Python integers are [Z].  The wall registry (a Python
    dict keyed by 4-tuples) is a [gmap]; the numpy grids are lists of rows;
    POI and firefighter objects live in stores indexed by their identity, so
    that the two-way carry link is modelled with its aliasing.  The random
    source is an explicit stream of draws together with the index of the next
    draw. *)

From Stdlib Require Import ZArith QArith List Lia Sorted.
From stdpp Require Import base option list gmap sets.

Open Scope Z_scope.
#[local] Set Warnings "-clear-no-such-hyp,-level-tolerance".

(** ** Enumerations *)

Inductive FireState := CLEAR | SMOKE | FIRE.
Inductive CellType := NORMAL | EXIT | HOTSPOT.
Inductive Role := unassigned | rescuer | fire_fighter.

#[global] Instance FireState_eq_dec : EqDecision FireState.
Proof. solve_decision. Defined.
#[global] Instance CellType_eq_dec : EqDecision CellType.
Proof. solve_decision. Defined.
#[global] Instance Role_eq_dec : EqDecision Role.
Proof. solve_decision. Defined.

(** ** class Wall *)

Record Wall := mkWall { health : Z; max_health : Z }.

(** [Wall.__init__(health)] *)
Definition Wall_init (h : Z) : Wall := mkWall h h.

(** [Wall.take_damage(damage)]: the new wall and the returned flag. *)
Definition take_damage (w : Wall) (damage : Z) : Wall * bool :=
  let h := Z.max 0 (health w - damage) in
  (mkWall h (max_health w), bool_decide (h = 0)).

(** [Wall.is_destroyed()] *)
Definition is_destroyed (w : Wall) : bool := bool_decide (health w <= 0).

(** ** Positions, wall keys and grids *)

Abbreviation pos := (Z * Z)%type (only parsing).
Abbreviation wall_key := (Z * Z * Z * Z)%type (only parsing).

(** [_get_wall_key]: both branches of the source compute the same tuple. *)
Definition _get_wall_key (x1 y1 x2 y2 : Z) : wall_key :=
  if bool_decide (x1 = x2)
  then (Z.min x1 x2, Z.min y1 y2, Z.max x1 x2, Z.max y1 y2)
  else (Z.min x1 x2, Z.min y1 y2, Z.max x1 x2, Z.max y1 y2).

(** A numpy array of shape (height, width), as a list of rows.  Every read
    and write of the source is guarded by a bounds test or sits inside
    [range] loops over the shape, so the value chosen out of range is never
    observed. *)
Definition grid (A : Type) : Type := list (list A).

Definition grid_get {A} (d : A) (g : grid A) (x y : Z) : A :=
  match g !! Z.to_nat y with
  | Some row => match row !! Z.to_nat x with Some v => v | None => d end
  | None => d
  end.

Definition grid_set {A} (g : grid A) (x y : Z) (v : A) : grid A :=
  alter (fun row => <[Z.to_nat x := v]> row) (Z.to_nat y) g.

Definition grid_full {A} (h w : Z) (v : A) : grid A :=
  replicate (Z.to_nat h) (replicate (Z.to_nat w) v).

Definition grid_shape {A} (g : grid A) (w h : Z) : Prop :=
  length g = Z.to_nat h /\ Forall (fun row => length row = Z.to_nat w) g.

(** ** Objects *)

Record POI := mkPOI {
  poi_id : Z;
  poi_x : Z;
  poi_y : Z;
  is_false_alarm : bool;
  is_revealed : bool;
  is_rescued : bool;
  carried_by : option nat   (* reference to a firefighter *)
}.

Record FirefighterAgent := mkFF {
  ff_x : Z;
  ff_y : Z;
  ff_pos : pos;                (* the attribute maintained by the mesa grid *)
  action_points : Z;
  max_action_points : Z;
  carrying_poi : option nat;   (* reference to a POI *)
  role : Role
}.

Record FlashPointModel := mkModel {
  width : Z;
  height : Z;
  wall_health : Z;
  rescued_pois : Z;
  explosion_count : Z;
  fire_grid : grid FireState;
  cell_types : grid CellType;
  walls : gmap wall_key Wall;
  pois : list nat;                       (* the registry: references *)
  poi_store : gmap nat POI;              (* POI objects by identity *)
  schedule : list nat;                   (* schedule.agents, in order *)
  agent_store : gmap nat FirefighterAgent;
  steps : Z
}.

(** Field updates. *)
Definition set_fire_grid (g : grid FireState) (m : FlashPointModel) :=
  mkModel (width m) (height m) (wall_health m) (rescued_pois m)
    (explosion_count m) g (cell_types m) (walls m) (pois m) (poi_store m)
    (schedule m) (agent_store m) (steps m).
Definition set_cell_types (g : grid CellType) (m : FlashPointModel) :=
  mkModel (width m) (height m) (wall_health m) (rescued_pois m)
    (explosion_count m) (fire_grid m) g (walls m) (pois m) (poi_store m)
    (schedule m) (agent_store m) (steps m).
Definition set_walls (w : gmap wall_key Wall) (m : FlashPointModel) :=
  mkModel (width m) (height m) (wall_health m) (rescued_pois m)
    (explosion_count m) (fire_grid m) (cell_types m) w (pois m) (poi_store m)
    (schedule m) (agent_store m) (steps m).
Definition set_pois (l : list nat) (m : FlashPointModel) :=
  mkModel (width m) (height m) (wall_health m) (rescued_pois m)
    (explosion_count m) (fire_grid m) (cell_types m) (walls m) l (poi_store m)
    (schedule m) (agent_store m) (steps m).
Definition set_poi_store (s : gmap nat POI) (m : FlashPointModel) :=
  mkModel (width m) (height m) (wall_health m) (rescued_pois m)
    (explosion_count m) (fire_grid m) (cell_types m) (walls m) (pois m) s
    (schedule m) (agent_store m) (steps m).
Definition set_schedule (l : list nat) (m : FlashPointModel) :=
  mkModel (width m) (height m) (wall_health m) (rescued_pois m)
    (explosion_count m) (fire_grid m) (cell_types m) (walls m) (pois m)
    (poi_store m) l (agent_store m) (steps m).
Definition set_agent_store (s : gmap nat FirefighterAgent) (m : FlashPointModel) :=
  mkModel (width m) (height m) (wall_health m) (rescued_pois m)
    (explosion_count m) (fire_grid m) (cell_types m) (walls m) (pois m)
    (poi_store m) (schedule m) s (steps m).
Definition set_rescued_pois (n : Z) (m : FlashPointModel) :=
  mkModel (width m) (height m) (wall_health m) n
    (explosion_count m) (fire_grid m) (cell_types m) (walls m) (pois m)
    (poi_store m) (schedule m) (agent_store m) (steps m).
Definition set_explosion_count (n : Z) (m : FlashPointModel) :=
  mkModel (width m) (height m) (wall_health m) (rescued_pois m)
    n (fire_grid m) (cell_types m) (walls m) (pois m)
    (poi_store m) (schedule m) (agent_store m) (steps m).
Definition set_steps (n : Z) (m : FlashPointModel) :=
  mkModel (width m) (height m) (wall_health m) (rescued_pois m)
    (explosion_count m) (fire_grid m) (cell_types m) (walls m) (pois m)
    (poi_store m) (schedule m) (agent_store m) n.

(** ** Board queries *)

Definition in_bounds (m : FlashPointModel) (x y : Z) : bool :=
  bool_decide (0 <= x < width m) && bool_decide (0 <= y < height m).

(** [get_fire_state] *)
Definition get_fire_state (m : FlashPointModel) (x y : Z) : FireState :=
  if in_bounds m x y then grid_get CLEAR (fire_grid m) x y else CLEAR.

(** [set_fire_state] *)
Definition set_fire_state (m : FlashPointModel) (x y : Z) (s : FireState)
  : FlashPointModel :=
  if in_bounds m x y then set_fire_grid (grid_set (fire_grid m) x y s) m else m.

(** [is_exit] *)
Definition is_exit (m : FlashPointModel) (x y : Z) : bool :=
  if in_bounds m x y
  then bool_decide (grid_get NORMAL (cell_types m) x y = EXIT)
  else false.

(** [range(n)] over Python integers. *)
Definition range (n : Z) : list Z := seqZ 0 n.

(** The cells in the order of the nested loops
    [for y in range(height): for x in range(width)]. *)
Definition cells_row_major (w h : Z) : list pos :=
  y ← range h; x ← range w; [(x, y)].

(** [get_exits] *)
Definition get_exits (m : FlashPointModel) : list pos :=
  filter (fun c => grid_get NORMAL (cell_types m) c.1 c.2 = EXIT)
         (cells_row_major (width m) (height m)).

(** [get_cells_with_fire] *)
Definition get_cells_with_fire (m : FlashPointModel) : list pos :=
  filter (fun c => grid_get CLEAR (fire_grid m) c.1 c.2 = FIRE)
         (cells_row_major (width m) (height m)).

(** [get_cells_with_smoke] *)
Definition get_cells_with_smoke (m : FlashPointModel) : list pos :=
  filter (fun c => grid_get CLEAR (fire_grid m) c.1 c.2 = SMOKE)
         (cells_row_major (width m) (height m)).

(** [_is_valid_wall] *)
Definition _is_valid_wall (m : FlashPointModel) (x1 y1 x2 y2 : Z) : bool :=
  in_bounds m x1 y1 && in_bounds m x2 y2 &&
  ((bool_decide (Z.abs (x1 - x2) = 1) && bool_decide (y1 = y2)) ||
   (bool_decide (Z.abs (y1 - y2) = 1) && bool_decide (x1 = x2))).

(** [has_wall_between] *)
Definition has_wall_between (m : FlashPointModel) (x1 y1 x2 y2 : Z) : bool :=
  match walls m !! _get_wall_key x1 y1 x2 y2 with
  | Some wall => negb (is_destroyed wall)
  | None => false
  end.

(** [can_move_between] *)
Definition can_move_between (m : FlashPointModel) (x1 y1 x2 y2 : Z) : bool :=
  if negb (in_bounds m x2 y2) then false
  else if negb (bool_decide (Z.abs (x1 - x2) + Z.abs (y1 - y2) = 1)) then false
  else negb (has_wall_between m x1 y1 x2 y2).

(** The wall update performed inside [_trigger_explosion]:
    [if wall_key in self.walls: self.walls[wall_key].take_damage(1)]. *)
Definition damage_wall (m : FlashPointModel) (x1 y1 x2 y2 : Z) : FlashPointModel :=
  let k := _get_wall_key x1 y1 x2 y2 in
  match walls m !! k with
  | Some wall => set_walls (<[k := (take_damage wall 1).1]> (walls m)) m
  | None => m
  end.

(** ** Pathfinder: [find_path] *)

Definition directions4 : list (Z * Z) := [(0, 1); (0, -1); (1, 0); (-1, 0)].

(** Outcome of the [for dx, dy in ...] loop over the neighbours of one
    dequeued node: either the early [return new_path], or the updated queue
    and visited set. *)
Inductive scan :=
| Found (p : list pos)
| Continue (queue : list (pos * list pos)) (visited : gset pos).

Fixpoint scan_neighbours (m : FlashPointModel) (goal : pos) (x y : Z)
    (path : list pos) (dirs : list (Z * Z))
    (queue : list (pos * list pos)) (visited : gset pos) : scan :=
  match dirs with
  | [] => Continue queue visited
  | (dx, dy) :: rest =>
      let nx := x + dx in
      let ny := y + dy in
      if bool_decide ((nx, ny) ∉ visited) && can_move_between m x y nx ny then
        let new_path := path ++ [(nx, ny)] in
        if bool_decide ((nx, ny) = goal) then Found new_path
        else scan_neighbours m goal x y path rest
               (queue ++ [((nx, ny), new_path)]) ({[(nx, ny)]} ∪ visited)
      else scan_neighbours m goal x y path rest queue visited
  end.

(** The [while queue:] loop.  [None] only when the iteration budget runs
    out; the budget of [find_path] below is never exhausted. *)
Fixpoint bfs_loop (fuel : nat) (m : FlashPointModel) (goal : pos)
    (queue : list (pos * list pos)) (visited : gset pos) : option (list pos) :=
  match fuel with
  | O => None
  | S fuel' =>
      match queue with
      | [] => Some []
      | ((x, y), path) :: queue' =>
          match scan_neighbours m goal x y path directions4 queue' visited with
          | Found p => Some p
          | Continue q v => bfs_loop fuel' m goal q v
          end
      end
  end.

Definition find_path_fuel (fuel : nat) (m : FlashPointModel) (start goal : pos)
  : option (list pos) :=
  if bool_decide (start = goal) then Some [start]
  else bfs_loop fuel m goal [(start, [start])] {[start]}.

(** One loop iteration per dequeued node, and a node is enqueued at most once
    and only when in bounds (or it is the start). *)
Definition find_path_bound (m : FlashPointModel) : nat :=
  S (S (length (cells_row_major (width m) (height m)))).

Definition find_path (m : FlashPointModel) (start goal : pos) : list pos :=
  default [] (find_path_fuel (find_path_bound m) m start goal).

(** The graph searched by the pathfinder. *)
Definition edge (m : FlashPointModel) (a b : pos) : Prop :=
  can_move_between m a.1 a.2 b.1 b.2 = true.

Definition reachable (m : FlashPointModel) (a b : pos) : Prop :=
  rtc (edge m) a b.

Fixpoint is_walk (m : FlashPointModel) (p : list pos) : Prop :=
  match p with
  | a :: (b :: _) as t => edge m a b /\ is_walk m t
  | _ => True
  end.

Definition path_from_to (m : FlashPointModel) (s g : pos) (p : list pos) : Prop :=
  head p = Some s /\ last p = Some g /\ is_walk m p.

(** ** Object stores *)

Definition set_ff_position (x y : Z) (a : FirefighterAgent) : FirefighterAgent :=
  mkFF x y (ff_pos a) (action_points a) (max_action_points a)
       (carrying_poi a) (role a).
Definition set_ff_pos (p : pos) (a : FirefighterAgent) : FirefighterAgent :=
  mkFF (ff_x a) (ff_y a) p (action_points a) (max_action_points a)
       (carrying_poi a) (role a).
Definition set_action_points (n : Z) (a : FirefighterAgent) : FirefighterAgent :=
  mkFF (ff_x a) (ff_y a) (ff_pos a) n (max_action_points a)
       (carrying_poi a) (role a).
Definition set_carrying_poi (c : option nat) (a : FirefighterAgent) : FirefighterAgent :=
  mkFF (ff_x a) (ff_y a) (ff_pos a) (action_points a) (max_action_points a)
       c (role a).
Definition set_role (r : Role) (a : FirefighterAgent) : FirefighterAgent :=
  mkFF (ff_x a) (ff_y a) (ff_pos a) (action_points a) (max_action_points a)
       (carrying_poi a) r.

Definition set_is_revealed (b : bool) (p : POI) : POI :=
  mkPOI (poi_id p) (poi_x p) (poi_y p) (is_false_alarm p) b (is_rescued p)
        (carried_by p).
Definition set_is_rescued (b : bool) (p : POI) : POI :=
  mkPOI (poi_id p) (poi_x p) (poi_y p) (is_false_alarm p) (is_revealed p) b
        (carried_by p).
Definition set_carried_by (c : option nat) (p : POI) : POI :=
  mkPOI (poi_id p) (poi_x p) (poi_y p) (is_false_alarm p) (is_revealed p)
        (is_rescued p) c.

(** Mutation of the object behind a reference. *)
Definition update_agent (self : nat) (f : FirefighterAgent -> FirefighterAgent)
    (m : FlashPointModel) : FlashPointModel :=
  set_agent_store (alter f self (agent_store m)) m.
Definition update_poi (r : nat) (f : POI -> POI) (m : FlashPointModel)
  : FlashPointModel :=
  set_poi_store (alter f r (poi_store m)) m.

(** The registry with each reference resolved to its object. *)
Definition resolve_pois (m : FlashPointModel) : list (nat * POI) :=
  omap (fun r => p ← poi_store m !! r; Some (r, p)) (pois m).

(** [POI.reveal]: sets the flag and returns whether the victim is real. *)
Definition reveal (p : POI) : POI * bool :=
  (set_is_revealed true p, negb (is_false_alarm p)).

(** [get_poi_at]: the first registered POI at the cell that is neither
    rescued nor carried. *)
Definition get_poi_at (m : FlashPointModel) (x y : Z) : option (nat * POI) :=
  List.find (fun rp => bool_decide (poi_x rp.2 = x) && bool_decide (poi_y rp.2 = y)
                       && negb (is_rescued rp.2)
                       && bool_decide (carried_by rp.2 = None))
            (resolve_pois m).

(** [list.remove]: drops the first occurrence. *)
Fixpoint remove_first (r : nat) (l : list nat) : list nat :=
  match l with
  | [] => []
  | a :: l' => if bool_decide (a = r) then l' else a :: remove_first r l'
  end.

(** [remove_poi] *)
Definition remove_poi (r : nat) (m : FlashPointModel) : FlashPointModel :=
  if bool_decide (r ∈ pois m) then set_pois (remove_first r (pois m)) m else m.

(** ** FirefighterAgent: the action primitives

    [self] is the reference of the acting firefighter.  A primitive returns
    the boolean of the source together with the state it leaves. *)

(** [move_to]; [grid.move_agent] updates the [pos] attribute. *)
Definition move_to (self : nat) (new_x new_y : Z) (m : FlashPointModel)
  : bool * FlashPointModel :=
  match agent_store m !! self with
  | None => (false, m)
  | Some a =>
      if bool_decide (action_points a <= 0) then (false, m)
      else if negb (can_move_between m (ff_x a) (ff_y a) new_x new_y)
      then (false, m)
      else
        let m1 := update_agent self (set_ff_pos (new_x, new_y)) m in
        let m2 := update_agent self (set_ff_position new_x new_y) m1 in
        (true, update_agent self (fun a => set_action_points (action_points a - 1) a) m2)
  end.

(** [extinguish_fire] *)
Definition extinguish_fire (self : nat) (m : FlashPointModel)
  : bool * FlashPointModel :=
  match agent_store m !! self with
  | None => (false, m)
  | Some a =>
      if bool_decide (action_points a <= 0) then (false, m)
      else
        match get_fire_state m (ff_x a) (ff_y a) with
        | FIRE =>
            let m1 := set_fire_state m (ff_x a) (ff_y a) SMOKE in
            (true, update_agent self (fun a => set_action_points (action_points a - 1) a) m1)
        | SMOKE =>
            let m1 := set_fire_state m (ff_x a) (ff_y a) CLEAR in
            (true, update_agent self (fun a => set_action_points (action_points a - 1) a) m1)
        | CLEAR => (false, m)
        end
  end.

(** [pickup_poi] *)
Definition pickup_poi (self : nat) (m : FlashPointModel)
  : bool * FlashPointModel :=
  match agent_store m !! self with
  | None => (false, m)
  | Some a =>
      if bool_decide (action_points a <= 0)
         || negb (bool_decide (carrying_poi a = None))
      then (false, m)
      else
        match get_poi_at m (ff_x a) (ff_y a) with
        | Some (r, p) =>
            if negb (is_rescued p) then
              let carry m' :=
                let m1 := update_agent self (set_carrying_poi (Some r)) m' in
                let m2 := update_poi r (set_carried_by (Some self)) m1 in
                (true, update_agent self
                         (fun a => set_action_points (action_points a - 1) a) m2) in
              if negb (is_revealed p) then
                let is_real := (reveal p).2 in
                let m1 := update_poi r (fun p => (reveal p).1) m in
                if negb is_real then
                  let m2 := remove_poi r m1 in
                  (true, update_agent self
                           (fun a => set_action_points (action_points a - 1) a) m2)
                else carry m1
              else carry m
            else (false, m)
        | None => (false, m)
        end
  end.

(** [drop_poi_at_exit] *)
Definition drop_poi_at_exit (self : nat) (m : FlashPointModel)
  : bool * FlashPointModel :=
  match agent_store m !! self with
  | None => (false, m)
  | Some a =>
      match carrying_poi a with
      | None => (false, m)
      | Some r =>
          if is_exit m (ff_x a) (ff_y a) then
            let m1 := update_poi r (set_is_rescued true) m in
            let m2 := update_poi r (set_carried_by None) m1 in
            let m3 := update_agent self (set_carrying_poi None) m2 in
            (true, set_rescued_pois (rescued_pois m3 + 1) m3)
          else (false, m)
      end
  end.

(** [get_path_to] *)
Definition get_path_to (m : FlashPointModel) (a : FirefighterAgent)
    (target_x target_y : Z) : list pos :=
  find_path m (ff_x a, ff_y a) (target_x, target_y).

(** ** Role assignment *)

(** A distance is [len(path)] or [float('inf')]. *)
Inductive score := Fin (n : nat) | Inf.

#[global] Instance score_eq_dec : EqDecision score.
Proof. solve_decision. Defined.

(** Python's [<] on these values. *)
Definition score_ltb (a b : score) : bool :=
  match a, b with
  | Fin n, Fin k => bool_decide (n < k)%nat
  | Fin _, Inf => true
  | Inf, _ => false
  end.

(** Python's [min(a, b)]: [b] only when it is strictly smaller. *)
Definition score_min (a b : score) : score :=
  if score_ltb b a then b else a.

(** [list.sort(key=...)] is stable; an insertion sort that places an element
    before the first one that is not strictly smaller yields the same list. *)
Fixpoint insert_by {A} (key : A -> score) (a : A) (l : list A) : list A :=
  match l with
  | [] => [a]
  | b :: l' =>
      if score_ltb (key b) (key a) then b :: insert_by key a l'
      else a :: b :: l'
  end.

Definition sort_by {A} (key : A -> score) (l : list A) : list A :=
  foldr (insert_by key) [] l.

(** The loop
    [for poi in active_pois: path = ff.get_path_to(...); if path: d = min(d, len(path))]. *)
Definition min_dist (m : FlashPointModel) (a : FirefighterAgent)
    (active : list (nat * POI)) : score :=
  foldl (fun d rp =>
           let path := get_path_to m a (poi_x rp.2) (poi_y rp.2) in
           match path with
           | [] => d
           | _ => score_min d (Fin (length path))
           end) Inf active.

(** The POIs that [_assign_role] measures against. *)
Definition role_pois (m : FlashPointModel) : list (nat * POI) :=
  filter (fun rp => is_rescued rp.2 = false) (resolve_pois m).

(** The list [firefighter_distances] before sorting. *)
Definition firefighter_distances (m : FlashPointModel) (active : list (nat * POI))
  : list (nat * score) :=
  omap (fun ff => a ← agent_store m !! ff; Some (ff, min_dist m a active))
       (schedule m).

(** [_assign_role].  The first loop of the source computes [min_distance]
    for the acting firefighter and never reads it again. *)
Definition _assign_role (self : nat) (m : FlashPointModel) : FlashPointModel :=
  let active_pois := role_pois m in
  match active_pois with
  | [] => update_agent self (set_role fire_fighter) m
  | _ =>
      let sorted := sort_by snd (firefighter_distances m active_pois) in
      let top_3 := (take 3 sorted).*1 in
      update_agent self
        (set_role (if bool_decide (self ∈ top_3) then rescuer else fire_fighter)) m
  end.

(** ** Behaviours *)

(** Python's [min(iterable, key=...)]: the first minimal element. *)
Definition min_by {A} (key : A -> Z) (l : list A) : option A :=
  match l with
  | [] => None
  | c :: l' =>
      Some (foldl (fun best c => if bool_decide (key c < key best) then c else best)
                  c l')
  end.

Definition manhattan (x1 y1 x2 y2 : Z) : Z := Z.abs (x1 - x2) + Z.abs (y1 - y2).

(** [if path and len(path) > 1: next_pos = path[1]; self.move_to(...)] *)
Definition step_along (self : nat) (path : list pos) (m : FlashPointModel)
  : bool * FlashPointModel :=
  match path with
  | _ :: next_pos :: _ => move_to self next_pos.1 next_pos.2 m
  | _ => (false, m)
  end.

(** [_rescue_behavior] *)
Definition _rescue_behavior (self : nat) (m : FlashPointModel) : FlashPointModel :=
  match agent_store m !! self with
  | None => m
  | Some a =>
      match carrying_poi a with
      | Some _ =>
          match min_by (fun e : pos => manhattan e.1 e.2 (ff_x a) (ff_y a))
                       (get_exits m) with
          | Some nearest_exit =>
              let path := get_path_to m a nearest_exit.1 nearest_exit.2 in
              let '(moved, m1) := step_along self path m in
              if moved then
                match agent_store m1 !! self with
                | Some a1 =>
                    if is_exit m1 (ff_x a1) (ff_y a1)
                    then (drop_poi_at_exit self m1).2
                    else m1
                | None => m1
                end
              else m1
          | None => m
          end
      | None =>
          let active_pois :=
            filter (fun rp => is_rescued rp.2 = false /\ carried_by rp.2 = None)
                   (resolve_pois m) in
          match min_by (fun rp : nat * POI =>
                          manhattan (poi_x rp.2) (poi_y rp.2) (ff_x a) (ff_y a))
                       active_pois with
          | Some nearest_poi =>
              if bool_decide (ff_x a = poi_x nearest_poi.2)
                 && bool_decide (ff_y a = poi_y nearest_poi.2)
              then (pickup_poi self m).2
              else
                let path := get_path_to m a (poi_x nearest_poi.2)
                                        (poi_y nearest_poi.2) in
                (step_along self path m).2
          | None => m
          end
      end
  end.

(** [_firefighting_behavior] *)
Definition _firefighting_behavior (self : nat) (m : FlashPointModel)
  : FlashPointModel :=
  match agent_store m !! self with
  | None => m
  | Some a =>
      let fire_cells := get_cells_with_fire m in
      let smoke_cells := get_cells_with_smoke m in
      let target_cells :=
        match fire_cells with [] => smoke_cells | _ => fire_cells end in
      match min_by (fun c : pos => manhattan c.1 c.2 (ff_x a) (ff_y a))
                   target_cells with
      | Some nearest =>
          if bool_decide (ff_x a = nearest.1) && bool_decide (ff_y a = nearest.2)
          then (extinguish_fire self m).2
          else (step_along self (get_path_to m a nearest.1 nearest.2) m).2
      | None => m
      end
  end.

(** [FirefighterAgent.step] *)
Definition agent_step (self : nat) (m : FlashPointModel) : FlashPointModel :=
  let m1 := update_agent self
              (fun a => set_action_points (max_action_points a) a) m in
  let m2 := _assign_role self m1 in
  match agent_store m2 !! self with
  | Some a =>
      if bool_decide (role a = rescuer) then _rescue_behavior self m2
      else _firefighting_behavior self m2
  | None => m2
  end.

(** ** The random source

    [random.random()] returns the next element of a stream; [draws] is the
    stream and a natural number counts the draws made so far. *)

Definition Qlt_bool (a b : Q) : bool := negb (Qle_bool b a).

(** [for y in range(height): for x in range(width): body] *)
Definition for_yx {S} (w h : Z) (body : S -> Z -> Z -> S) (s : S) : S :=
  foldl (fun s y => foldl (fun s x => body s x y) s (range w)) s (range h).

(** ** Fire spread *)

(** One neighbour of a burning cell: reads the old grid, writes the new. *)
Definition spread_neighbour (draws : nat -> Q) (m : FlashPointModel) (x y : Z)
    (acc : grid FireState * nat) (d : Z * Z) : grid FireState * nat :=
  let nx := x + d.1 in
  let ny := y + d.2 in
  if in_bounds m nx ny
     && bool_decide (grid_get CLEAR (fire_grid m) nx ny = CLEAR) then
    if negb (has_wall_between m x y nx ny) then
      if Qlt_bool (draws acc.2) (2 # 10)
      then (grid_set acc.1 nx ny SMOKE, S acc.2)
      else (acc.1, S acc.2)
    else acc
  else acc.

(** The body of the double loop of [spread_fire]. *)
Definition spread_cell (draws : nat -> Q) (m : FlashPointModel)
    (acc : grid FireState * nat) (x y : Z) : grid FireState * nat :=
  match grid_get CLEAR (fire_grid m) x y with
  | SMOKE =>
      if Qlt_bool (draws acc.2) (3 # 10)
      then (grid_set acc.1 x y FIRE, S acc.2)
      else (acc.1, S acc.2)
  | FIRE => foldl (spread_neighbour draws m x y) acc directions4
  | CLEAR => acc
  end.

(** [spread_fire]: [new_fire_grid] starts as a copy and is installed at the
    end. *)
Definition spread_fire (draws : nat -> Q) (k : nat) (m : FlashPointModel)
  : FlashPointModel * nat :=
  let r := for_yx (width m) (height m) (spread_cell draws m) (fire_grid m, k) in
  (set_fire_grid r.1 m, r.2).

(** ** Explosions *)

Definition directions8 : list (Z * Z) :=
  [(0, 1); (0, -1); (1, 0); (-1, 0); (1, 1); (-1, -1); (1, -1); (-1, 1)].

(** [_trigger_explosion] *)
Definition _trigger_explosion (m : FlashPointModel) (x y : Z) : FlashPointModel :=
  let m1 := set_explosion_count (explosion_count m + 1) m in
  let m2 :=
    foldl (fun m d =>
             let nx := x + d.1 in
             let ny := y + d.2 in
             if in_bounds m nx ny then damage_wall m x y nx ny else m)
          m1 directions4 in
  foldl (fun m d =>
           let nx := x + d.1 in
           let ny := y + d.2 in
           if in_bounds m nx ny then
             if bool_decide (grid_get CLEAR (fire_grid m) nx ny = CLEAR)
             then set_fire_grid (grid_set (fire_grid m) nx ny SMOKE) m
             else m
           else m)
        m2 directions8.

(** The body of the double loop of [check_explosions]; the draw is made only
    when the first two conjuncts hold. *)
Definition explosion_cell (draws : nat -> Q) (acc : FlashPointModel * nat)
    (x y : Z) : FlashPointModel * nat :=
  let m := acc.1 in
  if bool_decide (grid_get CLEAR (fire_grid m) x y = FIRE)
     && bool_decide (grid_get NORMAL (cell_types m) x y = HOTSPOT) then
    if Qlt_bool (draws acc.2) (1 # 10)
    then (_trigger_explosion m x y, S acc.2)
    else (m, S acc.2)
  else acc.

(** [check_explosions] *)
Definition check_explosions (draws : nat -> Q) (k : nat) (m : FlashPointModel)
  : FlashPointModel * nat :=
  for_yx (width m) (height m) (explosion_cell draws) (m, k).

(** ** The model step *)

(** [schedule.step()] of the random-activation scheduler: the agent list is
    shuffled in place (the permutation [order] is the explicit outcome of the
    shuffle), every agent is stepped in that order, and the step counter
    advances. *)
Definition schedule_step (order : list nat) (m : FlashPointModel)
  : FlashPointModel :=
  let m1 := set_schedule order m in
  let m2 := foldl (fun m self => agent_step self m) m1 order in
  set_steps (steps m2 + 1) m2.

(** [FlashPointModel.step]; the data collection does not touch the state. *)
Definition model_step (order : list nat) (draws : nat -> Q) (k : nat)
    (m : FlashPointModel) : FlashPointModel * nat :=
  let m1 := schedule_step order m in
  let '(m2, k2) := spread_fire draws k m1 in
  check_explosions draws k2 m2.

(** ** Construction *)

(** [_setup_exits] *)
Definition _setup_exits (m : FlashPointModel) : FlashPointModel :=
  foldl (fun m (e : pos) =>
           if in_bounds m e.1 e.2
           then set_cell_types (grid_set (cell_types m) e.1 e.2 EXIT) m
           else m)
        m [(0, 3); (0, 4); (9, 3); (9, 4)].

Definition interior_walls : list (pos * pos) :=
  [((2, 1), (2, 2)); ((2, 2), (2, 3));
   ((6, 1), (6, 2)); ((6, 2), (6, 3));
   ((1, 2), (2, 2)); ((3, 2), (4, 2));
   ((5, 2), (6, 2)); ((7, 2), (8, 2))].

(** [_create_walls] *)
Definition _create_walls (m : FlashPointModel) : FlashPointModel :=
  let m1 :=
    for_yx (width m) (height m)
      (fun m x y =>
         let m_e :=
           if bool_decide (x < width m - 1)
           then set_walls (<[(x, y, x + 1, y) := Wall_init (wall_health m)]> (walls m)) m
           else m in
         if bool_decide (y < height m_e - 1)
         then set_walls (<[(x, y, x, y + 1) := Wall_init (wall_health m_e)]> (walls m_e)) m_e
         else m_e)
      m in
  foldl (fun m (w : pos * pos) =>
           let '((x1, y1), (x2, y2)) := w in
           if _is_valid_wall m x1 y1 x2 y2 then
             let k := _get_wall_key x1 y1 x2 y2 in
             match walls m !! k with
             | None => set_walls (<[k := Wall_init (wall_health m)]> (walls m)) m
             | Some _ => m
             end
           else m)
        m1 interior_walls.

Definition start_positions : list pos := [(1, 3); (1, 4); (8, 3); (8, 4); (4, 0)].

(** [FirefighterAgent.__init__] *)
Definition FirefighterAgent_init (x y : Z) : FirefighterAgent :=
  mkFF x y (x, y) 4 4 None unassigned.

(** One iteration of the loop of [_place_firefighters], which stops at the
    first failing iteration.  The agent framework numbers the agents 1, 2, ...
    in creation order; [grid.place_agent] indexes the grid's cell table and
    fails on a cell beyond the board. *)
Definition place_firefighter (om : option FlashPointModel) (i : Z)
  : option FlashPointModel :=
  m ← om;
  '(x, y) ← start_positions !! Z.to_nat i;
  if in_bounds m x y then
    let self := S (Z.to_nat i) in
    Some (set_schedule (schedule m ++ [self])
            (set_agent_store
               (<[self := FirefighterAgent_init x y]> (agent_store m)) m))
  else None.

(** [_place_firefighters] *)
Definition _place_firefighters (num_firefighters : Z) (m : FlashPointModel)
  : option FlashPointModel :=
  foldl place_firefighter (Some m)
        (range (Z.min num_firefighters (Z.of_nat (length start_positions)))).

(** [_place_initial_fires] *)
Definition _place_initial_fires (m : FlashPointModel) : FlashPointModel :=
  foldl (fun m (hs : pos) =>
           if in_bounds m hs.1 hs.2 then
             set_cell_types (grid_set (cell_types m) hs.1 hs.2 HOTSPOT)
               (set_fire_grid (grid_set (fire_grid m) hs.1 hs.2 FIRE) m)
           else m)
        m [(3, 3); (6, 4); (4, 6)].

(** [_has_firefighter_at]: the cell content kept by the mesa grid is the set
    of agents whose [pos] is the cell. *)
Definition _has_firefighter_at (m : FlashPointModel) (x y : Z) : bool :=
  bool_decide (Exists (fun ff => ff_pos <$> agent_store m !! ff = Some (x, y))
                      (schedule m)).

(** The list [available_positions] of [_place_pois]. *)
Definition available_positions (m : FlashPointModel) : list pos :=
  filter (fun c : pos =>
            grid_get CLEAR (fire_grid m) c.1 c.2 = CLEAR
            /\ grid_get NORMAL (cell_types m) c.1 c.2 <> EXIT
            /\ _has_firefighter_at m c.1 c.2 = false)
         (cells_row_major (width m) (height m)).

(** What [random.sample(population, k)] may return. *)
Definition valid_sample (population : list pos) (k : Z) (sampled : list pos)
  : Prop :=
  NoDup sampled /\ sampled ⊆ population /\ Z.of_nat (length sampled) = k.

(** One iteration of the loop of [_place_pois]: POI number [i] at the
    sampled cell; it is the object with reference [i]. *)
Definition place_poi (draws : nat -> Q) (acc : FlashPointModel * nat)
    (ip : nat * (Z * Z)) : FlashPointModel * nat :=
  let m := acc.1 in
  let is_false_alarm := Qlt_bool (draws acc.2) (3 # 10) in
  let poi := mkPOI (Z.of_nat ip.1) ip.2.1 ip.2.2 is_false_alarm
                   false false None in
  (set_pois (pois m ++ [ip.1])
     (set_poi_store (<[ip.1 := poi]> (poi_store m)) m),
   S acc.2).

(** [_place_pois]; [sampled] is the outcome of [random.sample], which rejects
    a negative size. *)
Definition _place_pois (num_pois : Z) (sampled : list pos) (draws : nat -> Q)
    (k : nat) (m : FlashPointModel) : option (FlashPointModel * nat) :=
  if bool_decide
       (Z.min num_pois (Z.of_nat (length (available_positions m))) < 0)
  then None
  else Some (foldl (place_poi draws) (m, k) (imap pair sampled)).

(** [FlashPointModel.__init__].  The mesa grid and the numpy arrays are
    created for the given shape: [np.zeros] rejects a negative dimension and
    accepts a dimension of 0.  A library call that rejects its argument
    aborts the construction ([None]). *)
Definition FlashPointModel_init (width height num_firefighters initial_pois
    wall_health : Z) (sampled : list pos) (draws : nat -> Q) (k : nat)
  : option (FlashPointModel * nat) :=
  if bool_decide (width < 0) || bool_decide (height < 0) then None
  else
    let m0 := mkModel width height wall_health 0 0
                (grid_full height width CLEAR) (grid_full height width NORMAL)
                ∅ [] ∅ [] ∅ 0 in
    let m1 := _setup_exits m0 in
    let m2 := _create_walls m1 in
    m3 ← _place_firefighters num_firefighters m2;
    let m4 := _place_initial_fires m3 in
    _place_pois initial_pois sampled draws k m4.

(** ** Specification vocabulary *)

(** *** Walls *)

(** [n] unit damages to the wall between two cells. *)
Definition damage_n (n : nat) (m : FlashPointModel) (x1 y1 x2 y2 : Z)
  : FlashPointModel :=
  Nat.iter n (fun m => damage_wall m x1 y1 x2 y2) m.

(** *** Walks of the searched graph *)

(** [walk_to m s v p]: [p] lists the nodes of a walk from [s] to [v]. *)
Inductive walk_to (m : FlashPointModel) (s : pos) : pos -> list pos -> Prop :=
| walk_start : walk_to m s s [s]
| walk_snoc v p u : walk_to m s v p -> edge m v u -> walk_to m s u (p ++ [u]).

Definition shortest (m : FlashPointModel) (s v : pos) (p : list pos) : Prop :=
  walk_to m s v p /\ forall q, walk_to m s v q -> (length p <= length q)%nat.

(** The queue holds the nodes of one level followed by nodes of the next. *)
Definition two_levels (L : nat) (queue : list (pos * list pos)) : Prop :=
  exists Q1 Q2, queue = Q1 ++ Q2
    /\ Forall (fun e => length e.2 = L) Q1
    /\ Forall (fun e => length e.2 = S L) Q2.

(** Invariant of the [while] loop of [find_path]. *)
Record bfs_inv (m : FlashPointModel) (s g : pos)
    (queue : list (pos * list pos)) (visited : gset pos) : Prop := {
  bi_start : s ∈ visited;
  bi_goal : g ∉ visited;
  bi_queue : forall v p, (v, p) ∈ queue -> shortest m s v p /\ v ∈ visited;
  bi_levels : exists L, two_levels L queue;
  bi_closed : forall z u,
      z ∈ visited -> z ∉ queue.*1 -> edge m z u -> u ∈ visited
}.

(** Invariant of the neighbour loop for the dequeued node [w] with path
    [pw], when the directions [dirs] remain to be tried. *)
Record scan_inv (m : FlashPointModel) (s g w : pos) (pw : list pos)
    (dirs : list (Z * Z)) (queue : list (pos * list pos))
    (visited : gset pos) : Prop := {
  si_start : s ∈ visited;
  si_goal : g ∉ visited;
  si_cur : shortest m s w pw;
  si_queue : forall v p, (v, p) ∈ queue -> shortest m s v p /\ v ∈ visited;
  si_levels : two_levels (length pw) queue;
  si_closed : forall z u,
      z ∈ visited -> z ∉ queue.*1 -> z <> w -> edge m z u -> u ∈ visited;
  si_done : forall u, edge m w u ->
      u ∈ visited \/ exists d, d ∈ dirs /\ u = (w.1 + d.1, w.2 + d.2)
}.

(** The board cells as a set, and the measure that bounds the loop. *)
Definition board_cells (m : FlashPointModel) : gset pos :=
  list_to_set (cells_row_major (width m) (height m)).

Definition bfs_measure (m : FlashPointModel)
    (queue : list (pos * list pos)) (visited : gset pos) : nat :=
  (length queue + size (board_cells m ∖ visited))%nat.

(** *** Sample states *)

Definition empty_model : FlashPointModel :=
  mkModel 0 0 0 0 0 [] [] ∅ [] ∅ [] ∅ 0.

(** A random source whose draws never fall below a threshold. *)
Definition calm : nat -> Q := fun _ => 1%Q.

(** The default 10 x 8 board with five firefighters and walls of health 0
    (all walls count as destroyed), with the POIs at the given cells. *)
Definition open_board (sampled : list pos) : FlashPointModel :=
  match FlashPointModel_init 10 8 5 (Z.of_nat (length sampled)) 0 sampled calm 0 with
  | Some (m, _) => m
  | None => empty_model
  end.

(** The default board with walls of health 2 between all adjacent cells. *)
Definition walled_board (sampled : list pos) : FlashPointModel :=
  match FlashPointModel_init 10 8 5 (Z.of_nat (length sampled)) 2 sampled calm 0 with
  | Some (m, _) => m
  | None => empty_model
  end.

(** *** Movement *)

(** Two states agree on everything movement reads for the firefighter
    [self]: the board shape, the walls and the acting firefighter itself.
    The fire grid, the POIs and the other firefighters are unconstrained. *)
Definition same_board_and_mover (self : nat) (m1 m2 : FlashPointModel) : Prop :=
  width m1 = width m2 /\ height m1 = height m2 /\ walls m1 = walls m2
  /\ agent_store m1 !! self = agent_store m2 !! self.

(** Firefighter 1 of the open board walks to the POI at (2, 3), picks it up
    and walks back to the exit at (0, 3), spending its four action points. *)
Definition exit_walk_state : FlashPointModel :=
  let m0 := open_board [(2, 3)] in
  let m1 := (move_to 1 2 3 m0).2 in
  let m2 := (pickup_poi 1 m1).2 in
  let m3 := (move_to 1 1 3 m2).2 in
  (move_to 1 0 3 m3).2.

(** *** The carry links *)

(** The two-way link between firefighters and the POIs they carry. *)
Record carry_inv (m : FlashPointModel) : Prop := {
  ci_carrying : forall f a p,
      agent_store m !! f = Some a -> carrying_poi a = Some p ->
      exists P, poi_store m !! p = Some P /\ carried_by P = Some f;
  ci_carried : forall p P f,
      poi_store m !! p = Some P -> carried_by P = Some f ->
      exists a, agent_store m !! f = Some a /\ carrying_poi a = Some p;
  ci_rescued : forall p P,
      poi_store m !! p = Some P -> is_rescued P = true -> carried_by P = None
}.

(** What the invariant reads of a POI. *)
Definition link (P : POI) : option nat * bool := (carried_by P, is_rescued P).

(** Two states with the same carry links. *)
Definition same_links (m m' : FlashPointModel) : Prop :=
  (forall f, carrying_poi <$> agent_store m' !! f
             = carrying_poi <$> agent_store m !! f)
  /\ (forall p, link <$> poi_store m' !! p = link <$> poi_store m !! p).

(** A state in which nothing is carried or rescued. *)
Definition fresh (m : FlashPointModel) : Prop :=
  (forall f a, agent_store m !! f = Some a -> carrying_poi a = None)
  /\ (forall p P, poi_store m !! p = Some P ->
                  carried_by P = None /\ is_rescued P = false).

(** The three states of a POI [P] with reference [p]. *)
Definition not_picked_up (P : POI) : Prop :=
  is_rescued P = false /\ carried_by P = None.
Definition carried (m : FlashPointModel) (p : nat) (P : POI) : Prop :=
  is_rescued P = false
  /\ exists f a, carried_by P = Some f /\ agent_store m !! f = Some a
                 /\ carrying_poi a = Some p.
Definition rescued (P : POI) : Prop :=
  is_rescued P = true /\ carried_by P = None.

(** The states a simulation can be in: a constructed one, and what a model
    step or a single action of a firefighter makes of a reachable one. *)
Inductive reachable_state : FlashPointModel -> Prop :=
| reach_init w h nff np wh sampled draws k m k' :
    FlashPointModel_init w h nff np wh sampled draws k = Some (m, k') ->
    reachable_state m
| reach_step m order draws k :
    reachable_state m -> order ≡ₚ schedule m ->
    reachable_state (model_step order draws k m).1
| reach_move m self x y :
    reachable_state m -> reachable_state (move_to self x y m).2
| reach_extinguish m self :
    reachable_state m -> reachable_state (extinguish_fire self m).2
| reach_pickup m self :
    reachable_state m -> reachable_state (pickup_poi self m).2
| reach_drop m self :
    reachable_state m -> reachable_state (drop_poi_at_exit self m).2.

(** Two states with the same objects: firefighters, POIs and both lists. *)
Definition same_objects (m m' : FlashPointModel) : Prop :=
  agent_store m' = agent_store m /\ poi_store m' = poi_store m
  /\ pois m' = pois m /\ schedule m' = schedule m.

(** Two states with the same board parameters. *)
Definition same_shape (m m' : FlashPointModel) : Prop :=
  width m' = width m /\ height m' = height m /\ wall_health m' = wall_health m.

(** *** Roles *)

(** The score of firefighter [f] against a list of POIs. *)
Definition score_over (m : FlashPointModel) (active : list (nat * POI)) (f : nat)
  : score :=
  match agent_store m !! f with
  | Some a => min_dist m a active
  | None => Inf
  end.

(** The elements of [l] that stand before the first occurrence of [x]. *)
Fixpoint before {A} `{EqDecision A} (x : A) (l : list A) : list A :=
  match l with
  | [] => []
  | y :: l' => if decide (y = x) then [] else y :: before x l'
  end.

(** Position of [x] in the ranking of [l] by ascending key, ties broken by
    the order of [l]: the number of elements with a strictly lower key, plus
    the number of elements with the same key that stand before [x]. *)
Definition rank_of {A} `{EqDecision A} (key : A -> score) (l : list A) (x : A)
  : nat :=
  (length (filter (fun y => score_ltb (key y) (key x) = true) l)
   + length (filter (fun y => score_ltb (key y) (key x) = false
                              /\ score_ltb (key x) (key y) = false)
                    (before x l)))%nat.

(** The role that the ranking rule gives to [f] when the scores are taken
    over the POIs [active]. *)
Definition ranked_role (m : FlashPointModel) (active : list (nat * POI)) (f : nat)
  : Role :=
  match active with
  | [] => fire_fighter
  | _ => if bool_decide (rank_of (score_over m active) (schedule m) f < 3)%nat
         then rescuer else fire_fighter
  end.

(** Follows the spec's words: the POIs that are active and uncarried. *)
Definition uncarried_pois (m : FlashPointModel) : list (nat * POI) :=
  filter (fun rp => is_rescued rp.2 = false /\ carried_by rp.2 = None)
         (resolve_pois m).

(** The role that a firefighter holds. *)
Definition role_of (m : FlashPointModel) (f : nat) : option Role :=
  role <$> agent_store m !! f.

(** How many scheduled firefighters hold the role [r]. *)
Definition count_role (r : Role) (m : FlashPointModel) : nat :=
  length (filter (fun f => role_of m f = Some r) (schedule m)).

(** How many scheduled firefighters would get the role [r] if each of them
    recomputed its role in the state [m]. *)
Definition count_would_be (r : Role) (m : FlashPointModel) : nat :=
  length (filter (fun f => role_of (_assign_role f m) f = Some r) (schedule m)).

(** Ascending by key. *)
Definition sorted_by {A} (key : A -> score) (l : list A) : Prop :=
  StronglySorted (fun a b => score_ltb (key b) (key a) = false) l.

(** The effect of an action of firefighter [f] that does not touch the POIs:
    the other firefighters and the role of [f] stay as they are. *)
Definition only_moves (f : nat) (m m' : FlashPointModel) : Prop :=
  pois m' = pois m /\ poi_store m' = poi_store m /\ schedule m' = schedule m
  /\ (forall g, g <> f -> agent_store m' !! g = agent_store m !! g)
  /\ role_of m' f = role_of m f.

(** Firefighter 1 of the open board has picked up the POI of cell (2, 3);
    a second POI waits at (6, 2). *)
Definition one_carried_state : FlashPointModel :=
  let m0 := open_board [(2, 3); (6, 2)] in
  let m1 := (move_to 1 2 3 m0).2 in
  (pickup_poi 1 m1).2.

(** *** The environment passes *)

(** The double loop visits the cells in row-major order. *)
Definition scan_cells {S} (w h : Z) (body : S -> Z -> Z -> S) (s : S) : S :=
  foldl (fun s (c : pos) => body s c.1 c.2) s (cells_row_major w h).

(** The cell reached from [c] in direction [d]. *)
Definition shift (c d : pos) : pos := (c.1 + d.1, c.2 + d.2).

(** The walls an explosion at (x, y) damages: those towards the orthogonal
    neighbours on the board. *)
Definition blast_walls (m : FlashPointModel) (x y : Z) : list wall_key :=
  (fun d : pos => _get_wall_key x y (x + d.1) (y + d.2))
    <$> filter (fun d : pos => in_bounds m (x + d.1) (y + d.2) = true) directions4.

(** The condition under which the loop over the neighbours of the burning
    cell (x, y) makes a draw in direction [d]: the neighbour is on the board,
    Clear in the pre-pass grid and not behind an intact wall. *)
Definition draws_towards (m : FlashPointModel) (x y : Z) (d : pos) : Prop :=
  (in_bounds m (x + d.1) (y + d.2)
   && bool_decide (grid_get CLEAR (fire_grid m) (x + d.1) (y + d.2) = CLEAR))
  && negb (has_wall_between m x y (x + d.1) (y + d.2)) = true.

#[global] Instance draws_towards_dec m x y d : Decision (draws_towards m x y d).
Proof. unfold draws_towards. apply _. Defined.

(** The directions in which a burning cell (x, y) makes a draw. *)
Definition spread_targets (m : FlashPointModel) (x y : Z) : list pos :=
  filter (draws_towards m x y) directions4.

(** The number of draws the spread pass makes at a cell; it depends on the
    pre-pass state only. *)
Definition cell_draws (m : FlashPointModel) (c : pos) : nat :=
  match grid_get CLEAR (fire_grid m) c.1 c.2 with
  | SMOKE => 1
  | FIRE => length (spread_targets m c.1 c.2)
  | CLEAR => 0
  end.

(** The index of the first draw made at cell [c] when the pass over [cells]
    starts at draw [k]. *)
Definition draw_base (m : FlashPointModel) (k : nat) (cells : list pos) (c : pos)
  : nat :=
  (k + sum_list (cell_draws m <$> before c cells))%nat.

(** The index of the draw that decides whether the burning cell [s] spreads
    in direction [d]. *)
Definition spread_draw (m : FlashPointModel) (k : nat) (cells : list pos)
    (s d : pos) : nat :=
  (draw_base m k cells s + length (before d (spread_targets m s.1 s.2)))%nat.

(** The level of cell [c] after the spread pass, computed from the pre-pass
    state [m] and the draws alone. *)
Definition next_level (draws : nat -> Q) (k : nat) (m : FlashPointModel) (c : pos)
  : FireState :=
  let cells := cells_row_major (width m) (height m) in
  match grid_get CLEAR (fire_grid m) c.1 c.2 with
  | SMOKE =>
      if Qlt_bool (draws (draw_base m k cells c)) (3 # 10) then FIRE else SMOKE
  | FIRE => FIRE
  | CLEAR =>
      if existsb (fun d : pos =>
                    let s := (c.1 - d.1, c.2 - d.2) in
                    in_bounds m s.1 s.2
                    && bool_decide (grid_get CLEAR (fire_grid m) s.1 s.2 = FIRE)
                    && negb (has_wall_between m s.1 s.2 c.1 c.2)
                    && Qlt_bool (draws (spread_draw m k cells s d)) (2 # 10))
                 directions4
      then SMOKE else CLEAR
  end.

(** Two states that differ in the fire grid at most. *)
Definition same_but_fire (m m' : FlashPointModel) : Prop :=
  width m' = width m /\ height m' = height m /\ wall_health m' = wall_health m
  /\ rescued_pois m' = rescued_pois m /\ explosion_count m' = explosion_count m
  /\ cell_types m' = cell_types m /\ walls m' = walls m
  /\ pois m' = pois m /\ poi_store m' = poi_store m
  /\ schedule m' = schedule m /\ agent_store m' = agent_store m
  /\ steps m' = steps m.

(** A 3 x 1 board of hotspots on fire, with walls of health 2. *)
Definition hot_row : FlashPointModel :=
  mkModel 3 1 2 0 0 [[FIRE; FIRE; CLEAR]] [[HOTSPOT; HOTSPOT; NORMAL]]
    (<[(0, 0, 1, 0) := Wall_init 2]> (<[(1, 0, 2, 0) := Wall_init 2]> ∅))
    [] ∅ [] ∅ 0.

(** A random source whose draws always fall below the thresholds. *)
Definition wild : nat -> Q := fun _ => 0%Q.

(** A 3 x 1 board without walls: smoke, clear, clear. *)
Definition smoke_row : FlashPointModel :=
  mkModel 3 1 2 0 0 [[SMOKE; CLEAR; CLEAR]] [[NORMAL; NORMAL; NORMAL]]
    ∅ [] ∅ [] ∅ 0.

(** Whether the burning cell [s], whose draws start at [base], turns the
    cell [c] to smoke. *)
Definition hit_from (draws : nat -> Q) (m : FlashPointModel) (base : nat)
    (s c : pos) : bool :=
  existsb (fun d : pos =>
             bool_decide (c = shift s d)
             && Qlt_bool (draws (base + length (before d (spread_targets m s.1 s.2)))%nat)
                         (2 # 10))
          (spread_targets m s.1 s.2).

(** Whether the cell [s] is a burning cell of the pre-pass grid that turns
    [c] to smoke, when the draws of each cell start at [base]. *)
Definition smoke_source (draws : nat -> Q) (m : FlashPointModel)
    (base : pos -> nat) (c s : pos) : bool :=
  bool_decide (grid_get CLEAR (fire_grid m) s.1 s.2 = FIRE)
  && hit_from draws m (base s) s c.

(** *** The constructed board *)

Definition exit_cells : list pos := [(0, 3); (0, 4); (9, 3); (9, 4)].
Definition hotspot_cells : list pos := [(3, 3); (6, 4); (4, 6)].

(** The type that the constructor gives to the board cell [c]. *)
Definition cell_type_at (c : pos) : CellType :=
  if bool_decide (c ∈ hotspot_cells) then HOTSPOT
  else if bool_decide (c ∈ exit_cells) then EXIT else NORMAL.

(** The level at which the constructor leaves the board cell [c]. *)
Definition initial_level (c : pos) : FireState :=
  if bool_decide (c ∈ hotspot_cells) then FIRE else CLEAR.

(** The keys under which a [w] x [h] board registers a wall: from a cell
    to its east or to its south neighbour, both on the board. *)
Definition wall_slot (w h : Z) (key : wall_key) : Prop :=
  0 <= key.1.1.1 /\ 0 <= key.1.1.2 /\ key.1.2 < w /\ key.2 < h
  /\ ((key.1.2 = key.1.1.1 + 1 /\ key.2 = key.1.1.2)
      \/ (key.1.2 = key.1.1.1 /\ key.2 = key.1.1.2 + 1)).

#[global] Instance wall_slot_dec w h key : Decision (wall_slot w h key).
Proof. unfold wall_slot. apply _. Defined.

(** The keys written by the body of the double loop of [_create_walls] at
    the cell [c]. *)
Definition cell_keys (w h : Z) (c : pos) : list wall_key :=
  (if bool_decide (c.1 < w - 1) then [(c.1, c.2, c.1 + 1, c.2)] else [])
  ++ (if bool_decide (c.2 < h - 1) then [(c.1, c.2, c.1, c.2 + 1)] else []).

(** Two cells of the board next to each other. *)
Definition neighbours (m : FlashPointModel) (a b : pos) : Prop :=
  in_bounds m a.1 a.2 = true /\ in_bounds m b.1 b.2 = true
  /\ Z.abs (a.1 - b.1) + Z.abs (a.2 - b.2) = 1.

(** A 3 x 2 board without firefighters and POIs, walls of health 2. *)
Definition small_board : FlashPointModel :=
  match FlashPointModel_init 3 2 0 0 2 [] calm 0 with
  | Some (m, _) => m
  | None => empty_model
  end.

(** A 2 x 4 yard with one firefighter, at (1, 3), and one POI, at (0, 0);
    walls of health 2. *)
Definition yard : FlashPointModel :=
  match FlashPointModel_init 2 4 1 1 2 [(0, 0)] calm 0 with
  | Some (m, _) => m
  | None => empty_model
  end.

(** *** Invariants of the simulation *)

(** What no action of a firefighter touches: the board, its walls, the
    explosion count, the step count and the schedule. *)
Definition same_building (m m' : FlashPointModel) : Prop :=
  width m' = width m /\ height m' = height m /\ wall_health m' = wall_health m
  /\ cell_types m' = cell_types m /\ walls m' = walls m
  /\ explosion_count m' = explosion_count m /\ steps m' = steps m
  /\ schedule m' = schedule m.

(** The board of a running simulation. *)
Record board_inv (m : FlashPointModel) : Prop := {
  bd_size : 0 <= width m /\ 0 <= height m;
  bd_fire : grid_shape (fire_grid m) (width m) (height m);
  bd_cells : grid_shape (cell_types m) (width m) (height m);
  bd_types : forall x y, in_bounds m x y = true ->
      grid_get NORMAL (cell_types m) x y = cell_type_at (x, y);
  bd_slots : forall key,
      is_Some (walls m !! key) <-> wall_slot (width m) (height m) key;
  bd_health : forall key w, walls m !! key = Some w ->
      max_health w = wall_health m
      /\ Z.min 0 (wall_health m) <= health w <= Z.max 0 (wall_health m)
}.

(** A firefighter record that fits the board. *)
Definition on_duty (m : FlashPointModel) (a : FirefighterAgent) : Prop :=
  in_bounds m (ff_x a) (ff_y a) = true /\ ff_pos a = (ff_x a, ff_y a)
  /\ max_action_points a = 4 /\ 0 <= action_points a <= 4.

(** The crew of a running simulation. *)
Record crew_inv (m : FlashPointModel) : Prop := {
  cr_duty : forall f a, agent_store m !! f = Some a -> on_duty m a;
  cr_nodup : NoDup (schedule m);
  cr_known : forall f, f ∈ schedule m <-> is_Some (agent_store m !! f);
  cr_five : (length (schedule m) <= 5)%nat
}.

(** The POIs that have been rescued. *)
Definition rescued_refs (m : FlashPointModel) : gset nat :=
  dom (filter (fun rp : nat * POI => is_rescued rp.2 = true) (poi_store m)).

(** The POIs of a running simulation. *)
Record poi_inv (m : FlashPointModel) : Prop := {
  pi_tally : rescued_pois m = Z.of_nat (size (rescued_refs m));
  pi_nodup : NoDup (pois m);
  pi_known : forall p, p ∈ pois m -> is_Some (poi_store m !! p);
  pi_id : forall p P, poi_store m !! p = Some P -> poi_id P = Z.of_nat p;
  pi_real : forall p P, poi_store m !! p = Some P -> p ∈ pois m ->
      is_revealed P = true -> is_false_alarm P = false;
  pi_held : forall p P, poi_store m !! p = Some P ->
      carried_by P <> None \/ is_rescued P = true ->
      is_revealed P = true /\ p ∈ pois m;
  pi_gone : forall p P, poi_store m !! p = Some P -> p ∉ pois m ->
      is_false_alarm P = true /\ is_revealed P = true
      /\ carried_by P = None /\ is_rescued P = false
}.

(** A 2 x 4 lane without standing walls (health 0): one firefighter, at
    (1, 3), one POI, a real victim at (1, 2), and the exit at (0, 3). *)
Definition lane : FlashPointModel :=
  match FlashPointModel_init 2 4 1 1 0 [(1, 2)] calm 0 with
  | Some (m, _) => m
  | None => empty_model
  end.

(** The firefighter of the lane fetches the victim and drops it at the
    exit. *)
Definition lane_rescue : FlashPointModel :=
  let m1 := (move_to 1 1 2 lane).2 in
  let m2 := (pickup_poi 1 m1).2 in
  let m3 := (move_to 1 1 3 m2).2 in
  let m4 := (move_to 1 0 3 m3).2 in
  (drop_poi_at_exit 1 m4).2.

(** *** Single actions *)

(** What an action of firefighter [self] that spends at most [n] action
    points and walks at most [n] cells does to the firefighters. *)
Definition acts_within (self : nat) (n : Z) (m m' : FlashPointModel) : Prop :=
  (forall g, g <> self -> agent_store m' !! g = agent_store m !! g)
  /\ forall a, agent_store m !! self = Some a ->
       exists a', agent_store m' !! self = Some a'
         /\ max_action_points a' = max_action_points a
         /\ action_points a - n <= action_points a' <= action_points a
         /\ manhattan (ff_x a') (ff_y a') (ff_x a) (ff_y a) <= n.

(** One level down: what a successful [extinguish_fire] makes of a level. *)
Definition cool (s : FireState) : FireState :=
  match s with FIRE => SMOKE | SMOKE => CLEAR | CLEAR => CLEAR end.

(** The firefighter of the lane has brought the victim to the exit and
    still carries it. *)
Definition lane_at_exit : FlashPointModel :=
  let m1 := (move_to 1 1 2 lane).2 in
  let m2 := (pickup_poi 1 m1).2 in
  let m3 := (move_to 1 1 3 m2).2 in
  (move_to 1 0 3 m3).2.

(** What the activation of a firefighter can do to the state beyond the
    firefighters, the POI records and the fire: nothing to the board, its
    walls, the explosion count, the step count and the schedule; the count
    of rescued POIs may grow and the registry may shrink. *)
Definition moves_on (m m' : FlashPointModel) : Prop :=
  same_building m m' /\ rescued_pois m <= rescued_pois m'
  /\ pois m' ⊆ pois m.

(** What [n] explosions may do to the walls: every wall stays registered
    with its maximal health, loses at most [n] units of health and gains
    none. *)
Definition worn_by (n : Z) (ws ws' : gmap (Z * Z * Z * Z) Wall) : Prop :=
  forall key w, ws !! key = Some w ->
    exists w', ws' !! key = Some w' /\ max_health w' = max_health w
               /\ health w - n <= health w' <= health w.

(** A 4 x 4 hall without firefighters and POIs, walls of health 2; the
    hotspot (3, 3) lies on it. *)
Definition hall : FlashPointModel :=
  match FlashPointModel_init 4 4 0 0 2 [] calm 0 with
  | Some (m, _) => m
  | None => empty_model
  end.

(** The firefighter of the lane has walked to the cell of the victim. *)
Definition lane_at_poi : FlashPointModel := (move_to 1 1 2 lane).2.

(** *** The explosion pass *)

(** The cells at which the explosion pass makes a draw: the burning
    hotspots, in scan order. *)
Definition burning_hotspots (m : FlashPointModel) : list pos :=
  filter (fun c : pos => grid_get CLEAR (fire_grid m) c.1 c.2 = FIRE
                         /\ grid_get NORMAL (cell_types m) c.1 c.2 = HOTSPOT)
         (cells_row_major (width m) (height m)).

(** The cells of [cells] that explode when the first of them makes draw
    [k], the second draw [k + 1], and so on. *)
Fixpoint exploding_from (draws : nat -> Q) (k : nat) (cells : list pos)
  : list pos :=
  match cells with
  | [] => []
  | c :: cells =>
      (if Qlt_bool (draws k) (1 # 10) then [c] else [])
        ++ exploding_from draws (S k) cells
  end.

(** The cells that explode in the pass over [m] that starts at draw [k]. *)
Definition exploding (draws : nat -> Q) (k : nat) (m : FlashPointModel)
  : list pos :=
  exploding_from draws k (burning_hotspots m).

(** The number of cells of [E] whose explosion damages the wall [key]. *)
Definition blasts (m : FlashPointModel) (E : list pos) (key : wall_key) : nat :=
  length (filter (fun e : pos => key ∈ blast_walls m e.1 e.2) E).

(** [c] is one of the eight neighbours of a cell of [E]. *)
Definition blast_reach (E : list pos) (c : pos) : Prop :=
  Exists (fun e : pos => c ∈ shift e <$> directions8) E.

(** What the explosion pass leaves as it was. *)
Definition same_but_blast (m m' : FlashPointModel) : Prop :=
  width m' = width m /\ height m' = height m /\ wall_health m' = wall_health m
  /\ rescued_pois m' = rescued_pois m /\ steps m' = steps m
  /\ cell_types m' = cell_types m
  /\ pois m' = pois m /\ poi_store m' = poi_store m
  /\ schedule m' = schedule m /\ agent_store m' = agent_store m.

(** *** Construction *)

(** The start cells of the firefighters that [_place_firefighters] creates
    for the requested count [nff] all lie on a board of [w] x [h] cells. *)
Definition start_cells_fit (w h nff : Z) : Prop :=
  Forall (fun c : pos => 0 <= c.1 < w /\ 0 <= c.2 < h)
         (take (Z.to_nat (Z.min nff (Z.of_nat (length start_positions))))
               start_positions).

(** The board of no cells, built without firefighters and POIs. *)
Definition void : FlashPointModel :=
  match FlashPointModel_init 0 0 0 0 2 [] calm 0 with
  | Some (m, _) => m
  | None => empty_model
  end.


(** * Pathfinder *)

Section Pathfinder.
Variable m : FlashPointModel.

Lemma edge_in_bounds a b : edge m a b -> in_bounds m b.1 b.2 = true.
Proof.
  unfold edge, can_move_between.
  destruct (in_bounds m b.1 b.2); simpl; [done | discriminate].
Qed.

Lemma edge_direction a b :
  edge m a b -> exists d, d ∈ directions4 /\ b = (a.1 + d.1, a.2 + d.2).
Proof.
  unfold edge, can_move_between.
  destruct (in_bounds m b.1 b.2); simpl; [| discriminate].
  case_bool_decide as Hd; simpl; [| discriminate].
  intros _. destruct a as [ax ay], b as [bx by_]; simpl in *.
  unfold directions4.
  assert (Hc : (bx - ax = 0 /\ by_ - ay = 1) \/ (bx - ax = 0 /\ by_ - ay = -1)
               \/ (bx - ax = 1 /\ by_ - ay = 0) \/ (bx - ax = -1 /\ by_ - ay = 0))
    by lia.
  destruct Hc as [[? ?] | [[? ?] | [[? ?] | [? ?]]]].
  - exists (0, 1). split; [set_solver |]. simpl. f_equal; lia.
  - exists (0, -1). split; [set_solver |]. simpl. f_equal; lia.
  - exists (1, 0). split; [set_solver |]. simpl. f_equal; lia.
  - exists (-1, 0). split; [set_solver |]. simpl. f_equal; lia.
Qed.

Lemma in_bounds_cell x y :
  in_bounds m x y = true -> (x, y) ∈ cells_row_major (width m) (height m).
Proof.
  unfold in_bounds, cells_row_major, range. intros H.
  destruct (andb_prop _ _ H) as [Hx Hy]. clear H.
  apply bool_decide_eq_true in Hx. apply bool_decide_eq_true in Hy.
  apply list_elem_of_bind. exists y. split.
  - apply list_elem_of_bind. exists x. split; [by apply list_elem_of_singleton |].
    apply elem_of_seqZ. lia.
  - apply elem_of_seqZ. lia.
Qed.

Lemma cell_in_bounds x y :
  (x, y) ∈ cells_row_major (width m) (height m) -> in_bounds m x y = true.
Proof.
  unfold in_bounds, cells_row_major, range. intros H.
  apply list_elem_of_bind in H as (y' & H & Hy).
  apply list_elem_of_bind in H as (x' & H & Hx).
  apply list_elem_of_singleton in H. inversion H; subst.
  apply elem_of_seqZ in Hx, Hy.
  apply andb_true_intro. split; apply bool_decide_eq_true; lia.
Qed.

(** ** Walks *)

Section Walks.
Variable s : pos.

Lemma walk_nonempty v p : walk_to m s v p -> (1 <= length p)%nat.
Proof. destruct 1; [simpl; lia | rewrite length_app; simpl; lia]. Qed.

Lemma walk_last v p : walk_to m s v p -> last p = Some v.
Proof. destruct 1; [done | apply last_snoc]. Qed.

Lemma walk_head v p : walk_to m s v p -> head p = Some s.
Proof.
  induction 1 as [| v p u Hw IH He]; [done |].
  destruct p; [discriminate | done].
Qed.

Lemma is_walk_snoc p v u :
  last p = Some v -> is_walk m p -> edge m v u -> is_walk m (p ++ [u]).
Proof.
  induction p as [| a [| b p'] IH]; intros Hl Hw He.
  - discriminate.
  - simpl in *. inversion Hl; subst. done.
  - simpl in Hw. destruct Hw as [Hab Hw].
    change ((a :: b :: p') ++ [u]) with (a :: (b :: (p' ++ [u]))).
    split; [done |]. apply IH; [| done | done].
    rewrite <- Hl. done.
Qed.

Lemma is_walk_snoc_inv p u :
  is_walk m (p ++ [u]) ->
  is_walk m p /\ forall v, last p = Some v -> edge m v u.
Proof.
  induction p as [| a [| b p'] IH]; intros Hw.
  - split; [done | discriminate].
  - simpl in Hw. destruct Hw as [He _]. split; [done |].
    intros v Hv. simpl in Hv. inversion Hv; subst. done.
  - change (is_walk m (a :: (b :: (p' ++ [u])))) in Hw.
    destruct Hw as [Hab Hw]. destruct (IH Hw) as [Hw' Hl].
    split; [split; done |]. intros v Hv. apply Hl. rewrite <- Hv. done.
Qed.

Lemma walk_is_walk v p : walk_to m s v p -> is_walk m p.
Proof.
  induction 1 as [| v p u Hw IH He]; [done |].
  eapply is_walk_snoc; eauto using walk_last.
Qed.

Lemma walk_path v p : walk_to m s v p <-> path_from_to m s v p.
Proof.
  split.
  - intros H. repeat split; eauto using walk_head, walk_last, walk_is_walk.
  - revert v. induction p as [| u p IH] using rev_ind; intros v (Hh & Hl & Hw).
    + discriminate.
    + rewrite last_snoc in Hl. inversion Hl; subst u.
      apply is_walk_snoc_inv in Hw as [Hw He].
      destruct (last p) as [z |] eqn:Hz.
      * apply walk_snoc with z; [| by apply He].
        apply IH. repeat split; [| done | done].
        destruct p; [discriminate | done].
      * apply last_None in Hz. subst p. simpl in Hh. inversion Hh; subst.
        constructor.
Qed.

Lemma walk_reachable v p : walk_to m s v p -> reachable m s v.
Proof.
  induction 1 as [| v p u Hw IH He]; [apply rtc_refl |].
  eapply rtc_r; eauto.
Qed.

Lemma reachable_walk v : reachable m s v -> exists p, walk_to m s v p.
Proof.
  revert v. apply rtc_ind_r.
  - eexists. constructor.
  - intros v u _ He [p IH]. eexists. econstructor; eauto.
Qed.

(** A walk is either the trivial one or extends a shorter walk. *)
Lemma walk_inv v q :
  walk_to m s v q ->
  (v = s /\ q = [s]) \/
  exists z q', walk_to m s z q' /\ edge m z v /\ q = q' ++ [v].
Proof. destruct 1; [left; done | right; eauto]. Qed.
End Walks.

Lemma cells_row_major_NoDup w h : NoDup (cells_row_major w h).
Proof.
  unfold cells_row_major, range. apply NoDup_bind.
  - intros y1 y2 c _ _ H1 H2.
    apply list_elem_of_bind in H1 as (x1 & H1 & _).
    apply list_elem_of_bind in H2 as (x2 & H2 & _).
    apply list_elem_of_singleton in H1. apply list_elem_of_singleton in H2.
    congruence.
  - intros y _. apply NoDup_bind.
    + intros x1 x2 c _ _ H1 H2.
      apply list_elem_of_singleton in H1. apply list_elem_of_singleton in H2.
      congruence.
    + intros x _. apply NoDup_singleton.
    + apply NoDup_seqZ.
  - apply NoDup_seqZ.
Qed.

(** ** The neighbour loop *)

Section Search.
Variables s g : pos.

Lemma two_levels_bounds L (queue : list (pos * list pos)) v p :
  two_levels L queue -> (v, p) ∈ queue ->
  (L <= length p <= S L)%nat.
Proof.
  intros (Q1 & Q2 & -> & H1 & H2) Hin.
  apply elem_of_app in Hin as [Hin | Hin].
  - rewrite Forall_forall in H1. specialize (H1 _ Hin). simpl in H1. lia.
  - rewrite Forall_forall in H2. specialize (H2 _ Hin). simpl in H2. lia.
Qed.

Lemma two_levels_snoc L (queue : list (pos * list pos)) e :
  two_levels L queue -> length e.2 = S L -> two_levels L (queue ++ [e]).
Proof.
  intros (Q1 & Q2 & -> & H1 & H2) He.
  exists Q1, (Q2 ++ [e]). split; [by rewrite app_assoc |].
  split; [done |]. apply Forall_app. split; [done |].
  by apply Forall_singleton.
Qed.

Lemma two_levels_pop L (queue : list (pos * list pos)) v p :
  two_levels L ((v, p) :: queue) -> two_levels (length p) queue.
Proof.
  intros (Q1 & Q2 & Heq & H1 & H2).
  destruct Q1 as [| e Q1].
  - simpl in Heq. subst Q2. apply Forall_cons in H2 as [Hp H2].
    simpl in Hp. exists queue, []. split; [by rewrite app_nil_r |].
    split; [| constructor]. by rewrite Hp.
  - simpl in Heq. inversion Heq; subst. apply Forall_cons in H1 as [Hp H1].
    simpl in Hp. exists Q1, Q2. by rewrite Hp.
Qed.

(** Nodes with a walk shorter than the current level are finished:
    visited, out of the queue, and different from the current node. *)
Lemma short_walk_finished w pw dirs queue visited y q :
  scan_inv m s g w pw dirs queue visited ->
  walk_to m s y q -> (length q < length pw)%nat ->
  y ∈ visited /\ (y ∉ queue.*1) /\ y <> w.
Proof.
  intros I Hw. induction Hw as [| z q u Hw IH He]; intros Hlen.
  - split; [apply (si_start _ _ _ _ _ _ _ _ I) |]. split.
    + intros Hin. apply list_elem_of_fmap in Hin as ([v p] & Hv & Hin).
      simpl in Hv; subst v.
      destruct (si_queue _ _ _ _ _ _ _ _ I _ _ Hin) as [[_ Hmin] _].
      specialize (Hmin [s] (walk_start m s)).
      pose proof (two_levels_bounds _ _ _ _ (si_levels _ _ _ _ _ _ _ _ I) Hin).
      simpl in *. lia.
    + intros <-. destruct (si_cur _ _ _ _ _ _ _ _ I) as [_ Hmin].
      specialize (Hmin [s] (walk_start m s)). simpl in *. lia.
  - rewrite length_app in Hlen. simpl in Hlen.
    destruct IH as (Hz & Hzq & Hzw); [lia |].
    pose proof (walk_snoc m s _ _ _ Hw He) as Hwu.
    split; [eapply (si_closed _ _ _ _ _ _ _ _ I); eauto |]. split.
    + intros Hin. apply list_elem_of_fmap in Hin as ([v p] & Hv & Hin).
      simpl in Hv; subst v.
      destruct (si_queue _ _ _ _ _ _ _ _ I _ _ Hin) as [[_ Hmin] _].
      specialize (Hmin _ Hwu). rewrite length_app in Hmin. simpl in Hmin.
      pose proof (two_levels_bounds _ _ _ _ (si_levels _ _ _ _ _ _ _ _ I) Hin).
      lia.
    + intros Huw. subst u. destruct (si_cur _ _ _ _ _ _ _ _ I) as [_ Hmin].
      specialize (Hmin _ Hwu). rewrite length_app in Hmin. simpl in Hmin. lia.
Qed.

(** The path built for a newly discovered neighbour is a shortest one. *)
Lemma new_path_shortest w pw dirs queue visited u :
  scan_inv m s g w pw dirs queue visited ->
  u ∉ visited -> edge m w u -> shortest m s u (pw ++ [u]).
Proof.
  intros I Hu He. destruct (si_cur _ _ _ _ _ _ _ _ I) as [Hpw _].
  split; [econstructor; eauto |].
  intros q Hq. rewrite length_app. simpl.
  destruct (decide (length pw + 1 <= length q)%nat) as [| Hlt]; [done |].
  exfalso. apply Hu.
  destruct (walk_inv s _ _ Hq) as [[Hus _] | (z & q' & Hz & Hzu & ->)].
  - subst u. apply (si_start _ _ _ _ _ _ _ _ I).
  - rewrite length_app in Hlt. simpl in Hlt.
    destruct (short_walk_finished _ _ _ _ _ _ _ I Hz) as (Hzv & Hzq & Hzw);
      [lia |].
    eapply (si_closed _ _ _ _ _ _ _ _ I); eauto.
Qed.

Lemma measure_visit (queue : list (pos * list pos)) visited u e :
  u ∉ visited -> in_bounds m u.1 u.2 = true ->
  bfs_measure m (queue ++ [e]) ({[u]} ∪ visited) = bfs_measure m queue visited.
Proof.
  intros Hu Hb. unfold bfs_measure. rewrite length_app. simpl.
  assert (Hc : u ∈ board_cells m).
  { unfold board_cells. apply elem_of_list_to_set.
    destruct u. by apply in_bounds_cell. }
  assert (Heq : board_cells m ∖ visited
                = {[u]} ∪ board_cells m ∖ ({[u]} ∪ visited)).
  { apply set_eq. intros z. destruct (decide (z = u)); set_solver. }
  rewrite Heq.
  rewrite (size_union (C:=gset (Z * Z)) {[u]}
             (board_cells m ∖ ({[u]} ∪ visited))) by set_solver.
  rewrite size_singleton. lia.
Qed.

Lemma scan_inv_visit w pw d dirs queue visited :
  let u := (w.1 + d.1, w.2 + d.2) in
  scan_inv m s g w pw (d :: dirs) queue visited ->
  u ∉ visited -> edge m w u -> u <> g ->
  scan_inv m s g w pw dirs (queue ++ [(u, pw ++ [u])]) ({[u]} ∪ visited).
Proof.
  intros u I Hu He Hg.
  pose proof (new_path_shortest _ _ _ _ _ _ I Hu He) as Hsh.
  destruct I as [Is Ig Ic Iq Il Icl Id]. constructor.
  - by apply elem_of_union_r.
  - intros Hin. apply elem_of_union in Hin as [Hin | Hin]; [| exact (Ig Hin)].
    apply elem_of_singleton in Hin. congruence.
  - done.
  - intros v p Hin. apply elem_of_app in Hin as [Hin | Hin].
    + destruct (Iq _ _ Hin). split; [done | by apply elem_of_union_r].
    + apply list_elem_of_singleton in Hin. inversion Hin; subst.
      split; [done |]. apply elem_of_union_l. by apply elem_of_singleton.
  - apply two_levels_snoc; [done |]. simpl. rewrite length_app.
    simpl. lia.
  - intros z u' Hz Hzq Hzw Hzu. rewrite fmap_app in Hzq.
    apply not_elem_of_app in Hzq as [Hzq Hzu'].
    simpl in Hzu'. apply not_elem_of_cons in Hzu' as [Hzu' _].
    apply elem_of_union_r. apply (Icl z u'); [| done | done | done].
    apply elem_of_union in Hz as [Hz | Hz]; [| done].
    apply elem_of_singleton in Hz. congruence.
  - intros u' Hu'. destruct (Id _ Hu') as [? | (d' & Hd & ->)].
    + left. by apply elem_of_union_r.
    + apply elem_of_cons in Hd as [-> | Hd].
      * left. apply elem_of_union_l. by apply elem_of_singleton.
      * right. eauto.
Qed.

Lemma scan_inv_skip w pw d dirs queue visited :
  let u := (w.1 + d.1, w.2 + d.2) in
  scan_inv m s g w pw (d :: dirs) queue visited ->
  (edge m w u -> u ∈ visited) ->
  scan_inv m s g w pw dirs queue visited.
Proof.
  intros u I Hskip.
  destruct I as [Is Ig Ic Iq Il Icl Id]. constructor; try done.
  intros u' Hu'. destruct (Id _ Hu') as [? | (d' & Hd & ->)]; [by left |].
  apply elem_of_cons in Hd as [-> | Hd]; [| right; eauto].
  left. by apply Hskip.
Qed.

(** The effect of the whole neighbour loop. *)
Lemma scan_neighbours_spec w pw dirs :
  forall queue visited,
    scan_inv m s g w pw dirs queue visited ->
    match scan_neighbours m g w.1 w.2 pw dirs queue visited with
    | Found p => shortest m s g p
    | Continue queue' visited' =>
        scan_inv m s g w pw [] queue' visited'
        /\ bfs_measure m queue' visited' = bfs_measure m queue visited
    end.
Proof.
  induction dirs as [| [dx dy] dirs IH]; intros queue visited I; simpl.
  { split; [exact I | reflexivity]. }
  set (u := (w.1 + dx, w.2 + dy)).
  destruct (bool_decide (u ∉ visited)
            && can_move_between m w.1 w.2 (w.1 + dx) (w.2 + dy)) eqn:Hcond.
  - apply andb_true_iff in Hcond as [Hu He].
    apply bool_decide_eq_true in Hu.
    assert (Hedge : edge m w u) by exact He.
    case_bool_decide as Hg.
    + rewrite <- Hg. by eapply new_path_shortest.
    + pose proof (scan_inv_visit w pw (dx, dy) dirs _ _ I Hu Hedge Hg) as II.
      specialize (IH _ _ II). simpl in IH. fold u in IH.
      destruct (scan_neighbours m g w.1 w.2 pw dirs
                  (queue ++ [(u, pw ++ [u])]) ({[u]} ∪ visited))
        as [pf | q' v']; [done |].
      destruct IH as [I' Hm]. split; [done |].
      rewrite Hm. apply measure_visit; [done |].
      by apply (edge_in_bounds w).
  - apply (IH queue visited).
    apply (scan_inv_skip w pw (dx, dy) dirs _ _ I). simpl. fold u.
    intros Hu'. apply andb_false_iff in Hcond as [Hc | Hc].
    + apply bool_decide_eq_false in Hc. by apply dec_stable.
    + unfold edge in Hu'. simpl in Hu'. congruence.
Qed.

(** ** The main loop *)

Lemma bfs_inv_initial :
  s <> g -> bfs_inv m s g [(s, [s])] {[s]}.
Proof.
  intros Hsg. constructor.
  - set_solver.
  - set_solver.
  - intros v p Hin. apply list_elem_of_singleton in Hin. inversion Hin; subst.
    split; [| set_solver]. split; [constructor |].
    intros q Hq. simpl. by eapply walk_nonempty.
  - exists 1%nat, [(s, [s])], []. split; [done |].
    split; [by apply Forall_singleton | constructor].
  - intros z u Hz Hzq. simpl in Hzq. set_solver.
Qed.

Lemma bfs_inv_pop w pw queue visited :
  bfs_inv m s g ((w, pw) :: queue) visited ->
  scan_inv m s g w pw directions4 queue visited.
Proof.
  intros [Is Ig Iq [L Il] Icl]. constructor; try done.
  - apply (Iq w pw). left.
  - intros v p Hin. apply Iq. by right.
  - by eapply two_levels_pop.
  - intros z u Hz Hzq Hzw. apply Icl; [done |].
    simpl. apply not_elem_of_cons. done.
  - intros u Hu. right. by apply edge_direction.
Qed.

Lemma scan_inv_finish w pw queue visited :
  scan_inv m s g w pw [] queue visited -> bfs_inv m s g queue visited.
Proof.
  intros [Is Ig Ic Iq Il Icl Id]. constructor; try done.
  - by exists (length pw).
  - intros z u Hz Hzq Hzu. destruct (decide (z = w)) as [-> | Hne].
    + destruct (Id _ Hzu) as [? | (d & Hd & _)]; [done |].
      by apply elem_of_nil in Hd.
    + eapply Icl; eauto.
Qed.

(** When the queue runs empty the visited set is closed under the edges,
    so it holds everything reachable, and it never holds the goal. *)
Lemma bfs_inv_empty visited :
  bfs_inv m s g [] visited -> ~ reachable m s g.
Proof.
  intros [Is Ig _ _ Icl] Hr. apply Ig. revert Hr.
  apply (rtc_ind_r (fun v => v ∈ visited)); [done |].
  intros y z _ Hyz Hy. eapply Icl; eauto. simpl. apply not_elem_of_nil.
Qed.

Lemma bfs_loop_cons fuel x y pw queue visited :
  bfs_loop (S fuel) m g (((x, y), pw) :: queue) visited
  = match scan_neighbours m g x y pw directions4 queue visited with
    | Found p => Some p
    | Continue q v => bfs_loop fuel m g q v
    end.
Proof. reflexivity. Qed.

Lemma bfs_loop_spec fuel :
  forall queue visited,
    bfs_inv m s g queue visited ->
    (bfs_measure m queue visited < fuel)%nat ->
    exists r, bfs_loop fuel m g queue visited = Some r
              /\ ((r = [] /\ ~ reachable m s g) \/ shortest m s g r).
Proof.
  induction fuel as [| fuel IH]; intros queue visited I Hm; [lia |].
  destruct queue as [| [[x y] pw] queue].
  - exists []. split; [done |]. left. split; [done |].
    by eapply bfs_inv_empty.
  - pose proof (scan_neighbours_spec (x, y) pw directions4 _ _
                  (bfs_inv_pop _ _ _ _ I)) as Hs.
    rewrite bfs_loop_cons. change ((x, y).1) with x in Hs.
    change ((x, y).2) with y in Hs.
    destruct (scan_neighbours m g x y pw directions4 queue visited)
      as [p | queue' visited'].
    + exists p. split; [done |]. by right.
    + destruct Hs as [I' Hm']. apply IH.
      * by eapply scan_inv_finish.
      * rewrite Hm'. unfold bfs_measure in *. simpl in Hm. lia.
Qed.

Lemma bfs_loop_mono fuel :
  forall queue visited r fuel',
    bfs_loop fuel m g queue visited = Some r -> (fuel <= fuel')%nat ->
    bfs_loop fuel' m g queue visited = Some r.
Proof.
  induction fuel as [| fuel IH]; intros queue visited r fuel' Hr Hle;
    [discriminate |].
  destruct fuel' as [| fuel']; [lia |].
  destruct queue as [| [[x y] pw] queue]; [done |].
  rewrite bfs_loop_cons in *.
  destruct (scan_neighbours m g x y pw directions4 queue visited); [done |].
  apply IH; [done | lia].
Qed.

Lemma initial_measure :
  (bfs_measure m [(s, [s])] {[s]} < find_path_bound m)%nat.
Proof.
  unfold bfs_measure, find_path_bound. simpl.
  assert (size (board_cells m ∖ {[s]}) <= size (board_cells m))%nat
    by (apply subseteq_size; set_solver).
  assert (size (board_cells m)
          = length (cells_row_major (width m) (height m))) as Hsz.
  { unfold board_cells. apply size_list_to_set, cells_row_major_NoDup. }
  lia.
Qed.
End Search.
End Pathfinder.

(** C1.  [find_path] always returns within its iteration budget, and its
    result does not change with a larger budget.  It returns [[start]] exactly
    when start and goal coincide; for distinct endpoints it returns the empty
    list exactly when the goal cannot be reached along [can_move_between]
    edges; and when the goal is reachable the result is a walk from start to
    goal along such edges that no other such walk undercuts in length. *)
Theorem find_path_correct (m : FlashPointModel) (start goal : pos) :
  (forall fuel, (find_path_bound m <= fuel)%nat ->
     find_path_fuel fuel m start goal = Some (find_path m start goal))
  /\ (find_path m start goal = [start] <-> start = goal)
  /\ (start <> goal ->
      (find_path m start goal = [] <-> ~ reachable m start goal))
  /\ (reachable m start goal ->
      path_from_to m start goal (find_path m start goal)
      /\ forall q, path_from_to m start goal q ->
           (length (find_path m start goal) <= length q)%nat).
Proof.
  unfold find_path, find_path_fuel.
  destruct (decide (start = goal)) as [-> | Hne].
  - rewrite bool_decide_eq_true_2 by done. simpl.
    split; [done |]. split; [done |]. split; [done |].
    intros _. split; [by apply walk_path; constructor |].
    intros q Hq. apply walk_path in Hq. simpl. by eapply walk_nonempty.
  - rewrite bool_decide_eq_false_2 by done.
    destruct (bfs_loop_spec m start goal (find_path_bound m) _ _
                (bfs_inv_initial m start goal Hne)
                (initial_measure m start))
      as (r & Hr & Hspec).
    rewrite Hr. simpl.
    split; [intros fuel Hf; by eapply bfs_loop_mono |].
    destruct Hspec as [[-> Hun] | [Hw Hmin]].
    + split; [split; [discriminate | done] |].
      split; [done |]. intros Hre. done.
    + assert (Hre : reachable m start goal) by (by eapply walk_reachable).
      split.
      { split; [| done]. intros ->. apply walk_last in Hw. simpl in Hw.
        congruence. }
      split.
      { intros _. split; [| done]. intros ->.
        apply walk_nonempty in Hw. simpl in Hw. lia. }
      intros _. split; [by apply walk_path |].
      intros q Hq. apply Hmin. by apply walk_path.
Qed.

Lemma find_path_correct_witness :
  reachable (open_board [(5, 5)]) (1, 3) (2, 4)
  /\ path_from_to (open_board [(5, 5)]) (1, 3) (2, 4)
       (find_path (open_board [(5, 5)]) (1, 3) (2, 4)).
Proof.
  assert (Hr : reachable (open_board [(5, 5)]) (1, 3) (2, 4)).
  { apply (walk_reachable _ _ _ [(1, 3); (1, 4); (2, 4)]).
    apply walk_path. repeat split; vm_compute; reflexivity. }
  split; [exact Hr |].
  apply (find_path_correct (open_board [(5, 5)]) (1, 3) (2, 4)). exact Hr.
Defined.

(** * Walls *)

Lemma _get_wall_key_sym x1 y1 x2 y2 :
  _get_wall_key x2 y2 x1 y1 = _get_wall_key x1 y1 x2 y2.
Proof.
  unfold _get_wall_key. repeat case_bool_decide;
    rewrite (Z.min_comm x2 x1), (Z.min_comm y2 y1),
            (Z.max_comm x2 x1), (Z.max_comm y2 y1); reflexivity.
Qed.

Lemma has_wall_between_sym m x1 y1 x2 y2 :
  has_wall_between m x2 y2 x1 y1 = has_wall_between m x1 y1 x2 y2.
Proof. unfold has_wall_between. by rewrite _get_wall_key_sym. Qed.

Lemma take_damage_iter h n :
  0 <= h \/ (0 < n)%nat ->
  Nat.iter n (fun w => (take_damage w 1).1) (Wall_init h)
  = mkWall (Z.max 0 (h - Z.of_nat n)) h.
Proof.
  induction n as [| n IH]; intros Hh.
  - simpl. unfold Wall_init. f_equal. lia.
  - rewrite Nat.iter_succ. destruct n as [| n].
    + simpl. unfold take_damage, Wall_init. simpl. f_equal; lia.
    + rewrite IH by lia. unfold take_damage. simpl. f_equal; lia.
Qed.

Lemma damage_wall_lookup m x1 y1 x2 y2 k :
  walls (damage_wall m x1 y1 x2 y2) !! k
  = if decide (k = _get_wall_key x1 y1 x2 y2)
    then (fun w => (take_damage w 1).1) <$> walls m !! k
    else walls m !! k.
Proof.
  unfold damage_wall.
  destruct (walls m !! _get_wall_key x1 y1 x2 y2) as [w |] eqn:Hw; simpl.
  - case_decide as Hk.
    + subst k. rewrite lookup_insert_eq, Hw. done.
    + by rewrite lookup_insert_ne.
  - case_decide as Hk; [| done]. subst k. by rewrite Hw.
Qed.

Lemma damage_n_lookup n m x1 y1 x2 y2 :
  walls (damage_n n m x1 y1 x2 y2) !! _get_wall_key x1 y1 x2 y2
  = Nat.iter n (fun w => (take_damage w 1).1)
      <$> walls m !! _get_wall_key x1 y1 x2 y2.
Proof.
  induction n as [| n IH].
  - simpl. by destruct (walls m !! _); simpl.
  - unfold damage_n in *. rewrite Nat.iter_succ, damage_wall_lookup.
    rewrite decide_True by done. rewrite IH.
    by destruct (walls m !! _).
Qed.

(** C7 (as the code has it).  A wall created with a health [maxHealth] and
    damaged [n] times by one unit has health [max 0 (maxHealth - n)], which
    is not negative, provided that [maxHealth >= 0] or [n >= 1]: the health
    is cut at 0 by the damage, not by the creation.  Under the same proviso
    the wall stops separating its two cells exactly when [n >= maxHealth],
    whichever cell is named first, and from then on its health stays 0. *)
Theorem wall_damage_clamps (m : FlashPointModel) (x1 y1 x2 y2 maxHealth : Z)
    (n : nat) :
  0 <= maxHealth \/ (0 < n)%nat ->
  walls m !! _get_wall_key x1 y1 x2 y2 = Some (Wall_init maxHealth) ->
  let m' := damage_n n m x1 y1 x2 y2 in
  exists w,
    walls m' !! _get_wall_key x1 y1 x2 y2 = Some w
    /\ health w = Z.max 0 (maxHealth - Z.of_nat n)
    /\ 0 <= health w
    /\ max_health w = maxHealth
    /\ (has_wall_between m' x1 y1 x2 y2 = false <-> maxHealth <= Z.of_nat n)
    /\ has_wall_between m' x2 y2 x1 y1 = has_wall_between m' x1 y1 x2 y2
    /\ (maxHealth <= Z.of_nat n -> health w = 0).
Proof.
  intros Hh Hw m'.
  assert (Hl : walls m' !! _get_wall_key x1 y1 x2 y2
               = Some (mkWall (Z.max 0 (maxHealth - Z.of_nat n)) maxHealth)).
  { unfold m'. rewrite damage_n_lookup, Hw. simpl. by rewrite take_damage_iter. }
  eexists. split; [exact Hl |]. simpl.
  split; [done |]. split; [lia |]. split; [done |]. split.
  - unfold has_wall_between. rewrite Hl. unfold is_destroyed. simpl.
    rewrite negb_false_iff, bool_decide_eq_true. lia.
  - split; [apply has_wall_between_sym | lia].
Qed.

Lemma wall_damage_clamps_witness :
  exists w,
    walls (damage_n 3 (walled_board []) 4 4 5 4) !! _get_wall_key 4 4 5 4 = Some w
    /\ health w = 0
    /\ has_wall_between (damage_n 3 (walled_board []) 4 4 5 4) 4 4 5 4 = false.
Proof.
  destruct (wall_damage_clamps (walled_board []) 4 4 5 4 2 3)
    as (w & Hw & Hh & _ & _ & Hb & _ & _).
  - left. lia.
  - vm_compute. reflexivity.
  - exists w. split; [exact Hw |]. split; [rewrite Hh; reflexivity |].
    apply Hb. lia.
Defined.

(** C7 as stated fails for a wall created with a negative health.  The
    constructor called with the wall health -1 builds such walls; before
    any damage ([n = 0]) the wall between (4, 4) and (5, 4) has the health
    -1, which is negative and is not [max 0 (-1 - 0)]. *)
Lemma wall_created_with_negative_health :
  exists m,
    FlashPointModel_init 10 8 0 0 (-1) [] calm 0 = Some (m, 0%nat)
    /\ walls m !! _get_wall_key 4 4 5 4 = Some (Wall_init (-1))
    /\ health <$> walls (damage_n 0 m 4 4 5 4) !! _get_wall_key 4 4 5 4
       = Some (-1)
    /\ -1 <> Z.max 0 (-1 - Z.of_nat 0).
Proof.
  eexists. split; [vm_compute; reflexivity |].
  split; [vm_compute; reflexivity |]. split; [vm_compute; reflexivity |].
  discriminate.
Qed.

(** * Movement depends on bounds, adjacency and walls only *)

Lemma can_move_between_congr m1 m2 x1 y1 x2 y2 :
  width m1 = width m2 -> height m1 = height m2 -> walls m1 = walls m2 ->
  can_move_between m1 x1 y1 x2 y2 = can_move_between m2 x1 y1 x2 y2.
Proof.
  intros Hw Hh Hwalls.
  unfold can_move_between, in_bounds, has_wall_between.
  by rewrite Hw, Hh, Hwalls.
Qed.

Lemma scan_neighbours_congr m1 m2 goal x y path dirs :
  (forall a b c d, can_move_between m1 a b c d = can_move_between m2 a b c d) ->
  forall queue visited,
    scan_neighbours m1 goal x y path dirs queue visited
    = scan_neighbours m2 goal x y path dirs queue visited.
Proof.
  intros Hc. induction dirs as [| [dx dy] dirs IH]; intros queue visited;
    simpl; [done |].
  rewrite Hc. destruct (_ && _); [| apply IH].
  case_bool_decide; [done | apply IH].
Qed.

Lemma bfs_loop_congr m1 m2 goal fuel :
  (forall a b c d, can_move_between m1 a b c d = can_move_between m2 a b c d) ->
  forall queue visited,
    bfs_loop fuel m1 goal queue visited = bfs_loop fuel m2 goal queue visited.
Proof.
  intros Hc. induction fuel as [| fuel IH]; intros queue visited; [done |].
  destruct queue as [| [[x y] pw] queue]; [done |].
  rewrite !bfs_loop_cons, (scan_neighbours_congr m1 m2) by done.
  destruct (scan_neighbours m2 goal x y pw directions4 queue visited);
    [done | apply IH].
Qed.

Lemma find_path_congr m1 m2 start goal :
  width m1 = width m2 -> height m1 = height m2 -> walls m1 = walls m2 ->
  find_path m1 start goal = find_path m2 start goal.
Proof.
  intros Hw Hh Hwalls. unfold find_path, find_path_fuel, find_path_bound.
  rewrite Hw, Hh. case_bool_decide; [done |].
  f_equal. apply bfs_loop_congr. intros. by apply can_move_between_congr.
Qed.

(** C10.  For two states that agree on the board shape, the walls and the
    acting firefighter (and may differ in fire grid, POIs and the other
    firefighters), [can_move_between] and [find_path] return the same values
    and a move succeeds in one exactly when it succeeds in the other, leaving
    the mover in the same condition; and a move along a traversable edge with
    action points left succeeds whatever burns or stands on the target. *)
Theorem movement_noninterference (self : nat) (m1 m2 : FlashPointModel) :
  same_board_and_mover self m1 m2 ->
  (forall x1 y1 x2 y2,
      can_move_between m1 x1 y1 x2 y2 = can_move_between m2 x1 y1 x2 y2)
  /\ (forall start goal, find_path m1 start goal = find_path m2 start goal)
  /\ (forall nx ny,
        (move_to self nx ny m1).1 = (move_to self nx ny m2).1
        /\ agent_store (move_to self nx ny m1).2 !! self
           = agent_store (move_to self nx ny m2).2 !! self)
  /\ (forall a nx ny,
        agent_store m1 !! self = Some a -> 0 < action_points a ->
        can_move_between m1 (ff_x a) (ff_y a) nx ny = true ->
        (move_to self nx ny m1).1 = true /\ (move_to self nx ny m2).1 = true).
Proof.
  intros (Hw & Hh & Hwalls & Hself).
  assert (Hc : forall x1 y1 x2 y2,
             can_move_between m1 x1 y1 x2 y2 = can_move_between m2 x1 y1 x2 y2)
    by (intros; by apply can_move_between_congr).
  split; [exact Hc |]. split; [intros; by apply find_path_congr |].
  split.
  - intros nx ny. unfold move_to. rewrite <- Hself.
    destruct (agent_store m1 !! self) as [a |] eqn:Ha;
      [| split; [done | simpl; congruence]].
    case_bool_decide; [split; [done | simpl; congruence] |].
    rewrite <- Hc. destruct (can_move_between m1 _ _ _ _); simpl;
      [| split; [done | congruence]].
    split; [done |]. rewrite !lookup_alter_eq. congruence.
  - intros a nx ny Ha Hap Hmove. unfold move_to.
    rewrite <- Hself, Ha, <- Hc, Hmove.
    rewrite bool_decide_eq_false_2 by lia. done.
Qed.

Lemma move_to_board self x y m :
  width (move_to self x y m).2 = width m
  /\ height (move_to self x y m).2 = height m
  /\ walls (move_to self x y m).2 = walls m.
Proof.
  unfold move_to. destruct (agent_store m !! self); [| done].
  case_bool_decide; [done |]. by destruct (negb _).
Qed.

Lemma set_fire_state_board m x y s :
  width (set_fire_state m x y s) = width m
  /\ height (set_fire_state m x y s) = height m
  /\ walls (set_fire_state m x y s) = walls m.
Proof. unfold set_fire_state. by destruct (in_bounds m x y). Qed.

Lemma remove_poi_board r m :
  width (remove_poi r m) = width m
  /\ height (remove_poi r m) = height m
  /\ walls (remove_poi r m) = walls m.
Proof. unfold remove_poi. by case_bool_decide. Qed.

Lemma movement_noninterference_witness :
  let m1 := open_board [(5, 5)] in
  let m2 := (move_to 3 8 4 (set_fire_state (remove_poi 0 m1) 1 4 FIRE)).2 in
  get_fire_state m1 1 4 = CLEAR /\ get_fire_state m2 1 4 = FIRE
  /\ pois m1 = [0%nat] /\ pois m2 = []
  /\ ff_pos <$> agent_store m1 !! 3%nat = Some (8, 3)
  /\ ff_pos <$> agent_store m2 !! 3%nat = Some (8, 4)
  /\ ff_pos <$> agent_store m2 !! 2%nat = Some (1, 4)
  /\ (move_to 1 1 4 m1).1 = true /\ (move_to 1 1 4 m2).1 = true.
Proof.
  intros m1 m2.
  assert (Hs : same_board_and_mover 1 m1 m2).
  { unfold same_board_and_mover, m2.
    destruct (move_to_board 3 8 4 (set_fire_state (remove_poi 0 m1) 1 4 FIRE))
      as (-> & -> & ->).
    destruct (set_fire_state_board (remove_poi 0 m1) 1 4 FIRE) as (-> & -> & ->).
    destruct (remove_poi_board 0 m1) as (-> & -> & ->).
    split; [done |]. split; [done |]. split; [done |].
    vm_compute. reflexivity. }
  split; [vm_compute; reflexivity |].
  split; [vm_compute; reflexivity |].
  split; [vm_compute; reflexivity |].
  split; [vm_compute; reflexivity |].
  split; [vm_compute; reflexivity |].
  split; [vm_compute; reflexivity |].
  split; [vm_compute; reflexivity |].
  destruct (movement_noninterference 1 m1 m2 Hs) as (_ & _ & _ & Hmove).
  apply (Hmove (mkFF 1 3 (1, 3) 4 4 None unassigned) 1 4).
  - vm_compute. reflexivity.
  - simpl. lia.
  - vm_compute. reflexivity.
Defined.

(** * Action primitives and action points *)

Lemma agent_store_remove_poi r m : agent_store (remove_poi r m) = agent_store m.
Proof. unfold remove_poi. by case_bool_decide. Qed.

Lemma agent_store_set_fire_state m x y s :
  agent_store (set_fire_state m x y s) = agent_store m.
Proof. unfold set_fire_state. by destruct (in_bounds m x y). Qed.

Lemma move_to_action_points m self a nx ny :
  agent_store m !! self = Some a ->
  (action_points a <= 0 -> move_to self nx ny m = (false, m))
  /\ ((move_to self nx ny m).1 = true ->
      action_points <$> agent_store (move_to self nx ny m).2 !! self
      = Some (action_points a - 1)).
Proof.
  intros Ha. unfold move_to. rewrite Ha.
  case_bool_decide as Hap; [split; [done | discriminate] |].
  split; [lia |].
  destruct (can_move_between m _ _ _ _); simpl; [| discriminate].
  intros _. by rewrite !lookup_alter_eq, Ha.
Qed.

Lemma extinguish_fire_action_points m self a :
  agent_store m !! self = Some a ->
  (action_points a <= 0 -> extinguish_fire self m = (false, m))
  /\ ((extinguish_fire self m).1 = true ->
      action_points <$> agent_store (extinguish_fire self m).2 !! self
      = Some (action_points a - 1)).
Proof.
  intros Ha. unfold extinguish_fire. rewrite Ha.
  case_bool_decide as Hap; [split; [done | discriminate] |].
  split; [lia |].
  destruct (get_fire_state m _ _); simpl; [discriminate | |];
    intros _; by rewrite lookup_alter_eq, agent_store_set_fire_state, Ha.
Qed.

Lemma pickup_poi_action_points m self a :
  agent_store m !! self = Some a ->
  (action_points a <= 0 -> pickup_poi self m = (false, m))
  /\ ((pickup_poi self m).1 = true ->
      action_points <$> agent_store (pickup_poi self m).2 !! self
      = Some (action_points a - 1)).
Proof.
  intros Ha. unfold pickup_poi. rewrite Ha.
  case_bool_decide as Hap; simpl; [split; [done | discriminate] |].
  split; [lia |].
  destruct (negb (bool_decide (carrying_poi a = None))); [discriminate |].
  destruct (get_poi_at m _ _) as [[r p] |]; [| discriminate].
  destruct (negb (is_rescued p)); [| discriminate].
  destruct (negb (is_revealed p)); simpl.
  - destruct (negb (negb (is_false_alarm p))); simpl; intros _.
    + by rewrite lookup_alter_eq, agent_store_remove_poi; simpl; rewrite Ha.
    + by rewrite !lookup_alter_eq, Ha.
  - intros _. by rewrite !lookup_alter_eq, Ha.
Qed.

Lemma drop_poi_at_exit_action_points m self a :
  agent_store m !! self = Some a ->
  ((drop_poi_at_exit self m).1 = true
   <-> carrying_poi a <> None /\ is_exit m (ff_x a) (ff_y a) = true)
  /\ ((drop_poi_at_exit self m).1 = false -> (drop_poi_at_exit self m).2 = m)
  /\ action_points <$> agent_store (drop_poi_at_exit self m).2 !! self
     = Some (action_points a).
Proof.
  intros Ha. unfold drop_poi_at_exit. rewrite Ha.
  destruct (carrying_poi a) as [r |] eqn:Hc; simpl.
  - destruct (is_exit m _ _); simpl.
    + split; [split; [done | done] |]. split; [discriminate |].
      by rewrite lookup_alter_eq, Ha.
    + split; [split; [discriminate | intros [_ ?]; done] |].
      split; [done | by rewrite Ha].
  - split; [split; [discriminate | intros [? _]; done] |].
    split; [done | by rewrite Ha].
Qed.

(** C3 (as the code has it).  [move_to], [extinguish_fire] and [pickup_poi]
    fail without any state change when the firefighter has no action point
    left, and a successful call lowers the action points by exactly 1.
    [drop_poi_at_exit] never reads the action points: it succeeds exactly when
    the firefighter carries a POI on an exit cell, changes nothing when it
    fails, and leaves the action points as they were. *)
Theorem primitives_action_points (m : FlashPointModel) (self : nat)
    (a : FirefighterAgent) :
  agent_store m !! self = Some a ->
  (forall nx ny,
      (action_points a <= 0 -> move_to self nx ny m = (false, m))
      /\ ((move_to self nx ny m).1 = true ->
          action_points <$> agent_store (move_to self nx ny m).2 !! self
          = Some (action_points a - 1)))
  /\ ((action_points a <= 0 -> extinguish_fire self m = (false, m))
      /\ ((extinguish_fire self m).1 = true ->
          action_points <$> agent_store (extinguish_fire self m).2 !! self
          = Some (action_points a - 1)))
  /\ ((action_points a <= 0 -> pickup_poi self m = (false, m))
      /\ ((pickup_poi self m).1 = true ->
          action_points <$> agent_store (pickup_poi self m).2 !! self
          = Some (action_points a - 1)))
  /\ (((drop_poi_at_exit self m).1 = true
       <-> carrying_poi a <> None /\ is_exit m (ff_x a) (ff_y a) = true)
      /\ ((drop_poi_at_exit self m).1 = false -> (drop_poi_at_exit self m).2 = m)
      /\ action_points <$> agent_store (drop_poi_at_exit self m).2 !! self
         = Some (action_points a)).
Proof.
  intros Ha.
  split; [intros; by apply move_to_action_points |].
  split; [by apply extinguish_fire_action_points |].
  split; [by apply pickup_poi_action_points |].
  by apply drop_poi_at_exit_action_points.
Qed.

Lemma primitives_action_points_witness :
  (move_to 1 2 3 (open_board [(2, 3)])).1 = true
  /\ action_points <$> agent_store (move_to 1 2 3 (open_board [(2, 3)])).2 !! 1%nat
     = Some 3.
Proof.
  destruct (primitives_action_points (open_board [(2, 3)]) 1
              (mkFF 1 3 (1, 3) 4 4 None unassigned))
    as (Hmove & _); [vm_compute; reflexivity |].
  destruct (Hmove 2 3) as [_ Hdec].
  split; [vm_compute; reflexivity |].
  apply Hdec. vm_compute. reflexivity.
Defined.

(** C3 as stated fails for [drop_poi_at_exit]: with zero action points left
    the drop succeeds, changes the state, and the action points stay 0. *)
Lemma drop_at_exit_without_action_points :
  action_points <$> agent_store exit_walk_state !! 1%nat = Some 0
  /\ (drop_poi_at_exit 1 exit_walk_state).1 = true
  /\ (drop_poi_at_exit 1 exit_walk_state).2 <> exit_walk_state
  /\ action_points <$> agent_store (drop_poi_at_exit 1 exit_walk_state).2 !! 1%nat
     = Some 0.
Proof.
  split; [vm_compute; reflexivity |].
  split; [vm_compute; reflexivity |].
  split; [| vm_compute; reflexivity].
  intros H. apply (f_equal rescued_pois) in H. vm_compute in H. discriminate.
Qed.

(** * The carry links *)

Lemma foldl_preserves {A B} (P : A -> Prop) (f : A -> B -> A) (l : list B) :
  (forall s x, P s -> P (f s x)) -> forall s, P s -> P (foldl f s l).
Proof. intros Hf. induction l as [| x l IH]; simpl; eauto. Qed.

Lemma for_yx_preserves {S} (P : S -> Prop) w h (body : S -> Z -> Z -> S) :
  (forall s x y, P s -> P (body s x y)) -> forall s, P s -> P (for_yx w h body s).
Proof.
  intros Hb. unfold for_yx. apply foldl_preserves.
  intros s y. apply foldl_preserves. eauto.
Qed.

Lemma same_links_refl m : same_links m m.
Proof. by split. Qed.

Lemma same_links_trans m1 m2 m3 :
  same_links m1 m2 -> same_links m2 m3 -> same_links m1 m3.
Proof.
  intros [H1 H2] [H3 H4]. split; intros; [by rewrite H3, H1 | by rewrite H4, H2].
Qed.

Lemma same_links_stores m m' :
  agent_store m' = agent_store m -> poi_store m' = poi_store m -> same_links m m'.
Proof. intros Ha Hp. split; intros; by rewrite ?Ha, ?Hp. Qed.

Lemma same_links_update_agent self f m :
  (forall a, carrying_poi (f a) = carrying_poi a) ->
  same_links m (update_agent self f m).
Proof.
  intros Hf. split; [| done]. intros g. simpl.
  destruct (decide (self = g)) as [-> | Hne].
  - rewrite lookup_alter_eq. destruct (agent_store m !! g); simpl; [| done].
    by rewrite Hf.
  - by rewrite lookup_alter_ne.
Qed.

Lemma same_links_update_poi r f m :
  (forall P, link (f P) = link P) -> same_links m (update_poi r f m).
Proof.
  intros Hf. split; [done |]. intros p. simpl.
  destruct (decide (r = p)) as [-> | Hne].
  - rewrite lookup_alter_eq. destruct (poi_store m !! p); simpl; [| done].
    by rewrite Hf.
  - by rewrite lookup_alter_ne.
Qed.

Lemma same_links_remove_poi r m : same_links m (remove_poi r m).
Proof. unfold remove_poi. case_bool_decide; by apply same_links_stores. Qed.

Lemma same_links_set_fire_state m x y s : same_links m (set_fire_state m x y s).
Proof. unfold set_fire_state. destruct (in_bounds m x y); by apply same_links_stores. Qed.

Lemma carry_inv_same_links m m' : same_links m m' -> carry_inv m -> carry_inv m'.
Proof.
  intros [Ha Hp] [I1 I2 I3]. constructor.
  - intros f a p Hf Hc. specialize (Ha f). rewrite Hf in Ha. simpl in Ha.
    destruct (agent_store m !! f) as [a0 |] eqn:Hf0; [| discriminate].
    simpl in Ha. assert (Hc0 : carrying_poi a0 = Some p) by congruence.
    destruct (I1 _ _ _ Hf0 Hc0) as (P & HP & HPf).
    specialize (Hp p). rewrite HP in Hp. simpl in Hp.
    destruct (poi_store m' !! p) as [P' |]; [| discriminate].
    exists P'. split; [done |]. unfold link in Hp. simpl in Hp. congruence.
  - intros p P f HP HPf. specialize (Hp p). rewrite HP in Hp. simpl in Hp.
    destruct (poi_store m !! p) as [P0 |] eqn:HP0; [| discriminate].
    unfold link in Hp. simpl in Hp.
    assert (HPf0 : carried_by P0 = Some f) by congruence.
    destruct (I2 _ _ _ HP0 HPf0) as (a & Hf & Hc).
    specialize (Ha f). rewrite Hf in Ha. simpl in Ha.
    destruct (agent_store m' !! f) as [a' |]; [| discriminate].
    exists a'. split; [done |]. simpl in Ha. congruence.
  - intros p P HP Hr. specialize (Hp p). rewrite HP in Hp. simpl in Hp.
    destruct (poi_store m !! p) as [P0 |] eqn:HP0; [| discriminate].
    unfold link in Hp. simpl in Hp.
    assert (carried_by P0 = None) by (eapply I3; [done | congruence]).
    congruence.
Qed.

Lemma fresh_carry_inv m : fresh m -> carry_inv m.
Proof.
  intros [Ha Hp]. constructor.
  - intros f a p Hf Hc. rewrite (Ha _ _ Hf) in Hc. discriminate.
  - intros p P f HP HPf. destruct (Hp _ _ HP) as [Hn _]. congruence.
  - intros p P HP _. by destruct (Hp _ _ HP).
Qed.

(** Picking up: the firefighter and the POI get linked to each other. *)
Lemma carry_inv_link m self r a P :
  carry_inv m ->
  agent_store m !! self = Some a -> carrying_poi a = None ->
  poi_store m !! r = Some P -> carried_by P = None -> is_rescued P = false ->
  carry_inv (update_poi r (set_carried_by (Some self))
               (update_agent self (set_carrying_poi (Some r)) m)).
Proof.
  intros [I1 I2 I3] Ha Hc HP HPc HPr. constructor; simpl.
  - intros f a' p Hf Hc'. destruct (decide (self = f)) as [-> | Hne].
    + rewrite lookup_alter_eq, Ha in Hf. simpl in Hf. inversion Hf; subst a'.
      simpl in Hc'. inversion Hc'; subst p.
      rewrite lookup_alter_eq, HP. simpl. eauto.
    + rewrite lookup_alter_ne in Hf by done.
      destruct (I1 _ _ _ Hf Hc') as (P' & HP' & HPf).
      destruct (decide (r = p)) as [-> | Hrp]; [congruence |].
      rewrite lookup_alter_ne by done. eauto.
  - intros p P' f HP' HPf. destruct (decide (r = p)) as [-> | Hrp].
    + rewrite lookup_alter_eq, HP in HP'. simpl in HP'. inversion HP'; subst P'.
      simpl in HPf. inversion HPf; subst f.
      rewrite lookup_alter_eq, Ha. simpl. eauto.
    + rewrite lookup_alter_ne in HP' by done.
      destruct (I2 _ _ _ HP' HPf) as (a' & Hf & Hc').
      destruct (decide (self = f)) as [-> | Hne]; [congruence |].
      rewrite lookup_alter_ne by done. eauto.
  - intros p P' HP' Hr. destruct (decide (r = p)) as [-> | Hrp].
    + rewrite lookup_alter_eq, HP in HP'. simpl in HP'. inversion HP'; subst P'.
      simpl in Hr. congruence.
    + rewrite lookup_alter_ne in HP' by done. eauto.
Qed.

(** Dropping at an exit: the POI becomes rescued and both links clear. *)
Lemma carry_inv_unlink m self r a :
  carry_inv m ->
  agent_store m !! self = Some a -> carrying_poi a = Some r ->
  carry_inv (update_agent self (set_carrying_poi None)
               (update_poi r (set_carried_by None)
                  (update_poi r (set_is_rescued true) m))).
Proof.
  intros [I1 I2 I3] Ha Hc. destruct (I1 _ _ _ Ha Hc) as (P & HP & HPc).
  constructor; simpl.
  - intros f a' p Hf Hc'. destruct (decide (self = f)) as [-> | Hne].
    + rewrite lookup_alter_eq, Ha in Hf. simpl in Hf. inversion Hf; subst a'.
      discriminate.
    + rewrite lookup_alter_ne in Hf by done.
      destruct (I1 _ _ _ Hf Hc') as (P' & HP' & HPf).
      destruct (decide (r = p)) as [-> | Hrp]; [congruence |].
      rewrite !lookup_alter_ne by done. eauto.
  - intros p P' f HP' HPf. destruct (decide (r = p)) as [-> | Hrp].
    + rewrite !lookup_alter_eq, HP in HP'. simpl in HP'. inversion HP'; subst P'.
      discriminate.
    + rewrite !lookup_alter_ne in HP' by done.
      destruct (I2 _ _ _ HP' HPf) as (a' & Hf & Hc').
      destruct (decide (self = f)) as [-> | Hne]; [congruence |].
      rewrite lookup_alter_ne by done. eauto.
  - intros p P' HP' Hr. destruct (decide (r = p)) as [-> | Hrp].
    + rewrite !lookup_alter_eq, HP in HP'. simpl in HP'. by inversion HP'.
    + rewrite !lookup_alter_ne in HP' by done. eauto.
Qed.

(** ** The environment passes leave the objects alone *)

Lemma same_objects_refl m : same_objects m m.
Proof. by repeat split. Qed.

Lemma same_objects_trans m1 m2 m3 :
  same_objects m1 m2 -> same_objects m2 m3 -> same_objects m1 m3.
Proof. intros (? & ? & ? & ?) (? & ? & ? & ?). repeat split; congruence. Qed.

Lemma same_objects_links m m' : same_objects m m' -> same_links m m'.
Proof. intros (? & ? & _). by apply same_links_stores. Qed.

Lemma same_objects_damage_wall m x1 y1 x2 y2 :
  same_objects m (damage_wall m x1 y1 x2 y2).
Proof. unfold damage_wall. destruct (walls m !! _); by repeat split. Qed.

Lemma same_objects_trigger_explosion m x y :
  same_objects m (_trigger_explosion m x y).
Proof.
  unfold _trigger_explosion.
  apply (foldl_preserves (same_objects m)).
  - intros s d Hs. destruct (in_bounds s _ _); [| done].
    case_bool_decide; [| done].
    eapply same_objects_trans; [exact Hs | by repeat split].
  - apply (foldl_preserves (same_objects m)).
    + intros s d Hs. destruct (in_bounds s _ _); [| done].
      eapply same_objects_trans; [exact Hs | apply same_objects_damage_wall].
    + by repeat split.
Qed.

Lemma same_objects_check_explosions draws k m :
  same_objects m (check_explosions draws k m).1.
Proof.
  unfold check_explosions.
  apply (for_yx_preserves (fun acc => same_objects m acc.1)).
  - intros [s j] x y Hs. unfold explosion_cell. simpl in *.
    destruct (_ && _); [| done].
    destruct (Qlt_bool _ _); [| done]. simpl.
    eapply same_objects_trans; [exact Hs | apply same_objects_trigger_explosion].
  - apply same_objects_refl.
Qed.

Lemma same_objects_spread_fire draws k m :
  same_objects m (spread_fire draws k m).1.
Proof. by repeat split. Qed.

(** ** The primitives keep the links *)

Lemma resolve_pois_elem m r p :
  (r, p) ∈ resolve_pois m <-> r ∈ pois m /\ poi_store m !! r = Some p.
Proof.
  unfold resolve_pois. rewrite list_elem_of_omap. split.
  - intros (r' & Hin & Hr). destruct (poi_store m !! r') as [p' |] eqn:Hp;
      simpl in Hr; [| discriminate].
    inversion Hr; subst. done.
  - intros [Hin Hp]. exists r. split; [done |]. by rewrite Hp.
Qed.

Lemma get_poi_at_spec m x y r p :
  get_poi_at m x y = Some (r, p) ->
  r ∈ pois m /\ poi_store m !! r = Some p
  /\ poi_x p = x /\ poi_y p = y /\ is_rescued p = false /\ carried_by p = None.
Proof.
  unfold get_poi_at. intros H. apply find_some in H as [Hin Hf].
  apply list_elem_of_In, resolve_pois_elem in Hin as [Hin Hp]. simpl in Hf.
  apply andb_true_iff in Hf as [Hf Hc]. apply andb_true_iff in Hf as [Hf Hr].
  apply andb_true_iff in Hf as [Hx Hy].
  apply bool_decide_eq_true in Hx. apply bool_decide_eq_true in Hy.
  apply bool_decide_eq_true in Hc. apply negb_true_iff in Hr. done.
Qed.

Lemma same_links_move_to self x y m : same_links m (move_to self x y m).2.
Proof.
  unfold move_to. destruct (agent_store m !! self); [| apply same_links_refl].
  case_bool_decide; [apply same_links_refl |].
  destruct (negb _); [apply same_links_refl |]. simpl.
  eapply same_links_trans; [| by apply same_links_update_agent].
  eapply same_links_trans; [| by apply same_links_update_agent].
  by apply same_links_update_agent.
Qed.

Lemma same_links_extinguish_fire self m : same_links m (extinguish_fire self m).2.
Proof.
  unfold extinguish_fire. destruct (agent_store m !! self); [| apply same_links_refl].
  case_bool_decide; [apply same_links_refl |].
  destruct (get_fire_state m _ _); simpl; [apply same_links_refl | |];
    (eapply same_links_trans; [apply same_links_set_fire_state |
                               by apply same_links_update_agent]).
Qed.

Lemma carry_inv_move_to self x y m :
  carry_inv m -> carry_inv (move_to self x y m).2.
Proof. apply carry_inv_same_links, same_links_move_to. Qed.

Lemma carry_inv_extinguish_fire self m :
  carry_inv m -> carry_inv (extinguish_fire self m).2.
Proof. apply carry_inv_same_links, same_links_extinguish_fire. Qed.

Lemma carry_inv_pickup_poi self m :
  carry_inv m -> carry_inv (pickup_poi self m).2.
Proof.
  intros I. unfold pickup_poi.
  destruct (agent_store m !! self) as [a |] eqn:Ha; [| done].
  destruct (bool_decide (action_points a <= 0)); [done |]. simpl.
  case_bool_decide as Hc; [| done]. simpl.
  destruct (get_poi_at m _ _) as [[r p] |] eqn:Hg; [| done].
  apply get_poi_at_spec in Hg as (Hin & Hp & _ & _ & Hr & Hcb).
  rewrite Hr. simpl.
  destruct (is_revealed p) eqn:Hrev; simpl.
  - eapply carry_inv_same_links; [by apply same_links_update_agent |].
    by eapply carry_inv_link.
  - destruct (is_false_alarm p); simpl.
    + eapply carry_inv_same_links; [| exact I].
      eapply same_links_trans; [| by apply same_links_update_agent].
      eapply same_links_trans; [| apply same_links_remove_poi].
      by apply same_links_update_poi.
    + eapply carry_inv_same_links; [by apply same_links_update_agent |].
      eapply (carry_inv_link _ self r a (set_is_revealed true p)); try done.
      * eapply carry_inv_same_links; [| exact I].
        by apply same_links_update_poi.
      * simpl. by rewrite lookup_alter_eq, Hp.
Qed.

Lemma carry_inv_drop_poi_at_exit self m :
  carry_inv m -> carry_inv (drop_poi_at_exit self m).2.
Proof.
  intros I. unfold drop_poi_at_exit.
  destruct (agent_store m !! self) as [a |] eqn:Ha; [| done].
  destruct (carrying_poi a) as [r |] eqn:Hc; [| done].
  destruct (is_exit m _ _); [| done]. simpl.
  eapply carry_inv_same_links; [| by eapply carry_inv_unlink].
  by apply same_links_stores.
Qed.

(** ** The agent step keeps the links *)

Lemma carry_inv_step_along self path m :
  carry_inv m -> carry_inv (step_along self path m).2.
Proof.
  intros I. unfold step_along. destruct path as [| ? [| ? ?]]; try done.
  by apply carry_inv_move_to.
Qed.

Lemma carry_inv_assign_role self m : carry_inv m -> carry_inv (_assign_role self m).
Proof.
  apply carry_inv_same_links. unfold _assign_role.
  destruct (role_pois m); by apply same_links_update_agent.
Qed.

Lemma carry_inv_rescue_behavior self m :
  carry_inv m -> carry_inv (_rescue_behavior self m).
Proof.
  intros I. unfold _rescue_behavior.
  destruct (agent_store m !! self) as [a |]; [| done].
  destruct (carrying_poi a).
  - destruct (min_by _ (get_exits m)) as [e |]; [| done].
    pose proof (carry_inv_step_along self (get_path_to m a e.1 e.2) m I) as I1.
    destruct (step_along self (get_path_to m a e.1 e.2) m) as [moved m1].
    simpl in I1. destruct moved; [| done].
    destruct (agent_store m1 !! self) as [a1 |]; [| done].
    destruct (is_exit m1 _ _); [| done].
    by apply carry_inv_drop_poi_at_exit.
  - destruct (min_by _ _) as [np |]; [| done].
    destruct (_ && _); [by apply carry_inv_pickup_poi |].
    by apply carry_inv_step_along.
Qed.

Lemma carry_inv_firefighting_behavior self m :
  carry_inv m -> carry_inv (_firefighting_behavior self m).
Proof.
  intros I. unfold _firefighting_behavior.
  destruct (agent_store m !! self) as [a |]; [| done].
  destruct (min_by _ _) as [c |]; [| done].
  destruct (_ && _); [by apply carry_inv_extinguish_fire |].
  by apply carry_inv_step_along.
Qed.

Lemma carry_inv_agent_step self m : carry_inv m -> carry_inv (agent_step self m).
Proof.
  intros I. unfold agent_step.
  assert (I2 : carry_inv (_assign_role self
                  (update_agent self
                     (fun a => set_action_points (max_action_points a) a) m))).
  { apply carry_inv_assign_role.
    eapply carry_inv_same_links; [| exact I]. by apply same_links_update_agent. }
  destruct (agent_store _ !! self) as [a |]; [| done].
  case_bool_decide; [by apply carry_inv_rescue_behavior |
                     by apply carry_inv_firefighting_behavior].
Qed.

Lemma carry_inv_model_step order draws k m :
  carry_inv m -> carry_inv (model_step order draws k m).1.
Proof.
  intros I. unfold model_step.
  assert (I1 : carry_inv (schedule_step order m)).
  { unfold schedule_step.
    assert (If : carry_inv (foldl (fun m self => agent_step self m)
                              (set_schedule order m) order)).
    { apply (foldl_preserves carry_inv).
      - intros s f. apply carry_inv_agent_step.
      - eapply carry_inv_same_links; [| exact I]. by apply same_links_stores. }
    eapply carry_inv_same_links; [| exact If]. by apply same_links_stores. }
  destruct (spread_fire draws k (schedule_step order m)) as [m2 k2] eqn:Hs.
  eapply carry_inv_same_links;
    [apply same_objects_links, same_objects_check_explosions |].
  eapply carry_inv_same_links; [| exact I1].
  apply same_objects_links.
  change m2 with (m2, k2).1. rewrite <- Hs. apply same_objects_spread_fire.
Qed.

(** ** Construction *)

Lemma same_shape_refl m : same_shape m m.
Proof. by repeat split. Qed.

Lemma same_shape_trans m1 m2 m3 :
  same_shape m1 m2 -> same_shape m2 m3 -> same_shape m1 m3.
Proof. intros (? & ? & ?) (? & ? & ?). repeat split; congruence. Qed.

Lemma setup_exits_frame m :
  same_shape m (_setup_exits m) /\ same_objects m (_setup_exits m).
Proof.
  unfold _setup_exits.
  apply (foldl_preserves (fun s => same_shape m s /\ same_objects m s));
    [| split; [apply same_shape_refl | apply same_objects_refl]].
  intros s e [Hs Ho]. destruct (in_bounds s _ _); [| done].
  split; [eapply same_shape_trans | eapply same_objects_trans]; eauto;
    by repeat split.
Qed.

Lemma create_walls_frame m :
  same_shape m (_create_walls m) /\ same_objects m (_create_walls m).
Proof.
  unfold _create_walls.
  apply (foldl_preserves (fun s => same_shape m s /\ same_objects m s)).
  - intros s [[x1 y1] [x2 y2]] [Hs Ho].
    destruct (_is_valid_wall s _ _ _ _); [| done].
    destruct (walls s !! _); [done |].
    split; [eapply same_shape_trans | eapply same_objects_trans]; eauto;
      by repeat split.
  - apply (for_yx_preserves (fun s => same_shape m s /\ same_objects m s));
      [| split; [apply same_shape_refl | apply same_objects_refl]].
    intros s x y [Hs Ho].
    case_bool_decide; case_bool_decide; simpl; try done;
      (split; [eapply same_shape_trans | eapply same_objects_trans]; eauto;
       by repeat split).
Qed.

Lemma place_initial_fires_frame m :
  same_shape m (_place_initial_fires m) /\ same_objects m (_place_initial_fires m).
Proof.
  unfold _place_initial_fires.
  apply (foldl_preserves (fun s => same_shape m s /\ same_objects m s));
    [| split; [apply same_shape_refl | apply same_objects_refl]].
  intros s e [Hs Ho]. destruct (in_bounds s _ _); [| done].
  split; [eapply same_shape_trans | eapply same_objects_trans]; eauto;
    by repeat split.
Qed.

Lemma fresh_same_objects m m' : same_objects m m' -> fresh m -> fresh m'.
Proof. intros (Ha & Hp & _) [F1 F2]. split; intros; rewrite ?Ha, ?Hp in *; eauto. Qed.

Lemma place_firefighter_step m i x y :
  start_positions !! Z.to_nat i = Some (x, y) ->
  in_bounds m x y = true ->
  place_firefighter (Some m) i
  = Some (set_schedule (schedule m ++ [S (Z.to_nat i)])
            (set_agent_store
               (<[S (Z.to_nat i) := FirefighterAgent_init x y]> (agent_store m)) m)).
Proof. intros Hs Hb. unfold place_firefighter. simpl. rewrite Hs. simpl. by rewrite Hb. Qed.

Lemma start_position_bounds i :
  0 <= i < 5 ->
  exists x y, start_positions !! Z.to_nat i = Some (x, y)
              /\ 0 <= x <= 8 /\ 0 <= y <= 4.
Proof.
  intros Hi.
  assert (Hc : i = 0 \/ i = 1 \/ i = 2 \/ i = 3 \/ i = 4) by lia.
  destruct Hc as [-> | [-> | [-> | [-> | ->]]]]; simpl;
    eexists _, _; (split; [reflexivity | lia]).
Qed.

Lemma place_firefighters_fold m (l : list Z) :
  9 <= width m -> 5 <= height m -> Forall (fun i => 0 <= i < 5) l ->
  fresh m ->
  exists m',
    foldl place_firefighter (Some m) l = Some m'
    /\ same_shape m m' /\ fresh m'
    /\ poi_store m' = poi_store m /\ pois m' = pois m
    /\ fire_grid m' = fire_grid m /\ cell_types m' = cell_types m
    /\ schedule m' = schedule m ++ ((fun i => S (Z.to_nat i)) <$> l).
Proof.
  intros Hw Hh Hl. revert m Hw Hh. induction Hl as [| i l Hi Hl IH];
    intros m Hw Hh Hf.
  - exists m. simpl. rewrite app_nil_r. split; [done |].
    split; [apply same_shape_refl |]. split; [exact Hf |]. by repeat split.
  - destruct (start_position_bounds i Hi) as (x & y & Hs & Hx & Hy).
    assert (Hb : in_bounds m x y = true).
    { unfold in_bounds. rewrite !bool_decide_eq_true_2 by lia. done. }
    cbn [foldl]. rewrite (place_firefighter_step m i x y Hs Hb).
    set (m1 := set_schedule _ _).
    destruct (IH m1) as (m' & Hfold & Hshape & Hfresh & Hp & Hps & Hfg & Hct & Hsch);
      [done | done | |].
    { destruct Hf as [F1 F2]. split; [| exact F2].
      intros f a. simpl. destruct (decide (S (Z.to_nat i) = f)) as [<- | Hne].
      - rewrite lookup_insert_eq. intros [= <-]. done.
      - rewrite lookup_insert_ne by done. apply F1. }
    exists m'. split; [exact Hfold |].
    split; [eapply same_shape_trans; [| exact Hshape]; by repeat split |].
    split; [exact Hfresh |].
    split; [by rewrite Hp |]. split; [by rewrite Hps |].
    split; [by rewrite Hfg |]. split; [by rewrite Hct |].
    rewrite Hsch. simpl. by rewrite <- app_assoc.
Qed.

Lemma range_bounds n : Forall (fun i => 0 <= i < n) (range n).
Proof. apply Forall_forall. intros i Hi. apply elem_of_seqZ in Hi. lia. Qed.

Lemma place_firefighters_spec n m :
  9 <= width m -> 5 <= height m -> fresh m ->
  exists m',
    _place_firefighters n m = Some m'
    /\ same_shape m m' /\ fresh m'
    /\ poi_store m' = poi_store m /\ pois m' = pois m
    /\ fire_grid m' = fire_grid m /\ cell_types m' = cell_types m
    /\ schedule m'
       = schedule m ++ ((fun i => S (Z.to_nat i))
                          <$> range (Z.min n (Z.of_nat (length start_positions)))).
Proof.
  intros Hw Hh Hf. unfold _place_firefighters.
  apply place_firefighters_fold; try done.
  eapply Forall_impl; [apply range_bounds |]. simpl. intros i Hi. lia.
Qed.

Lemma place_pois_fold draws (l : list (nat * (Z * Z))) :
  forall m k, fresh m ->
    fresh (foldl (place_poi draws) (m, k) l).1
    /\ same_shape m (foldl (place_poi draws) (m, k) l).1
    /\ schedule (foldl (place_poi draws) (m, k) l).1 = schedule m
    /\ agent_store (foldl (place_poi draws) (m, k) l).1 = agent_store m
    /\ pois (foldl (place_poi draws) (m, k) l).1 = pois m ++ l.*1.
Proof.
  induction l as [| ip l IH]; intros m k Hf; cbn [foldl].
  - simpl. rewrite app_nil_r. split; [exact Hf |].
    split; [apply same_shape_refl |]. by repeat split.
  - pose (m1 := set_pois (pois m ++ [ip.1])
             (set_poi_store
                (<[ip.1 := mkPOI (Z.of_nat ip.1) ip.2.1 ip.2.2
                             (Qlt_bool (draws k) (3 # 10)) false false None]>
                   (poi_store m)) m)).
    change (place_poi draws (m, k) ip) with (m1, S k).
    destruct (IH m1 (S k)) as (Hfresh & Hshape & Hsch & Hag & Hps).
    { destruct Hf as [F1 F2]. split; [exact F1 |].
      intros p P. simpl. destruct (decide (ip.1 = p)) as [<- | Hne].
      - rewrite lookup_insert_eq. intros [= <-]. done.
      - rewrite lookup_insert_ne by done. apply F2. }
    split; [exact Hfresh |].
    split; [eapply same_shape_trans; [| exact Hshape]; by repeat split |].
    split; [by rewrite Hsch |]. split; [by rewrite Hag |].
    rewrite Hps. simpl. by rewrite <- app_assoc.
Qed.

(** Every constructed state is fresh. *)
Lemma init_spec w h nff np wh sampled draws k :
  9 <= w -> 5 <= h -> 0 <= np ->
  exists m k',
    FlashPointModel_init w h nff np wh sampled draws k = Some (m, k')
    /\ fresh m /\ width m = w /\ height m = h /\ wall_health m = wh
    /\ schedule m = (fun i => S (Z.to_nat i)) <$> range (Z.min nff 5)
    /\ length (pois m) = length sampled.
Proof.
  intros Hw Hh Hnp. unfold FlashPointModel_init.
  rewrite !bool_decide_eq_false_2 by lia. simpl.
  set (m0 := mkModel _ _ _ _ _ _ _ _ _ _ _ _ _).
  destruct (setup_exits_frame m0) as [(W1 & H1 & WH1) O1].
  destruct (create_walls_frame (_setup_exits m0)) as [(W2 & H2 & WH2) O2].
  set (m2 := _create_walls (_setup_exits m0)) in *.
  assert (F2 : fresh m2).
  { eapply fresh_same_objects; [exact O2 |].
    eapply fresh_same_objects; [exact O1 |]. split; simpl; intros ? ?;
      rewrite lookup_empty; discriminate. }
  destruct (place_firefighters_spec nff m2) as
    (m3 & Hpf & (W3 & H3 & WH3) & F3 & _ & Hps3 & _ & _ & Hsch3);
    [rewrite W2, W1; simpl; lia | rewrite H2, H1; simpl; lia | done |].
  rewrite Hpf. simpl.
  destruct (place_initial_fires_frame m3) as [(W4 & H4 & WH4) O4].
  set (m4 := _place_initial_fires m3) in *.
  assert (F4 : fresh m4) by (eapply fresh_same_objects; eauto).
  unfold _place_pois. rewrite bool_decide_eq_false_2 by lia.
  destruct (place_pois_fold draws (imap pair sampled) m4 k F4)
    as (F5 & (W5 & H5 & WH5) & Hsch5 & _ & Hps5).
  exists (foldl (place_poi draws) (m4, k) (imap pair sampled)).1,
         (foldl (place_poi draws) (m4, k) (imap pair sampled)).2.
  split; [by destruct (foldl _ _ _) |].
  split; [exact F5 |].
  split; [rewrite W5, W4, W3, W2, W1; reflexivity |].
  split; [rewrite H5, H4, H3, H2, H1; reflexivity |].
  split; [rewrite WH5, WH4, WH3, WH2, WH1; reflexivity |].
  destruct O4 as (_ & _ & Hps4 & Hsch4). destruct O2 as (_ & _ & Hps2 & Hsch2).
  destruct O1 as (_ & _ & Hps1 & Hsch1).
  split.
  - rewrite Hsch5, Hsch4, Hsch3, Hsch2, Hsch1. reflexivity.
  - rewrite Hps5, Hps4, Hps3, Hps2, Hps1. simpl.
    rewrite length_fmap, length_imap. reflexivity.
Qed.

Lemma place_firefighters_fresh n m m' :
  _place_firefighters n m = Some m' -> fresh m -> fresh m'.
Proof.
  intros Hp Hf. unfold _place_firefighters in Hp. revert m' Hp.
  apply (foldl_preserves (fun om => forall m', om = Some m' -> fresh m'));
    [| by intros ? [= <-]].
  intros om i IH m' Hm'. unfold place_firefighter in Hm'.
  destruct om as [m1 |]; [| discriminate]. simpl in Hm'.
  destruct (start_positions !! Z.to_nat i) as [[x y] |]; [| discriminate].
  simpl in Hm'. destruct (in_bounds m1 x y); [| discriminate].
  inversion Hm'; subst m'. destruct (IH m1 eq_refl) as [F1 F2].
  split; [| exact F2].
  intros f a. simpl. destruct (decide (S (Z.to_nat i) = f)) as [<- | Hne].
  - rewrite lookup_insert_eq. intros [= <-]. done.
  - rewrite lookup_insert_ne by done. apply F1.
Qed.

Lemma init_fresh w h nff np wh sampled draws k m k' :
  FlashPointModel_init w h nff np wh sampled draws k = Some (m, k') -> fresh m.
Proof.
  unfold FlashPointModel_init. destruct (_ || _); [discriminate |].
  set (m0 := mkModel _ _ _ _ _ _ _ _ _ _ _ _ _).
  destruct (setup_exits_frame m0) as [_ O1].
  destruct (create_walls_frame (_setup_exits m0)) as [_ O2].
  assert (F2 : fresh (_create_walls (_setup_exits m0))).
  { eapply fresh_same_objects; [exact O2 |].
    eapply fresh_same_objects; [exact O1 |]. split; simpl; intros ? ?;
      rewrite lookup_empty; discriminate. }
  destruct (_place_firefighters nff _) as [m3 |] eqn:Hpf; [| discriminate].
  simpl. pose proof (place_firefighters_fresh _ _ _ Hpf F2) as F3.
  destruct (place_initial_fires_frame m3) as [_ O4].
  unfold _place_pois. case_bool_decide; [discriminate |].
  intros [= Hm]. 
  destruct (place_pois_fold draws (imap pair sampled) (_place_initial_fires m3) k)
    as (F5 & _); [by eapply fresh_same_objects |].
  rewrite Hm in F5. exact F5.
Qed.

Lemma reachable_carry_inv m : reachable_state m -> carry_inv m.
Proof.
  induction 1.
  - eapply fresh_carry_inv, init_fresh; eauto.
  - by apply carry_inv_model_step.
  - by apply carry_inv_move_to.
  - by apply carry_inv_extinguish_fire.
  - by apply carry_inv_pickup_poi.
  - by apply carry_inv_drop_poi_at_exit.
Qed.

(** C8.  In every reachable state: a firefighter that carries a POI is the
    one recorded in that POI's [carried_by], and the POI is not rescued; no
    two firefighters carry the same POI; no firefighter is recorded as the
    carrier of two POIs; every POI is in exactly one of the states not picked
    up, carried (by the firefighter whose [carrying_poi] it is) and rescued;
    and a rescued POI has [carried_by] cleared.  The underlying invariant is
    kept by [pickup_poi] (which contains the removal of a revealed false
    alarm) and by [drop_poi_at_exit] from any state that satisfies it. *)
Theorem carry_links_invariant :
  (forall m, reachable_state m ->
     (forall f a p,
         agent_store m !! f = Some a -> carrying_poi a = Some p ->
         exists P, poi_store m !! p = Some P /\ carried_by P = Some f
                   /\ is_rescued P = false)
     /\ (forall f1 f2 a1 a2 p,
           agent_store m !! f1 = Some a1 -> agent_store m !! f2 = Some a2 ->
           carrying_poi a1 = Some p -> carrying_poi a2 = Some p -> f1 = f2)
     /\ (forall p1 p2 P1 P2 f,
           poi_store m !! p1 = Some P1 -> poi_store m !! p2 = Some P2 ->
           carried_by P1 = Some f -> carried_by P2 = Some f -> p1 = p2)
     /\ (forall p P, poi_store m !! p = Some P ->
           (not_picked_up P /\ ~ carried m p P /\ ~ rescued P)
           \/ (~ not_picked_up P /\ carried m p P /\ ~ rescued P)
           \/ (~ not_picked_up P /\ ~ carried m p P /\ rescued P))
     /\ (forall p P, poi_store m !! p = Some P ->
           is_rescued P = true -> carried_by P = None))
  /\ (forall m self,
        carry_inv m ->
        carry_inv (pickup_poi self m).2 /\ carry_inv (drop_poi_at_exit self m).2).
Proof.
  split; [| intros m self I; split;
            [by apply carry_inv_pickup_poi | by apply carry_inv_drop_poi_at_exit]].
  intros m Hr. destruct (reachable_carry_inv m Hr) as [I1 I2 I3].
  split.
  { intros f a p Hf Hc. destruct (I1 _ _ _ Hf Hc) as (P & HP & HPf).
    exists P. split; [done |]. split; [done |].
    destruct (is_rescued P) eqn:Hres; [| done].
    rewrite (I3 _ _ HP Hres) in HPf. discriminate. }
  split.
  { intros f1 f2 a1 a2 p H1 H2 C1 C2.
    destruct (I1 _ _ _ H1 C1) as (P & HP & HPf).
    destruct (I1 _ _ _ H2 C2) as (P' & HP' & HPf'). congruence. }
  split.
  { intros p1 p2 P1 P2 f H1 H2 C1 C2.
    destruct (I2 _ _ _ H1 C1) as (a & Ha & Hc).
    destruct (I2 _ _ _ H2 C2) as (a' & Ha' & Hc'). congruence. }
  split; [| exact I3].
  intros p P HP. unfold not_picked_up, carried, rescued.
  destruct (is_rescued P) eqn:Hres.
  - right. right. rewrite (I3 _ _ HP Hres).
    split; [intros [? _]; discriminate |].
    split; [intros [? _]; discriminate | done].
  - destruct (carried_by P) as [f |] eqn:Hcb.
    + right. left. destruct (I2 _ _ _ HP Hcb) as (a & Ha & Hc).
      split; [intros [_ ?]; discriminate |].
      split; [split; [done | eauto] |]. intros [? _]; discriminate.
    + left. split; [done |].
      split; [intros (_ & f & a & ? & _); discriminate |].
      intros [? _]; discriminate.
Qed.

Lemma carry_links_invariant_witness :
  exists P, poi_store exit_walk_state !! 0%nat = Some P
            /\ carried_by P = Some 1%nat /\ is_rescued P = false.
Proof.
  destruct carry_links_invariant as [Hreach _].
  assert (Hr : reachable_state exit_walk_state).
  { unfold exit_walk_state. do 2 apply reach_move. apply reach_pickup.
    apply reach_move.
    apply (reach_init 10 8 5 1 0 [(2, 3)] calm 0 _ 1).
    vm_compute. reflexivity. }
  destruct (Hreach _ Hr) as (Hcarry & _).
  apply (Hcarry 1%nat (mkFF 0 3 (0, 3) 0 4 (Some 0%nat) unassigned) 0%nat).
  - vm_compute. reflexivity.
  - reflexivity.
Defined.

(** C9 as stated fails: a negative firefighter count and a negative wall
    health are accepted; the simulation is created with no firefighter and
    with walls of negative health. *)
Lemma construction_with_invalid_counts :
  exists m,
    FlashPointModel_init 10 8 (-3) 2 (-1) [(5, 5); (2, 2)] calm 0 = Some (m, 2%nat)
    /\ schedule m = []
    /\ walls m !! (0, 0, 1, 0) = Some (mkWall (-1) (-1)).
Proof.
  eexists. split; [vm_compute; reflexivity |].
  split; vm_compute; reflexivity.
Qed.

(** * Role assignment *)

(** ** The order on scores *)

Ltac score_cases :=
  repeat match goal with
         | s : score |- _ => destruct s
         end;
  simpl in *; repeat case_bool_decide; try done; try lia.

Lemma score_ltb_irrefl a : score_ltb a a = false.
Proof. score_cases. Qed.

Lemma score_ltb_asym a b : score_ltb a b = true -> score_ltb b a = false.
Proof. score_cases. Qed.

Lemma score_leb_trans a b c :
  score_ltb b a = false -> score_ltb c b = false -> score_ltb c a = false.
Proof. score_cases. Qed.

Lemma score_ltb_leb_trans a b c :
  score_ltb a b = true -> score_ltb c b = false -> score_ltb a c = true.
Proof. score_cases. Qed.

Lemma score_leb_ltb_trans a b c :
  score_ltb b a = false -> score_ltb b c = true -> score_ltb a c = true.
Proof. score_cases. Qed.

(** ** The stable sort *)

Section Sorting.
Context {A : Type} `{EqDecision A} (key : A -> score).

Lemma insert_by_perm a l : insert_by key a l ≡ₚ a :: l.
Proof.
  induction l as [| b l IH]; simpl; [done |].
  destruct (score_ltb (key b) (key a)); [| done].
  rewrite IH. apply Permutation_swap.
Qed.

Lemma sort_by_perm l : sort_by key l ≡ₚ l.
Proof.
  induction l as [| a l IH]; simpl; [done |].
  rewrite insert_by_perm. by rewrite IH.
Qed.

Lemma insert_by_sorted a l :
  sorted_by key l -> sorted_by key (insert_by key a l).
Proof.
  unfold sorted_by. induction 1 as [| b l Hs IH Hb]; simpl.
  - repeat constructor.
  - destruct (score_ltb (key b) (key a)) eqn:Hba.
    + constructor; [done |].
      rewrite insert_by_perm. constructor; [| done].
      by apply score_ltb_asym.
    + constructor; [by constructor |].
      constructor; [done |].
      eapply Forall_impl; [exact Hb |]. simpl. intros c Hc.
      eapply score_leb_trans; eauto.
Qed.

Lemma sort_by_sorted l : sorted_by key (sort_by key l).
Proof.
  induction l as [| a l IH]; simpl; [constructor |].
  by apply insert_by_sorted.
Qed.

Lemma length_filter_split (f : A -> bool) l :
  (length (filter (fun y => f y = true) l)
   + length (filter (fun y => f y = false) l))%nat = length l.
Proof.
  induction l as [| b l IH]; [done |].
  rewrite !filter_cons. destruct (f b) eqn:Hb.
  - rewrite decide_True, decide_False by done. simpl. lia.
  - rewrite decide_False, decide_True by done. simpl. lia.
Qed.

Lemma filter_all (P : A -> Prop) `{forall x, Decision (P x)} l :
  Forall P l -> filter P l = l.
Proof.
  induction 1 as [| b l Hb Hl IH]; [done |].
  rewrite filter_cons, decide_True by done. by rewrite IH.
Qed.

Lemma filter_none (P : A -> Prop) `{forall x, Decision (P x)} l :
  Forall (fun x => ~ P x) l -> filter P l = [].
Proof.
  induction 1 as [| b l Hb Hl IH]; [done |].
  by rewrite filter_cons, decide_False by done.
Qed.

(** In a sorted list the strictly smaller elements form a prefix, and the
    insertion lands right behind them. *)
Lemma insert_by_split a l :
  sorted_by key l ->
  insert_by key a l
  = filter (fun y => score_ltb (key y) (key a) = true) l
    ++ a :: filter (fun y => score_ltb (key y) (key a) = false) l.
Proof.
  unfold sorted_by. induction 1 as [| b l Hs IH Hb]; simpl; [done |].
  rewrite !filter_cons. destruct (score_ltb (key b) (key a)) eqn:Hba.
  - rewrite decide_True, decide_False by done. simpl. by rewrite IH.
  - rewrite decide_False, decide_True by done.
    rewrite (filter_none (fun y => score_ltb (key y) (key a) = true)).
    + rewrite (filter_all (fun y => score_ltb (key y) (key a) = false)); [done |].
      eapply Forall_impl; [exact Hb |]. simpl. intros c Hc.
      eapply score_leb_trans; eauto.
    + eapply Forall_impl; [exact Hb |]. simpl. intros c Hc.
      rewrite (score_leb_trans _ _ _ Hba Hc). done.
Qed.

Lemma sorted_by_app_inv l1 x l2 :
  sorted_by key (l1 ++ x :: l2) ->
  Forall (fun y => score_ltb (key x) (key y) = false) l1
  /\ Forall (fun z => score_ltb (key z) (key x) = false) l2.
Proof.
  unfold sorted_by. induction l1 as [| b l1 IH]; simpl; intros Hs.
  - apply StronglySorted_inv in Hs as [_ Hx]. split; [constructor | done].
  - apply StronglySorted_inv in Hs as [Hs Hb].
    destruct (IH Hs) as [H1 H2]. split; [| done].
    constructor; [| done].
    apply Forall_app in Hb as [_ Hb]. by apply Forall_cons in Hb as [Hb _].
Qed.

Lemma rank_of_head a l :
  rank_of key (a :: l) a
  = length (filter (fun y => score_ltb (key y) (key a) = true) l).
Proof.
  unfold rank_of. simpl. rewrite decide_True by done.
  rewrite filter_cons, decide_False; [simpl; lia |].
  by rewrite score_ltb_irrefl.
Qed.

Lemma rank_of_tail a l x :
  a <> x ->
  rank_of key (a :: l) x
  = (rank_of key l x + if score_ltb (key x) (key a) then 0 else 1)%nat.
Proof.
  intros Hne. unfold rank_of. simpl. rewrite decide_False by done.
  rewrite !filter_cons.
  destruct (score_ltb (key x) (key a)) eqn:Hxa.
  - rewrite (score_ltb_asym _ _ Hxa).
    rewrite decide_False by done.
    rewrite decide_False by (intros [_ ?]; done). lia.
  - destruct (score_ltb (key a) (key x)) eqn:Hax.
    + rewrite decide_True by done.
      rewrite decide_False by (intros [? _]; done). simpl. lia.
    + rewrite decide_False by done.
      rewrite decide_True by done. simpl. lia.
Qed.

(** The position of an element in the sorted list is its rank. *)
Lemma sort_by_position l x :
  NoDup l -> x ∈ l ->
  exists S1 S2, sort_by key l = S1 ++ x :: S2
                /\ length S1 = rank_of key l x.
Proof.
  induction 1 as [| a l Ha Hnd IH]; intros Hx; [by apply elem_of_nil in Hx |].
  simpl. rewrite (insert_by_split a _ (sort_by_sorted l)).
  destruct (decide (a = x)) as [-> | Hne].
  - eexists _, _. split; [reflexivity |].
    rewrite rank_of_head. by rewrite sort_by_perm.
  - apply elem_of_cons in Hx as [-> | Hx]; [done |].
    destruct (IH Hx) as (S1 & S2 & HS & Hlen).
    pose proof (sort_by_sorted l) as Hsorted. rewrite HS in Hsorted.
    destruct (sorted_by_app_inv _ _ _ Hsorted) as [H1 H2].
    rewrite (rank_of_tail a l x Hne), HS, !filter_app, !filter_cons.
    destruct (score_ltb (key x) (key a)) eqn:Hxa.
    + rewrite decide_True, decide_False by done.
      rewrite (filter_all (fun y => score_ltb (key y) (key a) = true) S1).
      * exists S1. eexists. split; [by rewrite <- app_assoc |]. lia.
      * eapply Forall_impl; [exact H1 |]. simpl. intros y Hy.
        eapply score_leb_ltb_trans; eauto.
    + rewrite decide_False, decide_True by done.
      rewrite (filter_none (fun y => score_ltb (key y) (key a) = true) S2).
      * exists (filter (fun y => score_ltb (key y) (key a) = true) S1
                ++ a :: filter (fun y => score_ltb (key y) (key a) = false) S1).
        eexists. split.
        -- rewrite app_nil_r, <- !app_assoc. simpl. reflexivity.
        -- rewrite length_app. simpl.
           pose proof (length_filter_split
                         (fun y => score_ltb (key y) (key a)) S1). lia.
      * eapply Forall_impl; [exact H2 |]. simpl. intros z Hz.
        rewrite (score_leb_trans _ _ _ Hxa Hz). done.
Qed.

(** Being among the first [n] of the sorted list is having a rank below [n]. *)
Lemma take_sort_by_rank n l x :
  NoDup l -> x ∈ l ->
  x ∈ take n (sort_by key l) <-> (rank_of key l x < n)%nat.
Proof.
  intros Hnd Hx.
  destruct (sort_by_position l x Hnd Hx) as (S1 & S2 & HS & Hlen).
  assert (Hnd' : NoDup (S1 ++ x :: S2)) by (by rewrite <- HS, sort_by_perm).
  rewrite HS, <- Hlen. split.
  - intros Hin. destruct (decide (length S1 < n)%nat) as [| Hge]; [done |].
    rewrite take_app_le in Hin by lia.
    apply NoDup_app in Hnd' as (_ & Hdisj & _).
    exfalso. apply (Hdisj x); [by eapply subseteq_take | by left].
  - intros Hlt. rewrite take_app_ge by lia.
    apply elem_of_app. right.
    destruct (n - length S1)%nat as [| k] eqn:Hk; [lia |]. simpl. by left.
Qed.
End Sorting.

(** ** Scores *)

Lemma min_dist_fold m a (l : list (nat * POI)) :
  forall d,
    let step := fun (d : score) (rp : nat * POI) =>
                  match get_path_to m a (poi_x rp.2) (poi_y rp.2) with
                  | [] => d
                  | _ => score_min d
                           (Fin (length (get_path_to m a (poi_x rp.2) (poi_y rp.2))))
                  end in
    let r := foldl step d l in
    (r = d \/ exists rp, rp ∈ l
                         /\ get_path_to m a (poi_x rp.2) (poi_y rp.2) <> []
                         /\ r = Fin (length (get_path_to m a (poi_x rp.2) (poi_y rp.2))))
    /\ score_ltb d r = false
    /\ forall rp, rp ∈ l ->
         get_path_to m a (poi_x rp.2) (poi_y rp.2) <> [] ->
         score_ltb (Fin (length (get_path_to m a (poi_x rp.2) (poi_y rp.2)))) r
         = false.
Proof.
  induction l as [| rp l IH]; intros d step r.
  - split; [by left |]. split; [apply score_ltb_irrefl |].
    intros rp Hin. by apply elem_of_nil in Hin.
  - subst r. cbn [foldl]. specialize (IH (step d rp)).
    cbv zeta in IH. fold step in IH.
    destruct IH as (Hr & Hle & Hall).
    set (r := foldl step (step d rp) l) in *.
    set (p := get_path_to m a (poi_x rp.2) (poi_y rp.2)) in *.
    assert (Hstep : (p = [] /\ step d rp = d)
                    \/ (p <> [] /\ step d rp = score_min d (Fin (length p)))).
    { unfold step. fold p. destruct p; [left | right]; done. }
    assert (Hd : score_ltb d (step d rp) = false).
    { destruct Hstep as [[_ ->] | [_ ->]]; [apply score_ltb_irrefl |].
      unfold score_min. destruct (score_ltb (Fin (length p)) d) eqn:Hlt;
        [by apply score_ltb_asym | apply score_ltb_irrefl]. }
    split; [| split].
    + destruct Hr as [Hr | (rp' & Hin & Hne & Hr)].
      * destruct Hstep as [[_ Hs] | [Hne Hs]]; [left; by rewrite Hr |].
        unfold score_min in Hs.
        destruct (score_ltb (Fin (length p)) d); [| left; by rewrite Hr].
        right. exists rp. split; [by left |]. split; [done | by rewrite Hr].
      * right. exists rp'. split; [by right | done].
    + eapply score_leb_trans; [exact Hle | exact Hd].
    + intros rp' Hin Hne. apply elem_of_cons in Hin as [-> | Hin]; [| by apply Hall].
      fold p in Hne |- *. destruct Hstep as [[Hp _] | [_ Hs]]; [done |].
      eapply score_leb_trans; [exact Hle |]. rewrite Hs. unfold score_min.
      destruct (score_ltb (Fin (length p)) d) eqn:Hlt;
        [apply score_ltb_irrefl | done].
Qed.

(** The score is the least path length over the POIs, infinite when no POI
    has a path. *)
Lemma min_dist_spec m a active :
  match min_dist m a active with
  | Inf => forall rp, rp ∈ active ->
                      get_path_to m a (poi_x rp.2) (poi_y rp.2) = []
  | Fin n =>
      (exists rp, rp ∈ active
                  /\ get_path_to m a (poi_x rp.2) (poi_y rp.2) <> []
                  /\ length (get_path_to m a (poi_x rp.2) (poi_y rp.2)) = n)
      /\ forall rp, rp ∈ active ->
           get_path_to m a (poi_x rp.2) (poi_y rp.2) <> [] ->
           (n <= length (get_path_to m a (poi_x rp.2) (poi_y rp.2)))%nat
  end.
Proof.
  destruct (min_dist_fold m a active Inf) as (Hr & _ & Hall).
  unfold min_dist. cbv zeta in Hr, Hall.
  destruct (foldl _ Inf active) as [n |] eqn:Hf.
  - split.
    + destruct Hr as [? | (rp & Hin & Hne & Hr)]; [discriminate |].
      exists rp. split; [done |]. split; [done | congruence].
    + intros rp Hin Hne. specialize (Hall rp Hin Hne). simpl in Hall.
      apply bool_decide_eq_false in Hall. lia.
  - intros rp Hin.
    destruct (get_path_to m a (poi_x rp.2) (poi_y rp.2)) eqn:Hp; [done |].
    specialize (Hall rp Hin). rewrite Hp in Hall. simpl in Hall.
    by specialize (Hall ltac:(done)).
Qed.

(** ** The ranking *)

Lemma firefighter_distances_fmap m active :
  (forall f, f ∈ schedule m -> is_Some (agent_store m !! f)) ->
  firefighter_distances m active
  = (fun f => (f, score_over m active f)) <$> schedule m.
Proof.
  unfold firefighter_distances. induction (schedule m) as [| f l IH];
    intros Hs; [done |].
  simpl. destruct (Hs f) as [a Ha]; [by left |].
  unfold score_over at 1. rewrite Ha. simpl. f_equal.
  apply IH. intros g Hg. apply Hs. by right.
Qed.

Lemma length_filter_fmap {A B} (g : A -> B) (P : B -> Prop)
    `{forall y, Decision (P y)} (l : list A) :
  length (filter P (g <$> l)) = length (filter (fun x => P (g x)) l).
Proof.
  induction l as [| a l IH]; [done |].
  rewrite fmap_cons, !filter_cons.
  destruct (decide (P (g a))); simpl; by rewrite IH.
Qed.

Lemma before_fmap {A B} `{EqDecision A} `{EqDecision B} (g : A -> B)
    `{!Inj (=) (=) g} (x : A) (l : list A) :
  before (g x) (g <$> l) = g <$> before x l.
Proof.
  induction l as [| a l IH]; [done |]. simpl.
  destruct (decide (a = x)) as [-> | Hne].
  - by rewrite decide_True.
  - rewrite decide_False by (intros Heq; by apply (inj g) in Heq).
    simpl. f_equal. exact IH.
Qed.

Lemma rank_of_pairs (sc : nat -> score) (l : list nat) (x : nat) :
  rank_of snd ((fun f => (f, sc f)) <$> l) (x, sc x) = rank_of sc l x.
Proof.
  unfold rank_of.
  assert (Hinj : Inj (=) (=) (fun f : nat => (f, sc f)))
    by (intros ? ? [= ?]; done).
  rewrite (before_fmap (fun f => (f, sc f)) x l).
  by rewrite !length_filter_fmap.
Qed.

Lemma top_3_rank m active self :
  NoDup (schedule m) -> self ∈ schedule m ->
  (forall f, f ∈ schedule m -> is_Some (agent_store m !! f)) ->
  self ∈ (take 3 (sort_by snd (firefighter_distances m active))).*1
  <-> (rank_of (score_over m active) (schedule m) self < 3)%nat.
Proof.
  intros Hnd Hin Hs. rewrite (firefighter_distances_fmap m active Hs).
  rewrite <- (rank_of_pairs (score_over m active) (schedule m) self).
  pose (g := fun f : nat => (f, score_over m active f)).
  change (fun f : nat => (f, score_over m active f)) with g.
  change (self, score_over m active self) with (g self).
  assert (Hinj : Inj (=) (=) g) by (intros ? ? [= ?]; done).
  rewrite <- (take_sort_by_rank snd 3 (g <$> schedule m) (g self));
    [| by apply NoDup_fmap_2 | by apply list_elem_of_fmap_2].
  split.
  - intros Ht. apply list_elem_of_fmap in Ht as ([f s] & Hf & Ht).
    simpl in Hf; subst f.
    assert (Hm : (self, s) ∈ g <$> schedule m).
    { rewrite <- (sort_by_perm snd (g <$> schedule m)).
      by eapply subseteq_take. }
    apply list_elem_of_fmap in Hm as (f' & Heq & _).
    unfold g in Heq. inversion Heq; subst. exact Ht.
  - intros Ht. apply list_elem_of_fmap. exists (g self). split; [done | exact Ht].
Qed.

Lemma assign_role_others self m g :
  g <> self -> agent_store (_assign_role self m) !! g = agent_store m !! g.
Proof.
  intros Hne. unfold _assign_role.
  destruct (role_pois m); simpl; by rewrite lookup_alter_ne.
Qed.

Lemma assign_role_self self m a :
  agent_store m !! self = Some a ->
  role_of (_assign_role self m) self
  = Some (match role_pois m with
          | [] => fire_fighter
          | _ => if bool_decide
                      (self ∈ (take 3 (sort_by snd
                                 (firefighter_distances m (role_pois m)))).*1)
                 then rescuer else fire_fighter
          end).
Proof.
  intros Ha. unfold role_of, _assign_role.
  destruct (role_pois m); simpl; by rewrite lookup_alter_eq, Ha.
Qed.

(** X3 (_assign_role).  When a firefighter recomputes its role, the
    scores are taken over all registered POIs that are not rescued, carried
    ones included, each measured at its recorded cell: a score is the least
    [find_path] length to such a POI, infinite when none has a path.  The
    acting firefighter becomes rescuer exactly when fewer than three scheduled
    firefighters precede it in the ascending ranking by score with ties
    broken by the schedule order; with no such POI it becomes fire_fighter;
    and no other firefighter is changed. *)
Theorem assign_role_ranking (m : FlashPointModel) (self : nat) :
  NoDup (schedule m) -> self ∈ schedule m ->
  (forall f, f ∈ schedule m -> is_Some (agent_store m !! f)) ->
  role_of (_assign_role self m) self = Some (ranked_role m (role_pois m) self)
  /\ (role_pois m = [] -> role_of (_assign_role self m) self = Some fire_fighter)
  /\ (forall g, g <> self ->
        agent_store (_assign_role self m) !! g = agent_store m !! g)
  /\ (forall f a, agent_store m !! f = Some a ->
        match score_over m (role_pois m) f with
        | Inf => forall rp, rp ∈ role_pois m ->
                   find_path m (ff_x a, ff_y a) (poi_x rp.2, poi_y rp.2) = []
        | Fin n =>
            (exists rp, rp ∈ role_pois m
               /\ find_path m (ff_x a, ff_y a) (poi_x rp.2, poi_y rp.2) <> []
               /\ length (find_path m (ff_x a, ff_y a) (poi_x rp.2, poi_y rp.2)) = n)
            /\ forall rp, rp ∈ role_pois m ->
                 find_path m (ff_x a, ff_y a) (poi_x rp.2, poi_y rp.2) <> [] ->
                 (n <= length (find_path m (ff_x a, ff_y a)
                                 (poi_x rp.2, poi_y rp.2)))%nat
        end).
Proof.
  intros Hnd Hin Hs. destruct (Hs self Hin) as [a Ha].
  assert (Hrole : role_of (_assign_role self m) self
                  = Some (ranked_role m (role_pois m) self)).
  { rewrite (assign_role_self self m a Ha). unfold ranked_role.
    destruct (role_pois m) as [| rp l] eqn:Hrp; [done |].
    rewrite <- Hrp. f_equal.
    pose proof (top_3_rank m (role_pois m) self Hnd Hin Hs) as Hiff.
    repeat case_bool_decide; try done; tauto. }
  split; [exact Hrole |].
  split; [intros Hnil; rewrite Hrole; unfold ranked_role; by rewrite Hnil |].
  split; [intros; by apply assign_role_others |].
  intros f b Hb. unfold score_over. rewrite Hb.
  apply (min_dist_spec m b (role_pois m)).
Qed.

Lemma assign_role_ranking_witness :
  role_of (_assign_role 2 one_carried_state) 2
  = Some (ranked_role one_carried_state (role_pois one_carried_state) 2).
Proof.
  assert (Hsch : schedule one_carried_state = [1; 2; 3; 4; 5]%nat)
    by (vm_compute; reflexivity).
  destruct (assign_role_ranking one_carried_state 2) as [H _]; [| | | exact H].
  - rewrite Hsch. apply (bool_decide_unpack _). vm_compute. exact I.
  - rewrite Hsch. apply (bool_decide_unpack _). vm_compute. exact I.
  - rewrite Hsch. intros f Hf.
    repeat (apply elem_of_cons in Hf as [-> | Hf]; [vm_compute; eauto |]).
    inversion Hf.
Defined.

(** Carried POIs count for the roles: with the POI of cell (2, 3) carried by
    firefighter 1 and another POI waiting at (6, 2), firefighter 2 becomes
    rescuer, although a ranking over the uncarried POIs alone would make it
    fire_fighter. *)
Lemma carried_poi_counts_for_roles :
  (carried_by <$> poi_store one_carried_state !! 0%nat) = Some (Some 1%nat)
  /\ role_of (_assign_role 2 one_carried_state) 2 = Some rescuer
  /\ ranked_role one_carried_state (uncarried_pois one_carried_state) 2
     = fire_fighter.
Proof. split; [| split]; vm_compute; reflexivity. Qed.

(** ** How many rescuers *)

Lemma filter_ext_in {A} (P Q : A -> Prop) `{forall x, Decision (P x)}
    `{forall x, Decision (Q x)} (l : list A) :
  (forall x, x ∈ l -> (P x <-> Q x)) -> filter P l = filter Q l.
Proof.
  induction l as [| a l IH]; intros Hpq; [done |].
  rewrite !filter_cons.
  assert (Ha : P a <-> Q a) by (apply Hpq; by left).
  rewrite IH by (intros x Hx; apply Hpq; by right).
  destruct (decide (P a)), (decide (Q a)); tauto.
Qed.

Lemma filter_take_NoDup {A} `{EqDecision A} (n : nat) (s : list A) :
  NoDup s -> filter (fun x => x ∈ take n s) s = take n s.
Proof.
  intros Hnd.
  transitivity (filter (fun x => x ∈ take n s) (take n s ++ drop n s));
    [by rewrite take_drop |].
  rewrite <- (take_drop n s) in Hnd.
  apply NoDup_app in Hnd as (_ & Hdisj & _).
  rewrite filter_app, filter_all, filter_none.
  - by rewrite app_nil_r.
  - apply Forall_forall. intros x Hx Hin. by apply (Hdisj x).
  - by apply Forall_forall.
Qed.

Lemma length_filter_complement {A} (P : A -> Prop) `{forall x, Decision (P x)}
    (l : list A) :
  (length (filter P l) + length (filter (fun x => ~ P x) l))%nat = length l.
Proof.
  induction l as [| a l IH]; [done |].
  rewrite !filter_cons. destruct (decide (P a)).
  - rewrite decide_False by tauto. simpl. lia.
  - rewrite decide_True by done. simpl. lia.
Qed.

(** In one and the same state, the role computation picks the first three of
    the ranking, whoever runs it. *)
Lemma count_would_be_spec m :
  NoDup (schedule m) ->
  (forall f, f ∈ schedule m -> is_Some (agent_store m !! f)) ->
  role_pois m <> [] ->
  count_would_be rescuer m = Nat.min 3 (length (schedule m))
  /\ (count_would_be rescuer m + count_would_be fire_fighter m)%nat
     = length (schedule m).
Proof.
  intros Hnd Hs Hrp. unfold count_would_be.
  set (top := (take 3 (sort_by snd (firefighter_distances m (role_pois m)))).*1).
  assert (Hres : forall f, f ∈ schedule m ->
                   (role_of (_assign_role f m) f = Some rescuer <-> f ∈ top)).
  { intros f Hf. destruct (Hs f Hf) as [a Ha].
    rewrite (assign_role_self f m a Ha).
    destruct (role_pois m); [done |]. fold top.
    case_bool_decide; split; try done; intros [= ?]. }
  assert (Hff : forall f, f ∈ schedule m ->
                   (role_of (_assign_role f m) f = Some fire_fighter <-> ~ f ∈ top)).
  { intros f Hf. destruct (Hs f Hf) as [a Ha].
    rewrite (assign_role_self f m a Ha).
    destruct (role_pois m); [done |]. fold top.
    case_bool_decide; split; try done; intros [= ?]. }
  rewrite (filter_ext_in _ (fun f => f ∈ top) _ Hres).
  rewrite (filter_ext_in _ (fun f => ~ f ∈ top) _ Hff).
  split; [| apply length_filter_complement].
  set (sorted := sort_by snd (firefighter_distances m (role_pois m))) in *.
  assert (Hperm : sorted.*1 ≡ₚ schedule m).
  { unfold sorted. rewrite (sort_by_perm snd).
    rewrite (firefighter_distances_fmap m _ Hs).
    rewrite <- list_fmap_compose. by rewrite list_fmap_id. }
  assert (Htop : top = take 3 (sorted.*1)) by (unfold top; by rewrite fmap_take).
  rewrite Htop, <- Hperm.
  rewrite filter_take_NoDup by (by rewrite Hperm).
  rewrite length_take. done.
Qed.

(** ** A step without active POIs *)

Lemma only_moves_refl f m : only_moves f m m.
Proof. by repeat split. Qed.

Lemma only_moves_trans f m1 m2 m3 :
  only_moves f m1 m2 -> only_moves f m2 m3 -> only_moves f m1 m3.
Proof.
  intros (Hp1 & Hs1 & Hc1 & Ho1 & Hr1) (Hp2 & Hs2 & Hc2 & Ho2 & Hr2).
  repeat split; try congruence. intros g Hg. by rewrite Ho2, Ho1.
Qed.

Lemma only_moves_update_agent f h m :
  (forall a, role (h a) = role a) -> only_moves f m (update_agent f h m).
Proof.
  intros Hh. repeat split; simpl.
  - intros g Hg. by rewrite lookup_alter_ne.
  - unfold role_of. simpl. rewrite lookup_alter_eq.
    destruct (agent_store m !! f); simpl; [by rewrite Hh | done].
Qed.

Lemma only_moves_move_to f x y m : only_moves f m (move_to f x y m).2.
Proof.
  unfold move_to. destruct (agent_store m !! f); [| apply only_moves_refl].
  case_bool_decide; [apply only_moves_refl |].
  destruct (negb _); [apply only_moves_refl |]. simpl.
  eapply only_moves_trans; [| by apply only_moves_update_agent].
  eapply only_moves_trans; [| by apply only_moves_update_agent].
  by apply only_moves_update_agent.
Qed.

Lemma only_moves_set_fire_state f m x y s : only_moves f m (set_fire_state m x y s).
Proof. unfold set_fire_state. destruct (in_bounds m x y); by repeat split. Qed.

Lemma only_moves_extinguish_fire f m : only_moves f m (extinguish_fire f m).2.
Proof.
  unfold extinguish_fire. destruct (agent_store m !! f); [| apply only_moves_refl].
  case_bool_decide; [apply only_moves_refl |].
  destruct (get_fire_state m _ _); simpl; [apply only_moves_refl | |];
    (eapply only_moves_trans; [apply only_moves_set_fire_state |
                               by apply only_moves_update_agent]).
Qed.

Lemma only_moves_firefighting_behavior f m :
  only_moves f m (_firefighting_behavior f m).
Proof.
  unfold _firefighting_behavior.
  destruct (agent_store m !! f) as [a |]; [| apply only_moves_refl].
  destruct (min_by _ _) as [c |]; [| apply only_moves_refl].
  destruct (_ && _); [apply only_moves_extinguish_fire |].
  unfold step_along. destruct (get_path_to m a c.1 c.2) as [| ? [| ? ?]];
    try apply only_moves_refl.
  apply only_moves_move_to.
Qed.

Lemma role_pois_ext m m' :
  pois m' = pois m -> poi_store m' = poi_store m -> role_pois m' = role_pois m.
Proof. intros Hp Hs. unfold role_pois, resolve_pois. by rewrite Hp, Hs. Qed.

(** With no active POI the acting firefighter ends its step as fire_fighter
    and nothing else about roles, POIs or the other firefighters changes. *)
Lemma agent_step_no_pois f m :
  role_pois m = [] -> is_Some (agent_store m !! f) ->
  pois (agent_step f m) = pois m
  /\ poi_store (agent_step f m) = poi_store m
  /\ schedule (agent_step f m) = schedule m
  /\ (forall g, g <> f -> agent_store (agent_step f m) !! g = agent_store m !! g)
  /\ role_of (agent_step f m) f = Some fire_fighter.
Proof.
  intros Hrp [a Ha]. unfold agent_step.
  set (m1 := update_agent f (fun a => set_action_points (max_action_points a) a) m).
  assert (Hrp1 : role_pois m1 = []) by (rewrite <- Hrp; by apply role_pois_ext).
  assert (Hm2 : _assign_role f m1 = update_agent f (set_role fire_fighter) m1)
    by (unfold _assign_role; by rewrite Hrp1).
  rewrite Hm2.
  set (m2 := update_agent f (set_role fire_fighter) m1).
  assert (Ha2 : agent_store m2 !! f
                = Some (set_role fire_fighter
                          (set_action_points (max_action_points a) a))).
  { unfold m2, m1. simpl. by rewrite !lookup_alter_eq, Ha. }
  rewrite Ha2. rewrite bool_decide_eq_false_2 by done.
  destruct (only_moves_firefighting_behavior f m2) as (Hp & Hs & Hsch & Ho & Hr).
  split; [by rewrite Hp |]. split; [by rewrite Hs |]. split; [by rewrite Hsch |].
  split.
  - intros g Hg. rewrite (Ho g Hg). unfold m2, m1. simpl.
    by rewrite !lookup_alter_ne.
  - rewrite Hr. unfold role_of. by rewrite Ha2.
Qed.

Lemma agents_step_no_pois order :
  forall m,
    role_pois m = [] ->
    (forall f, f ∈ order -> is_Some (agent_store m !! f)) ->
    let m' := foldl (fun m self => agent_step self m) m order in
    schedule m' = schedule m
    /\ (forall f, f ∈ order -> role_of m' f = Some fire_fighter)
    /\ (forall g, g ∉ order -> agent_store m' !! g = agent_store m !! g).
Proof.
  induction order as [| f order IH]; intros m Hrp Hs; cbn [foldl].
  - split; [done |]. split; [| done]. intros f Hf. by apply elem_of_nil in Hf.
  - destruct (agent_step_no_pois f m Hrp) as (Hp & Hst & Hsch & Ho & Hr);
      [apply Hs; by left |].
    destruct (IH (agent_step f m)) as (Hsch' & Hroles & Hkeep).
    + rewrite <- Hrp. by apply role_pois_ext.
    + intros g Hg. destruct (decide (g = f)) as [-> | Hne].
      * unfold role_of in Hr.
        destruct (agent_store (agent_step f m) !! f); [eauto | discriminate].
      * rewrite (Ho g Hne). apply Hs. by right.
    + cbv zeta. split; [by rewrite Hsch', Hsch |]. split.
      * intros g Hg. destruct (decide (g ∈ order)) as [Hin | Hnin];
          [by apply Hroles |].
        apply elem_of_cons in Hg as [-> | Hg]; [| done].
        unfold role_of. rewrite (Hkeep f Hnin). exact Hr.
      * intros g Hg. apply not_elem_of_cons in Hg as [Hgf Hg].
        by rewrite (Hkeep g Hg), (Ho g Hgf).
Qed.

Lemma model_step_no_pois order draws k m :
  role_pois m = [] ->
  (forall f, f ∈ order -> is_Some (agent_store m !! f)) ->
  schedule (model_step order draws k m).1 = order
  /\ forall f, f ∈ order ->
       role_of (model_step order draws k m).1 f = Some fire_fighter.
Proof.
  intros Hrp Hs. unfold model_step.
  destruct (agents_step_no_pois order (set_schedule order m)) as (Hsch & Hroles & _);
    [by rewrite <- Hrp | exact Hs |].
  cbv zeta in Hsch, Hroles.
  set (m1 := schedule_step order m).
  assert (Hsch1 : schedule m1 = order) by exact Hsch.
  assert (Hst1 : forall f, role_of m1 f
                           = role_of (foldl (fun m self => agent_step self m)
                                        (set_schedule order m) order) f)
    by done.
  destruct (spread_fire draws k m1) as [m2 k2] eqn:Hsp.
  pose proof (same_objects_spread_fire draws k m1) as O2. rewrite Hsp in O2.
  pose proof (same_objects_check_explosions draws k2 m2) as O3.
  destruct (same_objects_trans _ _ _ O2 O3) as (Hag & _ & _ & Hsc).
  split; [by rewrite Hsc |].
  intros f Hf. unfold role_of. rewrite Hag. rewrite <- (Hroles f Hf).
  apply Hst1.
Qed.

(** X4 (_assign_role, FirefighterAgent.step).  With exactly five firefighters, a role
    computation run in a state with at least one POI that is not rescued
    ranks exactly three of the five as rescuer and two as fire_fighter,
    whoever runs it in that state; and after a model step that starts with no
    such POI all five hold the role fire_fighter.  (Each firefighter runs the
    computation at its own activation, on the state left by the firefighters
    activated before it, so nothing is said about the roles held after a
    step with an active POI.) *)
Theorem role_counts_five (m : FlashPointModel) :
  length (schedule m) = 5%nat -> NoDup (schedule m) ->
  (forall f, f ∈ schedule m -> is_Some (agent_store m !! f)) ->
  (role_pois m <> [] ->
     count_would_be rescuer m = 3%nat /\ count_would_be fire_fighter m = 2%nat)
  /\ (role_pois m = [] ->
      forall order draws k, order ≡ₚ schedule m ->
        count_role fire_fighter (model_step order draws k m).1 = 5%nat
        /\ count_role rescuer (model_step order draws k m).1 = 0%nat).
Proof.
  intros Hlen Hnd Hs. split.
  - intros Hrp. destruct (count_would_be_spec m Hnd Hs Hrp) as [H3 Hsum].
    rewrite Hlen in H3, Hsum. simpl in H3. lia.
  - intros Hrp order draws k Hperm.
    destruct (model_step_no_pois order draws k m Hrp) as [Hsch Hroles].
    { intros f Hf. apply Hs. by rewrite <- Hperm. }
    unfold count_role. rewrite Hsch. split.
    + rewrite filter_all by (by apply Forall_forall).
      by rewrite Hperm.
    + rewrite filter_none; [done |].
      apply Forall_forall. intros f Hf. rewrite (Hroles f Hf). discriminate.
Qed.

Lemma role_counts_five_witness :
  count_would_be rescuer (open_board [(5, 5)]) = 3%nat
  /\ count_would_be fire_fighter (open_board [(5, 5)]) = 2%nat.
Proof.
  assert (Hsch : schedule (open_board [(5, 5)]) = [1; 2; 3; 4; 5]%nat)
    by (vm_compute; reflexivity).
  destruct (role_counts_five (open_board [(5, 5)])) as [H _]; [| | | apply H].
  - rewrite Hsch. reflexivity.
  - rewrite Hsch. apply (bool_decide_unpack _). vm_compute. exact I.
  - rewrite Hsch. intros f Hf.
    repeat (apply elem_of_cons in Hf as [-> | Hf]; [vm_compute; eauto |]).
    inversion Hf.
  - intros Hnil. vm_compute in Hnil. discriminate.
Defined.

(** The roles held after a step need not split three to two.  On the default
    board built with wall health 0 and one POI at (5, 5), with the
    activation order 1, 2, 3, 4, 5 and no fire
    spreading: firefighter 1 ranks fourth and, as fire_fighter, steps towards
    the fire at (3, 3), which brings it level with firefighters 2 and 3;
    firefighter 3, activated later, then ranks fourth.  The POI is neither
    picked up nor rescued, and the step ends with two rescuers and three
    fire_fighters. *)
Lemma step_leaves_two_rescuers :
  let m := open_board [(5, 5)] in
  let m' := (model_step [1; 2; 3; 4; 5]%nat calm 0 m).1 in
  FlashPointModel_init 10 8 5 1 0 [(5, 5)] calm 0 = Some (m, 1%nat)
  /\ length (schedule m) = 5%nat
  /\ length (uncarried_pois m) = 1%nat /\ length (uncarried_pois m') = 1%nat
  /\ (role_of m' <$> schedule m')
     = [Some fire_fighter; Some rescuer; Some fire_fighter; Some rescuer;
        Some fire_fighter]
  /\ count_role rescuer m' = 2%nat /\ count_role fire_fighter m' = 3%nat.
Proof.
  intros m m'. split; [vm_compute; reflexivity |].
  split; [vm_compute; reflexivity |]. split; [vm_compute; reflexivity |].
  split; [vm_compute; reflexivity |]. split; [vm_compute; reflexivity |].
  split; vm_compute; reflexivity.
Qed.

(** * The environment passes *)

(** ** Grids *)

Section Grid.
Context {A : Type}.
Implicit Types (g : grid A) (d v : A).

Lemma grid_shape_set g w h x y v :
  grid_shape g w h -> grid_shape (grid_set g x y v) w h.
Proof.
  unfold grid_shape, grid_set, grid in *. intros [Hlen Hrows]. split.
  - by rewrite length_alter.
  - apply Forall_alter; [done |].
    intros row _ Hrow. by rewrite length_insert.
Qed.

Lemma grid_get_set_same g w h d x y v :
  grid_shape g w h -> 0 <= x < w -> 0 <= y < h ->
  grid_get d (grid_set g x y v) x y = v.
Proof.
  unfold grid_shape, grid_get, grid_set, grid in *. intros [Hlen Hrows] Hx Hy.
  rewrite list_lookup_alter_eq.
  destruct (lookup_lt_is_Some_2 g (Z.to_nat y)) as [row Hrow]; [lia |].
  rewrite Hrow. simpl.
  rewrite Forall_forall in Hrows.
  assert (length row = Z.to_nat w)
    by (apply Hrows; by eapply list_elem_of_lookup_2).
  rewrite list_lookup_insert_eq by lia. done.
Qed.

Lemma grid_get_set_other g d x y v x' y' :
  0 <= x -> 0 <= y -> 0 <= x' -> 0 <= y' -> (x', y') <> (x, y) ->
  grid_get d (grid_set g x y v) x' y' = grid_get d g x' y'.
Proof.
  intros Hx Hy Hx' Hy' Hne. unfold grid_get, grid_set, grid in *.
  destruct (decide (y' = y)) as [-> | Hyy].
  - rewrite list_lookup_alter_eq.
    destruct (g !! Z.to_nat y) as [row |]; simpl; [| done].
    rewrite list_lookup_insert_ne; [done |].
    intros Heq. apply Hne. f_equal. lia.
  - rewrite list_lookup_alter_ne; [done |]. lia.
Qed.
End Grid.

Lemma in_bounds_inv m x y :
  in_bounds m x y = true -> 0 <= x < width m /\ 0 <= y < height m.
Proof.
  unfold in_bounds. intros H. destruct (andb_prop _ _ H) as [Hx Hy].
  apply bool_decide_eq_true in Hx. apply bool_decide_eq_true in Hy. done.
Qed.

Lemma in_bounds_shape m m' x y :
  width m' = width m -> height m' = height m -> in_bounds m' x y = in_bounds m x y.
Proof. intros Hw Hh. unfold in_bounds. by rewrite Hw, Hh. Qed.

(** ** The double loop *)

Lemma foldl_bind {S B C} (f : S -> C -> S) (k : B -> list C) (l : list B) :
  forall s, foldl f s (l ≫= k) = foldl (fun s b => foldl f s (k b)) s l.
Proof.
  induction l as [| b l IH]; intros s; [done |].
  rewrite bind_cons, foldl_app. apply IH.
Qed.

Lemma foldl_ext_fun {S B} (f f' : S -> B -> S) (l : list B) :
  (forall s b, f s b = f' s b) -> forall s, foldl f s l = foldl f' s l.
Proof.
  intros Hf. induction l as [| b l IH]; intros s; [done |].
  simpl. by rewrite Hf, IH.
Qed.

(** The nested loops visit the cells row by row, each row from left to
    right. *)
Lemma for_yx_scan_cells {S} w h (body : S -> Z -> Z -> S) s :
  for_yx w h body s = scan_cells w h body s.
Proof.
  unfold for_yx, scan_cells, cells_row_major.
  rewrite foldl_bind. apply foldl_ext_fun. intros s' y.
  rewrite foldl_bind. by apply foldl_ext_fun.
Qed.

(** ** One explosion *)

Lemma same_objects_fields_damage_wall m x1 y1 x2 y2 :
  width (damage_wall m x1 y1 x2 y2) = width m
  /\ height (damage_wall m x1 y1 x2 y2) = height m
  /\ fire_grid (damage_wall m x1 y1 x2 y2) = fire_grid m
  /\ cell_types (damage_wall m x1 y1 x2 y2) = cell_types m
  /\ explosion_count (damage_wall m x1 y1 x2 y2) = explosion_count m.
Proof. unfold damage_wall. by destruct (walls m !! _). Qed.

(** The wall loop of an explosion: every wall towards a neighbour on the
    board takes one unit of damage, the others none. *)
Lemma blast_walls_fold x y (dirs : list (Z * Z)) :
  NoDup ((fun d : Z * Z => _get_wall_key x y (x + d.1) (y + d.2)) <$> dirs) ->
  forall m,
    let m' := foldl (fun m (d : Z * Z) =>
                       if in_bounds m (x + d.1) (y + d.2)
                       then damage_wall m x y (x + d.1) (y + d.2) else m)
                    m dirs in
    width m' = width m /\ height m' = height m
    /\ fire_grid m' = fire_grid m /\ cell_types m' = cell_types m
    /\ explosion_count m' = explosion_count m
    /\ forall k,
         walls m' !! k
         = if decide (k ∈ (fun d : Z * Z => _get_wall_key x y (x + d.1) (y + d.2))
                            <$> filter (fun d : Z * Z =>
                                          in_bounds m (x + d.1) (y + d.2) = true) dirs)
           then (fun w => (take_damage w 1).1) <$> walls m !! k
           else walls m !! k.
Proof.
  induction dirs as [| d dirs IH]; intros Hnd m; cbn [foldl].
  - simpl. repeat split; done.
  - rewrite fmap_cons in Hnd. apply NoDup_cons in Hnd as [Hd Hnd].
    set (m1 := if in_bounds m (x + d.1) (y + d.2)
               then damage_wall m x y (x + d.1) (y + d.2) else m).
    assert (Hf1 : width m1 = width m /\ height m1 = height m
                  /\ fire_grid m1 = fire_grid m /\ cell_types m1 = cell_types m
                  /\ explosion_count m1 = explosion_count m).
    { unfold m1. destruct (in_bounds m _ _); [| done].
      apply same_objects_fields_damage_wall. }
    destruct Hf1 as (W1 & H1 & F1 & C1 & E1).
    destruct (IH Hnd m1) as (W & H & F & C & E & Hk).
    cbv zeta. split; [congruence |]. split; [congruence |].
    split; [congruence |]. split; [congruence |]. split; [congruence |].
    intros k. rewrite Hk.
    assert (Hfilt : filter (fun d0 : Z * Z => in_bounds m1 (x + d0.1) (y + d0.2) = true) dirs
                    = filter (fun d0 : Z * Z => in_bounds m (x + d0.1) (y + d0.2) = true) dirs).
    { apply list_filter_iff. intros d0.
      rewrite (in_bounds_shape m m1 _ _ W1 H1). reflexivity. }
    rewrite Hfilt. unfold m1.
    destruct (in_bounds m (x + d.1) (y + d.2)) eqn:Hb.
    + rewrite filter_cons_True by done. rewrite fmap_cons.
      rewrite damage_wall_lookup.
      destruct (decide (k = _get_wall_key x y (x + d.1) (y + d.2))) as [-> | Hne].
      * rewrite decide_False.
        -- rewrite decide_True by (by left). done.
        -- intros Hin. apply Hd. eapply list_elem_of_fmap in Hin as (d0 & -> & Hin).
           apply list_elem_of_fmap. exists d0. split; [done |].
           by apply list_elem_of_filter in Hin as [_ Hin].
      * destruct (decide (k ∈ _)) as [Hin | Hnin].
        -- rewrite decide_True by (by right). done.
        -- rewrite decide_False; [done |]. intros Hin.
           apply elem_of_cons in Hin as [? | ?]; done.
    + rewrite filter_cons_False by (rewrite Hb; done). done.
Qed.

Lemma directions4_keys_NoDup x y :
  NoDup ((fun d : Z * Z => _get_wall_key x y (x + d.1) (y + d.2)) <$> directions4).
Proof.
  unfold directions4, _get_wall_key. simpl.
  repeat case_bool_decide; try lia.
  repeat (apply NoDup_cons; split;
          [intros Hin;
           repeat (apply elem_of_cons in Hin as [Hin | Hin];
                   [inversion Hin; lia |]);
           by apply elem_of_nil in Hin |]).
  apply NoDup_nil_2.
Qed.

(** The smoke loop of an explosion: every listed neighbour on the board that
    is Clear turns to Smoke, and nothing else changes. *)
Lemma blast_smoke_fold x y (dirs : list (Z * Z)) :
  forall m,
    grid_shape (fire_grid m) (width m) (height m) ->
    let m' := foldl (fun m (d : Z * Z) =>
                       let nx := x + d.1 in
                       let ny := y + d.2 in
                       if in_bounds m nx ny then
                         if bool_decide (grid_get CLEAR (fire_grid m) nx ny = CLEAR)
                         then set_fire_grid (grid_set (fire_grid m) nx ny SMOKE) m
                         else m
                       else m)
                    m dirs in
    same_but_fire m m'
    /\ grid_shape (fire_grid m') (width m') (height m')
    /\ forall c, in_bounds m c.1 c.2 = true ->
         grid_get CLEAR (fire_grid m') c.1 c.2
         = if decide (c ∈ shift (x, y) <$> dirs
                      /\ grid_get CLEAR (fire_grid m) c.1 c.2 = CLEAR)
           then SMOKE else grid_get CLEAR (fire_grid m) c.1 c.2.
Proof.
  induction dirs as [| d dirs IH]; intros m Hshape; cbn [foldl].
  - cbv zeta. split; [by repeat split |]. split; [done |].
    intros c _. rewrite decide_False; [done |]. intros [Hin _].
    by apply elem_of_nil in Hin.
  - cbv zeta.
    remember (shift (x, y) d) as n eqn:Hn.
    assert (Hn1 : x + d.1 = n.1) by (by subst n).
    assert (Hn2 : y + d.2 = n.2) by (by subst n).
    rewrite Hn1, Hn2.
    set (m1 := if in_bounds m n.1 n.2 then _ else m).
    assert (H1 : same_but_fire m m1
                 /\ grid_shape (fire_grid m1) (width m1) (height m1)
                 /\ forall c, in_bounds m c.1 c.2 = true ->
                      grid_get CLEAR (fire_grid m1) c.1 c.2
                      = if decide (c = n /\ grid_get CLEAR (fire_grid m) c.1 c.2 = CLEAR)
                        then SMOKE else grid_get CLEAR (fire_grid m) c.1 c.2).
    { unfold m1. destruct (in_bounds m n.1 n.2) eqn:Hb.
      - case_bool_decide as Hc.
        + split; [by repeat split |].
          split; [simpl; by apply grid_shape_set |].
          intros c Hcb. simpl. apply in_bounds_inv in Hb, Hcb.
          destruct (decide (c = n)) as [-> | Hne].
          * rewrite decide_True by done.
            eapply grid_get_set_same; [exact Hshape | lia | lia].
          * rewrite decide_False by (intros [? _]; done).
            apply grid_get_set_other; try lia.
            intros Heq. apply Hne. rewrite (surjective_pairing c), Heq.
            symmetry. apply surjective_pairing.
        + split; [by repeat split |]. split; [done |].
          intros c Hcb. rewrite decide_False; [done |].
          intros [-> ?]. done.
      - split; [by repeat split |]. split; [done |].
        intros c Hcb. rewrite decide_False; [done |].
        intros [-> ?]. congruence. }
    destruct H1 as (S1 & Sh1 & G1).
    destruct (IH m1 Sh1) as (S2 & Sh2 & G2). cbv zeta in S2, Sh2, G2.
    split.
    { unfold same_but_fire in *. destruct S1 as (?&?&?&?&?&?&?&?&?&?&?&?).
      destruct S2 as (?&?&?&?&?&?&?&?&?&?&?&?). repeat split; congruence. }
    split; [done |].
    intros c Hcb.
    assert (Hcb1 : in_bounds m1 c.1 c.2 = true).
    { destruct S1 as (W & H & _). by rewrite (in_bounds_shape m m1 _ _ W H). }
    rewrite (G2 c Hcb1).
    rewrite (G1 c Hcb). rewrite fmap_cons, <- Hn.
    destruct (decide (c = n)) as [-> | Hne].
    + destruct (decide (grid_get CLEAR (fire_grid m) n.1 n.2 = CLEAR)) as [Hc | Hc].
      * rewrite (decide_True (P := n = n /\ _)) by done.
        rewrite decide_False by (intros [_ ?]; done).
        rewrite decide_True; [done |]. split; [by left | done].
      * rewrite (decide_False (P := n = n /\ _)) by (intros [_ ?]; done).
        rewrite decide_False by (intros [_ ?]; done).
        rewrite decide_False by (intros [_ ?]; done). done.
    + rewrite (decide_False (P := c = n /\ _)) by (intros [? _]; done).
      destruct (decide (c ∈ shift (x, y) <$> dirs /\ _)) as [[Hin Hc] | Hnot].
      * rewrite decide_True; [done |]. split; [by right | done].
      * rewrite decide_False; [done |]. intros [Hin Hc]. apply Hnot.
        apply elem_of_cons in Hin as [? | ?]; done.
Qed.

Lemma trigger_explosion_unfold s x y :
  _trigger_explosion s x y
  = foldl (fun m (d : Z * Z) =>
             let nx := x + d.1 in
             let ny := y + d.2 in
             if in_bounds m nx ny then
               if bool_decide (grid_get CLEAR (fire_grid m) nx ny = CLEAR)
               then set_fire_grid (grid_set (fire_grid m) nx ny SMOKE) m
               else m
             else m)
          (foldl (fun m (d : Z * Z) =>
                    if in_bounds m (x + d.1) (y + d.2)
                    then damage_wall m x y (x + d.1) (y + d.2) else m)
                 (set_explosion_count (explosion_count s + 1) s) directions4)
          directions8.
Proof. reflexivity. Qed.

Lemma trigger_explosion_spec s x y :
  grid_shape (fire_grid s) (width s) (height s) ->
  let s' := _trigger_explosion s x y in
  explosion_count s' = explosion_count s + 1
  /\ (forall key,
        walls s' !! key
        = if decide (key ∈ blast_walls s x y)
          then (fun w => (take_damage w 1).1) <$> walls s !! key
          else walls s !! key)
  /\ (forall c, in_bounds s c.1 c.2 = true ->
        grid_get CLEAR (fire_grid s') c.1 c.2
        = if decide (c ∈ shift (x, y) <$> directions8
                     /\ grid_get CLEAR (fire_grid s) c.1 c.2 = CLEAR)
          then SMOKE else grid_get CLEAR (fire_grid s) c.1 c.2)
  /\ width s' = width s /\ height s' = height s
  /\ cell_types s' = cell_types s
  /\ same_objects s s'
  /\ grid_shape (fire_grid s') (width s') (height s').
Proof.
  intros Hshape. cbv zeta.
  pose proof (same_objects_trigger_explosion s x y) as Hobj.
  rewrite trigger_explosion_unfold in *.
  pose proof (blast_walls_fold x y directions4 (directions4_keys_NoDup x y)
                (set_explosion_count (explosion_count s + 1) s)) as HW.
  cbv zeta in HW.
  match type of HW with
  | context [foldl ?f ?a directions4] =>
      remember (foldl f a directions4) as m2 eqn:Hm2
  end.
  destruct HW as (W2 & H2 & F2 & C2 & E2 & K2).
  cbn [width height fire_grid cell_types explosion_count walls
       set_explosion_count] in W2, H2, F2, C2, E2, K2.
  assert (Hshape2 : grid_shape (fire_grid m2) (width m2) (height m2))
    by (by rewrite F2, W2, H2).
  pose proof (blast_smoke_fold x y directions8 m2 Hshape2) as HS.
  cbv zeta in HS.
  match type of HS with
  | context [foldl ?f m2 directions8] =>
      remember (foldl f m2 directions8) as m3 eqn:Hm3
  end.
  destruct HS as (S3 & Sh3 & G3).
  destruct S3 as (W3 & H3 & _ & _ & E3 & C3 & Wl3 & _).
  split; [by rewrite E3, E2 |].
  split; [intros key; rewrite Wl3; apply K2 |].
  split.
  { intros c Hc. rewrite (G3 c); [by rewrite F2 |].
    unfold in_bounds in *. by rewrite W2, H2. }
  split; [by rewrite W3, W2 |]. split; [by rewrite H3, H2 |].
  split; [by rewrite C3, C2 |]. split; [exact Hobj |].
  exact Sh3.
Qed.

(** The scan is in place: on the row of two burning hotspots the second
    explosion meets the wall already damaged by the first and destroys it. *)
Lemma explosions_accumulate :
  explosion_count (check_explosions wild 0 hot_row).1 = 2
  /\ health <$> walls (check_explosions wild 0 hot_row).1 !! (0, 0, 1, 0) = Some 0
  /\ health <$> walls (check_explosions wild 0 hot_row).1 !! (1, 0, 2, 0) = Some 1.
Proof. split; [| split]; vm_compute; reflexivity. Qed.

(** ** Fire spread *)

Section Before.
Context {A : Type} `{EqDecision A}.
Implicit Types (l : list A) (x y : A).

Lemma before_cons_eq x l : before x (x :: l) = [].
Proof. simpl. by rewrite decide_True. Qed.

Lemma before_cons_ne x y l : y <> x -> before x (y :: l) = y :: before x l.
Proof. intros Hne. simpl. by rewrite decide_False. Qed.

Lemma before_lookup x l : x ∈ l -> l !! length (before x l) = Some x.
Proof.
  induction l as [| y l IH]; intros Hin; [by apply elem_of_nil in Hin |].
  destruct (decide (y = x)) as [-> | Hne].
  - by rewrite before_cons_eq.
  - rewrite before_cons_ne by done. simpl. apply IH.
    apply elem_of_cons in Hin as [? | ?]; [congruence | done].
Qed.

Lemma before_length_lt x l : x ∈ l -> (length (before x l) < length l)%nat.
Proof. intros Hin. eapply lookup_lt_Some, before_lookup, Hin. Qed.

Lemma before_length_inj x y l :
  x ∈ l -> y ∈ l -> length (before x l) = length (before y l) -> x = y.
Proof.
  intros Hx Hy Heq. apply before_lookup in Hx, Hy. rewrite Heq in Hx. congruence.
Qed.

Lemma sum_before_le (f : A -> nat) x y l :
  x ∈ before y l ->
  (sum_list (f <$> before x l) + f x <= sum_list (f <$> before y l))%nat.
Proof.
  induction l as [| a l IH]; intros Hin; [by apply elem_of_nil in Hin |].
  destruct (decide (a = y)) as [-> | Hay];
    [rewrite before_cons_eq in Hin; by apply elem_of_nil in Hin |].
  rewrite (before_cons_ne y a) in Hin |- * by done.
  destruct (decide (a = x)) as [-> | Hax].
  - rewrite before_cons_eq, ?fmap_cons. simpl. lia.
  - rewrite (before_cons_ne x a) by done.
    apply elem_of_cons in Hin as [? | Hin]; [congruence |].
    specialize (IH Hin). rewrite ?fmap_cons. simpl. lia.
Qed.

Lemma sum_before_total (f : A -> nat) x l :
  x ∈ l -> (sum_list (f <$> before x l) + f x <= sum_list (f <$> l))%nat.
Proof.
  induction l as [| a l IH]; intros Hin; [by apply elem_of_nil in Hin |].
  destruct (decide (a = x)) as [-> | Hax].
  - rewrite before_cons_eq, ?fmap_cons. simpl. lia.
  - rewrite (before_cons_ne x a) by done.
    apply elem_of_cons in Hin as [? | Hin]; [congruence |].
    specialize (IH Hin). rewrite ?fmap_cons. simpl. lia.
Qed.
End Before.

Lemma existsb_ext_in {A} (f f' : A -> bool) (l : list A) :
  (forall x, x ∈ l -> f x = f' x) -> existsb f l = existsb f' l.
Proof.
  induction l as [| a l IH]; intros Hf; [done |].
  simpl. rewrite (Hf a) by (by left).
  rewrite IH; [done |]. intros x Hx. apply Hf. by right.
Qed.

Lemma existsb_cons {A} (f : A -> bool) (a : A) (l : list A) :
  existsb f (a :: l) = f a || existsb f l.
Proof. reflexivity. Qed.

Lemma existsb_elem {A} (f : A -> bool) (l : list A) :
  existsb f l = true <-> exists x, x ∈ l /\ f x = true.
Proof.
  rewrite existsb_exists. split; intros (x & Hx & Hf); exists x;
    (split; [by apply list_elem_of_In | done]).
Qed.

Section Spread.
Variables (draws : nat -> Q) (m : FlashPointModel).

Lemma spread_targets_filter x y :
  spread_targets m x y = filter (draws_towards m x y) directions4.
Proof. reflexivity. Qed.

(** One neighbour, by cases on whether a draw is made. *)
Lemma spread_neighbour_draw x y g j d :
  draws_towards m x y d ->
  spread_neighbour draws m x y (g, j) d
  = (if Qlt_bool (draws j) (2 # 10)
     then grid_set g (x + d.1) (y + d.2) SMOKE else g, S j).
Proof.
  unfold draws_towards, spread_neighbour. intros Hd.
  apply andb_true_iff in Hd as [Hd1 Hd2]. rewrite Hd1, Hd2. simpl.
  by destruct (Qlt_bool _ _).
Qed.

Lemma spread_neighbour_skip x y g j d :
  ~ draws_towards m x y d -> spread_neighbour draws m x y (g, j) d = (g, j).
Proof.
  unfold draws_towards, spread_neighbour. intros Hd.
  destruct (in_bounds m _ _ && _); [| done].
  destruct (negb _); [| done]. by destruct Hd.
Qed.

Lemma draws_towards_inv x y d :
  draws_towards m x y d ->
  in_bounds m (x + d.1) (y + d.2) = true
  /\ grid_get CLEAR (fire_grid m) (x + d.1) (y + d.2) = CLEAR
  /\ has_wall_between m x y (x + d.1) (y + d.2) = false.
Proof.
  unfold draws_towards. intros Hd.
  apply andb_true_iff in Hd as [Hd1 Hd2].
  apply andb_true_iff in Hd1 as [Hb Hc].
  apply bool_decide_eq_true in Hc. apply negb_true_iff in Hd2. done.
Qed.

(** The loop over the neighbours of the burning cell (x, y). *)
Lemma spread_neighbours_fold x y (D : list (Z * Z)) :
  NoDup D ->
  forall g j,
    grid_shape g (width m) (height m) ->
    let F := filter (draws_towards m x y) D in
    let r := foldl (spread_neighbour draws m x y) (g, j) D in
    grid_shape r.1 (width m) (height m)
    /\ r.2 = (j + length F)%nat
    /\ forall c, in_bounds m c.1 c.2 = true ->
         grid_get CLEAR r.1 c.1 c.2
         = if existsb (fun d : Z * Z =>
                         bool_decide (c = shift (x, y) d)
                         && Qlt_bool (draws (j + length (before d F))%nat) (2 # 10)) F
           then SMOKE else grid_get CLEAR g c.1 c.2.
Proof.
  induction 1 as [| d D Hd Hnd IH]; intros g j Hg; cbn [foldl]; cbv zeta.
  - simpl. split; [done |]. split; [lia | done].
  - destruct (decide (draws_towards m x y d)) as [Hp | Hp].
    + rewrite (spread_neighbour_draw x y g j d Hp).
      rewrite filter_cons_True by done.
      set (g1 := if Qlt_bool (draws j) (2 # 10)
                 then grid_set g (x + d.1) (y + d.2) SMOKE else g).
      assert (Hg1 : grid_shape g1 (width m) (height m)).
      { unfold g1. destruct (Qlt_bool _ _); [by apply grid_shape_set | done]. }
      destruct (IH g1 (S j) Hg1) as (Hs & Hj & Hc). cbv zeta in Hs, Hj, Hc.
      split; [done |]. split; [rewrite Hj; simpl; lia |].
      intros c Hcb. rewrite (Hc c Hcb). rewrite existsb_cons. cbv beta.
      rewrite before_cons_eq. cbn [length]. rewrite Nat.add_0_r.
      set (F := filter (draws_towards m x y) D).
      assert (Hext : existsb (fun d0 : Z * Z =>
                         bool_decide (c = shift (x, y) d0)
                         && Qlt_bool (draws (j + length (before d0 (d :: F)))%nat) (2 # 10)) F
                     = existsb (fun d0 : Z * Z =>
                         bool_decide (c = shift (x, y) d0)
                         && Qlt_bool (draws (S j + length (before d0 F))%nat) (2 # 10)) F).
      { apply existsb_ext_in. intros d0 Hd0.
        assert (d <> d0).
        { intros ->. apply Hd. by apply list_elem_of_filter in Hd0 as [_ ?]. }
        rewrite before_cons_ne by done. cbn [length].
        by rewrite Nat.add_succ_r. }
      rewrite Hext.
      match goal with
      | |- context [existsb ?f F] => destruct (existsb f F)
      end; [by rewrite orb_true_r |]. rewrite orb_false_r.
      destruct (draws_towards_inv x y d Hp) as (Hb & _ & _).
      apply in_bounds_inv in Hb. apply in_bounds_inv in Hcb.
      unfold g1. destruct (Qlt_bool (draws j) (2 # 10));
        [| by rewrite andb_false_r].
      rewrite andb_true_r. case_bool_decide as Hcd.
      * rewrite Hcd. simpl. eapply grid_get_set_same; [exact Hg | lia | lia].
      * apply grid_get_set_other; try lia.
        intros Heq. apply Hcd. rewrite (surjective_pairing c), Heq. done.
    + rewrite (spread_neighbour_skip x y g j d Hp).
      rewrite filter_cons_False by done. by apply IH.
Qed.


Lemma hit_from_clear base s c :
  hit_from draws m base s c = true ->
  grid_get CLEAR (fire_grid m) c.1 c.2 = CLEAR.
Proof.
  unfold hit_from. intros H. apply existsb_elem in H as (d & Hd & H).
  apply andb_true_iff in H as [Hc _]. apply bool_decide_eq_true in Hc.
  unfold spread_targets in Hd. apply list_elem_of_filter in Hd as [Hd _].
  destruct (draws_towards_inv _ _ _ Hd) as (_ & Hclear & _).
  subst c. exact Hclear.
Qed.

Lemma hit_from_not_clear base s c :
  grid_get CLEAR (fire_grid m) c.1 c.2 <> CLEAR ->
  hit_from draws m base s c = false.
Proof.
  intros Hne. destruct (hit_from draws m base s c) eqn:Hh; [| done].
  by apply hit_from_clear in Hh.
Qed.

(** One cell of the pass: what it writes into the new grid. *)
Lemma spread_cell_spec g j c0 :
  grid_shape g (width m) (height m) ->
  in_bounds m c0.1 c0.2 = true ->
  let r := spread_cell draws m (g, j) c0.1 c0.2 in
  grid_shape r.1 (width m) (height m)
  /\ r.2 = (j + cell_draws m c0)%nat
  /\ forall c, in_bounds m c.1 c.2 = true ->
       grid_get CLEAR r.1 c.1 c.2
       = match grid_get CLEAR (fire_grid m) c0.1 c0.2 with
         | SMOKE => if bool_decide (c = c0) && Qlt_bool (draws j) (3 # 10)
                    then FIRE else grid_get CLEAR g c.1 c.2
         | FIRE => if hit_from draws m j c0 c
                   then SMOKE else grid_get CLEAR g c.1 c.2
         | CLEAR => grid_get CLEAR g c.1 c.2
         end.
Proof.
  intros Hg Hb0. cbv zeta. unfold spread_cell, cell_draws.
  destruct (grid_get CLEAR (fire_grid m) c0.1 c0.2) eqn:Hold.
  - simpl. split; [done |]. split; [lia | done].
  - cbn [fst snd]. destruct (Qlt_bool (draws j) (3 # 10)); cbn [fst snd].
    + split; [by apply grid_shape_set |]. split; [lia |].
      intros c Hcb. rewrite andb_true_r.
      apply in_bounds_inv in Hb0. apply in_bounds_inv in Hcb.
      case_bool_decide as Hc.
      * subst c. eapply grid_get_set_same; [exact Hg | lia | lia].
      * apply grid_get_set_other; try lia.
        intros Heq. apply Hc. rewrite (surjective_pairing c), Heq.
        symmetry. apply surjective_pairing.
    + split; [done |]. split; [lia |]. intros c _. by rewrite andb_false_r.
  - destruct (spread_neighbours_fold c0.1 c0.2 directions4) with (g := g) (j := j)
      as (Hs & Hj & Hc); [| exact Hg |].
    { unfold directions4. apply (bool_decide_unpack _). vm_compute. exact I. }
    cbv zeta in Hs, Hj, Hc. split; [exact Hs |]. split; [exact Hj |].
    intros c Hcb. rewrite (Hc c Hcb). unfold hit_from, spread_targets.
    by rewrite <- (surjective_pairing c0).
Qed.

(** The pass over a list of distinct cells of the board, started with the
    new grid [g] and the draw index [j]. *)
Lemma spread_cells_fold (L : list (Z * Z)) :
  NoDup L -> Forall (fun c => in_bounds m c.1 c.2 = true) L ->
  forall g j,
    grid_shape g (width m) (height m) ->
    let base := fun s => (j + sum_list (cell_draws m <$> before s L))%nat in
    let r := foldl (fun acc (c : Z * Z) => spread_cell draws m acc c.1 c.2)
                   (g, j) L in
    grid_shape r.1 (width m) (height m)
    /\ r.2 = (j + sum_list (cell_draws m <$> L))%nat
    /\ forall c, in_bounds m c.1 c.2 = true ->
         grid_get CLEAR r.1 c.1 c.2
         = match grid_get CLEAR (fire_grid m) c.1 c.2 with
           | SMOKE => if bool_decide (c ∈ L) && Qlt_bool (draws (base c)) (3 # 10)
                      then FIRE else grid_get CLEAR g c.1 c.2
           | FIRE => grid_get CLEAR g c.1 c.2
           | CLEAR => if existsb (smoke_source draws m base c) L
                      then SMOKE else grid_get CLEAR g c.1 c.2
           end.
Proof.
  induction 1 as [| c0 L Hc0 Hnd IH]; intros Hin g j Hg; cbn [foldl]; cbv zeta.
  - simpl. split; [done |]. split; [lia |]. intros c _.
    by destruct (grid_get CLEAR (fire_grid m) c.1 c.2).
  - apply Forall_cons in Hin as [Hb0 Hin].
    destruct (spread_cell_spec g j c0 Hg Hb0) as (Hg1 & Hj1 & Hc1).
    cbv zeta in Hg1, Hj1, Hc1.
    destruct (spread_cell draws m (g, j) c0.1 c0.2) as [g1 j1] eqn:Hcell.
    cbn [fst snd] in Hg1, Hj1, Hc1.
    destruct (IH Hin g1 j1 Hg1) as (Hs & Hj & Hc). cbv zeta in Hs, Hj, Hc.
    split; [exact Hs |].
    split; [rewrite Hj, Hj1, fmap_cons; simpl; lia |].
    assert (Hbase : forall s, s <> c0 ->
              (j + sum_list (cell_draws m <$> before s (c0 :: L)))%nat
              = (j1 + sum_list (cell_draws m <$> before s L))%nat).
    { intros s Hs0. rewrite before_cons_ne by done.
      rewrite fmap_cons, Hj1. simpl. lia. }
    intros c Hcb. rewrite (Hc c Hcb), (Hc1 c Hcb).
    destruct (grid_get CLEAR (fire_grid m) c.1 c.2) eqn:Hold.
    + (* Clear before the pass *)
      rewrite existsb_cons.
      rewrite (existsb_ext_in (smoke_source draws m
                                 (fun s => (j + sum_list (cell_draws m <$> before s (c0 :: L)))%nat) c)
                              (smoke_source draws m
                                 (fun s => (j1 + sum_list (cell_draws m <$> before s L))%nat) c) L).
      2:{ intros s Hs0. unfold smoke_source. rewrite Hbase; [done |].
          intros ->. done. }
      destruct (existsb _ L); [by rewrite orb_true_r |]. rewrite orb_false_r.
      unfold smoke_source. rewrite before_cons_eq. simpl sum_list.
      rewrite Nat.add_0_r.
      destruct (grid_get CLEAR (fire_grid m) c0.1 c0.2) eqn:Hold0; simpl.
      * done.
      * case_bool_decide as Hcc; [| done]. subst c. congruence.
      * done.
    + (* Smoke before the pass *)
      assert (Hg1c : grid_get CLEAR g1 c.1 c.2
                     = if bool_decide (c = c0) && Qlt_bool (draws j) (3 # 10)
                       then FIRE else grid_get CLEAR g c.1 c.2).
      { rewrite (Hc1 c Hcb).
        destruct (grid_get CLEAR (fire_grid m) c0.1 c0.2) eqn:Hold0.
        - case_bool_decide as Hcc; [subst c; congruence | done].
        - done.
        - rewrite hit_from_not_clear by (rewrite Hold; done).
          case_bool_decide as Hcc; [subst c; congruence | done]. }
      rewrite <- (Hc1 c Hcb), Hg1c.
      destruct (decide (c = c0)) as [-> | Hne].
      * rewrite (bool_decide_eq_false_2 (c0 ∈ L)) by done.
        rewrite (bool_decide_eq_true_2 (c0 ∈ c0 :: L)) by (by left).
        rewrite (bool_decide_eq_true_2 (c0 = c0)) by done.
        rewrite before_cons_eq. simpl. by rewrite Nat.add_0_r.
      * rewrite (bool_decide_eq_false_2 (c = c0)) by done.
        rewrite (Hbase c Hne). simpl.
        destruct (decide (c ∈ L)) as [Hl | Hl].
        -- rewrite (bool_decide_eq_true_2 (c ∈ L)) by done.
           rewrite (bool_decide_eq_true_2 (c ∈ c0 :: L)) by (by right). done.
        -- rewrite (bool_decide_eq_false_2 (c ∈ L)) by done.
           rewrite (bool_decide_eq_false_2 (c ∈ c0 :: L)); [done |].
           intros Hx. apply elem_of_cons in Hx as [? | ?]; done.
    + (* Fire before the pass *)
      destruct (grid_get CLEAR (fire_grid m) c0.1 c0.2) eqn:Hold0.
      * done.
      * case_bool_decide as Hcc; [subst c; congruence | done].
      * by rewrite hit_from_not_clear by (rewrite Hold; done).
Qed.
End Spread.

(** The sources of smoke of a Clear cell, read from the cell's side: the
    burning cells of the board that hit it are its burning orthogonal
    neighbours, not behind an intact wall, whose draw towards it falls
    below the threshold. *)
Lemma smoke_sources_neighbours draws m k c :
  in_bounds m c.1 c.2 = true ->
  grid_get CLEAR (fire_grid m) c.1 c.2 = CLEAR ->
  let cells := cells_row_major (width m) (height m) in
  existsb (smoke_source draws m (draw_base m k cells) c) cells
  = existsb (fun d : Z * Z =>
               let s := (c.1 - d.1, c.2 - d.2) in
               in_bounds m s.1 s.2
               && bool_decide (grid_get CLEAR (fire_grid m) s.1 s.2 = FIRE)
               && negb (has_wall_between m s.1 s.2 c.1 c.2)
               && Qlt_bool (draws (spread_draw m k cells s d)) (2 # 10))
            directions4.
Proof.
  intros Hcb Hclear. cbv zeta. apply eq_true_iff_eq. split; intros H.
  - apply existsb_elem in H as (s & Hs & H). unfold smoke_source in H.
    apply andb_true_iff in H as [Hfire H]. unfold hit_from in H.
    apply existsb_elem in H as (d & Hd & H).
    apply andb_true_iff in H as [Hc Hdraw]. apply bool_decide_eq_true in Hc.
    pose proof Hd as Hd'. unfold spread_targets in Hd'.
    apply list_elem_of_filter in Hd' as [Htow Hd4].
    unfold draws_towards in Htow.
    apply andb_true_iff in Htow as [Htow Hwall].
    apply existsb_elem. exists d. split; [exact Hd4 |].
    assert (Hsc : (c.1 - d.1, c.2 - d.2) = s).
    { subst c. unfold shift. cbn [fst snd]. destruct s as [sx sy].
      cbn [fst snd]. f_equal; lia. }
    rewrite Hsc. destruct s as [sx sy]. cbn [fst snd] in *.
    rewrite (cell_in_bounds m sx sy Hs), Hfire. cbn [andb].
    assert (Hc1 : c.1 = sx + d.1) by (by subst c).
    assert (Hc2 : c.2 = sy + d.2) by (by subst c).
    rewrite Hc1, Hc2, Hwall. cbn [andb]. exact Hdraw.
  - apply existsb_elem in H as (d & Hd4 & H).
    apply andb_true_iff in H as [H Hdraw].
    apply andb_true_iff in H as [H Hwall].
    apply andb_true_iff in H as [Hsb Hfire]. cbn [fst snd] in *.
    set (sx := c.1 - d.1) in *. set (sy := c.2 - d.2) in *.
    assert (Hc1 : sx + d.1 = c.1) by (unfold sx; lia).
    assert (Hc2 : sy + d.2 = c.2) by (unfold sy; lia).
    assert (Htar : d ∈ spread_targets m sx sy).
    { unfold spread_targets. apply list_elem_of_filter. split; [| exact Hd4].
      unfold draws_towards. rewrite Hc1, Hc2, Hcb, Hwall.
      by rewrite (bool_decide_eq_true_2 _ Hclear). }
    apply existsb_elem. exists (sx, sy). split; [by apply in_bounds_cell |].
    unfold smoke_source. cbn [fst snd].
    rewrite Hfire. cbn [andb]. unfold hit_from. cbn [fst snd].
    apply existsb_elem.
    exists d. split; [exact Htar |].
    rewrite (bool_decide_eq_true_2 (c = shift (sx, sy) d)).
    2:{ unfold shift. cbn [fst snd]. rewrite Hc1, Hc2. apply surjective_pairing. }
    exact Hdraw.
Qed.

Lemma spread_fire_spec draws k m :
  grid_shape (fire_grid m) (width m) (height m) ->
  let r := spread_fire draws k m in
  same_but_fire m r.1
  /\ grid_shape (fire_grid r.1) (width m) (height m)
  /\ r.2 = (k + sum_list (cell_draws m <$> cells_row_major (width m) (height m)))%nat
  /\ forall c, in_bounds m c.1 c.2 = true ->
       grid_get CLEAR (fire_grid r.1) c.1 c.2 = next_level draws k m c.
Proof.
  intros Hshape. cbv zeta. unfold spread_fire. cbn [fst snd].
  rewrite for_yx_scan_cells. unfold scan_cells.
  destruct (spread_cells_fold draws m (cells_row_major (width m) (height m)))
    with (g := fire_grid m) (j := k) as (Hs & Hj & Hc).
  { apply cells_row_major_NoDup. }
  { apply Forall_forall. intros [x y] Hxy. by apply cell_in_bounds. }
  { exact Hshape. }
  cbv zeta in Hs, Hj, Hc.
  split; [by destruct m |]. split; [by destruct m |]. split; [exact Hj |].
  intros c Hcb.
  replace (fire_grid (set_fire_grid _ m)) with
    (foldl (fun acc (c : Z * Z) => spread_cell draws m acc c.1 c.2)
       (fire_grid m, k) (cells_row_major (width m) (height m))).1
    by (by destruct m).
  rewrite (Hc c Hcb). unfold next_level. cbv zeta.
  destruct (grid_get CLEAR (fire_grid m) c.1 c.2) eqn:Hold.
  - pose proof (smoke_sources_neighbours draws m k c Hcb Hold) as Hsrc.
    cbv zeta in Hsrc. unfold draw_base in Hsrc at 1.
    unfold smoke_source in Hsrc at 1. unfold smoke_source at 1.
    rewrite Hsrc. done.
  - rewrite (bool_decide_eq_true_2 (c ∈ _)).
    2:{ rewrite (surjective_pairing c). by apply in_bounds_cell. }
    cbn [andb]. unfold draw_base. done.
  - done.
Qed.

(** X1 (spread_fire). The fire-spread pass reads the grid as it was before
    the pass and writes into a copy: on a well-formed grid every cell of
    the board ends at the level computed from the pre-pass state and the
    draws alone (a Smoke cell ignites on its own draw below 0.3, a burning
    cell stays burning, a Clear cell turns to Smoke exactly when a
    neighbour that burned before the pass, not behind an intact wall,
    draws below 0.2 towards it), nothing but the fire grid changes, and
    the pass consumes one draw per Smoke cell and one per open Clear
    neighbour of a burning cell. *)
Theorem spread_fire_snapshot (draws : nat -> Q) (k : nat) (m : FlashPointModel) :
  grid_shape (fire_grid m) (width m) (height m) ->
  let r := spread_fire draws k m in
  same_but_fire m r.1
  /\ grid_shape (fire_grid r.1) (width m) (height m)
  /\ r.2 = (k + sum_list (cell_draws m <$> cells_row_major (width m) (height m)))%nat
  /\ forall c, in_bounds m c.1 c.2 = true ->
       grid_get CLEAR (fire_grid r.1) c.1 c.2 = next_level draws k m c.
Proof. apply spread_fire_spec. Qed.

Lemma spread_fire_snapshot_witness :
  grid_shape (fire_grid smoke_row) (width smoke_row) (height smoke_row)
  /\ grid_get CLEAR (fire_grid (spread_fire wild 0 smoke_row).1) 0 0 = FIRE
  /\ grid_get CLEAR (fire_grid (spread_fire wild 0 smoke_row).1) 1 0 = CLEAR.
Proof.
  assert (Hs : grid_shape (fire_grid smoke_row) (width smoke_row) (height smoke_row))
    by (vm_compute; repeat constructor).
  split; [exact Hs |].
  destruct (spread_fire_snapshot wild 0 smoke_row Hs) as (_ & _ & _ & Hc).
  split.
  - transitivity (next_level wild 0 smoke_row (0, 0));
      [exact (Hc (0, 0) eq_refl) | vm_compute; reflexivity].
  - transitivity (next_level wild 0 smoke_row (1, 0));
      [exact (Hc (1, 0) eq_refl) | vm_compute; reflexivity].
Defined.

(** ** What the constructor builds *)

Lemma set_cell_types_id m : set_cell_types (cell_types m) m = m.
Proof. by destruct m. Qed.

Lemma set_walls_id m : set_walls (walls m) m = m.
Proof. by destruct m. Qed.

Lemma setup_exits_unfold m :
  _setup_exits m
  = foldl (fun m (e : Z * Z) =>
             if in_bounds m e.1 e.2
             then set_cell_types (grid_set (cell_types m) e.1 e.2 EXIT) m
             else m)
          m exit_cells.
Proof. reflexivity. Qed.

(** A loop that marks the cells of [L] that lie on the board. *)
Lemma paint_types_fold v (L : list (Z * Z)) :
  forall m,
    grid_shape (cell_types m) (width m) (height m) ->
    let r := foldl (fun m (e : Z * Z) =>
                      if in_bounds m e.1 e.2
                      then set_cell_types (grid_set (cell_types m) e.1 e.2 v) m
                      else m)
                   m L in
    r = set_cell_types (cell_types r) m
    /\ grid_shape (cell_types r) (width m) (height m)
    /\ forall x y, in_bounds m x y = true ->
         grid_get NORMAL (cell_types r) x y
         = if bool_decide ((x, y) ∈ L) then v
           else grid_get NORMAL (cell_types m) x y.
Proof.
  induction L as [| e L IH]; intros m Hshape; cbn [foldl]; cbv zeta.
  - split; [by rewrite set_cell_types_id |]. split; [done |].
    intros x y _. rewrite bool_decide_eq_false_2; [done |]. intros H. inversion H.
  - destruct (in_bounds m e.1 e.2) eqn:Hb.
    + set (m1 := set_cell_types (grid_set (cell_types m) e.1 e.2 v) m).
      destruct (IH m1) as (Hr & Hs & Hg); [by apply grid_shape_set |].
      cbv zeta in Hr, Hs, Hg.
      split; [etrans; [exact Hr |]; unfold m1; by destruct m |]. split; [exact Hs |].
      intros x y Hxy. rewrite (Hg x y Hxy).
      apply in_bounds_inv in Hb. pose proof (in_bounds_inv _ _ _ Hxy) as Hxy'.
      destruct (decide ((x, y) = e)) as [<- | Hne].
      * rewrite (bool_decide_eq_true_2 ((x, y) ∈ (x, y) :: L)) by (by left).
        case_bool_decide; [done |]. unfold m1. cbn [cell_types set_cell_types fst snd].
        cbn [fst snd] in Hb.
        apply (grid_get_set_same _ (width m) (height m)); [done | lia | lia].
      * assert (Hiff : (x, y) ∈ e :: L <-> (x, y) ∈ L).
        { rewrite elem_of_cons. split; [intros [? | ?]; done | by right]. }
        rewrite (bool_decide_ext _ _ Hiff). case_bool_decide; [done |].
        unfold m1. cbn [cell_types set_cell_types].
        apply grid_get_set_other; try lia.
        by rewrite <- (surjective_pairing e).
    + destruct (IH m Hshape) as (Hr & Hs & Hg). cbv zeta in Hr, Hs, Hg.
      split; [exact Hr |]. split; [exact Hs |].
      intros x y Hxy. rewrite (Hg x y Hxy).
      assert (Hiff : (x, y) ∈ e :: L <-> (x, y) ∈ L).
      { rewrite elem_of_cons. split; [| by right]. intros [Heq | ?]; [| done].
        subst e. cbn [fst snd] in Hb. congruence. }
      by rewrite (bool_decide_ext _ _ Hiff).
Qed.

Lemma place_initial_fires_unfold m :
  _place_initial_fires m
  = foldl (fun m (hs : Z * Z) =>
             if in_bounds m hs.1 hs.2 then
               set_cell_types (grid_set (cell_types m) hs.1 hs.2 HOTSPOT)
                 (set_fire_grid (grid_set (fire_grid m) hs.1 hs.2 FIRE) m)
             else m)
          m hotspot_cells.
Proof. reflexivity. Qed.

(** The loop that lights the hotspots of [L] that lie on the board. *)
Lemma paint_fires_fold (L : list (Z * Z)) :
  forall m,
    grid_shape (cell_types m) (width m) (height m) ->
    grid_shape (fire_grid m) (width m) (height m) ->
    let r := foldl (fun m (hs : Z * Z) =>
                      if in_bounds m hs.1 hs.2 then
                        set_cell_types (grid_set (cell_types m) hs.1 hs.2 HOTSPOT)
                          (set_fire_grid (grid_set (fire_grid m) hs.1 hs.2 FIRE) m)
                      else m)
                   m L in
    r = set_cell_types (cell_types r) (set_fire_grid (fire_grid r) m)
    /\ grid_shape (cell_types r) (width m) (height m)
    /\ grid_shape (fire_grid r) (width m) (height m)
    /\ forall x y, in_bounds m x y = true ->
         grid_get NORMAL (cell_types r) x y
         = (if bool_decide ((x, y) ∈ L) then HOTSPOT
            else grid_get NORMAL (cell_types m) x y)
         /\ grid_get CLEAR (fire_grid r) x y
            = (if bool_decide ((x, y) ∈ L) then FIRE
               else grid_get CLEAR (fire_grid m) x y).
Proof.
  induction L as [| e L IH]; intros m Hct Hfg; cbn [foldl]; cbv zeta.
  - split; [by destruct m |]. split; [done |]. split; [done |].
    intros x y _. rewrite bool_decide_eq_false_2; [done |]. intros H. inversion H.
  - destruct (in_bounds m e.1 e.2) eqn:Hb.
    + set (m1 := set_cell_types _ _).
      destruct (IH m1) as (Hr & Hs1 & Hs2 & Hg);
        [by apply grid_shape_set | by apply grid_shape_set |].
      cbv zeta in Hr, Hs1, Hs2, Hg.
      split; [etrans; [exact Hr |]; unfold m1; by destruct m |].
      split; [exact Hs1 |]. split; [exact Hs2 |].
      intros x y Hxy. destruct (Hg x y Hxy) as [Hg1 Hg2]. rewrite Hg1, Hg2.
      apply in_bounds_inv in Hb. pose proof (in_bounds_inv _ _ _ Hxy) as Hxy'.
      destruct (decide ((x, y) = e)) as [<- | Hne].
      * rewrite (bool_decide_eq_true_2 ((x, y) ∈ (x, y) :: L)) by (by left).
        cbn [fst snd] in Hb. unfold m1.
        cbn [cell_types fire_grid set_cell_types set_fire_grid fst snd].
        case_bool_decide; [done |].
        split; apply (grid_get_set_same _ (width m) (height m)); done || lia.
      * assert (Hiff : (x, y) ∈ e :: L <-> (x, y) ∈ L).
        { rewrite elem_of_cons. split; [intros [? | ?]; done | by right]. }
        rewrite (bool_decide_ext _ _ Hiff). case_bool_decide; [done |].
        unfold m1. cbn [cell_types fire_grid set_cell_types set_fire_grid].
        split; (apply grid_get_set_other; try lia;
                by rewrite <- (surjective_pairing e)).
    + destruct (IH m Hct Hfg) as (Hr & Hs1 & Hs2 & Hg). cbv zeta in Hr, Hs1, Hs2, Hg.
      split; [exact Hr |]. split; [exact Hs1 |]. split; [exact Hs2 |].
      intros x y Hxy. destruct (Hg x y Hxy) as [Hg1 Hg2]. rewrite Hg1, Hg2.
      assert (Hiff : (x, y) ∈ e :: L <-> (x, y) ∈ L).
      { rewrite elem_of_cons. split; [| by right]. intros [Heq | ?]; [| done].
        subst e. cbn [fst snd] in Hb. congruence. }
      by rewrite (bool_decide_ext _ _ Hiff).
Qed.

(** *** The wall records *)

Lemma create_walls_unfold m :
  _create_walls m
  = foldl (fun m (w : (Z * Z) * (Z * Z)) =>
             let '((x1, y1), (x2, y2)) := w in
             if _is_valid_wall m x1 y1 x2 y2 then
               let k := _get_wall_key x1 y1 x2 y2 in
               match walls m !! k with
               | None => set_walls (<[k := Wall_init (wall_health m)]> (walls m)) m
               | Some _ => m
               end
             else m)
          (for_yx (width m) (height m)
             (fun m x y =>
                let m_e :=
                  if bool_decide (x < width m - 1)
                  then set_walls (<[(x, y, x + 1, y) := Wall_init (wall_health m)]>
                                    (walls m)) m
                  else m in
                if bool_decide (y < height m_e - 1)
                then set_walls (<[(x, y, x, y + 1) := Wall_init (wall_health m_e)]>
                                  (walls m_e)) m_e
                else m_e)
             m)
          interior_walls.
Proof. reflexivity. Qed.

(** The double loop over a list of cells: it writes a fresh wall under
    every key of every cell and leaves the other records alone. *)
Lemma wall_loop_fold (L : list (Z * Z)) :
  forall m,
    let r := foldl (fun m (c : Z * Z) =>
                      let m_e :=
                        if bool_decide (c.1 < width m - 1)
                        then set_walls (<[(c.1, c.2, c.1 + 1, c.2)
                                          := Wall_init (wall_health m)]> (walls m)) m
                        else m in
                      if bool_decide (c.2 < height m_e - 1)
                      then set_walls (<[(c.1, c.2, c.1, c.2 + 1)
                                        := Wall_init (wall_health m_e)]> (walls m_e)) m_e
                      else m_e)
                   m L in
    r = set_walls (walls r) m
    /\ forall key,
         walls r !! key
         = if bool_decide (Exists (fun c => key ∈ cell_keys (width m) (height m) c) L)
           then Some (Wall_init (wall_health m)) else walls m !! key.
Proof.
  induction L as [| c L IH]; intros m; cbn [foldl]; cbv zeta.
  - split; [by rewrite set_walls_id |]. intros key.
    rewrite bool_decide_eq_false_2; [done |]. intros H. inversion H.
  - set (m1 := if bool_decide (c.2 < height _ - 1) then _ else _).
    assert (Hm1 : m1 = set_walls (walls m1) m
                  /\ forall key, walls m1 !! key
                       = if bool_decide (key ∈ cell_keys (width m) (height m) c)
                         then Some (Wall_init (wall_health m)) else walls m !! key).
    { unfold m1, cell_keys.
      destruct (bool_decide (c.1 < width m - 1)) eqn:He;
        cbn [height wall_health walls set_walls];
        destruct (bool_decide (c.2 < height m - 1)) eqn:Hs;
        cbn [height wall_health walls set_walls];
        (split; [by destruct m |]); intros key; cbn [app].
      - destruct (decide (key = (c.1, c.2, c.1, c.2 + 1))) as [-> | Hk2].
        { rewrite lookup_insert_eq. rewrite bool_decide_eq_true_2; [done |].
          right. by left. }
        rewrite lookup_insert_ne by done.
        destruct (decide (key = (c.1, c.2, c.1 + 1, c.2))) as [-> | Hk1].
        { rewrite lookup_insert_eq. rewrite bool_decide_eq_true_2; [done |].
          by left. }
        rewrite lookup_insert_ne by done.
        rewrite bool_decide_eq_false_2; [done |].
        intros H. apply elem_of_cons in H as [? | H]; [done |].
        apply elem_of_cons in H as [? | H]; [done |]. inversion H.
      - destruct (decide (key = (c.1, c.2, c.1 + 1, c.2))) as [-> | Hk1].
        { rewrite lookup_insert_eq. rewrite bool_decide_eq_true_2; [done |].
          by left. }
        rewrite lookup_insert_ne by done.
        rewrite bool_decide_eq_false_2; [done |].
        intros H. apply elem_of_cons in H as [? | H]; [done |]. inversion H.
      - destruct (decide (key = (c.1, c.2, c.1, c.2 + 1))) as [-> | Hk2].
        { rewrite lookup_insert_eq. rewrite bool_decide_eq_true_2; [done |].
          by left. }
        rewrite lookup_insert_ne by done.
        rewrite bool_decide_eq_false_2; [done |].
        intros H. apply elem_of_cons in H as [? | H]; [done |]. inversion H.
      - rewrite bool_decide_eq_false_2; [done |]. intros H. inversion H. }
    destruct Hm1 as [Hm1 Hk1]. clearbody m1.
    destruct (IH m1) as [Hr Hk]. cbv zeta in Hr, Hk.
    assert (Hw : width m1 = width m) by (rewrite Hm1; by destruct m).
    assert (Hh : height m1 = height m) by (rewrite Hm1; by destruct m).
    assert (Hwh : wall_health m1 = wall_health m) by (rewrite Hm1; by destruct m).
    split.
    { etrans; [exact Hr |]. rewrite Hm1 at 2. by destruct m. }
    intros key. rewrite Hk, Hk1, Hw, Hh, Hwh.
    destruct (decide (key ∈ cell_keys (width m) (height m) c)) as [Hin | Hnin].
    + rewrite (bool_decide_eq_true_2 (Exists _ (c :: L))) by (by left).
      rewrite (bool_decide_eq_true_2 _ Hin). by case_bool_decide.
    + rewrite (bool_decide_eq_false_2 _ Hnin).
      assert (Hiff : Exists (fun c => key ∈ cell_keys (width m) (height m) c) (c :: L)
                     <-> Exists (fun c => key ∈ cell_keys (width m) (height m) c) L).
      { rewrite Exists_cons. split; [intros [? | ?]; done | by right]. }
      by rewrite (bool_decide_ext _ _ Hiff).
Qed.

Lemma wall_slot_cells m key :
  wall_slot (width m) (height m) key
  <-> Exists (fun c => key ∈ cell_keys (width m) (height m) c)
             (cells_row_major (width m) (height m)).
Proof.
  destruct key as [[[x1 y1] x2] y2]. unfold wall_slot. cbn [fst snd].
  rewrite Exists_exists. split.
  - intros (Hx & Hy & Hx2 & Hy2 & Hadj). exists (x1, y1). split.
    + apply in_bounds_cell. unfold in_bounds.
      rewrite !bool_decide_eq_true_2 by lia. done.
    + unfold cell_keys. cbn [fst snd]. destruct Hadj as [[-> ->] | [-> ->]].
      * rewrite (bool_decide_eq_true_2 (x1 < width m - 1)) by lia.
        apply elem_of_app. left. by left.
      * rewrite (bool_decide_eq_true_2 (y1 < height m - 1)) by lia.
        apply elem_of_app. right. by left.
  - intros ([x y] & Hc & Hk). apply cell_in_bounds, in_bounds_inv in Hc.
    unfold cell_keys in Hk. cbn [fst snd] in Hk.
    apply elem_of_app in Hk as [Hk | Hk]; case_bool_decide; try (by inversion Hk);
      apply list_elem_of_singleton in Hk; inversion Hk; subst; lia.
Qed.

(** The normalized key of two neighbouring cells is one of the keys of the
    board. *)
Lemma neighbours_wall_slot m a b :
  neighbours m a b ->
  wall_slot (width m) (height m) (_get_wall_key a.1 a.2 b.1 b.2).
Proof.
  intros (Ha & Hb & Hadj). apply in_bounds_inv in Ha. apply in_bounds_inv in Hb.
  unfold _get_wall_key, wall_slot. case_bool_decide; cbn [fst snd]; lia.
Qed.

Lemma valid_wall_neighbours m x1 y1 x2 y2 :
  _is_valid_wall m x1 y1 x2 y2 = true <-> neighbours m (x1, y1) (x2, y2).
Proof.
  unfold _is_valid_wall, neighbours. cbn [fst snd].
  rewrite !andb_true_iff, orb_true_iff, !andb_true_iff, !bool_decide_eq_true.
  split.
  - intros [[Ha Hb] Hadj]. split; [done |]. split; [done |]. lia.
  - intros (Ha & Hb & Hadj). split; [done |]. lia.
Qed.

(** The second loop of [_create_walls] on a board that has all its wall
    records: every valid entry of the list finds its key taken and nothing
    is added. *)
Lemma interior_walls_fold (L : list ((Z * Z) * (Z * Z))) m :
  (forall key, wall_slot (width m) (height m) key -> is_Some (walls m !! key)) ->
  foldl (fun m (w : (Z * Z) * (Z * Z)) =>
           let '((x1, y1), (x2, y2)) := w in
           if _is_valid_wall m x1 y1 x2 y2 then
             let k := _get_wall_key x1 y1 x2 y2 in
             match walls m !! k with
             | None => set_walls (<[k := Wall_init (wall_health m)]> (walls m)) m
             | Some _ => m
             end
           else m)
        m L = m.
Proof.
  intros Hall. induction L as [| [[x1 y1] [x2 y2]] L IH]; cbn [foldl]; [done |].
  destruct (_is_valid_wall m x1 y1 x2 y2) eqn:Hv; [| exact IH].
  apply valid_wall_neighbours, neighbours_wall_slot, Hall in Hv.
  cbn [fst snd] in Hv. cbv zeta. destruct Hv as [w ->]. exact IH.
Qed.

(** [_create_walls] registers a fresh wall between every two neighbouring
    cells of the board and changes nothing else. *)
Lemma create_walls_spec m :
  _create_walls m = set_walls (walls (_create_walls m)) m
  /\ forall key,
       walls (_create_walls m) !! key
       = if decide (wall_slot (width m) (height m) key)
         then Some (Wall_init (wall_health m)) else walls m !! key.
Proof.
  rewrite create_walls_unfold, for_yx_scan_cells. unfold scan_cells.
  destruct (wall_loop_fold (cells_row_major (width m) (height m)) m) as [Hr Hk].
  cbv zeta in Hr, Hk.
  match type of Hr with ?t = _ => remember t as m1 eqn:Hm1 end.
  assert (Hw : width m1 = width m) by (rewrite Hr; by destruct m).
  assert (Hh : height m1 = height m) by (rewrite Hr; by destruct m).
  assert (Hslot : forall key,
             walls m1 !! key
             = if decide (wall_slot (width m) (height m) key)
               then Some (Wall_init (wall_health m)) else walls m !! key).
  { intros key. rewrite Hk.
    destruct (decide (wall_slot (width m) (height m) key)) as [Hs | Hs].
    - rewrite bool_decide_eq_true_2; [done |]. by apply wall_slot_cells.
    - rewrite bool_decide_eq_false_2; [done |]. by rewrite <- wall_slot_cells. }
  rewrite interior_walls_fold.
  - split; [exact Hr | exact Hslot].
  - intros key Hs. rewrite Hslot, Hw, Hh in *. rewrite decide_True by done. eauto.
Qed.

(** *** The crew *)

Lemma place_firefighter_none (l : list Z) : foldl place_firefighter None l = None.
Proof. induction l as [| i l IH]; [done | exact IH]. Qed.

Lemma place_firefighters_inv (l : list Z) :
  Forall (fun i => 0 <= i) l ->
  forall m m',
    foldl place_firefighter (Some m) l = Some m' ->
    m' = set_schedule (schedule m') (set_agent_store (agent_store m') m)
    /\ schedule m' = schedule m ++ ((fun i => S (Z.to_nat i)) <$> l)
    /\ (forall f,
          agent_store m' !! f
          = if bool_decide (f ∈ (fun i => S (Z.to_nat i)) <$> l)
            then (fun c : Z * Z => FirefighterAgent_init c.1 c.2)
                   <$> start_positions !! pred f
            else agent_store m !! f)
    /\ Forall (fun i => exists c, start_positions !! Z.to_nat i = Some c
                                  /\ in_bounds m c.1 c.2 = true) l.
Proof.
  induction 1 as [| i l Hi Hl IH]; intros m m' Hm'; cbn [foldl] in Hm'.
  - inversion Hm'; subst m'. split; [by destruct m |].
    split; [by rewrite app_nil_r |]. split; [| done].
    intros f. rewrite bool_decide_eq_false_2; [done |]. intros H. inversion H.
  - unfold place_firefighter in Hm' at 2. cbn [mbind option_bind] in Hm'.
    destruct (start_positions !! Z.to_nat i) as [[x y] |] eqn:Hsp;
      cbn [mbind option_bind] in Hm';
      [| by rewrite place_firefighter_none in Hm'].
    destruct (in_bounds m x y) eqn:Hb;
      [| by rewrite place_firefighter_none in Hm'].
    match type of Hm' with
    | foldl _ (Some ?t) _ = _ => set (m1 := t) in *
    end.
    destruct (IH m1 m' Hm') as (Hr & Hs & Ha & Hf).
    split; [etrans; [exact Hr |]; unfold m1; by destruct m |].
    split; [rewrite Hs; unfold m1; cbn [schedule set_schedule];
            by rewrite <- app_assoc |].
    split.
    + intros f. rewrite (Ha f). rewrite fmap_cons.
      destruct (decide (f = S (Z.to_nat i))) as [-> | Hne].
      * rewrite (bool_decide_eq_true_2 (_ ∈ _ :: _)) by (by left).
        case_bool_decide; [done |]. unfold m1.
        cbn [agent_store set_schedule set_agent_store].
        rewrite lookup_insert_eq. cbn [pred]. by rewrite Hsp.
      * assert (Hiff : f ∈ S (Z.to_nat i) :: ((fun i => S (Z.to_nat i)) <$> l)
                       <-> f ∈ (fun i => S (Z.to_nat i)) <$> l).
        { rewrite elem_of_cons. split; [intros [? | ?]; done | by right]. }
        rewrite (bool_decide_ext _ _ Hiff). case_bool_decide; [done |].
        unfold m1. cbn [agent_store set_schedule set_agent_store].
        by rewrite lookup_insert_ne.
    + constructor; [exists (x, y); by rewrite Hsp |].
      eapply Forall_impl; [exact Hf |]. intros j (c & Hc & Hcb).
      exists c. split; [done |]. by rewrite <- Hcb.
Qed.

(** *** The POIs *)

Lemma place_pois_from draws (sampled : list (Z * Z)) :
  forall (j : nat) m k,
    let r := foldl (place_poi draws) (m, k)
                   (imap (fun i c => ((j + i)%nat, c)) sampled) in
    r.1 = set_pois (pois r.1) (set_poi_store (poi_store r.1) m)
    /\ r.2 = (k + length sampled)%nat
    /\ pois r.1 = pois m ++ seq j (length sampled)
    /\ forall p,
         poi_store r.1 !! p
         = if bool_decide (j <= p < j + length sampled)%nat
           then (fun c : Z * Z =>
                   mkPOI (Z.of_nat p) c.1 c.2
                         (Qlt_bool (draws (k + (p - j))%nat) (3 # 10))
                         false false None) <$> sampled !! (p - j)%nat
           else poi_store m !! p.
Proof.
  induction sampled as [| c sampled IH]; intros j m k; cbn [imap foldl]; cbv zeta.
  - cbn [fst snd length seq]. split; [by destruct m |]. split; [lia |].
    split; [by rewrite app_nil_r |]. intros p.
    rewrite bool_decide_eq_false_2 by lia. done.
  - rewrite (imap_ext _ (fun i c => ((S j + i)%nat, c)) sampled)
      by (intros; cbn; f_equal; lia).
    pose (m1 := set_pois (pois m ++ [(j + 0)%nat])
                 (set_poi_store
                    (<[(j + 0)%nat := mkPOI (Z.of_nat (j + 0)%nat) c.1 c.2
                                        (Qlt_bool (draws k) (3 # 10))
                                        false false None]> (poi_store m)) m)).
    change (place_poi draws (m, k) ((j + 0)%nat, c)) with (m1, S k).
    destruct (IH (S j) m1 (S k)) as (Hr & Hk & Hp & Hs).
    cbv zeta in Hr, Hk, Hp, Hs.
    split; [etrans; [exact Hr |]; unfold m1; by destruct m |].
    split; [rewrite Hk; cbn [length]; lia |].
    split.
    { rewrite Hp. unfold m1. cbn [pois set_pois set_poi_store length seq].
      rewrite <- app_assoc. cbn [app]. by rewrite Nat.add_0_r. }
    intros p. rewrite (Hs p). cbn [length].
    destruct (decide (p = j)) as [-> | Hne].
    + rewrite (bool_decide_eq_false_2 (S j <= j < _)%nat) by lia.
      rewrite (bool_decide_eq_true_2 (j <= j < _)%nat) by lia.
      unfold m1. cbn [poi_store set_pois set_poi_store].
      rewrite Nat.add_0_r, lookup_insert_eq, Nat.sub_diag. cbn [lookup list_lookup fmap option_fmap option_map].
      by rewrite Nat.add_0_r.
    + destruct (decide (S j <= p < S j + length sampled)%nat) as [Hin | Hout].
      * rewrite (bool_decide_eq_true_2 _ Hin).
        rewrite (bool_decide_eq_true_2 (j <= p < _)%nat) by lia.
        replace (p - j)%nat with (S (p - S j)) by lia. cbn [lookup list_lookup].
        replace (S k + (p - S j))%nat with (k + S (p - S j))%nat by lia. done.
      * rewrite (bool_decide_eq_false_2 _ Hout).
        rewrite (bool_decide_eq_false_2 (j <= p < _)%nat) by lia.
        unfold m1. cbn [poi_store set_pois set_poi_store].
        rewrite Nat.add_0_r. by rewrite lookup_insert_ne.
Qed.

(** *** The whole constructor *)

Lemma grid_full_shape {A} (h w : Z) (v : A) : grid_shape (grid_full h w v) w h.
Proof.
  unfold grid_shape, grid_full. split; [by rewrite length_replicate |].
  apply Forall_replicate. by rewrite length_replicate.
Qed.

Lemma grid_full_get {A} (d v : A) (h w x y : Z) :
  0 <= x < w -> 0 <= y < h -> grid_get d (grid_full h w v) x y = v.
Proof.
  intros Hx Hy. unfold grid_get, grid_full, grid.
  rewrite (lookup_replicate_2 (Z.to_nat h) (replicate (Z.to_nat w) v)
             (Z.to_nat y)) by lia.
  by rewrite (lookup_replicate_2 (Z.to_nat w) v (Z.to_nat x)) by lia.
Qed.

Lemma available_positions_pois l s m :
  available_positions (set_pois l (set_poi_store s m)) = available_positions m.
Proof. reflexivity. Qed.

Ltac model_fields_in H :=
  cbv [set_cell_types set_walls set_schedule set_agent_store set_fire_grid
       set_pois set_poi_store set_rescued_pois set_explosion_count set_steps] in H;
  cbn [width height wall_health rescued_pois explosion_count fire_grid
       cell_types walls pois poi_store schedule agent_store steps] in H.

Ltac model_fields :=
  cbv [set_cell_types set_walls set_schedule set_agent_store set_fire_grid
       set_pois set_poi_store set_rescued_pois set_explosion_count set_steps];
  cbn [width height wall_health rescued_pois explosion_count fire_grid
       cell_types walls pois poi_store schedule agent_store steps].

(** The stages of the constructor, each on an arbitrary state. *)

Lemma setup_exits_spec m :
  grid_shape (cell_types m) (width m) (height m) ->
  _setup_exits m = set_cell_types (cell_types (_setup_exits m)) m
  /\ grid_shape (cell_types (_setup_exits m)) (width m) (height m)
  /\ forall x y, in_bounds m x y = true ->
       grid_get NORMAL (cell_types (_setup_exits m)) x y
       = if bool_decide ((x, y) ∈ exit_cells) then EXIT
         else grid_get NORMAL (cell_types m) x y.
Proof.
  intros Hs. rewrite setup_exits_unfold.
  exact (paint_types_fold EXIT exit_cells m Hs).
Qed.

Lemma place_initial_fires_spec m :
  grid_shape (cell_types m) (width m) (height m) ->
  grid_shape (fire_grid m) (width m) (height m) ->
  _place_initial_fires m
  = set_cell_types (cell_types (_place_initial_fires m))
      (set_fire_grid (fire_grid (_place_initial_fires m)) m)
  /\ grid_shape (cell_types (_place_initial_fires m)) (width m) (height m)
  /\ grid_shape (fire_grid (_place_initial_fires m)) (width m) (height m)
  /\ forall x y, in_bounds m x y = true ->
       grid_get NORMAL (cell_types (_place_initial_fires m)) x y
       = (if bool_decide ((x, y) ∈ hotspot_cells) then HOTSPOT
          else grid_get NORMAL (cell_types m) x y)
       /\ grid_get CLEAR (fire_grid (_place_initial_fires m)) x y
          = (if bool_decide ((x, y) ∈ hotspot_cells) then FIRE
             else grid_get CLEAR (fire_grid m) x y).
Proof.
  intros Hc Hf. rewrite place_initial_fires_unfold.
  exact (paint_fires_fold hotspot_cells m Hc Hf).
Qed.

Lemma place_firefighters_stage n m m' :
  _place_firefighters n m = Some m' ->
  m' = set_schedule (schedule m') (set_agent_store (agent_store m') m)
  /\ schedule m' = schedule m ++ ((fun i => S (Z.to_nat i)) <$> range (Z.min n 5))
  /\ (forall f,
        agent_store m' !! f
        = if bool_decide (f ∈ (fun i => S (Z.to_nat i)) <$> range (Z.min n 5))
          then (fun c : Z * Z => FirefighterAgent_init c.1 c.2)
                 <$> start_positions !! pred f
          else agent_store m !! f)
  /\ Forall (fun i => exists c, start_positions !! Z.to_nat i = Some c
                                /\ in_bounds m c.1 c.2 = true)
            (range (Z.min n 5)).
Proof.
  unfold _place_firefighters. change (Z.of_nat (length start_positions)) with 5.
  apply place_firefighters_inv.
  eapply Forall_impl; [apply range_bounds |]. cbv beta. intros; lia.
Qed.

Lemma place_pois_stage np sampled draws k m m' k' :
  _place_pois np sampled draws k m = Some (m', k') ->
  m' = set_pois (pois m') (set_poi_store (poi_store m') m)
  /\ k' = (k + length sampled)%nat
  /\ pois m' = pois m ++ seq 0 (length sampled)
  /\ (forall p,
        poi_store m' !! p
        = if bool_decide (p < length sampled)%nat
          then (fun c : Z * Z =>
                  mkPOI (Z.of_nat p) c.1 c.2
                        (Qlt_bool (draws (k + p)%nat) (3 # 10))
                        false false None) <$> sampled !! p
          else poi_store m !! p)
  /\ 0 <= Z.min np (Z.of_nat (length (available_positions m))).
Proof.
  unfold _place_pois. case_bool_decide as Hnp; [discriminate |].
  rewrite (imap_ext pair (fun i c => ((0 + i)%nat, c)) sampled) by done.
  destruct (place_pois_from draws sampled 0 m k) as (Hr & Hk & Hp & Hst).
  cbv zeta in Hr, Hk, Hp, Hst.
  destruct (foldl (place_poi draws) (m, k) _) as [m5 k5].
  cbn [fst snd] in Hr, Hk, Hp, Hst. intros [= <- <-].
  split; [exact Hr |]. split; [exact Hk |]. split; [exact Hp |].
  split; [| lia].
  intros p. rewrite (Hst p). rewrite Nat.sub_0_r.
  destruct (decide (p < length sampled)%nat).
  - by rewrite !bool_decide_eq_true_2 by lia.
  - by rewrite !bool_decide_eq_false_2 by lia.
Qed.

(** The stages put together, on arbitrary intermediate states. *)
Lemma init_compose w h nff np wh sampled (draws : nat -> Q) (k k' : nat)
    (m1 m2 m3 m4 m : FlashPointModel) :
  0 <= w -> 0 <= h ->
  let m0 := mkModel w h wh 0 0 (grid_full h w CLEAR) (grid_full h w NORMAL)
                    ∅ [] ∅ [] ∅ 0 in
  (m1 = set_cell_types (cell_types m1) m0
   /\ grid_shape (cell_types m1) (width m0) (height m0)
   /\ forall x y, in_bounds m0 x y = true ->
        grid_get NORMAL (cell_types m1) x y
        = if bool_decide ((x, y) ∈ exit_cells) then EXIT
          else grid_get NORMAL (cell_types m0) x y) ->
  (m2 = set_walls (walls m2) m1
   /\ forall key,
        walls m2 !! key
        = if decide (wall_slot (width m1) (height m1) key)
          then Some (Wall_init (wall_health m1)) else walls m1 !! key) ->
  (m3 = set_schedule (schedule m3) (set_agent_store (agent_store m3) m2)
   /\ schedule m3 = schedule m2 ++ ((fun i => S (Z.to_nat i)) <$> range (Z.min nff 5))
   /\ (forall f,
         agent_store m3 !! f
         = if bool_decide (f ∈ (fun i => S (Z.to_nat i)) <$> range (Z.min nff 5))
           then (fun c : Z * Z => FirefighterAgent_init c.1 c.2)
                  <$> start_positions !! pred f
           else agent_store m2 !! f)
   /\ Forall (fun i => exists c, start_positions !! Z.to_nat i = Some c
                                 /\ in_bounds m2 c.1 c.2 = true)
             (range (Z.min nff 5))) ->
  (grid_shape (cell_types m3) (width m3) (height m3) ->
   grid_shape (fire_grid m3) (width m3) (height m3) ->
   m4 = set_cell_types (cell_types m4) (set_fire_grid (fire_grid m4) m3)
   /\ grid_shape (cell_types m4) (width m3) (height m3)
   /\ grid_shape (fire_grid m4) (width m3) (height m3)
   /\ forall x y, in_bounds m3 x y = true ->
        grid_get NORMAL (cell_types m4) x y
        = (if bool_decide ((x, y) ∈ hotspot_cells) then HOTSPOT
           else grid_get NORMAL (cell_types m3) x y)
        /\ grid_get CLEAR (fire_grid m4) x y
           = (if bool_decide ((x, y) ∈ hotspot_cells) then FIRE
              else grid_get CLEAR (fire_grid m3) x y)) ->
  (m = set_pois (pois m) (set_poi_store (poi_store m) m4)
   /\ k' = (k + length sampled)%nat
   /\ pois m = pois m4 ++ seq 0 (length sampled)
   /\ (forall p,
         poi_store m !! p
         = if bool_decide (p < length sampled)%nat
           then (fun c : Z * Z =>
                   mkPOI (Z.of_nat p) c.1 c.2
                         (Qlt_bool (draws (k + p)%nat) (3 # 10))
                         false false None) <$> sampled !! p
           else poi_store m4 !! p)
   /\ 0 <= Z.min np (Z.of_nat (length (available_positions m4)))) ->
  0 <= w /\ 0 <= h
  /\ m = mkModel w h wh 0 0 (fire_grid m) (cell_types m) (walls m)
                 (seq 0 (length sampled)) (poi_store m)
                 ((fun i => S (Z.to_nat i)) <$> range (Z.min nff 5))
                 (agent_store m) 0
  /\ k' = (k + length sampled)%nat
  /\ grid_shape (fire_grid m) w h /\ grid_shape (cell_types m) w h
  /\ (forall x y, in_bounds m x y = true ->
        grid_get NORMAL (cell_types m) x y = cell_type_at (x, y)
        /\ grid_get CLEAR (fire_grid m) x y = initial_level (x, y))
  /\ (forall key,
        walls m !! key
        = if decide (wall_slot w h key) then Some (Wall_init wh) else None)
  /\ (forall f,
        agent_store m !! f
        = if bool_decide (f ∈ (fun i => S (Z.to_nat i)) <$> range (Z.min nff 5))
          then (fun c : Z * Z => FirefighterAgent_init c.1 c.2)
                 <$> start_positions !! pred f
          else None)
  /\ Forall (fun i => exists c, start_positions !! Z.to_nat i = Some c
                                /\ in_bounds m c.1 c.2 = true)
            (range (Z.min nff 5))
  /\ (forall p,
        poi_store m !! p
        = (fun c : Z * Z =>
             mkPOI (Z.of_nat p) c.1 c.2 (Qlt_bool (draws (k + p)%nat) (3 # 10))
                   false false None) <$> sampled !! p)
  /\ 0 <= Z.min np (Z.of_nat (length (available_positions m))).
Proof.
  intros Hw Hh m0 (Hr1 & Hs1 & Hg1) (Hr2 & Hk2) (Hr3 & Hsch3 & Hag3 & Hin3)
         H4 (Hr5 & Hk5 & Hp5 & Hst5 & Hnp).
  remember (cell_types m1) as ct1 eqn:Hct1. clear Hct1.
  unfold m0 in Hr1. model_fields_in Hr1.
  remember (walls m2) as W2 eqn:HW2. clear HW2.
  rewrite Hr1 in Hr2, Hk2. model_fields_in Hr2. model_fields_in Hk2.
  remember (agent_store m3) as A3 eqn:HA3. clear HA3.
  rewrite Hr2 in Hr3, Hsch3, Hag3, Hin3.
  model_fields_in Hsch3. model_fields_in Hag3. cbn [app] in Hsch3.
  rewrite Hsch3 in Hr3. model_fields_in Hr3.
  destruct H4 as (Hr4 & Hs4c & Hs4f & Hg4).
  { rewrite Hr3. model_fields. exact Hs1. }
  { rewrite Hr3. model_fields. apply grid_full_shape. }
  remember (cell_types m4) as ct4 eqn:Hct4. clear Hct4.
  remember (fire_grid m4) as fg4 eqn:Hfg4. clear Hfg4.
  rewrite Hr3 in Hr4, Hs4c, Hs4f, Hg4.
  model_fields_in Hr4. model_fields_in Hs4c. model_fields_in Hs4f.
  model_fields_in Hg4.
  assert (Hav : available_positions m = available_positions m4).
  { rewrite Hr5. apply available_positions_pois. }
  rewrite Hr4 in Hr5, Hp5, Hst5.
  model_fields_in Hp5. model_fields_in Hst5. cbn [app] in Hp5.
  remember (poi_store m) as S5 eqn:HS5. clear HS5.
  rewrite Hp5 in Hr5. model_fields_in Hr5.
  subst m. clear Hr1 Hr2 Hr3 Hr4. model_fields.
  split; [lia |]. split; [lia |]. split; [reflexivity |]. split; [exact Hk5 |].
  split; [exact Hs4f |]. split; [exact Hs4c |].
  split.
  { intros x y Hxy. change (in_bounds m0 x y = true) in Hxy.
    destruct (Hg4 x y Hxy) as [Hc Hf]. rewrite Hc, Hf, (Hg1 x y Hxy).
    apply in_bounds_inv in Hxy. unfold m0 in Hxy |- *.
    cbn [width height cell_types fire_grid] in Hxy |- *.
    rewrite !grid_full_get by lia. done. }
  split; [exact Hk2 |].
  split; [exact Hag3 |].
  split; [exact Hin3 |].
  split.
  { intros p. rewrite (Hst5 p). rewrite lookup_empty.
    case_bool_decide as Hp; [done |].
    rewrite lookup_ge_None_2 by lia. done. }
  rewrite Hav. exact Hnp.
Qed.

Lemma init_inv w h nff np wh sampled draws k m k' :
  FlashPointModel_init w h nff np wh sampled draws k = Some (m, k') ->
  0 <= w /\ 0 <= h
  /\ m = mkModel w h wh 0 0 (fire_grid m) (cell_types m) (walls m)
                 (seq 0 (length sampled)) (poi_store m)
                 ((fun i => S (Z.to_nat i)) <$> range (Z.min nff 5))
                 (agent_store m) 0
  /\ k' = (k + length sampled)%nat
  /\ grid_shape (fire_grid m) w h /\ grid_shape (cell_types m) w h
  /\ (forall x y, in_bounds m x y = true ->
        grid_get NORMAL (cell_types m) x y = cell_type_at (x, y)
        /\ grid_get CLEAR (fire_grid m) x y = initial_level (x, y))
  /\ (forall key,
        walls m !! key
        = if decide (wall_slot w h key) then Some (Wall_init wh) else None)
  /\ (forall f,
        agent_store m !! f
        = if bool_decide (f ∈ (fun i => S (Z.to_nat i)) <$> range (Z.min nff 5))
          then (fun c : Z * Z => FirefighterAgent_init c.1 c.2)
                 <$> start_positions !! pred f
          else None)
  /\ Forall (fun i => exists c, start_positions !! Z.to_nat i = Some c
                                /\ in_bounds m c.1 c.2 = true)
            (range (Z.min nff 5))
  /\ (forall p,
        poi_store m !! p
        = (fun c : Z * Z =>
             mkPOI (Z.of_nat p) c.1 c.2 (Qlt_bool (draws (k + p)%nat) (3 # 10))
                   false false None) <$> sampled !! p)
  /\ 0 <= Z.min np (Z.of_nat (length (available_positions m))).
Proof.
  unfold FlashPointModel_init.
  destruct (bool_decide (w < 0) || bool_decide (h < 0)) eqn:Hsz; [discriminate |].
  apply orb_false_iff in Hsz as [Hw Hh].
  apply bool_decide_eq_false in Hw. apply bool_decide_eq_false in Hh.
  cbv zeta.
  destruct (_place_firefighters nff _) as [m3 |] eqn:Hpf; [| discriminate].
  cbn [mbind option_bind]. intros Hpois.
  eapply (init_compose w h nff np wh sampled draws k k' _ _ m3 _ m);
    [lia | lia | | | | | ].
  - apply setup_exits_spec. apply grid_full_shape.
  - apply create_walls_spec.
  - apply place_firefighters_stage. exact Hpf.
  - apply place_initial_fires_spec.
  - eapply place_pois_stage. exact Hpois.
Qed.

Lemma find_path_unreachable m s g :
  s <> g -> ~ reachable m s g -> find_path m s g = [].
Proof.
  intros Hne Hun. unfold find_path, find_path_fuel.
  rewrite bool_decide_eq_false_2 by done.
  destruct (bfs_loop_spec m s g (find_path_bound m) _ _
              (bfs_inv_initial m s g Hne) (initial_measure m s))
    as (r & Hr & [[-> _] | Hw]).
  - by rewrite Hr.
  - destruct Hw as [Hw _]. exfalso. apply Hun. by eapply walk_reachable.
Qed.

(** X5 (FlashPointModel.__init__, _setup_exits, _create_walls,
    _place_initial_fires).  The board that the constructor builds: the
    width, the height and the wall health are the arguments, neither
    dimension negative (a dimension of 0 is accepted); the counters start
    at 0; both grids have the shape of the board; a cell is
    Hotspot and on fire exactly when it is one of the three hotspot cells,
    Exit exactly when it is one of the four exit cells, and Normal and Clear
    otherwise; and the wall table holds exactly one wall, at full health,
    under the east key and the south key of every cell that has such a
    neighbour.  The list of interior walls adds nothing to that table. *)
Theorem constructed_board (w h nff np wh : Z) (sampled : list (Z * Z))
    (draws : nat -> Q) (k k' : nat) (m : FlashPointModel) :
  FlashPointModel_init w h nff np wh sampled draws k = Some (m, k') ->
  (width m = w /\ height m = h /\ wall_health m = wh /\ 0 <= w /\ 0 <= h)
  /\ (rescued_pois m = 0 /\ explosion_count m = 0 /\ steps m = 0)
  /\ grid_shape (fire_grid m) w h /\ grid_shape (cell_types m) w h
  /\ (forall x y, in_bounds m x y = true ->
        grid_get NORMAL (cell_types m) x y = cell_type_at (x, y)
        /\ grid_get CLEAR (fire_grid m) x y = initial_level (x, y))
  /\ (forall key,
        walls m !! key
        = if decide (wall_slot w h key) then Some (Wall_init wh) else None)
  /\ (forall a b, neighbours m a b ->
        walls m !! _get_wall_key a.1 a.2 b.1 b.2 = Some (Wall_init wh)).
Proof.
  intros Hinit.
  destruct (init_inv _ _ _ _ _ _ _ _ _ _ Hinit)
    as (Hw & Hh & Hm & _ & Hfg & Hct & Hcells & Hwalls & _).
  assert (Hwm : width m = w) by (rewrite Hm; reflexivity).
  assert (Hhm : height m = h) by (rewrite Hm; reflexivity).
  split; [rewrite Hm; by repeat split |].
  split; [rewrite Hm; by repeat split |].
  split; [exact Hfg |]. split; [exact Hct |]. split; [exact Hcells |].
  split; [exact Hwalls |].
  intros a b Hab. apply neighbours_wall_slot in Hab. rewrite Hwm, Hhm in Hab.
  rewrite Hwalls. by rewrite decide_True.
Qed.

Lemma constructed_board_witness :
  walls small_board !! (1, 0, 1, 1) = Some (Wall_init 2)
  /\ walls small_board !! (1, 1, 1, 2) = None.
Proof.
  assert (Hinit : FlashPointModel_init 3 2 0 0 2 [] calm 0 = Some (small_board, 0%nat))
    by (vm_compute; reflexivity).
  destruct (constructed_board 3 2 0 0 2 [] calm 0 0 small_board Hinit)
    as (_ & _ & _ & _ & _ & Hwalls & _).
  split; rewrite Hwalls; reflexivity.
Defined.

(** X6 (FlashPointModel.__init__, _create_walls, can_move_between,
    find_path, move_to).  A simulation built with a positive wall health
    starts with every cell walled in: no move between two cells of the
    board is possible, the pathfinder finds no path from a cell of the
    board to any other cell, and every call of [move_to] fails.  (With a
    wall health of 0 or less every wall counts as destroyed and every move
    between neighbouring cells is possible.) *)
Theorem fresh_board_is_walled (w h nff np wh : Z) (sampled : list (Z * Z))
    (draws : nat -> Q) (k k' : nat) (m : FlashPointModel) :
  FlashPointModel_init w h nff np wh sampled draws k = Some (m, k') ->
  (forall a b, neighbours m a b ->
     can_move_between m a.1 a.2 b.1 b.2 = bool_decide (wh <= 0))
  /\ (0 < wh ->
      (forall a b, in_bounds m a.1 a.2 = true ->
         can_move_between m a.1 a.2 b.1 b.2 = false)
      /\ (forall s g, in_bounds m s.1 s.2 = true -> s <> g ->
            find_path m s g = [])
      /\ (forall self x y, move_to self x y m = (false, m))).
Proof.
  intros Hinit.
  destruct (init_inv _ _ _ _ _ _ _ _ _ _ Hinit)
    as (Hw & Hh & Hm & _ & _ & _ & _ & Hwalls & Hag & Hin & _).
  assert (Hwm : width m = w) by (rewrite Hm; reflexivity).
  assert (Hhm : height m = h) by (rewrite Hm; reflexivity).
  assert (Hnb : forall a b, neighbours m a b ->
            has_wall_between m a.1 a.2 b.1 b.2 = negb (bool_decide (wh <= 0))).
  { intros a b Hab. unfold has_wall_between.
    apply neighbours_wall_slot in Hab. rewrite Hwm, Hhm in Hab.
    rewrite Hwalls, decide_True by done. reflexivity. }
  assert (Hmove : forall a b, neighbours m a b ->
            can_move_between m a.1 a.2 b.1 b.2 = bool_decide (wh <= 0)).
  { intros a b Hab. unfold can_move_between. rewrite (Hnb a b Hab).
    destruct Hab as (_ & -> & Hadj). rewrite (bool_decide_eq_true_2 _ Hadj).
    cbn [negb]. by rewrite negb_involutive. }
  split; [exact Hmove |].
  intros Hwh.
  assert (Hblocked : forall a b, in_bounds m a.1 a.2 = true ->
            can_move_between m a.1 a.2 b.1 b.2 = false).
  { intros a b Ha.
    destruct (can_move_between m a.1 a.2 b.1 b.2) eqn:Hc; [| done].
    assert (Hab : neighbours m a b).
    { unfold can_move_between in Hc.
      destruct (in_bounds m b.1 b.2) eqn:Hb; [| discriminate].
      cbn [negb] in Hc. case_bool_decide; [| discriminate]. done. }
    rewrite (Hmove a b Hab) in Hc. apply bool_decide_eq_true in Hc. lia. }
  split; [exact Hblocked |]. split.
  - intros s g Hs Hne. apply find_path_unreachable; [done |].
    intros Hre. apply rtc_inv in Hre as [-> | (b & Hsb & _)]; [done |].
    unfold edge in Hsb. by rewrite (Hblocked s b Hs) in Hsb.
  - intros self x y. unfold move_to.
    destruct (agent_store m !! self) as [a |] eqn:Ha; [| done].
    destruct (bool_decide (action_points a <= 0)); [done |].
    pose proof (Hblocked (ff_x a, ff_y a) (x, y)) as Hb. cbn [fst snd] in Hb.
    rewrite Hb; [done |].
    rewrite Hag in Ha. case_bool_decide as Hf; [| discriminate].
    apply list_elem_of_fmap in Hf as (i & -> & Hi).
    rewrite Forall_forall in Hin. destruct (Hin i Hi) as (c & Hc & Hcb).
    cbn [pred] in Ha. rewrite Hc in Ha. cbn in Ha. inversion Ha; subst a.
    exact Hcb.
Qed.

Lemma fresh_board_is_walled_witness :
  can_move_between small_board 0 0 1 0 = false
  /\ find_path small_board (0, 0) (2, 1) = [].
Proof.
  assert (Hinit : FlashPointModel_init 3 2 0 0 2 [] calm 0 = Some (small_board, 0%nat))
    by (vm_compute; reflexivity).
  destruct (fresh_board_is_walled 3 2 0 0 2 [] calm 0 0 small_board Hinit)
    as (_ & Hwalled).
  destruct Hwalled as (Hmove & Hpath & _); [lia |].
  split.
  - exact (Hmove (0, 0) (1, 0) eq_refl).
  - apply (Hpath (0, 0) (2, 1)); [reflexivity | discriminate].
Defined.

Lemma crew_refs n :
  (fun i => S (Z.to_nat i)) <$> range n = seq 1 (Z.to_nat n).
Proof.
  unfold range, seqZ. rewrite <- list_fmap_compose, <- fmap_S_seq.
  apply list_fmap_ext. intros i j _. cbn. f_equal. lia.
Qed.

(** X7 (_place_firefighters, FirefighterAgent.__init__).  The crew that the
    constructor builds: the requested number of firefighters cut to the
    range 0..5, numbered from 1 in creation order and scheduled in that
    order; firefighter [f] stands on the start cell number [f - 1], which
    lies on the board, with 4 of 4 action points, empty hands and no role
    yet, and its [pos] attribute agrees with its coordinates. *)
Theorem constructed_crew (w h nff np wh : Z) (sampled : list (Z * Z))
    (draws : nat -> Q) (k k' : nat) (m : FlashPointModel) :
  FlashPointModel_init w h nff np wh sampled draws k = Some (m, k') ->
  schedule m = seq 1 (Z.to_nat (Z.min nff 5))
  /\ (forall f,
        agent_store m !! f
        = if bool_decide (1 <= f <= Z.to_nat (Z.min nff 5))%nat
          then (fun c : Z * Z => FirefighterAgent_init c.1 c.2)
                 <$> start_positions !! pred f
          else None)
  /\ (forall f a, agent_store m !! f = Some a ->
        f ∈ schedule m
        /\ start_positions !! pred f = Some (ff_x a, ff_y a)
        /\ in_bounds m (ff_x a) (ff_y a) = true
        /\ ff_pos a = (ff_x a, ff_y a)
        /\ action_points a = 4 /\ max_action_points a = 4
        /\ carrying_poi a = None /\ role a = unassigned).
Proof.
  intros Hinit.
  destruct (init_inv _ _ _ _ _ _ _ _ _ _ Hinit)
    as (_ & _ & Hm & _ & _ & _ & _ & _ & Hag & Hin & _).
  rewrite crew_refs in Hm, Hag.
  assert (Hsch : schedule m = seq 1 (Z.to_nat (Z.min nff 5)))
    by (rewrite Hm; reflexivity).
  assert (Hmem : forall f, f ∈ seq 1 (Z.to_nat (Z.min nff 5))
                           <-> (1 <= f <= Z.to_nat (Z.min nff 5))%nat).
  { intros f. rewrite elem_of_seq. lia. }
  split; [exact Hsch |]. split.
  - intros f. rewrite Hag. by rewrite (bool_decide_ext _ _ (Hmem f)).
  - intros f a Ha. rewrite Hag in Ha. case_bool_decide as Hf; [| discriminate].
    split; [by rewrite Hsch |].
    rewrite <- crew_refs in Hf. apply list_elem_of_fmap in Hf as (i & -> & Hi).
    rewrite Forall_forall in Hin. destruct (Hin i Hi) as (c & Hc & Hcb).
    cbn [pred] in Ha |- *. rewrite Hc in Ha |- *. cbn in Ha.
    inversion Ha; subst a.
    cbn [ff_x ff_y ff_pos action_points max_action_points carrying_poi role
         FirefighterAgent_init].
    split; [by rewrite <- surjective_pairing |].
    split; [exact Hcb | done].
Qed.

Lemma constructed_crew_witness :
  schedule yard = [1%nat]
  /\ agent_store yard !! 1%nat = Some (FirefighterAgent_init 1 3).
Proof.
  assert (Hinit : FlashPointModel_init 2 4 1 1 2 [(0, 0)] calm 0 = Some (yard, 1%nat))
    by (vm_compute; reflexivity).
  destruct (constructed_crew 2 4 1 1 2 [(0, 0)] calm 0 1 yard Hinit)
    as (Hsch & Hag & _).
  split; [exact Hsch | rewrite Hag; reflexivity].
Defined.

Lemma find_unique {A} (f : A -> bool) (l : list A) (x : A) :
  x ∈ l -> f x = true -> (forall y, y ∈ l -> f y = true -> y = x) ->
  List.find f l = Some x.
Proof.
  induction l as [| a l IH]; intros Hin Hx Hu; [inversion Hin |].
  cbn [List.find]. destruct (f a) eqn:Ha.
  - f_equal. apply Hu; [by left | done].
  - apply IH; [| done |].
    + apply elem_of_cons in Hin as [-> | Hin]; [congruence | done].
    + intros y Hy. apply Hu. by right.
Qed.

(** X8 (_place_pois, POI.__init__, _has_firefighter_at, get_poi_at).  The
    POIs that the constructor places, for any outcome of the sampling: as
    many as requested, cut to the number of free cells; POI number [p] is
    registered under the id [p] at the [p]-th sampled cell, hidden, not
    rescued and not carried, and it is a false alarm exactly when its draw
    fell below 0.3; its cell lies on the board, is Clear, is no exit and
    holds no firefighter; no two POIs share a cell, so that [get_poi_at]
    at the cell of a POI returns that POI. *)
Theorem constructed_pois (w h nff np wh : Z) (sampled : list (Z * Z))
    (draws : nat -> Q) (k k' : nat) (m : FlashPointModel) :
  FlashPointModel_init w h nff np wh sampled draws k = Some (m, k') ->
  valid_sample (available_positions m)
               (Z.min np (Z.of_nat (length (available_positions m)))) sampled ->
  pois m = seq 0 (length sampled)
  /\ Z.of_nat (length (pois m))
     = Z.min np (Z.of_nat (length (available_positions m)))
  /\ k' = (k + length sampled)%nat
  /\ (forall p, (length sampled <= p)%nat -> poi_store m !! p = None)
  /\ (forall p c, sampled !! p = Some c ->
        poi_store m !! p
        = Some (mkPOI (Z.of_nat p) c.1 c.2 (Qlt_bool (draws (k + p)%nat) (3 # 10))
                      false false None)
        /\ in_bounds m c.1 c.2 = true
        /\ get_fire_state m c.1 c.2 = CLEAR
        /\ is_exit m c.1 c.2 = false
        /\ _has_firefighter_at m c.1 c.2 = false
        /\ get_poi_at m c.1 c.2
           = Some (p, mkPOI (Z.of_nat p) c.1 c.2
                            (Qlt_bool (draws (k + p)%nat) (3 # 10))
                            false false None)).
Proof.
  intros Hinit (Hnd & Hsub & Hlen).
  destruct (init_inv _ _ _ _ _ _ _ _ _ _ Hinit)
    as (_ & _ & Hm & Hk & _ & _ & _ & _ & _ & _ & Hst & _).
  assert (Hps : pois m = seq 0 (length sampled)) by (rewrite Hm; reflexivity).
  split; [exact Hps |].
  split; [by rewrite Hps, length_seq |].
  split; [exact Hk |].
  split; [intros p Hp; rewrite Hst; by rewrite lookup_ge_None_2 |].
  intros p c Hc.
  assert (Hp : poi_store m !! p
               = Some (mkPOI (Z.of_nat p) c.1 c.2
                             (Qlt_bool (draws (k + p)%nat) (3 # 10))
                             false false None))
    by (rewrite Hst, Hc; reflexivity).
  split; [exact Hp |].
  assert (Hav : c ∈ available_positions m)
    by (apply Hsub; by eapply list_elem_of_lookup_2).
  unfold available_positions in Hav.
  apply list_elem_of_filter in Hav as [(Hclear & Hexit & Hff) Hcell].
  rewrite (surjective_pairing c) in Hcell. apply cell_in_bounds in Hcell.
  split; [exact Hcell |].
  split; [unfold get_fire_state; by rewrite Hcell |].
  split; [unfold is_exit; rewrite Hcell; by apply bool_decide_eq_false_2 |].
  split; [exact Hff |].
  unfold get_poi_at. apply find_unique.
  - apply resolve_pois_elem. split; [| exact Hp].
    rewrite Hps. apply elem_of_seq. apply lookup_lt_Some in Hc. lia.
  - cbn. by rewrite !bool_decide_eq_true_2.
  - intros [p' P'] Hin Hf. apply resolve_pois_elem in Hin as [_ Hp'].
    rewrite Hst in Hp'.
    destruct (sampled !! p') as [c' |] eqn:Hc'; [| discriminate].
    cbn in Hp'. inversion Hp'; subst P'. cbn in Hf.
    apply andb_true_iff in Hf as [Hf _]. apply andb_true_iff in Hf as [Hf _].
    apply andb_true_iff in Hf as [Hx Hy].
    apply bool_decide_eq_true in Hx. apply bool_decide_eq_true in Hy.
    assert (c' = c).
    { rewrite (surjective_pairing c'), (surjective_pairing c). congruence. }
    subst c'.
    assert (p' = p) by (eapply NoDup_lookup; eauto). by subst p'.
Qed.

Lemma constructed_pois_witness :
  get_poi_at yard 0 0 = Some (0%nat, mkPOI 0 0 0 false false false None)
  /\ _has_firefighter_at yard 0 0 = false.
Proof.
  assert (Hinit : FlashPointModel_init 2 4 1 1 2 [(0, 0)] calm 0 = Some (yard, 1%nat))
    by (vm_compute; reflexivity).
  assert (Hav : available_positions yard
                = [(0, 0); (1, 0); (0, 1); (1, 1); (0, 2); (1, 2)])
    by (vm_compute; reflexivity).
  destruct (constructed_pois 2 4 1 1 2 [(0, 0)] calm 0 1 yard Hinit)
    as (_ & _ & _ & _ & Hpoi).
  - rewrite Hav. split; [apply NoDup_singleton |]. split; [| reflexivity].
    intros c Hc. apply list_elem_of_singleton in Hc. subst c. by left.
  - destruct (Hpoi 0%nat (0, 0) eq_refl) as (_ & _ & _ & _ & Hff & Hget).
    split; [exact Hget | exact Hff].
Defined.

(** ** Invariants of the simulation *)

(** A property of the state that holds after construction and is kept by
    every elementary change holds in every reachable state. *)
Section Preservation.
Variable P : FlashPointModel -> Prop.
Hypothesis P_reset : forall m self,
  P m -> P (update_agent self (fun a => set_action_points (max_action_points a) a) m).
Hypothesis P_role : forall m self r, P m -> P (update_agent self (set_role r) m).
Hypothesis P_move : forall m self x y, P m -> P (move_to self x y m).2.
Hypothesis P_extinguish : forall m self, P m -> P (extinguish_fire self m).2.
Hypothesis P_pickup : forall m self, P m -> P (pickup_poi self m).2.
Hypothesis P_drop : forall m self, P m -> P (drop_poi_at_exit self m).2.

Lemma step_along_preserves self path m : P m -> P (step_along self path m).2.
Proof.
  intros I. unfold step_along. destruct path as [| ? [| ? ?]]; try done.
  by apply P_move.
Qed.

Lemma assign_role_preserves self m : P m -> P (_assign_role self m).
Proof. intros I. unfold _assign_role. destruct (role_pois m); by apply P_role. Qed.

Lemma rescue_behavior_preserves self m : P m -> P (_rescue_behavior self m).
Proof.
  intros I. unfold _rescue_behavior.
  destruct (agent_store m !! self) as [a |]; [| done].
  destruct (carrying_poi a).
  - destruct (min_by _ (get_exits m)) as [e |]; [| done].
    pose proof (step_along_preserves self (get_path_to m a e.1 e.2) m I) as I1.
    destruct (step_along self (get_path_to m a e.1 e.2) m) as [moved m1].
    simpl in I1. destruct moved; [| done].
    destruct (agent_store m1 !! self) as [a1 |]; [| done].
    destruct (is_exit m1 _ _); [| done].
    by apply P_drop.
  - destruct (min_by _ _) as [np |]; [| done].
    destruct (_ && _); [by apply P_pickup |].
    by apply step_along_preserves.
Qed.

Lemma firefighting_behavior_preserves self m :
  P m -> P (_firefighting_behavior self m).
Proof.
  intros I. unfold _firefighting_behavior.
  destruct (agent_store m !! self) as [a |]; [| done].
  destruct (min_by _ _) as [c |]; [| done].
  destruct (_ && _); [by apply P_extinguish |].
  by apply step_along_preserves.
Qed.

Lemma agent_step_preserves self m : P m -> P (agent_step self m).
Proof.
  intros I. unfold agent_step.
  assert (I2 : P (_assign_role self
                  (update_agent self
                     (fun a => set_action_points (max_action_points a) a) m))).
  { apply assign_role_preserves. by apply P_reset. }
  destruct (agent_store _ !! self) as [a |]; [| done].
  case_bool_decide; [by apply rescue_behavior_preserves |
                     by apply firefighting_behavior_preserves].
Qed.

Hypothesis P_order : forall m order,
  P m -> order ≡ₚ schedule m -> P (set_schedule order m).
Hypothesis P_steps : forall m n, P m -> P (set_steps n m).
Hypothesis P_spread : forall draws k m, P m -> P (spread_fire draws k m).1.
Hypothesis P_explosion : forall m x y, P m -> P (_trigger_explosion m x y).

Lemma check_explosions_preserves draws k m :
  P m -> P (check_explosions draws k m).1.
Proof.
  intros I. unfold check_explosions.
  apply (for_yx_preserves (fun s : FlashPointModel * nat => P s.1)); [| done].
  intros [s j] x y Is. unfold explosion_cell. cbn [fst snd] in *.
  destruct (_ && _); [| done].
  destruct (Qlt_bool _ _); cbn [fst]; [by apply P_explosion | done].
Qed.

Lemma model_step_preserves order draws k m :
  P m -> order ≡ₚ schedule m -> P (model_step order draws k m).1.
Proof.
  intros I Hperm. unfold model_step.
  assert (I1 : P (schedule_step order m)).
  { unfold schedule_step. apply P_steps.
    apply (foldl_preserves P).
    - intros s f. apply agent_step_preserves.
    - by apply P_order. }
  pose proof (P_spread draws k _ I1) as I2.
  destruct (spread_fire draws k (schedule_step order m)) as [m2 k2].
  by apply check_explosions_preserves.
Qed.

Hypothesis P_init : forall w h nff np wh sampled draws k m k',
  FlashPointModel_init w h nff np wh sampled draws k = Some (m, k') -> P m.

Lemma reachable_preserves m : reachable_state m -> P m.
Proof.
  induction 1.
  - by eapply P_init.
  - by apply model_step_preserves.
  - by apply P_move.
  - by apply P_extinguish.
  - by apply P_pickup.
  - by apply P_drop.
Qed.
End Preservation.

(** *** The board *)

Lemma same_building_refl m : same_building m m.
Proof. by repeat split. Qed.

Lemma same_building_trans m1 m2 m3 :
  same_building m1 m2 -> same_building m2 m3 -> same_building m1 m3.
Proof.
  intros (?&?&?&?&?&?&?&?) (?&?&?&?&?&?&?&?). repeat split; congruence.
Qed.

Lemma building_update_agent self f m :
  same_building m (update_agent self f m)
  /\ fire_grid (update_agent self f m) = fire_grid m.
Proof. by repeat split. Qed.

Lemma building_update_poi r f m :
  same_building m (update_poi r f m)
  /\ fire_grid (update_poi r f m) = fire_grid m.
Proof. by repeat split. Qed.

Lemma building_remove_poi r m :
  same_building m (remove_poi r m) /\ fire_grid (remove_poi r m) = fire_grid m.
Proof. unfold remove_poi. case_bool_decide; by repeat split. Qed.

Lemma building_set_fire_state m x y s :
  same_building m (set_fire_state m x y s)
  /\ (grid_shape (fire_grid m) (width m) (height m) ->
      grid_shape (fire_grid (set_fire_state m x y s)) (width m) (height m)).
Proof.
  unfold set_fire_state. destruct (in_bounds m x y);
    (split; [by repeat split |]); intros Hs; [by apply grid_shape_set | done].
Qed.

Lemma building_move_to self x y m :
  same_building m (move_to self x y m).2
  /\ fire_grid (move_to self x y m).2 = fire_grid m.
Proof.
  unfold move_to. destruct (agent_store m !! self); [| by repeat split].
  case_bool_decide; [by repeat split |].
  destruct (negb _); by repeat split.
Qed.

Lemma building_extinguish_fire self m :
  same_building m (extinguish_fire self m).2
  /\ (grid_shape (fire_grid m) (width m) (height m) ->
      grid_shape (fire_grid (extinguish_fire self m).2) (width m) (height m)).
Proof.
  unfold extinguish_fire. destruct (agent_store m !! self) as [a |];
    [| split; [apply same_building_refl | done]].
  case_bool_decide; [split; [apply same_building_refl | done] |].
  destruct (get_fire_state m (ff_x a) (ff_y a)); cbn [snd].
  - split; [apply same_building_refl | done].
  - destruct (building_set_fire_state m (ff_x a) (ff_y a) CLEAR) as [B1 S1].
    split; [| exact S1].
    eapply same_building_trans; [exact B1 | by repeat split].
  - destruct (building_set_fire_state m (ff_x a) (ff_y a) SMOKE) as [B2 S2].
    split; [| exact S2].
    eapply same_building_trans; [exact B2 | by repeat split].
Qed.

Lemma building_pickup_poi self m :
  same_building m (pickup_poi self m).2
  /\ fire_grid (pickup_poi self m).2 = fire_grid m.
Proof.
  unfold pickup_poi. destruct (agent_store m !! self) as [a |];
    [| by repeat split].
  destruct (_ || _); [by repeat split |].
  destruct (get_poi_at m _ _) as [[r p] |]; [| by repeat split].
  destruct (negb (is_rescued p)); [| by repeat split].
  destruct (negb (is_revealed p)); [| by repeat split].
  cbn [reveal snd]. destruct (negb (negb (is_false_alarm p))); cbn [snd];
    [| by repeat split].
  unfold remove_poi. case_bool_decide; by repeat split.
Qed.

Lemma building_drop_poi_at_exit self m :
  same_building m (drop_poi_at_exit self m).2
  /\ fire_grid (drop_poi_at_exit self m).2 = fire_grid m.
Proof.
  unfold drop_poi_at_exit. destruct (agent_store m !! self) as [a |];
    [| by repeat split].
  destruct (carrying_poi a); [| by repeat split].
  destruct (is_exit m _ _); by repeat split.
Qed.

Lemma board_inv_frame m m' :
  width m' = width m -> height m' = height m -> wall_health m' = wall_health m ->
  cell_types m' = cell_types m -> walls m' = walls m ->
  grid_shape (fire_grid m') (width m) (height m) ->
  board_inv m -> board_inv m'.
Proof.
  intros Hw Hh Hwh Hct Hwl Hfg [I1 I2 I3 I4 I5 I6].
  constructor; unfold in_bounds; rewrite ?Hw, ?Hh, ?Hwh, ?Hct, ?Hwl; done.
Qed.

Lemma board_inv_building m m' :
  same_building m m' ->
  grid_shape (fire_grid m') (width m) (height m) ->
  board_inv m -> board_inv m'.
Proof. intros (?&?&?&?&?&_). by apply board_inv_frame. Qed.

Lemma wall_health_trigger_explosion m x y :
  wall_health (_trigger_explosion m x y) = wall_health m.
Proof.
  unfold _trigger_explosion.
  apply (foldl_preserves (fun s => wall_health s = wall_health m)).
  - intros s d Hs. destruct (in_bounds s _ _); [| done].
    by case_bool_decide.
  - apply (foldl_preserves (fun s => wall_health s = wall_health m)); [| done].
    intros s d Hs. destruct (in_bounds s _ _); [| done].
    unfold damage_wall. by destruct (walls s !! _).
Qed.

Lemma board_inv_trigger_explosion m x y :
  board_inv m -> board_inv (_trigger_explosion m x y).
Proof.
  intros [I1 I2 I3 I4 I5 I6].
  destruct (trigger_explosion_spec m x y I2)
    as (_ & Hwl & _ & Hw & Hh & Hct & _ & Hfg).
  pose proof (wall_health_trigger_explosion m x y) as Hwh.
  cbv zeta in Hwl, Hw, Hh, Hct, Hfg.
  constructor; unfold in_bounds; rewrite ?Hw, ?Hh, ?Hwh, ?Hct; try done.
  - by rewrite Hw, Hh in Hfg.
  - intros key. rewrite Hwl, <- I5.
    destruct (decide _); [by rewrite fmap_is_Some | done].
  - intros key wl. rewrite Hwl. destruct (decide _); [| apply I6].
    destruct (walls m !! key) as [w0 |] eqn:Hk; [| discriminate].
    cbn. intros [= <-]. destruct (I6 key w0 Hk) as [Hmax Hrange].
    cbn [take_damage fst health max_health]. split; [done | lia].
Qed.

Lemma board_inv_init w h nff np wh sampled draws k m k' :
  FlashPointModel_init w h nff np wh sampled draws k = Some (m, k') ->
  board_inv m.
Proof.
  intros Hinit.
  destruct (init_inv _ _ _ _ _ _ _ _ _ _ Hinit)
    as (Hw & Hh & Hm & _ & Hfg & Hct & Hcells & Hwalls & _).
  assert (Hwm : width m = w) by (rewrite Hm; reflexivity).
  assert (Hhm : height m = h) by (rewrite Hm; reflexivity).
  assert (Hwhm : wall_health m = wh) by (rewrite Hm; reflexivity).
  constructor; rewrite ?Hwm, ?Hhm, ?Hwhm; try done.
  - intros x y Hxy. by apply Hcells.
  - intros key. rewrite Hwalls. destruct (decide _) as [Hs | Hs].
    + split; [done | eauto].
    + split; [by intros [? ?] | done].
  - intros key wl. rewrite Hwalls. destruct (decide _); [| discriminate].
    intros [= <-]. cbn. lia.
Qed.

Lemma board_inv_update_agent self f m :
  board_inv m -> board_inv (update_agent self f m).
Proof.
  intros I. destruct (building_update_agent self f m) as [B F].
  eapply board_inv_building; [exact B | rewrite F; apply I | exact I].
Qed.

Lemma board_inv_move_to self x y m :
  board_inv m -> board_inv (move_to self x y m).2.
Proof.
  intros I. destruct (building_move_to self x y m) as [B F].
  eapply board_inv_building; [exact B | rewrite F; apply I | exact I].
Qed.

Lemma board_inv_extinguish_fire self m :
  board_inv m -> board_inv (extinguish_fire self m).2.
Proof.
  intros I. destruct (building_extinguish_fire self m) as [B F].
  eapply board_inv_building; [exact B | apply F, I | exact I].
Qed.

Lemma board_inv_pickup_poi self m :
  board_inv m -> board_inv (pickup_poi self m).2.
Proof.
  intros I. destruct (building_pickup_poi self m) as [B F].
  eapply board_inv_building; [exact B | rewrite F; apply I | exact I].
Qed.

Lemma board_inv_drop_poi_at_exit self m :
  board_inv m -> board_inv (drop_poi_at_exit self m).2.
Proof.
  intros I. destruct (building_drop_poi_at_exit self m) as [B F].
  eapply board_inv_building; [exact B | rewrite F; apply I | exact I].
Qed.

Lemma board_inv_agent_step self m : board_inv m -> board_inv (agent_step self m).
Proof.
  apply (agent_step_preserves board_inv).
  - intros s f. apply board_inv_update_agent.
  - intros s f r. apply board_inv_update_agent.
  - intros s f x y. apply board_inv_move_to.
  - intros s f. apply board_inv_extinguish_fire.
  - intros s f. apply board_inv_pickup_poi.
  - intros s f. apply board_inv_drop_poi_at_exit.
Qed.

Lemma board_inv_spread_fire draws k m :
  board_inv m -> board_inv (spread_fire draws k m).1.
Proof.
  intros I.
  destruct (spread_fire_spec draws k m (bd_fire m I)) as (Hsame & Hshape & _).
  cbv zeta in Hsame, Hshape.
  destruct Hsame as (Hw & Hh & Hwh & _ & _ & Hct & Hwl & _).
  eapply board_inv_frame; [.. | exact I]; done.
Qed.

Lemma reachable_board_inv m : reachable_state m -> board_inv m.
Proof.
  apply (reachable_preserves board_inv).
  - intros s f. apply board_inv_update_agent.
  - intros s f r. apply board_inv_update_agent.
  - intros s f x y. apply board_inv_move_to.
  - intros s f. apply board_inv_extinguish_fire.
  - intros s f. apply board_inv_pickup_poi.
  - intros s f. apply board_inv_drop_poi_at_exit.
  - intros s order I _. eapply board_inv_frame; [.. | exact I]; try done. apply I.
  - intros s n I. eapply board_inv_frame; [.. | exact I]; try done. apply I.
  - intros draws k s. apply board_inv_spread_fire.
  - intros s x y I. by apply board_inv_trigger_explosion.
  - apply board_inv_init.
Qed.

Lemma cell_type_at_exit c : cell_type_at c = EXIT <-> c ∈ exit_cells.
Proof.
  unfold cell_type_at. case_bool_decide as Hh.
  - split; [discriminate |]. intros He. exfalso.
    unfold hotspot_cells in Hh. unfold exit_cells in He.
    repeat (apply elem_of_cons in Hh as [-> | Hh];
            [repeat (apply elem_of_cons in He as [He | He]; [discriminate |]);
             inversion He |]).
    inversion Hh.
  - case_bool_decide; split; done.
Qed.

Lemma cell_type_at_hotspot c : cell_type_at c = HOTSPOT <-> c ∈ hotspot_cells.
Proof.
  unfold cell_type_at. case_bool_decide; [done |].
  case_bool_decide; split; done.
Qed.

(** X9 (FlashPointModel.step, spread_fire, _trigger_explosion, is_exit,
    get_exits, can_move_between).  The board never changes after
    construction.  In every reachable state neither dimension of the board
    is negative and both grids have its shape; the exits are the exit cells that lie on
    the board and the hotspots the hotspot cells that lie on the board;
    the wall table holds a wall exactly under the keys written by the
    constructor (no wall is ever added or removed), every wall keeps the
    maximal health it was built with and a health between 0 and that
    value; and a move between two neighbouring cells is possible exactly
    when the wall between them is down to health 0 or less. *)
Theorem board_invariant (m : FlashPointModel) :
  reachable_state m ->
  (0 <= width m /\ 0 <= height m)
  /\ grid_shape (fire_grid m) (width m) (height m)
  /\ grid_shape (cell_types m) (width m) (height m)
  /\ (forall x y,
        is_exit m x y = true <-> in_bounds m x y = true /\ (x, y) ∈ exit_cells)
  /\ (forall c, c ∈ get_exits m <-> in_bounds m c.1 c.2 = true /\ c ∈ exit_cells)
  /\ (forall x y, in_bounds m x y = true ->
        (grid_get NORMAL (cell_types m) x y = HOTSPOT <-> (x, y) ∈ hotspot_cells))
  /\ (forall key, is_Some (walls m !! key) <-> wall_slot (width m) (height m) key)
  /\ (forall a b, neighbours m a b ->
        exists wl,
          walls m !! _get_wall_key a.1 a.2 b.1 b.2 = Some wl
          /\ max_health wl = wall_health m
          /\ Z.min 0 (wall_health m) <= health wl <= Z.max 0 (wall_health m)
          /\ can_move_between m a.1 a.2 b.1 b.2 = bool_decide (health wl <= 0)).
Proof.
  intros Hr. destruct (reachable_board_inv m Hr) as [I1 I2 I3 I4 I5 I6].
  split; [exact I1 |]. split; [exact I2 |]. split; [exact I3 |].
  split.
  { intros x y. unfold is_exit. destruct (in_bounds m x y) eqn:Hb.
    - rewrite bool_decide_eq_true, (I4 x y Hb), cell_type_at_exit. tauto.
    - split; [discriminate | intros [? _]; discriminate]. }
  split.
  { intros [x y]. unfold get_exits. rewrite list_elem_of_filter. cbn [fst snd].
    split.
    - intros [He Hc]. apply cell_in_bounds in Hc. split; [done |].
      rewrite (I4 x y Hc) in He. by apply cell_type_at_exit.
    - intros [Hb He]. split; [| by apply in_bounds_cell].
      rewrite (I4 x y Hb). by apply cell_type_at_exit. }
  split.
  { intros x y Hb. rewrite (I4 x y Hb). apply cell_type_at_hotspot. }
  split; [exact I5 |].
  intros a b Hab. pose proof (neighbours_wall_slot m a b Hab) as Hs.
  apply I5 in Hs as [wl Hwl]. exists wl. split; [exact Hwl |].
  destruct (I6 _ _ Hwl) as [Hmax Hrange]. split; [exact Hmax |].
  split; [exact Hrange |].
  unfold can_move_between, has_wall_between. rewrite Hwl.
  destruct Hab as (_ & -> & Hadj). rewrite (bool_decide_eq_true_2 _ Hadj).
  cbn [negb]. unfold is_destroyed. by rewrite negb_involutive.
Qed.

Lemma board_invariant_witness :
  is_exit (model_step [] wild 0 small_board).1 0 1 = false
  /\ is_Some (walls (model_step [] wild 0 small_board).1 !! (0, 0, 1, 0)).
Proof.
  assert (Hr : reachable_state (model_step [] wild 0 small_board).1).
  { apply reach_step; [| vm_compute; reflexivity].
    apply (reach_init 3 2 0 0 2 [] calm 0 _ 0). vm_compute. reflexivity. }
  destruct (board_invariant _ Hr) as (_ & _ & _ & Hexit & _ & _ & Hslots & _).
  split.
  - destruct (is_exit (model_step [] wild 0 small_board).1 0 1) eqn:He; [| done].
    apply Hexit in He as [_ He].
    repeat (apply elem_of_cons in He as [He | He]; [discriminate |]).
    inversion He.
  - apply Hslots. vm_compute. repeat split; try (intros ?; discriminate).
    by left.
Defined.

(** *** The crew *)

Lemma crew_inv_frame m m' :
  agent_store m' = agent_store m -> schedule m' = schedule m ->
  width m' = width m -> height m' = height m ->
  crew_inv m -> crew_inv m'.
Proof.
  intros Ha Hs Hw Hh [I1 I2 I3 I4].
  constructor; unfold on_duty, in_bounds in *; rewrite ?Ha, ?Hs, ?Hw, ?Hh; done.
Qed.

(** A change of one firefighter record that keeps the record on duty. *)
Lemma crew_inv_update self f m :
  crew_inv m ->
  (forall a, agent_store m !! self = Some a -> on_duty m a -> on_duty m (f a)) ->
  crew_inv (update_agent self f m).
Proof.
  intros [I1 I2 I3 I4] Hf. constructor; cbn [update_agent set_agent_store
    agent_store schedule]; try done.
  - intros g a. destruct (decide (g = self)) as [-> | Hne].
    + rewrite lookup_alter_eq.
      destruct (agent_store m !! self) as [a0 |] eqn:Ha0; [| discriminate].
      cbn. intros [= <-]. apply (Hf a0 eq_refl). by eapply I1.
    + rewrite lookup_alter_ne by done. apply I1.
  - intros g. rewrite I3. destruct (decide (g = self)) as [-> | Hne].
    + rewrite lookup_alter_eq. by rewrite fmap_is_Some.
    + by rewrite lookup_alter_ne.
Qed.

Lemma update_agent_twice self f g m :
  update_agent self f (update_agent self g m) = update_agent self (f ∘ g) m.
Proof.
  unfold update_agent. cbn [set_agent_store agent_store width height wall_health
    rescued_pois explosion_count fire_grid cell_types walls pois poi_store
    schedule steps].
  by rewrite alter_alter_eq.
Qed.

Lemma can_move_in_bounds m x1 y1 x2 y2 :
  can_move_between m x1 y1 x2 y2 = true -> in_bounds m x2 y2 = true.
Proof.
  unfold can_move_between. destruct (in_bounds m x2 y2); [done | discriminate].
Qed.

Lemma crew_inv_move_to self x y m : crew_inv m -> crew_inv (move_to self x y m).2.
Proof.
  intros I. unfold move_to.
  destruct (agent_store m !! self) as [a |] eqn:Ha; [| done].
  case_bool_decide as Hap; [done |].
  destruct (can_move_between m (ff_x a) (ff_y a) x y) eqn:Hmv; [| done].
  cbn [negb snd]. rewrite !update_agent_twice.
  apply crew_inv_update; [done |].
  intros a' Ha' (Hb & Hp & Hmax & Hrange).
  assert (a' = a) by congruence. subst a'.
  apply can_move_in_bounds in Hmv.
  unfold on_duty. cbn. split; [done |]. split; [done |]. split; [done | lia].
Qed.

Lemma crew_inv_spend self m :
  crew_inv m ->
  (forall a, agent_store m !! self = Some a -> 0 < action_points a) ->
  crew_inv (update_agent self (fun a => set_action_points (action_points a - 1) a) m).
Proof.
  intros I Hpos. apply crew_inv_update; [done |].
  intros a Ha (Hb & Hp & Hmax & Hrange). specialize (Hpos a Ha).
  unfold on_duty. cbn. split; [done |]. split; [done |]. split; [done | lia].
Qed.

Lemma crew_inv_keep self f m :
  crew_inv m ->
  (forall a, ff_x (f a) = ff_x a /\ ff_y (f a) = ff_y a /\ ff_pos (f a) = ff_pos a
             /\ max_action_points (f a) = max_action_points a
             /\ action_points (f a) = action_points a) ->
  crew_inv (update_agent self f m).
Proof.
  intros I Hf. apply crew_inv_update; [done |].
  intros a _ (Hb & Hp & Hmax & Hrange).
  destruct (Hf a) as (Hx & Hy & Hpos & Hm & Hap).
  unfold on_duty. by rewrite Hx, Hy, Hpos, Hm, Hap.
Qed.

Lemma crew_inv_extinguish_fire self m :
  crew_inv m -> crew_inv (extinguish_fire self m).2.
Proof.
  intros I. unfold extinguish_fire.
  destruct (agent_store m !! self) as [a |] eqn:Ha; [| done].
  case_bool_decide as Hap; [done |].
  assert (Hfs : forall s, crew_inv (set_fire_state m (ff_x a) (ff_y a) s)).
  { intros s. eapply crew_inv_frame; [.. | exact I];
      unfold set_fire_state; by destruct (in_bounds m _ _). }
  destruct (get_fire_state m (ff_x a) (ff_y a)); cbn [snd]; [done | |];
    (apply crew_inv_spend; [apply Hfs |]);
    intros a'; rewrite agent_store_set_fire_state, Ha; intros [= <-]; lia.
Qed.

Lemma crew_inv_update_poi r f m : crew_inv m -> crew_inv (update_poi r f m).
Proof. intros I. by eapply crew_inv_frame; [.. | exact I]. Qed.

Lemma crew_inv_remove_poi r m : crew_inv m -> crew_inv (remove_poi r m).
Proof.
  intros I. eapply crew_inv_frame; [.. | exact I];
    unfold remove_poi; by case_bool_decide.
Qed.

Lemma crew_inv_pickup_poi self m : crew_inv m -> crew_inv (pickup_poi self m).2.
Proof.
  intros I. unfold pickup_poi.
  destruct (agent_store m !! self) as [a |] eqn:Ha; [| done].
  destruct (bool_decide (action_points a <= 0)) eqn:Hap; [done |].
  apply bool_decide_eq_false in Hap. cbn [orb].
  destruct (negb (bool_decide (carrying_poi a = None))); [done |].
  destruct (get_poi_at m _ _) as [[r p] |]; [| done].
  destruct (negb (is_rescued p)); [| done].
  assert (Hcarry : forall m',
            crew_inv m' -> agent_store m' !! self = Some a ->
            crew_inv (update_agent self
                        (fun a => set_action_points (action_points a - 1) a)
                        (update_poi r (set_carried_by (Some self))
                           (update_agent self (set_carrying_poi (Some r)) m')))).
  { intros m' I' Ha'. apply crew_inv_spend.
    - apply crew_inv_update_poi. by apply crew_inv_keep.
    - intros a'. cbn [update_poi update_agent set_poi_store set_agent_store
        agent_store]. rewrite lookup_alter_eq, Ha'. cbn. intros [= <-]. cbn. lia. }
  destruct (negb (is_revealed p)); cbn [snd]; [| by apply Hcarry].
  cbn [reveal snd]. destruct (negb (negb (is_false_alarm p))); cbn [snd].
  - apply crew_inv_spend.
    + by apply crew_inv_remove_poi, crew_inv_update_poi.
    + intros a'. rewrite agent_store_remove_poi. cbn. rewrite Ha.
      intros [= <-]. lia.
  - apply Hcarry; [by apply crew_inv_update_poi | exact Ha].
Qed.

Lemma crew_inv_drop_poi_at_exit self m :
  crew_inv m -> crew_inv (drop_poi_at_exit self m).2.
Proof.
  intros I. unfold drop_poi_at_exit.
  destruct (agent_store m !! self) as [a |] eqn:Ha; [| done].
  destruct (carrying_poi a) as [r |]; [| done].
  destruct (is_exit m _ _); [| done]. cbn [snd].
  match goal with
  | |- crew_inv (set_rescued_pois _ ?t) =>
      apply (crew_inv_frame t); [done | done | done | done |]
  end.
  apply crew_inv_keep; [| done].
  by apply crew_inv_update_poi, crew_inv_update_poi.
Qed.

Lemma size_trigger_explosion m x y :
  width (_trigger_explosion m x y) = width m
  /\ height (_trigger_explosion m x y) = height m.
Proof.
  unfold _trigger_explosion.
  apply (foldl_preserves (fun s => width s = width m /\ height s = height m)).
  - intros s d Hs. destruct (in_bounds s _ _); [| done].
    by case_bool_decide.
  - apply (foldl_preserves (fun s => width s = width m /\ height s = height m));
      [| done].
    intros s d Hs. destruct (in_bounds s _ _); [| done].
    unfold damage_wall. by destruct (walls s !! _).
Qed.

Lemma crew_inv_init w h nff np wh sampled draws k m k' :
  FlashPointModel_init w h nff np wh sampled draws k = Some (m, k') ->
  crew_inv m.
Proof.
  intros Hinit.
  destruct (init_inv _ _ _ _ _ _ _ _ _ _ Hinit)
    as (_ & _ & Hm & _ & _ & _ & _ & _ & Hag & Hin & _).
  assert (Hsch : schedule m = seq 1 (Z.to_nat (Z.min nff 5)))
    by (rewrite Hm, crew_refs; reflexivity).
  rewrite Forall_forall in Hin.
  constructor.
  - intros f a Ha. rewrite Hag in Ha. case_bool_decide as Hf; [| discriminate].
    apply list_elem_of_fmap in Hf as (i & -> & Hi).
    destruct (Hin i Hi) as (c & Hc & Hcb).
    cbn [pred] in Ha. rewrite Hc in Ha. cbn in Ha. inversion Ha; subst a.
    unfold on_duty. cbn. split; [done |]. split; [done |]. split; [done | lia].
  - rewrite Hsch. apply NoDup_seq.
  - intros f. rewrite Hag, Hsch, <- crew_refs. case_bool_decide as Hf.
    + split; [| done]. intros _.
      apply list_elem_of_fmap in Hf as (i & -> & Hi).
      destruct (Hin i Hi) as (c & Hc & _). cbn [pred]. rewrite Hc. by eexists.
    + split; [done | by intros [? ?]].
  - rewrite Hsch, length_seq. lia.
Qed.

Lemma reachable_crew_inv m : reachable_state m -> crew_inv m.
Proof.
  apply (reachable_preserves crew_inv).
  - intros s self I. apply crew_inv_update; [done |].
    intros a _ (Hb & Hp & Hmax & Hrange). unfold on_duty. cbn.
    split; [done |]. split; [done |]. split; [done | lia].
  - intros s self r I. by apply crew_inv_keep.
  - intros s self x y. apply crew_inv_move_to.
  - intros s self. apply crew_inv_extinguish_fire.
  - intros s self. apply crew_inv_pickup_poi.
  - intros s self. apply crew_inv_drop_poi_at_exit.
  - intros s order [I1 I2 I3 I4] Hperm. constructor; cbn; try done.
    + by rewrite Hperm.
    + intros f. by rewrite Hperm.
    + by rewrite Hperm.
  - intros s n I. by eapply crew_inv_frame; [.. | exact I].
  - intros draws k s I.
    destruct (same_objects_spread_fire draws k s) as (Ha & _ & _ & Hs).
    by eapply crew_inv_frame; [.. | exact I].
  - intros s x y I.
    destruct (same_objects_trigger_explosion s x y) as (Ha & _ & _ & Hs).
    destruct (size_trigger_explosion s x y) as [Hw Hh].
    by eapply crew_inv_frame; [.. | exact I].
  - apply crew_inv_init.
Qed.

(** *** The POIs *)

Lemma elem_of_rescued_refs m p :
  p ∈ rescued_refs m
  <-> exists P, poi_store m !! p = Some P /\ is_rescued P = true.
Proof.
  unfold rescued_refs. rewrite elem_of_dom. split.
  - intros [P HP]. apply map_lookup_filter_Some in HP as [HP Hr]. eauto.
  - intros (P & HP & Hr). exists P. by apply map_lookup_filter_Some.
Qed.

Lemma poi_inv_frame m m' :
  poi_store m' = poi_store m -> pois m' = pois m ->
  rescued_pois m' = rescued_pois m -> poi_inv m -> poi_inv m'.
Proof.
  intros Hs Hp Hr [I1 I2 I3 I4 I5 I6 I7].
  constructor; unfold rescued_refs in *; rewrite ?Hs, ?Hp, ?Hr; done.
Qed.

Lemma remove_first_elem r (l : list nat) q :
  NoDup l -> q ∈ remove_first r l <-> q ∈ l /\ q <> r.
Proof.
  induction 1 as [| a l Ha Hl IH]; cbn [remove_first].
  - split; [intros H; inversion H | intros [H _]; inversion H].
  - case_bool_decide as Har.
    + subst a. rewrite elem_of_cons. split.
      * intros Hq. split; [by right |]. by intros ->.
      * intros [[-> | Hq] Hne]; done.
    + rewrite !elem_of_cons, IH. split.
      * intros [-> | [Hq Hne]]; [split; [by left | done] |].
        split; [by right | done].
      * intros [[-> | Hq] Hne]; [by left | by right].
Qed.

Lemma remove_first_NoDup r (l : list nat) : NoDup l -> NoDup (remove_first r l).
Proof.
  induction 1 as [| a l Ha Hl IH]; cbn [remove_first]; [constructor |].
  case_bool_decide; [done |]. constructor; [| done].
  rewrite remove_first_elem by done. by intros [? _].
Qed.

(** One POI record changes, the registry may lose that POI, and the
    counter advances when the record becomes rescued. *)
Lemma poi_inv_change r f m m' P :
  poi_inv m -> poi_store m !! r = Some P ->
  poi_store m' = alter f r (poi_store m) ->
  NoDup (pois m') ->
  (forall q, q ∈ pois m' -> q ∈ pois m) ->
  (forall q, q <> r -> q ∈ pois m -> q ∈ pois m') ->
  rescued_pois m'
  = rescued_pois m + (if is_rescued (f P) && negb (is_rescued P) then 1 else 0) ->
  (is_rescued P = true -> is_rescued (f P) = true) ->
  poi_id (f P) = poi_id P ->
  (r ∈ pois m' -> is_revealed (f P) = true -> is_false_alarm (f P) = false) ->
  (carried_by (f P) <> None \/ is_rescued (f P) = true ->
   is_revealed (f P) = true /\ r ∈ pois m') ->
  (r ∉ pois m' ->
   is_false_alarm (f P) = true /\ is_revealed (f P) = true
   /\ carried_by (f P) = None /\ is_rescued (f P) = false) ->
  poi_inv m'.
Proof.
  intros [I1 I2 I3 I4 I5 I6 I7] HP Hst Hnd Hsub Hsup Hcount Hmono Hid
         Hreal Hheld Hgone.
  assert (Hlook : forall q Q, poi_store m' !! q = Some Q ->
            (q = r /\ Q = f P) \/ (q <> r /\ poi_store m !! q = Some Q)).
  { intros q Q. rewrite Hst. destruct (decide (q = r)) as [-> | Hne].
    - rewrite lookup_alter_eq, HP. cbn. intros [= <-]. by left.
    - rewrite lookup_alter_ne by done. by right. }
  constructor.
  - rewrite Hcount, I1.
    destruct (is_rescued (f P) && negb (is_rescued P)) eqn:Hnew.
    + apply andb_true_iff in Hnew as [Hnow Hold]. apply negb_true_iff in Hold.
      assert (Hr : r ∉ rescued_refs m).
      { rewrite elem_of_rescued_refs. intros (Q & HQ & Hq). congruence. }
      assert (Heq : rescued_refs m' = {[r]} ∪ rescued_refs m).
      { apply set_eq. intros q.
        rewrite elem_of_union, elem_of_singleton, !elem_of_rescued_refs. split.
        - intros (Q & HQ & Hq). destruct (Hlook q Q HQ) as [[-> ->] | [Hne HQ']];
            [by left | right; eauto].
        - intros [-> | (Q & HQ & Hq)].
          + exists (f P). split; [| done]. by rewrite Hst, lookup_alter_eq, HP.
          + destruct (decide (q = r)) as [-> | Hne]; [congruence |].
            exists Q. split; [| done]. by rewrite Hst, lookup_alter_ne. }
      rewrite Heq.
      rewrite (size_union (C := gset nat) {[r]} (rescued_refs m))
        by (apply disjoint_singleton_l; exact Hr).
      rewrite size_singleton. lia.
    + assert (Heq : rescued_refs m' = rescued_refs m).
      { apply set_eq. intros q. rewrite !elem_of_rescued_refs. split.
        - intros (Q & HQ & Hq). destruct (Hlook q Q HQ) as [[-> ->] | [Hne HQ']];
            [| eauto].
          exists P. split; [done |]. rewrite Hq in Hnew. cbn in Hnew.
          by apply negb_false_iff in Hnew.
        - intros (Q & HQ & Hq). destruct (decide (q = r)) as [-> | Hne].
          + exists (f P). split; [by rewrite Hst, lookup_alter_eq, HP |].
            apply Hmono. congruence.
          + exists Q. split; [| done]. by rewrite Hst, lookup_alter_ne. }
      rewrite Heq. lia.
  - exact Hnd.
  - intros q Hq. rewrite Hst. destruct (decide (q = r)) as [-> | Hne].
    + rewrite lookup_alter_eq, HP. by eexists.
    + rewrite lookup_alter_ne by done. apply I3. by apply Hsub.
  - intros q Q HQ. destruct (Hlook q Q HQ) as [[-> ->] | [Hne HQ']].
    + rewrite Hid. by eapply I4.
    + by eapply I4.
  - intros q Q HQ Hq. destruct (Hlook q Q HQ) as [[-> ->] | [Hne HQ']].
    + by apply Hreal.
    + apply (I5 q Q HQ'). by apply Hsub.
  - intros q Q HQ Hq. destruct (Hlook q Q HQ) as [[-> ->] | [Hne HQ']].
    + by apply Hheld.
    + destruct (I6 q Q HQ' Hq) as [Hrev Hin]. split; [done |]. by apply Hsup.
  - intros q Q HQ Hq. destruct (Hlook q Q HQ) as [[-> ->] | [Hne HQ']].
    + by apply Hgone.
    + apply (I7 q Q HQ'). intros Hin. apply Hq. by apply Hsup.
Qed.

Lemma poi_inv_update_agent self f m : poi_inv m -> poi_inv (update_agent self f m).
Proof. by apply poi_inv_frame. Qed.

Lemma poi_inv_move_to self x y m : poi_inv m -> poi_inv (move_to self x y m).2.
Proof.
  apply poi_inv_frame; unfold move_to;
    (destruct (agent_store m !! self); [| done]);
    (case_bool_decide; [done |]); by destruct (negb _).
Qed.

Lemma poi_inv_extinguish_fire self m :
  poi_inv m -> poi_inv (extinguish_fire self m).2.
Proof.
  apply poi_inv_frame; unfold extinguish_fire;
    (destruct (agent_store m !! self) as [a |]; [| done]);
    (case_bool_decide; [done |]);
    destruct (get_fire_state m _ _); cbn [snd]; try done;
    unfold set_fire_state; by destruct (in_bounds m _ _).
Qed.

Lemma poi_inv_pickup_poi self m : poi_inv m -> poi_inv (pickup_poi self m).2.
Proof.
  intros I. pose proof I as [I1 I2 I3 I4 I5 I6 I7]. unfold pickup_poi.
  destruct (agent_store m !! self) as [a |] eqn:Ha; [| done].
  destruct (bool_decide (action_points a <= 0)); [done |]. cbn [orb].
  destruct (negb (bool_decide (carrying_poi a = None))); [done |].
  destruct (get_poi_at m _ _) as [[r p] |] eqn:Hg; [| done].
  apply get_poi_at_spec in Hg as (Hin & Hp & _ & _ & Hr & Hcb).
  rewrite Hr. cbn [negb].
  destruct (is_revealed p) eqn:Hrev; cbn [negb].
  - cbn [snd].
    apply (poi_inv_change r (set_carried_by (Some self)) m _ p I Hp);
      cbn; rewrite ?Hr; cbn; try done.
    + lia.
    + intros _ _. by apply (I5 r p).
  - cbn [reveal snd]. destruct (is_false_alarm p) eqn:Hfa; cbn [negb snd].
    + apply (poi_inv_change r (fun p => (reveal p).1) m _ p I Hp).
      * cbn. unfold remove_poi. by case_bool_decide.
      * cbn. unfold remove_poi. cbn. rewrite bool_decide_eq_true_2 by done.
        cbn. by apply remove_first_NoDup.
      * intros q. cbn. unfold remove_poi. cbn.
        rewrite bool_decide_eq_true_2 by done. cbn.
        rewrite remove_first_elem by done. by intros [? _].
      * intros q Hne Hq. cbn. unfold remove_poi. cbn.
        rewrite bool_decide_eq_true_2 by done. cbn.
        by rewrite remove_first_elem.
      * cbn. unfold remove_poi. cbn. rewrite bool_decide_eq_true_2 by done.
        cbn. rewrite Hr. cbn. lia.
      * cbn. congruence.
      * done.
      * cbn. unfold remove_poi. cbn. rewrite bool_decide_eq_true_2 by done.
        cbn. rewrite remove_first_elem by done. by intros [_ ?].
      * cbn. rewrite Hcb, Hr. by intros [? | ?].
      * intros _. cbn. by rewrite Hfa, Hcb, Hr.
    + apply (poi_inv_change r (set_carried_by (Some self) ∘ (fun p => (reveal p).1))
               m _ p I Hp); cbn; rewrite ?Hr; cbn; try done.
      * by rewrite alter_alter_eq.
      * lia.
Qed.

Lemma poi_inv_drop_poi_at_exit self m :
  carry_inv m -> poi_inv m -> poi_inv (drop_poi_at_exit self m).2.
Proof.
  intros [C1 C2 C3] I. pose proof I as [I1 I2 I3 I4 I5 I6 I7].
  unfold drop_poi_at_exit.
  destruct (agent_store m !! self) as [a |] eqn:Ha; [| done].
  destruct (carrying_poi a) as [r |] eqn:Hc; [| done].
  destruct (is_exit m _ _); [| done]. cbn [snd].
  destruct (C1 self a r Ha Hc) as (P & HP & Hby).
  assert (Hres : is_rescued P = false).
  { destruct (is_rescued P) eqn:Hres; [| done].
    rewrite (C3 r P HP Hres) in Hby. discriminate. }
  destruct (I6 r P HP) as [Hrev Hin]; [left; by rewrite Hby |].
  apply (poi_inv_change r (set_carried_by None ∘ set_is_rescued true) m _ P I HP);
    cbn; rewrite ?Hres; cbn; try done.
  - by rewrite alter_alter_eq.
  - intros _ _. by apply (I5 r P).
Qed.

Lemma poi_inv_init w h nff np wh sampled draws k m k' :
  FlashPointModel_init w h nff np wh sampled draws k = Some (m, k') ->
  poi_inv m.
Proof.
  intros Hinit.
  destruct (init_inv _ _ _ _ _ _ _ _ _ _ Hinit)
    as (_ & _ & Hm & _ & _ & _ & _ & _ & _ & _ & Hst & _).
  assert (Hps : pois m = seq 0 (length sampled)) by (rewrite Hm; reflexivity).
  assert (Hrp : rescued_pois m = 0) by (rewrite Hm; reflexivity).
  assert (Hfresh : forall p P, poi_store m !! p = Some P ->
            (p < length sampled)%nat /\ poi_id P = Z.of_nat p
            /\ is_revealed P = false /\ is_rescued P = false
            /\ carried_by P = None).
  { intros p P. rewrite Hst.
    destruct (sampled !! p) as [c |] eqn:Hc; [| discriminate].
    cbn. intros [= <-]. apply lookup_lt_Some in Hc. done. }
  constructor.
  - rewrite Hrp. assert (Hempty : rescued_refs m = ∅).
    { apply set_eq. intros p. rewrite elem_of_rescued_refs. split.
      - intros (P & HP & Hr). destruct (Hfresh p P HP) as (_ & _ & _ & Hr' & _).
        congruence.
      - intros H. by apply not_elem_of_empty in H. }
    rewrite Hempty. by rewrite size_empty.
  - rewrite Hps. apply NoDup_seq.
  - intros p. rewrite Hps, elem_of_seq, Hst. intros Hp.
    destruct (lookup_lt_is_Some_2 sampled p) as [c Hc]; [lia |].
    rewrite Hc. by eexists.
  - intros p P HP. by destruct (Hfresh p P HP) as (_ & ? & _).
  - intros p P HP _ Hrev. destruct (Hfresh p P HP) as (_ & _ & ? & _). congruence.
  - intros p P HP Hh. destruct (Hfresh p P HP) as (_ & _ & _ & Hr & Hc).
    destruct Hh; congruence.
  - intros p P HP Hp. destruct (Hfresh p P HP) as (Hlt & _).
    exfalso. apply Hp. rewrite Hps, elem_of_seq. lia.
Qed.

Lemma reachable_poi_inv m : reachable_state m -> poi_inv m.
Proof.
  intros Hr.
  cut (carry_inv m /\ poi_inv m); [by intros [_ ?] |]. revert m Hr.
  apply (reachable_preserves (fun m => carry_inv m /\ poi_inv m)).
  - intros s self [C I]. split; [| by apply poi_inv_update_agent].
    eapply carry_inv_same_links; [| exact C]. by apply same_links_update_agent.
  - intros s self r [C I]. split; [| by apply poi_inv_update_agent].
    eapply carry_inv_same_links; [| exact C]. by apply same_links_update_agent.
  - intros s self x y [C I].
    split; [by apply carry_inv_move_to | by apply poi_inv_move_to].
  - intros s self [C I].
    split; [by apply carry_inv_extinguish_fire | by apply poi_inv_extinguish_fire].
  - intros s self [C I].
    split; [by apply carry_inv_pickup_poi | by apply poi_inv_pickup_poi].
  - intros s self [C I].
    split; [by apply carry_inv_drop_poi_at_exit | by apply poi_inv_drop_poi_at_exit].
  - intros s order [C I] _. split; [| by eapply poi_inv_frame; [.. | exact I]].
    eapply carry_inv_same_links; [| exact C]. by apply same_links_stores.
  - intros s n [C I]. split; [| by eapply poi_inv_frame; [.. | exact I]].
    eapply carry_inv_same_links; [| exact C]. by apply same_links_stores.
  - intros draws k s [C I].
    pose proof (same_objects_spread_fire draws k s) as Ho. split.
    + eapply carry_inv_same_links; [by apply same_objects_links | exact C].
    + destruct Ho as (_ & Hs & Hp & _).
      eapply poi_inv_frame; [exact Hs | exact Hp | | exact I]. reflexivity.
  - intros s x y [C I].
    pose proof (same_objects_trigger_explosion s x y) as Ho. split.
    + eapply carry_inv_same_links; [by apply same_objects_links | exact C].
    + destruct Ho as (_ & Hs & Hp & _).
      eapply poi_inv_frame; [exact Hs | exact Hp | | exact I].
      unfold _trigger_explosion.
      apply (foldl_preserves (fun t => rescued_pois t = rescued_pois s)).
      * intros t d Ht. destruct (in_bounds t _ _); [| done]. by case_bool_decide.
      * apply (foldl_preserves (fun t => rescued_pois t = rescued_pois s)); [| done].
        intros t d Ht. destruct (in_bounds t _ _); [| done].
        unfold damage_wall. by destruct (walls t !! _).
  - intros w h nff np wh sampled draws k s k' Hinit. split.
    + eapply fresh_carry_inv, init_fresh; eauto.
    + by eapply poi_inv_init.
Qed.

Lemma lane_rescue_reachable : reachable_state lane_rescue.
Proof.
  unfold lane_rescue. cbv zeta. apply reach_drop. do 2 apply reach_move.
  apply reach_pickup. apply reach_move.
  apply (reach_init 2 4 1 1 0 [(1, 2)] calm 0 _ 1). vm_compute. reflexivity.
Qed.

(** X10 (FirefighterAgent.__init__, move_to, step, _place_firefighters,
    _has_firefighter_at).  The crew in every reachable state: the schedule
    lists each firefighter once, at most five of them, and exactly the
    firefighters that exist; every firefighter stands on a cell of the
    board, its [pos] attribute agrees with its coordinates (so that
    [_has_firefighter_at] finds it at its cell), its action points lie
    between 0 and 4 and its maximum is 4. *)
Theorem crew_invariant (m : FlashPointModel) :
  reachable_state m ->
  NoDup (schedule m) /\ (length (schedule m) <= 5)%nat
  /\ (forall f, f ∈ schedule m <-> is_Some (agent_store m !! f))
  /\ (forall f a, agent_store m !! f = Some a ->
        in_bounds m (ff_x a) (ff_y a) = true
        /\ ff_pos a = (ff_x a, ff_y a)
        /\ max_action_points a = 4 /\ 0 <= action_points a <= 4
        /\ _has_firefighter_at m (ff_x a) (ff_y a) = true).
Proof.
  intros Hr. destruct (reachable_crew_inv m Hr) as [I1 I2 I3 I4].
  split; [exact I2 |]. split; [exact I4 |]. split; [exact I3 |].
  intros f a Ha. destruct (I1 f a Ha) as (Hb & Hp & Hmax & Hrange).
  split; [exact Hb |]. split; [exact Hp |]. split; [exact Hmax |].
  split; [exact Hrange |].
  unfold _has_firefighter_at. apply bool_decide_eq_true_2.
  apply Exists_exists. exists f. split; [apply I3; by rewrite Ha |].
  by rewrite Ha, <- Hp.
Qed.

Lemma crew_invariant_witness :
  NoDup (schedule lane_rescue) /\ _has_firefighter_at lane_rescue 0 3 = true.
Proof.
  destruct (crew_invariant lane_rescue lane_rescue_reachable)
    as (Hnd & _ & _ & Hduty).
  split; [exact Hnd |].
  destruct (Hduty 1%nat (mkFF 0 3 (0, 3) 0 4 None unassigned))
    as (_ & _ & _ & _ & Hff); [vm_compute; reflexivity | exact Hff].
Defined.

(** X11 (pickup_poi, drop_poi_at_exit, remove_poi, POI.reveal).  The life
    of a POI in every reachable state: the counter [rescued_pois] equals
    the number of POIs that are rescued; the registry lists no POI twice
    and only POIs that exist; a POI keeps the id under which it was
    created; a POI that is carried or rescued has been revealed, is a real
    victim and is still registered; and a POI has left the registry exactly
    when it is a revealed false alarm, in which case it is neither carried
    nor rescued. *)
Theorem poi_lifecycle (m : FlashPointModel) :
  reachable_state m ->
  rescued_pois m = Z.of_nat (size (rescued_refs m))
  /\ NoDup (pois m)
  /\ (forall p, p ∈ pois m -> is_Some (poi_store m !! p))
  /\ (forall p P, poi_store m !! p = Some P ->
        poi_id P = Z.of_nat p
        /\ (carried_by P <> None \/ is_rescued P = true ->
            is_revealed P = true /\ is_false_alarm P = false /\ p ∈ pois m)
        /\ (p ∉ pois m <-> is_false_alarm P = true /\ is_revealed P = true)
        /\ (p ∉ pois m -> carried_by P = None /\ is_rescued P = false)).
Proof.
  intros Hr. destruct (reachable_poi_inv m Hr) as [I1 I2 I3 I4 I5 I6 I7].
  split; [exact I1 |]. split; [exact I2 |]. split; [exact I3 |].
  intros p P HP. split; [by eapply I4 |]. split.
  { intros Hh. destruct (I6 p P HP Hh) as [Hrev Hin].
    split; [done |]. split; [by eapply I5 | done]. }
  split.
  - split.
    + intros Hp. by destruct (I7 p P HP Hp) as (? & ? & _).
    + intros [Hfa Hrev] Hin. rewrite (I5 p P HP Hin Hrev) in Hfa. discriminate.
  - intros Hp. by destruct (I7 p P HP Hp) as (_ & _ & ? & ?).
Qed.

Lemma poi_lifecycle_witness :
  rescued_pois lane_rescue = Z.of_nat (size (rescued_refs lane_rescue))
  /\ rescued_pois lane_rescue = 1.
Proof.
  destruct (poi_lifecycle lane_rescue lane_rescue_reachable) as (Htally & _).
  split; [exact Htally | vm_compute; reflexivity].
Defined.

(** ** One activation of a firefighter *)

Lemma acts_within_refl self m : acts_within self 0 m m.
Proof.
  split; [done |]. intros a Ha. exists a. unfold manhattan.
  split; [done |]. split; [done |]. split; lia.
Qed.

Lemma acts_within_trans self n1 n2 m1 m2 m3 :
  acts_within self n1 m1 m2 -> acts_within self n2 m2 m3 ->
  acts_within self (n1 + n2) m1 m3.
Proof.
  intros [O1 S1] [O2 S2]. split.
  - intros g Hg. by rewrite O2, O1.
  - intros a Ha. destruct (S1 a Ha) as (a1 & Ha1 & M1 & A1 & D1).
    destruct (S2 a1 Ha1) as (a2 & Ha2 & M2 & A2 & D2).
    exists a2. unfold manhattan in *.
    split; [done |]. split; [congruence |]. split; lia.
Qed.

Lemma acts_within_mono self n n' m m' :
  n <= n' -> acts_within self n m m' -> acts_within self n' m m'.
Proof.
  intros Hn [O S]. split; [done |]. intros a Ha.
  destruct (S a Ha) as (a' & Ha' & M & A & D). exists a'.
  split; [done |]. split; [done |]. split; lia.
Qed.

Lemma acts_within_stores self m m' :
  agent_store m' = agent_store m -> acts_within self 0 m m'.
Proof.
  intros Hs. split; [intros; by rewrite Hs |]. intros a Ha. exists a.
  unfold manhattan. rewrite Hs. split; [done |]. split; [done |]. split; lia.
Qed.

Lemma acts_within_update self n f m :
  (forall a, max_action_points (f a) = max_action_points a
             /\ action_points a - n <= action_points (f a) <= action_points a
             /\ manhattan (ff_x (f a)) (ff_y (f a)) (ff_x a) (ff_y a) <= n) ->
  acts_within self n m (update_agent self f m).
Proof.
  intros Hf. split.
  - intros g Hg. cbn. by rewrite lookup_alter_ne.
  - intros a Ha. exists (f a). cbn. rewrite lookup_alter_eq, Ha.
    split; [done |]. apply Hf.
Qed.

Lemma acts_within_move_to self x y m :
  acts_within self 1 m (move_to self x y m).2.
Proof.
  unfold move_to. destruct (agent_store m !! self) as [a |] eqn:Ha;
    [| apply (acts_within_mono self 0); [lia | apply acts_within_refl]].
  case_bool_decide as Hap;
    [apply (acts_within_mono self 0); [lia | apply acts_within_refl] |].
  destruct (can_move_between m (ff_x a) (ff_y a) x y) eqn:Hmv; cbn [negb snd];
    [| apply (acts_within_mono self 0); [lia | apply acts_within_refl]].
  rewrite !update_agent_twice. split.
  - intros g Hg. cbn. by rewrite lookup_alter_ne.
  - intros a' Ha'. assert (a' = a) by congruence. subst a'.
    eexists. cbn. rewrite lookup_alter_eq, Ha. cbn. split; [reflexivity |].
    cbn. split; [done |]. split; [lia |].
    unfold can_move_between in Hmv.
    destruct (in_bounds m x y); [| discriminate]. cbn [negb] in Hmv.
    case_bool_decide as Hadj; [| discriminate].
    unfold manhattan. lia.
Qed.

Lemma acts_within_spend self m :
  acts_within self 1 m
    (update_agent self (fun a => set_action_points (action_points a - 1) a) m).
Proof.
  apply acts_within_update. intros a. unfold manhattan. cbn.
  split; [done |]. split; lia.
Qed.

Lemma acts_within_extinguish_fire self m :
  acts_within self 1 m (extinguish_fire self m).2.
Proof.
  unfold extinguish_fire. destruct (agent_store m !! self) as [a |] eqn:Ha;
    [| apply (acts_within_mono self 0); [lia | apply acts_within_refl]].
  case_bool_decide as Hap;
    [apply (acts_within_mono self 0); [lia | apply acts_within_refl] |].
  destruct (get_fire_state m (ff_x a) (ff_y a)); cbn [snd];
    [apply (acts_within_mono self 0); [lia | apply acts_within_refl] | |];
    (match goal with
     | |- acts_within _ _ _ (update_agent _ _ ?t) =>
         apply (acts_within_trans self 0 1 m t);
         [apply acts_within_stores, agent_store_set_fire_state
         | apply acts_within_spend]
     end).
Qed.

Lemma acts_within_pickup_poi self m :
  acts_within self 1 m (pickup_poi self m).2.
Proof.
  unfold pickup_poi. destruct (agent_store m !! self) as [a |] eqn:Ha;
    [| apply (acts_within_mono self 0); [lia | apply acts_within_refl]].
  destruct (_ || _);
    [apply (acts_within_mono self 0); [lia | apply acts_within_refl] |].
  destruct (get_poi_at m _ _) as [[r p] |];
    [| apply (acts_within_mono self 0); [lia | apply acts_within_refl]].
  destruct (negb (is_rescued p));
    [| apply (acts_within_mono self 0); [lia | apply acts_within_refl]].
  assert (Hcarry : forall m',
            acts_within self 1 m'
              (update_agent self
                 (fun a => set_action_points (action_points a - 1) a)
                 (update_poi r (set_carried_by (Some self))
                    (update_agent self (set_carrying_poi (Some r)) m')))).
  { intros m'.
    apply (acts_within_trans self 0 1 m'
             (update_poi r (set_carried_by (Some self))
                (update_agent self (set_carrying_poi (Some r)) m')));
      [| apply acts_within_spend].
    apply (acts_within_trans self 0 0 m'
             (update_agent self (set_carrying_poi (Some r)) m'));
      [| by apply acts_within_stores].
    apply acts_within_update. intros b. unfold manhattan. cbn.
    split; [done |]. split; lia. }
  destruct (negb (is_revealed p)); cbn [snd]; [| apply Hcarry].
  cbn [reveal snd]. destruct (negb (negb (is_false_alarm p))); cbn [snd].
  - apply (acts_within_trans self 0 1 m
             (remove_poi r (update_poi r (fun p => (reveal p).1) m)));
      [| apply acts_within_spend].
    apply acts_within_stores. by rewrite agent_store_remove_poi.
  - apply (acts_within_trans self 0 1 m (update_poi r (fun p => (reveal p).1) m));
      [by apply acts_within_stores | apply Hcarry].
Qed.

Lemma acts_within_drop_poi_at_exit self m :
  acts_within self 0 m (drop_poi_at_exit self m).2.
Proof.
  unfold drop_poi_at_exit. destruct (agent_store m !! self) as [a |] eqn:Ha;
    [| apply acts_within_refl].
  destruct (carrying_poi a) as [r |]; [| apply acts_within_refl].
  destruct (is_exit m _ _); [| apply acts_within_refl]. cbn [snd].
  match goal with
  | |- acts_within _ _ _ (set_rescued_pois _ ?t) =>
      apply (acts_within_trans self 0 0 m t); [| by apply acts_within_stores]
  end.
  apply (acts_within_trans self 0 0 m
           (update_poi r (set_carried_by None)
              (update_poi r (set_is_rescued true) m)));
    [by apply acts_within_stores |].
  apply acts_within_update. intros b. unfold manhattan. cbn.
  split; [done |]. split; lia.
Qed.

Lemma acts_within_step_along self path m :
  acts_within self 1 m (step_along self path m).2.
Proof.
  unfold step_along.
  destruct path as [| ? [| ? ?]];
    try (apply (acts_within_mono self 0); [lia | apply acts_within_refl]).
  apply acts_within_move_to.
Qed.

Lemma acts_within_assign_role self m : acts_within self 0 m (_assign_role self m).
Proof.
  unfold _assign_role.
  destruct (role_pois m); apply acts_within_update; intros a; unfold manhattan;
    cbn; (split; [done |]); split; lia.
Qed.

Lemma acts_within_rescue_behavior self m :
  acts_within self 1 m (_rescue_behavior self m).
Proof.
  pose proof (fun s => acts_within_mono self 0 1 s s ltac:(lia)
                         (acts_within_refl self s)) as Hstay.
  unfold _rescue_behavior.
  destruct (agent_store m !! self) as [a |]; [| apply Hstay].
  destruct (carrying_poi a).
  - destruct (min_by _ (get_exits m)) as [e |]; [| apply Hstay].
    pose proof (acts_within_step_along self (get_path_to m a e.1 e.2) m) as A1.
    destruct (step_along self (get_path_to m a e.1 e.2) m) as [moved m1].
    cbn [snd] in A1. destruct moved; [| exact A1].
    destruct (agent_store m1 !! self) as [a1 |]; [| exact A1].
    destruct (is_exit m1 _ _); [| exact A1].
    apply (acts_within_trans self 1 0 m m1); [exact A1 |].
    apply acts_within_drop_poi_at_exit.
  - destruct (min_by _ _) as [np |]; [| apply Hstay].
    destruct (_ && _); [apply acts_within_pickup_poi |].
    apply acts_within_step_along.
Qed.

Lemma acts_within_firefighting_behavior self m :
  acts_within self 1 m (_firefighting_behavior self m).
Proof.
  pose proof (fun s => acts_within_mono self 0 1 s s ltac:(lia)
                         (acts_within_refl self s)) as Hstay.
  unfold _firefighting_behavior.
  destruct (agent_store m !! self) as [a |]; [| apply Hstay].
  destruct (min_by _ _) as [c |]; [| apply Hstay].
  destruct (_ && _); [apply acts_within_extinguish_fire |].
  apply acts_within_step_along.
Qed.

(** X12 (FirefighterAgent.step, _rescue_behavior, _firefighting_behavior).
    One activation of a firefighter performs at most one action: it starts
    from the full action points, spends at most one of them and moves the
    firefighter by at most one cell; the maximum stays as it was and the
    records of the other firefighters are not touched. *)
Theorem agent_step_one_action (self : nat) (m : FlashPointModel)
    (a : FirefighterAgent) :
  agent_store m !! self = Some a ->
  (exists a',
     agent_store (agent_step self m) !! self = Some a'
     /\ max_action_points a' = max_action_points a
     /\ max_action_points a - 1 <= action_points a' <= max_action_points a
     /\ manhattan (ff_x a') (ff_y a') (ff_x a) (ff_y a) <= 1)
  /\ (forall g, g <> self ->
        agent_store (agent_step self m) !! g = agent_store m !! g).
Proof.
  intros Ha. unfold agent_step.
  set (m1 := update_agent self
               (fun a => set_action_points (max_action_points a) a) m).
  assert (Ha1 : agent_store m1 !! self
                = Some (set_action_points (max_action_points a) a))
    by (unfold m1; cbn; by rewrite lookup_alter_eq, Ha).
  assert (Ho1 : forall g, g <> self -> agent_store m1 !! g = agent_store m !! g)
    by (intros g Hg; unfold m1; cbn; by rewrite lookup_alter_ne).
  assert (Hact : acts_within self 1 m1
            match agent_store (_assign_role self m1) !! self with
            | Some a0 =>
                if bool_decide (role a0 = rescuer)
                then _rescue_behavior self (_assign_role self m1)
                else _firefighting_behavior self (_assign_role self m1)
            | None => _assign_role self m1
            end).
  { apply (acts_within_trans self 0 1 m1 (_assign_role self m1));
      [apply acts_within_assign_role |].
    destruct (agent_store (_assign_role self m1) !! self);
      [| apply (acts_within_mono self 0); [lia | apply acts_within_refl]].
    case_bool_decide; [apply acts_within_rescue_behavior |
                       apply acts_within_firefighting_behavior]. }
  destruct Hact as [Ho Hs]. split.
  - destruct (Hs _ Ha1) as (a' & Ha' & Hmax & Hap & Hd).
    exists a'. cbn in Hmax, Hap, Hd. done.
  - intros g Hg. by rewrite Ho, Ho1.
Qed.

Lemma agent_step_one_action_witness :
  exists a',
    agent_store (agent_step 1 lane) !! 1%nat = Some a'
    /\ max_action_points a' = 4
    /\ 3 <= action_points a' <= 4
    /\ manhattan (ff_x a') (ff_y a') 1 3 <= 1.
Proof.
  destruct (agent_step_one_action 1 lane (FirefighterAgent_init 1 3))
    as [H _]; [vm_compute; reflexivity | exact H].
Defined.

(** ** Fire levels *)

Lemma get_set_fire_state m x y s x' y' :
  grid_shape (fire_grid m) (width m) (height m) ->
  get_fire_state (set_fire_state m x y s) x' y'
  = if in_bounds m x y && bool_decide ((x', y') = (x, y)) then s
    else get_fire_state m x' y'.
Proof.
  intros Hs. unfold set_fire_state.
  destruct (in_bounds m x y) eqn:Hb; cbn [andb]; [| done].
  unfold get_fire_state. cbn [set_fire_grid fire_grid].
  change (in_bounds (set_fire_grid _ m) x' y') with (in_bounds m x' y').
  pose proof (in_bounds_inv _ _ _ Hb) as Hxy.
  case_bool_decide as Heq.
  - inversion Heq; subst x' y'. rewrite Hb.
    apply (grid_get_set_same _ (width m) (height m)); [done | lia | lia].
  - destruct (in_bounds m x' y') eqn:Hb'; [| done].
    apply in_bounds_inv in Hb'. apply grid_get_set_other; try lia. done.
Qed.

(** X13 (get_fire_state, set_fire_state).  Writing and reading a fire
    level: a write to a cell of the board is read back at that cell and
    changes the level of no other cell; a write beyond the board changes
    nothing at all; and a read beyond the board gives Clear. *)
Theorem fire_state_round_trip (m : FlashPointModel) (x y : Z) (s : FireState) :
  grid_shape (fire_grid m) (width m) (height m) ->
  (in_bounds m x y = true -> get_fire_state (set_fire_state m x y s) x y = s)
  /\ (in_bounds m x y = false -> set_fire_state m x y s = m)
  /\ (forall x' y', (x', y') <> (x, y) ->
        get_fire_state (set_fire_state m x y s) x' y' = get_fire_state m x' y')
  /\ (forall x' y', in_bounds m x' y' = false -> get_fire_state m x' y' = CLEAR)
  /\ same_but_fire m (set_fire_state m x y s)
  /\ grid_shape (fire_grid (set_fire_state m x y s)) (width m) (height m).
Proof.
  intros Hs. split.
  { intros Hb. rewrite get_set_fire_state by done.
    by rewrite Hb, bool_decide_eq_true_2. }
  split; [intros Hb; unfold set_fire_state; by rewrite Hb |].
  split.
  { intros x' y' Hne. rewrite get_set_fire_state by done.
    rewrite (bool_decide_eq_false_2 _ Hne). by rewrite andb_false_r. }
  split; [intros x' y' Hb; unfold get_fire_state; by rewrite Hb |].
  unfold set_fire_state. destruct (in_bounds m x y).
  - split; [by repeat split | by apply grid_shape_set].
  - split; [by repeat split | done].
Qed.

Lemma fire_state_round_trip_witness :
  get_fire_state (set_fire_state smoke_row 1 0 FIRE) 1 0 = FIRE
  /\ set_fire_state smoke_row 3 0 FIRE = smoke_row.
Proof.
  assert (Hs : grid_shape (fire_grid smoke_row) (width smoke_row) (height smoke_row))
    by (vm_compute; repeat constructor).
  destruct (fire_state_round_trip smoke_row 1 0 FIRE Hs) as (Hget & _).
  destruct (fire_state_round_trip smoke_row 3 0 FIRE Hs) as (_ & Hoff & _).
  split; [apply Hget | apply Hoff]; reflexivity.
Defined.

(** X14 (extinguish_fire).  What [extinguish_fire] does to the fire: it
    succeeds exactly when the firefighter has an action point left and its
    cell is not Clear; a success lowers the level of that cell by one step
    (Fire to Smoke, Smoke to Clear) and leaves every other cell as it
    was, so that a burning cell needs two calls to become Clear; a failure
    changes no level. *)
Theorem extinguish_fire_effect (self : nat) (m : FlashPointModel)
    (a : FirefighterAgent) :
  agent_store m !! self = Some a ->
  grid_shape (fire_grid m) (width m) (height m) ->
  (extinguish_fire self m).1
  = bool_decide (0 < action_points a)
    && negb (bool_decide (get_fire_state m (ff_x a) (ff_y a) = CLEAR))
  /\ (forall x y,
        get_fire_state (extinguish_fire self m).2 x y
        = if (extinguish_fire self m).1
             && bool_decide ((x, y) = (ff_x a, ff_y a))
          then cool (get_fire_state m x y)
          else get_fire_state m x y)
  /\ grid_shape (fire_grid (extinguish_fire self m).2) (width m) (height m).
Proof.
  intros Ha Hs. unfold extinguish_fire. rewrite Ha.
  case_bool_decide as Hap.
  { rewrite bool_decide_eq_false_2 by lia. cbn. done. }
  rewrite (bool_decide_eq_true_2 (0 < action_points a)) by lia. cbn [andb].
  destruct (get_fire_state m (ff_x a) (ff_y a)) eqn:Hlevel; cbn [fst snd].
  - rewrite bool_decide_eq_true_2 by done. cbn. done.
  - rewrite bool_decide_eq_false_2 by done. cbn [negb andb].
    assert (Hb : in_bounds m (ff_x a) (ff_y a) = true).
    { unfold get_fire_state in Hlevel.
      destruct (in_bounds m _ _); [done | discriminate]. }
    split; [done |]. split.
    + intros x y.
      change (get_fire_state (update_agent self _ ?t) x y)
        with (get_fire_state t x y).
      rewrite get_set_fire_state by done. rewrite Hb. cbn [andb].
      case_bool_decide as Heq; [| done]. inversion Heq; subst x y.
      by rewrite Hlevel.
    + destruct (building_set_fire_state m (ff_x a) (ff_y a) CLEAR) as [_ S1].
      by apply S1.
  - rewrite bool_decide_eq_false_2 by done. cbn [negb andb].
    assert (Hb : in_bounds m (ff_x a) (ff_y a) = true).
    { unfold get_fire_state in Hlevel.
      destruct (in_bounds m _ _); [done | discriminate]. }
    split; [done |]. split.
    + intros x y.
      change (get_fire_state (update_agent self _ ?t) x y)
        with (get_fire_state t x y).
      rewrite get_set_fire_state by done. rewrite Hb. cbn [andb].
      case_bool_decide as Heq; [| done]. inversion Heq; subst x y.
      by rewrite Hlevel.
    + destruct (building_set_fire_state m (ff_x a) (ff_y a) SMOKE) as [_ S1].
      by apply S1.
Qed.

Lemma extinguish_fire_effect_witness :
  (extinguish_fire 1 (set_fire_state lane 1 3 FIRE)).1 = true
  /\ get_fire_state (extinguish_fire 1 (set_fire_state lane 1 3 FIRE)).2 1 3
     = SMOKE.
Proof.
  destruct (extinguish_fire_effect 1 (set_fire_state lane 1 3 FIRE)
              (FirefighterAgent_init 1 3)) as (Hok & Hget & _).
  - vm_compute. reflexivity.
  - vm_compute. repeat constructor.
  - split; [rewrite Hok; reflexivity |].
    rewrite Hget, Hok. reflexivity.
Defined.

(** ** Paths there and back *)

Lemma edge_sym m a b : in_bounds m a.1 a.2 = true -> edge m a b -> edge m b a.
Proof.
  unfold edge, can_move_between. intros Ha.
  destruct (in_bounds m b.1 b.2); [| discriminate]. cbn [negb].
  case_bool_decide as Hadj; [| discriminate]. cbn [negb]. intros Hw.
  rewrite Ha. cbn [negb]. rewrite bool_decide_eq_true_2 by lia. cbn [negb].
  by rewrite has_wall_between_sym.
Qed.

Lemma walk_in_bounds m s v p :
  in_bounds m s.1 s.2 = true -> walk_to m s v p -> in_bounds m v.1 v.2 = true.
Proof. intros Hs. destruct 1; [done | by eapply edge_in_bounds]. Qed.

Lemma walk_cons m u v s q :
  edge m u v -> walk_to m v s q -> walk_to m u s (u :: q).
Proof.
  intros He. induction 1 as [| z q w Hw IH Hzw].
  - change [u; v] with ([u] ++ [v]).
    apply (walk_snoc m u u [u] v); [constructor | done].
  - change (u :: q ++ [w]) with ((u :: q) ++ [w]). by eapply walk_snoc.
Qed.

Lemma walk_reverse m s v p :
  in_bounds m s.1 s.2 = true -> walk_to m s v p -> walk_to m v s (reverse p).
Proof.
  intros Hs. induction 1 as [| v p u Hw IH He]; [constructor |].
  rewrite reverse_snoc. apply (walk_cons m u v); [| exact IH].
  apply edge_sym; [| done]. by eapply walk_in_bounds.
Qed.

Lemma find_path_cases m s g :
  s <> g ->
  (find_path m s g = [] /\ ~ reachable m s g) \/ shortest m s g (find_path m s g).
Proof.
  intros Hne. unfold find_path, find_path_fuel.
  rewrite bool_decide_eq_false_2 by done.
  destruct (bfs_loop_spec m s g (find_path_bound m) _ _
              (bfs_inv_initial m s g Hne) (initial_measure m s))
    as (r & Hr & [[-> Hun] | Hw]); rewrite Hr; cbn; [by left | by right].
Qed.

(** X15 (find_path, can_move_between, has_wall_between, _get_wall_key).
    Between two cells of the board the pathfinder is symmetric: a move is
    possible in one direction exactly when it is possible in the other,
    the path found from [s] to [g] has the length of the path found from
    [g] to [s] (both empty when there is none), and the path found from
    [s] to [g], walked backwards, is a path from [g] to [s]. *)
Theorem find_path_symmetric (m : FlashPointModel) (s g : Z * Z) :
  in_bounds m s.1 s.2 = true -> in_bounds m g.1 g.2 = true ->
  can_move_between m s.1 s.2 g.1 g.2 = can_move_between m g.1 g.2 s.1 s.2
  /\ length (find_path m s g) = length (find_path m g s)
  /\ (find_path m s g <> [] ->
      path_from_to m g s (reverse (find_path m s g))).
Proof.
  intros Hs Hg. split.
  { destruct (can_move_between m s.1 s.2 g.1 g.2) eqn:H1;
      destruct (can_move_between m g.1 g.2 s.1 s.2) eqn:H2; try done.
    - apply (edge_sym m s g Hs) in H1. unfold edge in H1. congruence.
    - apply (edge_sym m g s Hg) in H2. unfold edge in H2. congruence. }
  destruct (decide (s = g)) as [-> | Hne].
  { split; [done |]. intros _. unfold find_path, find_path_fuel.
    rewrite bool_decide_eq_true_2 by done. cbn.
    apply walk_path. constructor. }
  assert (Hne' : g <> s) by (by intros ->).
  destruct (find_path_cases m s g Hne) as [[E1 U1] | [W1 M1]];
    destruct (find_path_cases m g s Hne') as [[E2 U2] | [W2 M2]].
  - rewrite E1, E2. split; [done |]. by intros ?.
  - exfalso. apply U1. eapply walk_reachable. by eapply walk_reverse.
  - exfalso. apply U2. eapply walk_reachable. by eapply walk_reverse.
  - split.
    + pose proof (M1 _ (walk_reverse m g s _ Hg W2)) as L1.
      pose proof (M2 _ (walk_reverse m s g _ Hs W1)) as L2.
      rewrite length_reverse in L1, L2. lia.
    + intros _. apply walk_path. by apply walk_reverse.
Qed.

Lemma find_path_symmetric_witness :
  length (find_path lane (1, 3) (0, 0)) = length (find_path lane (0, 0) (1, 3))
  /\ path_from_to lane (0, 0) (1, 3) (reverse (find_path lane (1, 3) (0, 0))).
Proof.
  destruct (find_path_symmetric lane (1, 3) (0, 0)) as (_ & Hlen & Hrev);
    [reflexivity | reflexivity |].
  split; [exact Hlen |]. apply Hrev. vm_compute. discriminate.
Defined.

(** ** A rescuer on an exit *)

Lemma min_by_fold {A} (key : A -> Z) (l : list A) :
  forall b,
    let r := foldl (fun best c => if bool_decide (key c < key best) then c else best)
                   b l in
    (r = b \/ r ∈ l) /\ key r <= key b /\ forall c, c ∈ l -> key r <= key c.
Proof.
  induction l as [| a l IH]; intros b; cbn [foldl]; cbv zeta.
  - split; [by left |]. split; [lia |]. intros c Hc. inversion Hc.
  - destruct (IH (if bool_decide (key a < key b) then a else b))
      as (Hin & Hle & Hall). cbv zeta in Hin, Hle, Hall.
    case_bool_decide as Hab.
    + split; [right; destruct Hin as [-> | Hin]; [by left | by right] |].
      split; [lia |]. intros c Hc.
      apply elem_of_cons in Hc as [-> | Hc]; [done | by apply Hall].
    + split; [destruct Hin as [-> | Hin]; [by left | right; by right] |].
      split; [done |]. intros c Hc.
      apply elem_of_cons in Hc as [-> | Hc]; [lia | by apply Hall].
Qed.

Lemma min_by_spec {A} (key : A -> Z) (l : list A) c :
  min_by key l = Some c -> c ∈ l /\ forall c', c' ∈ l -> key c <= key c'.
Proof.
  unfold min_by. destruct l as [| b l]; [discriminate |]. intros [= <-].
  destruct (min_by_fold key l b) as (Hin & Hle & Hall).
  cbv zeta in Hin, Hle, Hall. split.
  - destruct Hin as [-> | Hin]; [by left | by right].
  - intros c' Hc'. apply elem_of_cons in Hc' as [-> | Hc']; [done | by apply Hall].
Qed.

(** X16 (_rescue_behavior, get_exits, get_path_to, find_path).  A rescuer
    that carries a POI and already stands on an exit cell does nothing: the
    nearest exit is its own cell, the path to it has a single node, and the
    POI is dropped only after a successful move.  The firefighter keeps the
    POI for as long as it stays a rescuer. *)
Theorem rescuer_on_exit_stalls (self : nat) (m : FlashPointModel)
    (a : FirefighterAgent) (r : nat) :
  agent_store m !! self = Some a -> carrying_poi a = Some r ->
  is_exit m (ff_x a) (ff_y a) = true ->
  _rescue_behavior self m = m.
Proof.
  intros Ha Hc He. unfold _rescue_behavior. rewrite Ha, Hc.
  assert (Hown : (ff_x a, ff_y a) ∈ get_exits m).
  { unfold is_exit in He. destruct (in_bounds m (ff_x a) (ff_y a)) eqn:Hb;
      [| discriminate].
    apply bool_decide_eq_true in He. unfold get_exits.
    apply list_elem_of_filter. split; [done | by apply in_bounds_cell]. }
  destruct (min_by _ (get_exits m)) as [e |] eqn:Hmin; [| done].
  apply min_by_spec in Hmin as [_ Hmin]. specialize (Hmin _ Hown).
  cbn [fst snd] in Hmin. unfold manhattan in Hmin.
  assert (e = (ff_x a, ff_y a)).
  { rewrite (surjective_pairing e). f_equal; lia. }
  subst e. cbn [fst snd]. unfold get_path_to, find_path, find_path_fuel.
  rewrite bool_decide_eq_true_2 by done. done.
Qed.

Lemma rescuer_on_exit_stalls_witness :
  _rescue_behavior 1 lane_at_exit = lane_at_exit.
Proof.
  apply (rescuer_on_exit_stalls 1 lane_at_exit
           (mkFF 0 3 (0, 3) 0 4 (Some 0%nat) unassigned) 0%nat);
    [vm_compute; reflexivity | reflexivity | vm_compute; reflexivity].
Defined.

(** ** What a step leaves alone *)

Lemma moves_on_refl m : moves_on m m.
Proof. split; [apply same_building_refl |]. split; [lia | done]. Qed.

Lemma moves_on_trans m1 m2 m3 : moves_on m1 m2 -> moves_on m2 m3 -> moves_on m1 m3.
Proof.
  intros (B1 & R1 & P1) (B2 & R2 & P2).
  split; [by eapply same_building_trans |]. split; [lia |].
  intros p Hp. by apply P1, P2.
Qed.

Lemma moves_on_frame m m' :
  same_building m m' -> rescued_pois m' = rescued_pois m -> pois m' = pois m ->
  moves_on m m'.
Proof. intros B R P. split; [done |]. split; [lia | by rewrite P]. Qed.

Lemma moves_on_update_agent self f m : moves_on m (update_agent self f m).
Proof. apply moves_on_frame; [| done | done]. apply building_update_agent. Qed.

Lemma moves_on_move_to self x y m : moves_on m (move_to self x y m).2.
Proof.
  apply moves_on_frame; [apply building_move_to | |];
    unfold move_to; (destruct (agent_store m !! self); [| done]);
    (case_bool_decide; [done |]); by destruct (negb _).
Qed.

Lemma moves_on_extinguish_fire self m : moves_on m (extinguish_fire self m).2.
Proof.
  apply moves_on_frame; [apply building_extinguish_fire | |];
    unfold extinguish_fire;
    (destruct (agent_store m !! self) as [a |]; [| done]);
    (case_bool_decide; [done |]);
    destruct (get_fire_state m _ _); cbn [snd]; try done;
    unfold set_fire_state; by destruct (in_bounds m _ _).
Qed.

Lemma remove_first_subseteq r (l : list nat) : remove_first r l ⊆ l.
Proof.
  induction l as [| a l IH]; cbn [remove_first]; [done |].
  case_bool_decide; intros p Hp; [by right |].
  apply elem_of_cons in Hp as [-> | Hp]; [by left | right; by apply IH].
Qed.

Lemma moves_on_pickup_poi self m : moves_on m (pickup_poi self m).2.
Proof.
  split; [apply building_pickup_poi |].
  unfold pickup_poi. destruct (agent_store m !! self) as [a |]; [| done].
  destruct (_ || _); [done |].
  destruct (get_poi_at m _ _) as [[r p] |]; [| done].
  destruct (negb (is_rescued p)); [| done].
  destruct (negb (is_revealed p)); [| done].
  cbn [reveal snd]. destruct (negb (negb (is_false_alarm p))); cbn [snd];
    [| done].
  unfold remove_poi. case_bool_decide; [| done].
  split; [done |]. cbn. apply remove_first_subseteq.
Qed.

Lemma moves_on_drop_poi_at_exit self m : moves_on m (drop_poi_at_exit self m).2.
Proof.
  split; [apply building_drop_poi_at_exit |].
  unfold drop_poi_at_exit. destruct (agent_store m !! self) as [a |]; [| done].
  destruct (carrying_poi a); [| done].
  destruct (is_exit m _ _); [| done]. cbn. split; [lia | done].
Qed.

Lemma moves_on_agent_step self m : moves_on m (agent_step self m).
Proof.
  apply (agent_step_preserves (moves_on m)); [.. | apply moves_on_refl].
  - intros s f I. eapply moves_on_trans; [exact I | apply moves_on_update_agent].
  - intros s f r I. eapply moves_on_trans; [exact I | apply moves_on_update_agent].
  - intros s f x y I. eapply moves_on_trans; [exact I | apply moves_on_move_to].
  - intros s f I. eapply moves_on_trans; [exact I | apply moves_on_extinguish_fire].
  - intros s f I. eapply moves_on_trans; [exact I | apply moves_on_pickup_poi].
  - intros s f I. eapply moves_on_trans; [exact I | apply moves_on_drop_poi_at_exit].
Qed.

(** X17 (FirefighterAgent.step, _assign_role, _rescue_behavior,
    _firefighting_behavior and the primitives).  The activation of a
    firefighter never touches the board: width, height, wall health, cell
    types, walls, explosion count, step count and schedule are as before;
    the count of rescued POIs does not decrease; no POI enters the
    registry; and the fire grid keeps its shape. *)
Theorem agent_step_frame (self : nat) (m : FlashPointModel) :
  (width (agent_step self m) = width m /\ height (agent_step self m) = height m
   /\ wall_health (agent_step self m) = wall_health m
   /\ cell_types (agent_step self m) = cell_types m
   /\ walls (agent_step self m) = walls m
   /\ explosion_count (agent_step self m) = explosion_count m
   /\ steps (agent_step self m) = steps m
   /\ schedule (agent_step self m) = schedule m)
  /\ rescued_pois m <= rescued_pois (agent_step self m)
  /\ pois (agent_step self m) ⊆ pois m
  /\ (grid_shape (fire_grid m) (width m) (height m) ->
      grid_shape (fire_grid (agent_step self m)) (width m) (height m)).
Proof.
  destruct (moves_on_agent_step self m) as (B & R & P).
  split; [exact B |]. split; [exact R |]. split; [exact P |].
  revert m B R P.
  cut (forall m, grid_shape (fire_grid m) (width m) (height m) ->
         grid_shape (fire_grid (agent_step self m)) (width (agent_step self m))
                    (height (agent_step self m))).
  { intros H m (Hw & Hh & _) _ _ Hs. specialize (H m Hs). by rewrite Hw, Hh in H. }
  intros m.
  apply (agent_step_preserves
           (fun s => grid_shape (fire_grid s) (width s) (height s))).
  - done.
  - done.
  - intros s f x y Hs. destruct (building_move_to f x y s) as [(Hw & Hh & _) F].
    by rewrite F, Hw, Hh.
  - intros s f Hs.
    destruct (building_extinguish_fire f s) as [(Hw & Hh & _) F].
    rewrite Hw, Hh. by apply F.
  - intros s f Hs. destruct (building_pickup_poi f s) as [(Hw & Hh & _) F].
    by rewrite F, Hw, Hh.
  - intros s f Hs.
    destruct (building_drop_poi_at_exit f s) as [(Hw & Hh & _) F].
    by rewrite F, Hw, Hh.
Qed.

Lemma counters_trigger_explosion m x y :
  steps (_trigger_explosion m x y) = steps m
  /\ rescued_pois (_trigger_explosion m x y) = rescued_pois m.
Proof.
  unfold _trigger_explosion.
  apply (foldl_preserves
           (fun s => steps s = steps m /\ rescued_pois s = rescued_pois m)).
  - intros s d Hs. destruct (in_bounds s _ _); [| done]. by case_bool_decide.
  - apply (foldl_preserves
             (fun s => steps s = steps m /\ rescued_pois s = rescued_pois m));
      [| done].
    intros s d Hs. destruct (in_bounds s _ _); [| done].
    unfold damage_wall. by destruct (walls s !! _).
Qed.

Lemma worn_by_refl ws : worn_by 0 ws ws.
Proof. intros key w Hw. exists w. split; [done |]. split; [done | lia]. Qed.

(** The explosion pass on a board with walls of non-negative health. *)
Lemma check_explosions_wear draws k m :
  board_inv m -> 0 <= wall_health m ->
  let m' := (check_explosions draws k m).1 in
  board_inv m'
  /\ (steps m' = steps m /\ rescued_pois m' = rescued_pois m /\ pois m' = pois m
      /\ wall_health m' = wall_health m /\ width m' = width m
      /\ height m' = height m /\ cell_types m' = cell_types m)
  /\ explosion_count m <= explosion_count m'
  /\ worn_by (explosion_count m' - explosion_count m) (walls m) (walls m').
Proof.
  intros I Hwh. cbv zeta.
  apply (check_explosions_preserves
           (fun t =>
              board_inv t
              /\ (steps t = steps m /\ rescued_pois t = rescued_pois m
                  /\ pois t = pois m /\ wall_health t = wall_health m
                  /\ width t = width m /\ height t = height m
                  /\ cell_types t = cell_types m)
              /\ explosion_count m <= explosion_count t
              /\ worn_by (explosion_count t - explosion_count m)
                         (walls m) (walls t))).
  - intros t x y (It & (Hst & Hrp & Hps & Hwht & Hwt & Hht & Hctt) & Hec & Hworn).
    destruct (trigger_explosion_spec t x y (bd_fire t It))
      as (Hcount & Hwl & _ & Hw & Hh & Hct & Hobj & _).
    cbv zeta in Hcount, Hwl, Hw, Hh, Hct.
    destruct (counters_trigger_explosion t x y) as [Hst' Hrp'].
    pose proof (wall_health_trigger_explosion t x y) as Hwh'.
    destruct Hobj as (_ & _ & Hps' & _).
    split; [by apply board_inv_trigger_explosion |].
    split; [repeat split; congruence |].
    split; [lia |].
    intros key w Hkey. destruct (Hworn key w Hkey) as (w1 & Hw1 & Hmax & Hrange).
    destruct (bd_health t It key w1 Hw1) as [_ Hpos].
    rewrite Hwht in Hpos.
    rewrite Hwl, Hw1. destruct (decide _).
    + exists (take_damage w1 1).1. split; [reflexivity |].
      cbn [take_damage fst health max_health]. split; [done | lia].
    + exists w1. split; [done |]. split; [done | lia].
  - split; [exact I |]. split; [done |]. split; [lia |].
    rewrite Z.sub_diag. apply worn_by_refl.
Qed.

(** The activations of one model step. *)
Lemma schedule_step_spec order m :
  board_inv m ->
  board_inv (schedule_step order m)
  /\ steps (schedule_step order m) = steps m + 1
  /\ (width (schedule_step order m) = width m
      /\ height (schedule_step order m) = height m
      /\ wall_health (schedule_step order m) = wall_health m
      /\ cell_types (schedule_step order m) = cell_types m
      /\ walls (schedule_step order m) = walls m
      /\ explosion_count (schedule_step order m) = explosion_count m)
  /\ rescued_pois m <= rescued_pois (schedule_step order m)
  /\ pois (schedule_step order m) ⊆ pois m.
Proof.
  intros I. unfold schedule_step.
  assert (I0 : board_inv (set_schedule order m)).
  { eapply board_inv_frame; [.. | exact I]; try done. apply I. }
  destruct (foldl_preserves
              (fun s => board_inv s /\ moves_on (set_schedule order m) s)
              (fun m self => agent_step self m) order) with (s := set_schedule order m)
    as [If Mf].
  - intros s f [Is Ms]. split; [by apply board_inv_agent_step |].
    eapply moves_on_trans; [exact Ms | apply moves_on_agent_step].
  - split; [exact I0 | apply moves_on_refl].
  - destruct Mf as ((Wf & Hf & WHf & CTf & WLf & ECf & STf & _) & RPf & PSf).
    split; [eapply board_inv_frame; [.. | exact If]; try done; apply If |].
    split; [cbn; by rewrite STf |].
    split; [by repeat split |]. split; [exact RPf | exact PSf].
Qed.

(** X18 (FlashPointModel.step, schedule.step, spread_fire,
    check_explosions, Wall.take_damage).  What one model step does to the
    board of a reachable state built with a non-negative wall health, for
    any activation order and any draws: the step count grows by one; the
    width, the height, the wall health and the cell types stay; the counts
    of rescued POIs and of explosions do not decrease; every wall stays
    registered with its maximal health, gains no health and loses at most
    one unit per explosion of the step, so that a passage once opened stays
    open; and no POI enters the registry. *)
Theorem model_step_progress (order : list nat) (draws : nat -> Q) (k : nat)
    (m : FlashPointModel) :
  reachable_state m -> 0 <= wall_health m ->
  let m' := (model_step order draws k m).1 in
  steps m' = steps m + 1
  /\ (width m' = width m /\ height m' = height m
      /\ wall_health m' = wall_health m /\ cell_types m' = cell_types m)
  /\ rescued_pois m <= rescued_pois m'
  /\ explosion_count m <= explosion_count m'
  /\ worn_by (explosion_count m' - explosion_count m) (walls m) (walls m')
  /\ (forall a b, neighbours m a b ->
        can_move_between m a.1 a.2 b.1 b.2 = true ->
        can_move_between m' a.1 a.2 b.1 b.2 = true)
  /\ pois m' ⊆ pois m.
Proof.
  intros Hr Hwh. cbv zeta. pose proof (reachable_board_inv m Hr) as I.
  unfold model_step.
  destruct (schedule_step_spec order m I)
    as (I1 & ST1 & (W1 & H1 & WH1 & CT1 & WL1 & EC1) & RP1 & PS1).
  pose proof (board_inv_spread_fire draws k _ I1) as I2.
  destruct (spread_fire_spec draws k _ (bd_fire _ I1)) as (Hsame & _).
  cbv zeta in Hsame.
  destruct (spread_fire draws k (schedule_step order m)) as [m2 k2].
  cbn [fst] in I2, Hsame.
  destruct Hsame as (W2 & H2 & WH2 & RP2 & EC2 & CT2 & WL2 & PS2 & _ & _ & _ & ST2).
  assert (Hwh2 : 0 <= wall_health m2) by (rewrite WH2, WH1; exact Hwh).
  destruct (check_explosions_wear draws k2 m2 I2 Hwh2)
    as (I3 & (ST3 & RP3 & PS3 & WH3 & W3 & H3 & CT3) & EC3 & Hworn).
  cbv zeta in I3, ST3, RP3, PS3, WH3, W3, H3, CT3, EC3, Hworn.
  rewrite ST3, RP3, PS3, WH3, W3, H3, CT3.
  rewrite ST2, RP2, PS2, WH2, W2, H2, CT2.
  rewrite EC2, EC1 in EC3, Hworn. rewrite WL2, WL1 in Hworn.
  split; [exact ST1 |]. split; [by repeat split |].
  split; [exact RP1 |]. split; [exact EC3 |]. split; [exact Hworn |].
  split; [| exact PS1].
  intros a b Hab Hmv.
  assert (Hab' : neighbours (check_explosions draws k2 m2).1 a b).
  { unfold neighbours, in_bounds in *. by rewrite W3, H3, W2, H2, W1, H1. }
  pose proof (neighbours_wall_slot m a b Hab) as Hslot.
  apply (bd_slots m I) in Hslot as [w0 Hw0].
  unfold can_move_between, has_wall_between in *.
  destruct Hab as (_ & Hb & Hadj). destruct Hab' as (_ & Hb' & _).
  rewrite Hb in Hmv. rewrite Hb'. cbn [negb] in *.
  rewrite (bool_decide_eq_true_2 _ Hadj) in *. cbn [negb] in *.
  rewrite Hw0 in Hmv.
  destruct (Hworn _ w0 Hw0) as (w' & Hw' & _ & Hrange). rewrite Hw'.
  unfold is_destroyed in *. rewrite negb_involutive in *.
  apply bool_decide_eq_true in Hmv. apply bool_decide_eq_true_2. lia.
Qed.

Lemma model_step_progress_witness :
  steps (model_step [] wild 0 hall).1 = steps hall + 1
  /\ explosion_count hall <= explosion_count (model_step [] wild 0 hall).1
  /\ pois (model_step [] wild 0 hall).1 ⊆ pois hall.
Proof.
  assert (Hr : reachable_state hall).
  { apply (reach_init 4 4 0 0 2 [] calm 0 _ 0). vm_compute. reflexivity. }
  assert (Hwh : 0 <= wall_health hall) by (vm_compute; discriminate).
  destruct (model_step_progress [] wild 0 hall Hr Hwh)
    as (Hst & _ & _ & Hec & _ & _ & Hps).
  split; [exact Hst |]. split; [exact Hec | exact Hps].
Defined.

(** In the hall the burning hotspot explodes in a step whose draws are all
    low: both walls of its cell lose one unit of health. *)
Lemma hall_explosion :
  explosion_count (model_step [] wild 0 hall).1 = 1
  /\ health <$> walls (model_step [] wild 0 hall).1 !! (2, 3, 3, 3) = Some 1
  /\ health <$> walls (model_step [] wild 0 hall).1 !! (3, 2, 3, 3) = Some 1
  /\ health <$> walls (model_step [] wild 0 hall).1 !! (0, 0, 1, 0) = Some 2.
Proof. repeat split; vm_compute; reflexivity. Qed.

(** ** Lists of cells *)

(** X19 (get_exits, get_cells_with_fire, get_cells_with_smoke, is_exit,
    get_fire_state).  The list queries agree with the point queries: a
    cell is listed by [get_exits] exactly when [is_exit] holds of it, by
    [get_cells_with_fire] (by [get_cells_with_smoke]) exactly when it lies
    on the board and [get_fire_state] gives Fire (Smoke); no list holds a
    cell twice, and no cell is in both fire lists. *)
Theorem cell_lists_agree (m : FlashPointModel) :
  (forall x y, (x, y) ∈ get_exits m <-> is_exit m x y = true)
  /\ (forall x y, (x, y) ∈ get_cells_with_fire m
                  <-> in_bounds m x y = true /\ get_fire_state m x y = FIRE)
  /\ (forall x y, (x, y) ∈ get_cells_with_smoke m
                  <-> in_bounds m x y = true /\ get_fire_state m x y = SMOKE)
  /\ NoDup (get_exits m) /\ NoDup (get_cells_with_fire m)
  /\ NoDup (get_cells_with_smoke m)
  /\ (forall c, c ∈ get_cells_with_fire m -> c ∉ get_cells_with_smoke m).
Proof.
  split.
  { intros x y. unfold get_exits, is_exit. rewrite list_elem_of_filter.
    cbn [fst snd]. split.
    - intros [He Hc]. apply cell_in_bounds in Hc. rewrite Hc.
      by apply bool_decide_eq_true_2.
    - destruct (in_bounds m x y) eqn:Hb; [| discriminate].
      intros He. apply bool_decide_eq_true in He.
      split; [done | by apply in_bounds_cell]. }
  split.
  { intros x y. unfold get_cells_with_fire, get_fire_state.
    rewrite list_elem_of_filter. cbn [fst snd]. split.
    - intros [He Hc]. apply cell_in_bounds in Hc. by rewrite Hc.
    - intros [Hb He]. rewrite Hb in He. split; [done | by apply in_bounds_cell]. }
  split.
  { intros x y. unfold get_cells_with_smoke, get_fire_state.
    rewrite list_elem_of_filter. cbn [fst snd]. split.
    - intros [He Hc]. apply cell_in_bounds in Hc. by rewrite Hc.
    - intros [Hb He]. rewrite Hb in He. split; [done | by apply in_bounds_cell]. }
  split; [apply NoDup_filter, cells_row_major_NoDup |].
  split; [apply NoDup_filter, cells_row_major_NoDup |].
  split; [apply NoDup_filter, cells_row_major_NoDup |].
  intros c. unfold get_cells_with_fire, get_cells_with_smoke.
  rewrite !list_elem_of_filter. intros [Hf _] [Hs _]. congruence.
Qed.

(** ** Walls *)

(** X20 (Wall.take_damage, Wall.is_destroyed).  The flag returned by
    [take_damage] is the answer of [is_destroyed] on the damaged wall,
    whatever the damage; the health is cut at 0 from below and the maximal
    health is not touched; a non-negative damage never raises the health
    of a wall whose health is not negative, so a destroyed wall stays
    destroyed. *)
Theorem take_damage_flag (w : Wall) (damage : Z) :
  (take_damage w damage).2 = is_destroyed (take_damage w damage).1
  /\ 0 <= health (take_damage w damage).1
  /\ max_health (take_damage w damage).1 = max_health w
  /\ (0 <= damage -> 0 <= health w ->
      health (take_damage w damage).1 <= health w)
  /\ (0 <= damage -> is_destroyed w = true ->
      is_destroyed (take_damage w damage).1 = true).
Proof.
  unfold take_damage, is_destroyed. cbn [fst snd health max_health].
  split; [repeat case_bool_decide; try done; lia |].
  split; [lia |]. split; [done |]. split; [lia |].
  intros Hd Hw. apply bool_decide_eq_true in Hw. apply bool_decide_eq_true_2. lia.
Qed.

(** ** The behaviours on the spot *)

Lemma min_by_zero {A} (key : A -> Z) (l : list A) (c : A) :
  (forall c', 0 <= key c') -> c ∈ l -> key c = 0 ->
  exists n, min_by key l = Some n /\ key n = 0.
Proof.
  intros Hpos Hin Hc. destruct (min_by key l) as [n |] eqn:Hmin.
  - exists n. split; [done |]. apply min_by_spec in Hmin as [_ Hmin].
    specialize (Hmin c Hin). specialize (Hpos n). lia.
  - destruct l; [inversion Hin | discriminate].
Qed.

(** X21 (_firefighting_behavior, get_cells_with_fire,
    get_cells_with_smoke).  A fire fighter on the spot: when its own cell
    burns it calls [extinguish_fire]; when its own cell smokes it does so
    only if no cell of the board burns; and when the board has neither
    fire nor smoke it does nothing. *)
Theorem firefighter_on_the_spot (self : nat) (m : FlashPointModel)
    (a : FirefighterAgent) :
  agent_store m !! self = Some a ->
  (get_fire_state m (ff_x a) (ff_y a) = FIRE ->
   _firefighting_behavior self m = (extinguish_fire self m).2)
  /\ (get_fire_state m (ff_x a) (ff_y a) = SMOKE -> get_cells_with_fire m = [] ->
      _firefighting_behavior self m = (extinguish_fire self m).2)
  /\ (get_cells_with_fire m = [] -> get_cells_with_smoke m = [] ->
      _firefighting_behavior self m = m).
Proof.
  intros Ha.
  assert (Hkey : forall c : Z * Z, 0 <= manhattan c.1 c.2 (ff_x a) (ff_y a))
    by (intros c; unfold manhattan; lia).
  assert (Hspot : forall l : list (Z * Z),
            (ff_x a, ff_y a) ∈ l ->
            match min_by (fun c : Z * Z => manhattan c.1 c.2 (ff_x a) (ff_y a)) l with
            | Some nearest =>
                if bool_decide (ff_x a = nearest.1) && bool_decide (ff_y a = nearest.2)
                then (extinguish_fire self m).2
                else (step_along self (get_path_to m a nearest.1 nearest.2) m).2
            | None => m
            end = (extinguish_fire self m).2).
  { intros l Hin.
    destruct (min_by_zero _ l (ff_x a, ff_y a) Hkey Hin) as (n & -> & Hn).
    - unfold manhattan. cbn. lia.
    - unfold manhattan in Hn. rewrite !bool_decide_eq_true_2 by lia. done. }
  assert (Hlevel : forall s, s <> CLEAR ->
            get_fire_state m (ff_x a) (ff_y a) = s ->
            grid_get CLEAR (fire_grid m) (ff_x a) (ff_y a) = s
            /\ (ff_x a, ff_y a) ∈ cells_row_major (width m) (height m)).
  { intros s Hs. unfold get_fire_state.
    destruct (in_bounds m (ff_x a) (ff_y a)) eqn:Hb; [| congruence].
    intros Hg. split; [done | by apply in_bounds_cell]. }
  unfold _firefighting_behavior. rewrite Ha. cbv zeta.
  split; [| split].
  - intros Hfire. destruct (Hlevel FIRE) as [Hg Hc]; [done | done |].
    assert (Hin : (ff_x a, ff_y a) ∈ get_cells_with_fire m)
      by (by apply list_elem_of_filter).
    destruct (get_cells_with_fire m) as [| c l] eqn:Hl; [inversion Hin |].
    by apply Hspot.
  - intros Hsmoke Hnone. rewrite Hnone.
    destruct (Hlevel SMOKE) as [Hg Hc]; [done | done |].
    apply Hspot. by apply list_elem_of_filter.
  - intros Hf Hs. by rewrite Hf, Hs.
Qed.

Lemma firefighter_on_the_spot_witness :
  _firefighting_behavior 1 (set_fire_state lane 1 3 FIRE)
  = (extinguish_fire 1 (set_fire_state lane 1 3 FIRE)).2.
Proof.
  destruct (firefighter_on_the_spot 1 (set_fire_state lane 1 3 FIRE)
              (FirefighterAgent_init 1 3)) as (Hfire & _).
  - vm_compute. reflexivity.
  - apply Hfire. vm_compute. reflexivity.
Defined.

(** X22 (_rescue_behavior, pickup_poi).  A rescuer with empty hands that
    stands on the cell of a registered POI which is neither rescued nor
    carried calls [pickup_poi]; it does not move. *)
Theorem rescuer_on_the_spot (self : nat) (m : FlashPointModel)
    (a : FirefighterAgent) (r : nat) (P : POI) :
  agent_store m !! self = Some a -> carrying_poi a = None ->
  r ∈ pois m -> poi_store m !! r = Some P ->
  is_rescued P = false -> carried_by P = None ->
  poi_x P = ff_x a -> poi_y P = ff_y a ->
  _rescue_behavior self m = (pickup_poi self m).2.
Proof.
  intros Ha Hc Hr HP Hres Hby Hx Hy. unfold _rescue_behavior. rewrite Ha, Hc.
  cbv zeta.
  assert (Hin : (r, P) ∈ filter (fun rp : nat * POI =>
                                   is_rescued rp.2 = false /\ carried_by rp.2 = None)
                                (resolve_pois m)).
  { apply list_elem_of_filter. split; [done |]. by apply resolve_pois_elem. }
  pose proof (fun Hpos Hkey =>
                min_by_zero
                  (fun rp : nat * POI =>
                     manhattan (poi_x rp.2) (poi_y rp.2) (ff_x a) (ff_y a))
                  _ (r, P) Hpos Hin Hkey) as Hmin.
  destruct Hmin as (n & -> & Hn).
  - intros rp. unfold manhattan. lia.
  - unfold manhattan. cbn. lia.
  - unfold manhattan in Hn. rewrite !bool_decide_eq_true_2 by lia. done.
Qed.

Lemma rescuer_on_the_spot_witness :
  _rescue_behavior 1 lane_at_poi = (pickup_poi 1 lane_at_poi).2.
Proof.
  apply (rescuer_on_the_spot 1 lane_at_poi
           (mkFF 1 2 (1, 2) 3 4 None unassigned) 0%nat
           (mkPOI 0 1 2 false false false None)).
  - vm_compute. reflexivity.
  - reflexivity.
  - apply (bool_decide_unpack _). vm_compute. exact I.
  - vm_compute. reflexivity.
  - reflexivity.
  - reflexivity.
  - reflexivity.
  - reflexivity.
Defined.

(** ** How many explosions *)

Lemma explosions_fold draws (L : list (Z * Z)) :
  forall s j,
    board_inv s -> Forall (fun c => in_bounds s c.1 c.2 = true) L ->
    let r := foldl (fun acc (c : Z * Z) => explosion_cell draws acc c.1 c.2)
                   (s, j) L in
    explosion_count r.1
    <= explosion_count s
       + Z.of_nat (length (filter (fun c => c ∈ hotspot_cells) L))
    /\ (r.2 <= j + length (filter (fun c => c ∈ hotspot_cells) L))%nat.
Proof.
  induction L as [| c L IH]; intros s j I Hb; cbn [foldl]; cbv zeta.
  - cbn. lia.
  - apply Forall_cons in Hb as [Hc Hb].
    unfold explosion_cell at 2 4. cbn [fst snd].
    destruct (bool_decide (grid_get CLEAR (fire_grid s) c.1 c.2 = FIRE)
              && bool_decide (grid_get NORMAL (cell_types s) c.1 c.2 = HOTSPOT))
      eqn:Hhot.
    + apply andb_true_iff in Hhot as [_ Hhot]. apply bool_decide_eq_true in Hhot.
      rewrite (bd_types s I _ _ Hc) in Hhot.
      rewrite <- surjective_pairing in Hhot. apply cell_type_at_hotspot in Hhot.
      rewrite filter_cons_True by done. cbn [length].
      destruct (Qlt_bool (draws j) (1 # 10)).
      * destruct (IH (_trigger_explosion s c.1 c.2) (S j)) as [He Hd].
        { by apply board_inv_trigger_explosion. }
        { destruct (size_trigger_explosion s c.1 c.2) as [Hw Hh].
          eapply Forall_impl; [exact Hb |]. intros c' Hc'.
          unfold in_bounds in *. by rewrite Hw, Hh. }
        cbv zeta in He, Hd.
        destruct (trigger_explosion_spec s c.1 c.2 (bd_fire s I)) as (Hcount & _).
        cbv zeta in Hcount. rewrite Hcount in He. split; lia.
      * destruct (IH s (S j) I Hb) as [He Hd]. cbv zeta in He, Hd. split; lia.
    + destruct (IH s j I Hb) as [He Hd]. cbv zeta in He, Hd.
      destruct (decide (c ∈ hotspot_cells)).
      * rewrite filter_cons_True by done. cbn [length]. split; lia.
      * rewrite filter_cons_False by done. split; lia.
Qed.

Lemma hotspots_on_board w h :
  (length (filter (fun c => c ∈ hotspot_cells) (cells_row_major w h)) <= 3)%nat.
Proof.
  change 3%nat with (length hotspot_cells). apply submseteq_length.
  apply NoDup_submseteq; [apply NoDup_filter, cells_row_major_NoDup |].
  intros c Hc. by apply list_elem_of_filter in Hc as [Hc _].
Qed.

(** X23 (check_explosions, FlashPointModel.step).  A model step in a
    reachable state sets off at most three explosions, one per hotspot of
    the board, and the explosion pass makes at most three draws. *)
Theorem explosions_per_step (order : list nat) (draws : nat -> Q) (k : nat)
    (m : FlashPointModel) :
  reachable_state m ->
  explosion_count (model_step order draws k m).1 <= explosion_count m + 3
  /\ ((model_step order draws k m).2
      <= (spread_fire draws k (schedule_step order m)).2 + 3)%nat.
Proof.
  intros Hr. pose proof (reachable_board_inv m Hr) as I. unfold model_step.
  destruct (schedule_step_spec order m I) as (I1 & _ & (_ & _ & _ & _ & _ & EC1) & _).
  pose proof (board_inv_spread_fire draws k _ I1) as I2.
  destruct (spread_fire_spec draws k _ (bd_fire _ I1)) as (Hsame & _).
  cbv zeta in Hsame.
  destruct (spread_fire draws k (schedule_step order m)) as [m2 k2].
  cbn [fst snd] in *.
  destruct Hsame as (_ & _ & _ & _ & EC2 & _).
  unfold check_explosions. rewrite for_yx_scan_cells. unfold scan_cells.
  destruct (explosions_fold draws (cells_row_major (width m2) (height m2)) m2 k2 I2)
    as [He Hd].
  { apply Forall_forall. intros [x y] Hc. by apply cell_in_bounds. }
  cbv zeta in He, Hd.
  pose proof (hotspots_on_board (width m2) (height m2)) as H3.
  rewrite EC2, EC1 in He. split; lia.
Qed.

Lemma explosions_per_step_witness :
  explosion_count (model_step [] wild 0 hall).1 <= explosion_count hall + 3.
Proof.
  assert (Hr : reachable_state hall).
  { apply (reach_init 4 4 0 0 2 [] calm 0 _ 0). vm_compute. reflexivity. }
  destruct (explosions_per_step [] wild 0 hall Hr) as [He _]. exact He.
Defined.

(** ** Following a path *)

(** X24 (step_along in _rescue_behavior and _firefighting_behavior,
    get_path_to, find_path, move_to).  Following the path makes progress:
    when the path from the firefighter to a target has at least two nodes
    and the firefighter has an action point, the move to the second node
    succeeds, costs one action point, and the path from the new cell to
    the same target is one node shorter. *)
Theorem step_along_progress (self : nat) (m : FlashPointModel)
    (a : FirefighterAgent) (tx ty : Z) :
  agent_store m !! self = Some a -> 0 < action_points a ->
  (2 <= length (get_path_to m a tx ty))%nat ->
  exists a',
    (step_along self (get_path_to m a tx ty) m).1 = true
    /\ agent_store (step_along self (get_path_to m a tx ty) m).2 !! self = Some a'
    /\ get_path_to m a tx ty !! 1%nat = Some (ff_x a', ff_y a')
    /\ action_points a' = action_points a - 1
    /\ S (length (get_path_to (step_along self (get_path_to m a tx ty) m).2
                    a' tx ty))
       = length (get_path_to m a tx ty).
Proof.
  intros Ha Hap Hlen. unfold get_path_to in *.
  set (s := (ff_x a, ff_y a)) in *. set (g := (tx, ty)) in *.
  assert (Hne : s <> g).
  { intros Heq. unfold find_path, find_path_fuel in Hlen.
    rewrite bool_decide_eq_true_2 in Hlen by done. cbn in Hlen. lia. }
  destruct (find_path_cases m s g Hne) as [[E _] | [W Hmin]];
    [rewrite E in Hlen; cbn in Hlen; lia |].
  pose proof (proj1 (walk_path m s g _) W) as (Hhead & Hlast & Hwalk).
  destruct (find_path m s g) as [| s0 [| p1 rest]] eqn:Hpath;
    [cbn in Hlen; lia | cbn in Hlen; lia |].
  cbn in Hhead. inversion Hhead; subst s0.
  destruct Hwalk as [Hedge Hwalk].
  assert (Wt : walk_to m p1 g (p1 :: rest)).
  { apply walk_path. split; [done |]. split; [| done].
    rewrite <- Hlast. done. }
  (* the move *)
  assert (Hmove : move_to self p1.1 p1.2 m
                  = (true,
                     update_agent self
                       (fun a => set_action_points (action_points a - 1) a)
                       (update_agent self (set_ff_position p1.1 p1.2)
                          (update_agent self (set_ff_pos (p1.1, p1.2)) m)))).
  { unfold move_to. rewrite Ha. rewrite bool_decide_eq_false_2 by lia.
    unfold edge, s in Hedge. cbn [fst snd] in Hedge. by rewrite Hedge. }
  cbn [step_along]. rewrite Hmove. cbn [fst snd].
  eexists. split; [done |]. split.
  { cbn. rewrite !lookup_alter_eq, Ha. reflexivity. }
  cbn [ff_x ff_y action_points set_action_points set_ff_position set_ff_pos].
  split; [cbn; by rewrite <- surjective_pairing |]. split; [done |].
  rewrite (find_path_congr _ m) by done.
  rewrite <- (surjective_pairing p1). cbn [length]. f_equal.
  destruct (decide (p1 = g)) as [-> | Hne1].
  - unfold find_path at 1, find_path_fuel. rewrite bool_decide_eq_true_2 by done.
    cbn. assert (W2 : walk_to m s g [s; g]).
    { apply (walk_cons m s g); [done | constructor]. }
    apply Hmin in W2. cbn in W2. lia.
  - destruct (find_path_cases m p1 g Hne1) as [[_ U] | [W1 Hmin1]].
    + exfalso. apply U. by eapply walk_reachable.
    + apply Hmin1 in Wt as L1. cbn in L1.
      assert (W2 : walk_to m s g (s :: find_path m p1 g))
        by (by apply (walk_cons m s p1)).
      apply Hmin in W2. cbn in W2. cbn. lia.
Qed.

Lemma step_along_progress_witness :
  exists a',
    (step_along 1 (get_path_to lane (FirefighterAgent_init 1 3) 0 0) lane).1 = true
    /\ agent_store
         (step_along 1 (get_path_to lane (FirefighterAgent_init 1 3) 0 0) lane).2
         !! 1%nat = Some a'
    /\ get_path_to lane (FirefighterAgent_init 1 3) 0 0 !! 1%nat
       = Some (ff_x a', ff_y a')
    /\ action_points a' = action_points (FirefighterAgent_init 1 3) - 1
    /\ S (length (get_path_to
                    (step_along 1 (get_path_to lane (FirefighterAgent_init 1 3) 0 0)
                       lane).2 a' 0 0))
       = length (get_path_to lane (FirefighterAgent_init 1 3) 0 0).
Proof.
  apply (step_along_progress 1 lane (FirefighterAgent_init 1 3) 0 0).
  - vm_compute. reflexivity.
  - reflexivity.
  - apply (bool_decide_unpack _). vm_compute. exact I.
Defined.

(** * The explosion pass, from the pre-pass state *)

Lemma blast_walls_shape m m' x y :
  width m' = width m -> height m' = height m ->
  blast_walls m' x y = blast_walls m x y.
Proof. intros Hw Hh. unfold blast_walls, in_bounds. by rewrite Hw, Hh. Qed.

Lemma blasts_shape m m' E key :
  width m' = width m -> height m' = height m -> blasts m' E key = blasts m E key.
Proof.
  intros Hw Hh. unfold blasts. f_equal. apply filter_ext_in.
  intros e _. by rewrite (blast_walls_shape m m' _ _ Hw Hh).
Qed.

Lemma blasts_cons m e E key :
  blasts m (e :: E) key
  = if decide (key ∈ blast_walls m e.1 e.2)
    then S (blasts m E key) else blasts m E key.
Proof.
  unfold blasts. destruct (decide _) as [Hin | Hnot].
  - by rewrite filter_cons_True.
  - by rewrite filter_cons_False.
Qed.

Lemma iter_damage_shift n (ow : option Wall) :
  Nat.iter (S n) (fun w => (take_damage w 1).1) <$> ow
  = Nat.iter n (fun w => (take_damage w 1).1)
      <$> ((fun w => (take_damage w 1).1) <$> ow).
Proof.
  destruct ow as [w |]; [| done]. cbn [fmap option_fmap option_map].
  by rewrite Nat.iter_succ_r.
Qed.

Lemma blast_reach_nil c : ~ blast_reach [] c.
Proof. unfold blast_reach. intros H. by apply Exists_nil in H. Qed.

Lemma blast_reach_cons e E c :
  blast_reach (e :: E) c <-> c ∈ shift e <$> directions8 \/ blast_reach E c.
Proof. unfold blast_reach. apply Exists_cons. Qed.

Lemma same_but_blast_refl m : same_but_blast m m.
Proof. by repeat split. Qed.

Lemma same_but_blast_trans m1 m2 m3 :
  same_but_blast m1 m2 -> same_but_blast m2 m3 -> same_but_blast m1 m3.
Proof.
  unfold same_but_blast.
  intros (?&?&?&?&?&?&?&?&?&?) (?&?&?&?&?&?&?&?&?&?). repeat split; congruence.
Qed.

Lemma same_but_blast_trigger_explosion s x y :
  grid_shape (fire_grid s) (width s) (height s) ->
  same_but_blast s (_trigger_explosion s x y).
Proof.
  intros Hshape.
  destruct (trigger_explosion_spec s x y Hshape)
    as (_ & _ & _ & Hw & Hh & Hct & (Hag & Hpo & Hps & Hsch) & _).
  cbv zeta in Hw, Hh, Hct.
  destruct (counters_trigger_explosion s x y) as [Hst Hrp].
  pose proof (wall_health_trigger_explosion s x y) as Hwh.
  by repeat split.
Qed.

(** The scan of a list of cells of the board, described from the state in
    which it starts: an explosion turns Clear cells to Smoke only, so the
    cells that test positive during the scan are those that do at its
    start. *)
Lemma explosion_scan draws (cells : list pos) :
  forall s j,
    grid_shape (fire_grid s) (width s) (height s) ->
    Forall (fun c : pos => in_bounds s c.1 c.2 = true) cells ->
    let r := foldl (fun acc (c : pos) => explosion_cell draws acc c.1 c.2)
                   (s, j) cells in
    let B := filter (fun c : pos =>
                       grid_get CLEAR (fire_grid s) c.1 c.2 = FIRE
                       /\ grid_get NORMAL (cell_types s) c.1 c.2 = HOTSPOT)
                    cells in
    let E := exploding_from draws j B in
    r.2 = (j + length B)%nat
    /\ explosion_count r.1 = explosion_count s + Z.of_nat (length E)
    /\ (forall key,
          walls r.1 !! key
          = Nat.iter (blasts s E key) (fun w => (take_damage w 1).1)
              <$> walls s !! key)
    /\ (forall c, in_bounds s c.1 c.2 = true ->
          grid_get CLEAR (fire_grid r.1) c.1 c.2
          = if decide (grid_get CLEAR (fire_grid s) c.1 c.2 = CLEAR
                       /\ blast_reach E c)
            then SMOKE else grid_get CLEAR (fire_grid s) c.1 c.2)
    /\ same_but_blast s r.1
    /\ grid_shape (fire_grid r.1) (width s) (height s).
Proof.
  induction cells as [| c cells IH]; intros s j Hshape Hb; cbn [foldl]; cbv zeta.
  - cbn [filter list_filter exploding_from length fst snd].
    split; [lia |]. split; [lia |].
    split; [intros key; by destruct (walls s !! key) |].
    split; [| split; [apply same_but_blast_refl | exact Hshape]].
    intros c _. rewrite decide_False; [done |].
    intros [_ Hr]. by apply blast_reach_nil in Hr.
  - apply Forall_cons in Hb as [Hc Hb].
    unfold explosion_cell at 2 4 6 8 10 12. cbn [fst snd].
    destruct (bool_decide (grid_get CLEAR (fire_grid s) c.1 c.2 = FIRE)
              && bool_decide (grid_get NORMAL (cell_types s) c.1 c.2 = HOTSPOT))
      eqn:Hhot.
    + apply andb_true_iff in Hhot as [Hf Hh].
      apply bool_decide_eq_true in Hf. apply bool_decide_eq_true in Hh.
      rewrite filter_cons_True by done. cbn [exploding_from length].
      destruct (Qlt_bool (draws j) (1 # 10)).
      * pose proof (trigger_explosion_spec s c.1 c.2 Hshape) as Hone.
        pose proof (same_but_blast_trigger_explosion s c.1 c.2 Hshape) as Hsame.
        remember (_trigger_explosion s c.1 c.2) as s1 eqn:Hs1.
        cbv zeta in Hone.
        destruct Hone as (Hcount & Hwalls & Hfire & Hw1 & Hh1 & Hct1 & _ & Hshape1).
        assert (Hb1 : Forall (fun c : pos => in_bounds s1 c.1 c.2 = true) cells).
        { eapply Forall_impl; [exact Hb |]. intros c' Hc'.
          by rewrite (in_bounds_shape s s1 _ _ Hw1 Hh1). }
        destruct (IH s1 (S j) Hshape1 Hb1) as (Hd & He & Hwl & Hfg & Hsb & Hsh).
        cbv zeta in Hd, He, Hwl, Hfg, Hsb, Hsh.
        assert (HB : filter (fun c0 : pos =>
                               grid_get CLEAR (fire_grid s1) c0.1 c0.2 = FIRE
                               /\ grid_get NORMAL (cell_types s1) c0.1 c0.2 = HOTSPOT)
                            cells
                     = filter (fun c0 : pos =>
                                 grid_get CLEAR (fire_grid s) c0.1 c0.2 = FIRE
                                 /\ grid_get NORMAL (cell_types s) c0.1 c0.2 = HOTSPOT)
                              cells).
        { apply filter_ext_in. intros c0 Hin.
          rewrite Forall_forall in Hb. rewrite Hct1, (Hfire c0 (Hb c0 Hin)).
          destruct (decide _) as [[_ Hclear] | _]; [| done].
          rewrite Hclear. split; intros [? ?]; discriminate. }
        rewrite HB in Hd, He, Hwl, Hfg.
        set (B := filter _ cells) in *.
        set (E1 := exploding_from draws (S j) B) in *.
        change ([c] ++ E1) with (c :: E1). cbn [length].
        split; [lia |]. split; [lia |].
        split.
        { intros key. rewrite Hwl, (blasts_shape s s1 _ _ Hw1 Hh1), Hwalls.
          rewrite blasts_cons. destruct (decide _); [| done].
          by rewrite iter_damage_shift. }
        split.
        { intros c' Hc'.
          rewrite (Hfg c') by (by rewrite (in_bounds_shape s s1 _ _ Hw1 Hh1)).
          rewrite (Hfire c' Hc').
          destruct (decide (c' ∈ shift (c.1, c.2) <$> directions8
                            /\ grid_get CLEAR (fire_grid s) c'.1 c'.2 = CLEAR))
            as [[Hnb Hcl] | Hnot].
          - rewrite decide_False by (intros [? _]; discriminate).
            rewrite decide_True; [done |]. split; [done |].
            apply blast_reach_cons. left. by rewrite (surjective_pairing c).
          - destruct (decide (grid_get CLEAR (fire_grid s) c'.1 c'.2 = CLEAR
                              /\ blast_reach E1 c')) as [[Hcl Hr] | Hno].
            + rewrite decide_True; [done |]. split; [done |].
              apply blast_reach_cons. by right.
            + rewrite decide_False; [done |]. intros [Hcl Hr].
              apply blast_reach_cons in Hr as [Hnb | Hr].
              * apply Hnot. split; [| done]. by rewrite <- surjective_pairing.
              * by apply Hno. }
        split; [by eapply same_but_blast_trans |].
        by rewrite Hw1, Hh1 in Hsh.
      * destruct (IH s (S j) Hshape Hb) as (Hd & He & Hwl & Hfg & Hsb & Hsh).
        cbv zeta in Hd, He, Hwl, Hfg, Hsb, Hsh. cbn [app].
        split; [lia |]. done.
    + assert (Hno : ~ (grid_get CLEAR (fire_grid s) c.1 c.2 = FIRE
                       /\ grid_get NORMAL (cell_types s) c.1 c.2 = HOTSPOT)).
      { intros [Hf Hh]. apply andb_false_iff in Hhot as [Hhot | Hhot];
          apply bool_decide_eq_false in Hhot; done. }
      rewrite filter_cons_False by done.
      exact (IH s j Hshape Hb).
Qed.

(** X2 (check_explosions, _trigger_explosion).  The explosion pass, from the
    state in which it starts.  The cells that make a draw are the cells that
    are Fire and Hotspot then, in row-major order: an explosion turns Clear
    cells to Smoke only, so the in-place scan never changes which cells test
    positive.  The i-th of them makes draw [k + i] and explodes exactly when
    that draw is below 1/10.  The pass adds the number of explosions to the
    explosion count; a registered wall takes one unit of damage for every
    exploding cell that has it towards an orthogonal neighbour on the board,
    so the damage of several explosions adds up, and no wall is added or
    removed; a cell of the board that was Clear and is one of the eight
    neighbours of an exploding cell ends as Smoke, whatever the walls, and
    every other cell keeps its level; width, height, wall health, rescued
    count, step count, cell types, firefighters, POIs, registry and
    schedule are as before. *)
Theorem explosion_pass (draws : nat -> Q) (k : nat) (m : FlashPointModel) :
  grid_shape (fire_grid m) (width m) (height m) ->
  let r := check_explosions draws k m in
  let E := exploding draws k m in
  r.2 = (k + length (burning_hotspots m))%nat
  /\ explosion_count r.1 = explosion_count m + Z.of_nat (length E)
  /\ (forall key,
        walls r.1 !! key
        = Nat.iter (blasts m E key) (fun w => (take_damage w 1).1)
            <$> walls m !! key)
  /\ (forall c, in_bounds m c.1 c.2 = true ->
        grid_get CLEAR (fire_grid r.1) c.1 c.2
        = if decide (grid_get CLEAR (fire_grid m) c.1 c.2 = CLEAR
                     /\ blast_reach E c)
          then SMOKE else grid_get CLEAR (fire_grid m) c.1 c.2)
  /\ same_but_blast m r.1
  /\ grid_shape (fire_grid r.1) (width m) (height m).
Proof.
  intros Hshape. unfold check_explosions. rewrite for_yx_scan_cells.
  unfold scan_cells, exploding, burning_hotspots.
  apply (explosion_scan draws (cells_row_major (width m) (height m)) m k Hshape).
  apply Forall_forall. intros [x y] Hin. by apply cell_in_bounds.
Qed.

Lemma explosion_pass_witness :
  exploding wild 0 hot_row = [(0, 0); (1, 0)]
  /\ (check_explosions wild 0 hot_row).2 = 2%nat
  /\ explosion_count (check_explosions wild 0 hot_row).1 = 2
  /\ walls (check_explosions wild 0 hot_row).1 !! (0, 0, 1, 0) = Some (mkWall 0 2)
  /\ walls (check_explosions wild 0 hot_row).1 !! (1, 0, 2, 0) = Some (mkWall 1 2)
  /\ grid_get CLEAR (fire_grid (check_explosions wild 0 hot_row).1) 2 0 = SMOKE.
Proof.
  assert (Hs : grid_shape (fire_grid hot_row) (width hot_row) (height hot_row)).
  { split; [reflexivity |]. repeat constructor. }
  destruct (explosion_pass wild 0 hot_row Hs) as (Hd & He & Hw & Hg & _).
  cbv zeta in Hd, He, Hw, Hg.
  split; [reflexivity |]. split; [rewrite Hd; reflexivity |].
  split; [rewrite He; reflexivity |].
  split; [rewrite Hw; reflexivity |]. split; [rewrite Hw; reflexivity |].
  exact (Hg (2, 0) eq_refl).
Defined.

(** * What the constructor rejects *)

Lemma place_firefighters_some (l : list Z) :
  forall m,
    Forall (fun i => exists c, start_positions !! Z.to_nat i = Some c
                               /\ in_bounds m c.1 c.2 = true) l ->
    is_Some (foldl place_firefighter (Some m) l).
Proof.
  induction l as [| i l IH]; intros m Hf; cbn [foldl]; [by eexists |].
  apply Forall_cons in Hf as [(c & Hc & Hb) Hf].
  unfold place_firefighter at 2. cbn [mbind option_bind]. rewrite Hc.
  cbn [mbind option_bind]. destruct c as [x y]. cbn [fst snd] in Hb.
  rewrite Hb. apply IH.
  eapply Forall_impl; [exact Hf |]. intros j (c & Hj & Hjb).
  exists c. split; [done |]. exact Hjb.
Qed.

Lemma start_cells_fit_range w h nff m :
  width m = w -> height m = h ->
  Forall (fun i => exists c, start_positions !! Z.to_nat i = Some c
                             /\ in_bounds m c.1 c.2 = true)
         (range (Z.min nff 5))
  <-> start_cells_fit w h nff.
Proof.
  intros Hw Hh. unfold start_cells_fit, range.
  change (Z.of_nat (length start_positions)) with 5.
  rewrite !Forall_forall. split.
  - intros H c Hin. apply list_elem_of_lookup in Hin as [i Hi].
    apply lookup_take_Some in Hi as [Hi Hlt].
    destruct (H (Z.of_nat i)) as (c' & Hc' & Hb); [apply elem_of_seqZ; lia |].
    rewrite Nat2Z.id, Hi in Hc'. inversion Hc'; subst c'.
    apply in_bounds_inv in Hb. by rewrite Hw, Hh in Hb.
  - intros H i Hi. apply elem_of_seqZ in Hi.
    destruct (lookup_lt_is_Some_2 start_positions (Z.to_nat i)) as [c Hc];
      [cbn; lia |].
    exists c. split; [done |].
    assert (Hin : c ∈ take (Z.to_nat (Z.min nff 5)) start_positions).
    { apply (list_elem_of_lookup_2 _ (Z.to_nat i)).
      apply lookup_take_Some. split; [done | lia]. }
    specialize (H c Hin). unfold in_bounds. rewrite Hw, Hh.
    apply andb_true_intro. split; apply bool_decide_eq_true; lia.
Qed.

Lemma place_firefighters_fit w h nff m :
  width m = w -> height m = h ->
  is_Some (_place_firefighters nff m) <-> start_cells_fit w h nff.
Proof.
  intros Hw Hh. rewrite <- (start_cells_fit_range w h nff m Hw Hh). split.
  - intros [m' Hm']. by apply place_firefighters_stage in Hm' as (_ & _ & _ & Hf).
  - intros Hf. unfold _place_firefighters.
    change (Z.of_nat (length start_positions)) with 5.
    by apply place_firefighters_some.
Qed.

(** C9 (as the code has it).  The constructor checks none of its arguments
    itself; it fails where a library call rejects one.  The construction
    fails, and no simulation is created, exactly when the width or the
    height is negative, the POI count is negative, or the board lacks the
    start cell of one of the firefighters to place.  Everything else is
    accepted: a construction that succeeds stores the width, the height and
    the wall health as given, creates the requested number of firefighters
    cut to the range 0..5, and as many POIs as cells were sampled. *)
Theorem construction_fails_fast (w h nff np wh : Z) (sampled : list pos)
    (draws : nat -> Q) (k : nat) :
  (FlashPointModel_init w h nff np wh sampled draws k = None
   <-> w < 0 \/ h < 0 \/ np < 0 \/ ~ start_cells_fit w h nff)
  /\ (forall m k',
        FlashPointModel_init w h nff np wh sampled draws k = Some (m, k') ->
        width m = w /\ height m = h /\ wall_health m = wh
        /\ Z.of_nat (length (schedule m)) = Z.max 0 (Z.min nff 5)
        /\ length (pois m) = length sampled).
Proof.
  split.
  - unfold FlashPointModel_init.
    destruct (bool_decide (w < 0) || bool_decide (h < 0)) eqn:Hsz.
    { split; [| done]. intros _.
      apply orb_true_iff in Hsz as [Hsz | Hsz]; apply bool_decide_eq_true in Hsz;
        [by left | right; by left]. }
    apply orb_false_iff in Hsz as [Hw Hh].
    apply bool_decide_eq_false in Hw. apply bool_decide_eq_false in Hh.
    cbv zeta.
    match goal with
    | |- context [_place_firefighters nff ?t] =>
        assert (Hsh : width t = w /\ height t = h);
        [| remember t as m2 eqn:Hm2; clear Hm2]
    end.
    { match goal with
      | |- width (_create_walls (_setup_exits ?t)) = _ /\ _ =>
          destruct (setup_exits_frame t) as [(W1 & H1 & _) _];
          destruct (create_walls_frame (_setup_exits t)) as [(W2 & H2 & _) _]
      end.
      rewrite W2, H2, W1, H1. done. }
    destruct Hsh as [Hw2 Hh2].
    pose proof (place_firefighters_fit w h nff m2 Hw2 Hh2) as Hfit.
    destruct (_place_firefighters nff m2) as [m3 |]; cbn [mbind option_bind].
    + assert (Hok : start_cells_fit w h nff) by (apply Hfit; by eexists).
      unfold _place_pois. case_bool_decide as Hnp.
      * split; [| done]. intros _. right. right. left. lia.
      * split; [discriminate |]. intros [? | [? | [? | ?]]]; [lia | lia | lia | done].
    + split; [| done]. intros _. right. right. right.
      intros Hok. apply Hfit in Hok as [? ?]. discriminate.
  - intros m k' Hi.
    destruct (init_inv w h nff np wh sampled draws k m k' Hi) as (_ & _ & Hm & _).
    pose proof (f_equal width Hm) as Hwm. pose proof (f_equal height Hm) as Hhm.
    pose proof (f_equal wall_health Hm) as Hwh.
    pose proof (f_equal schedule Hm) as Hsch. pose proof (f_equal pois Hm) as Hps.
    cbn [width height wall_health schedule pois] in Hwm, Hhm, Hwh, Hsch, Hps.
    split; [done |]. split; [done |]. split; [done |]. split.
    + rewrite Hsch, length_fmap. unfold range. rewrite length_seqZ. lia.
    + by rewrite Hps, length_seq.
Qed.

Lemma construction_fails_fast_witness :
  FlashPointModel_init (-1) 8 0 0 2 [] calm 0 = None
  /\ FlashPointModel_init 10 8 5 (-1) 2 [] calm 0 = None
  /\ FlashPointModel_init 5 5 5 0 2 [] calm 0 = None.
Proof.
  split; [| split].
  - apply (construction_fails_fast (-1) 8 0 0 2 [] calm 0). left. lia.
  - apply (construction_fails_fast 10 8 5 (-1) 2 [] calm 0). right. right. left. lia.
  - apply (construction_fails_fast 5 5 5 0 2 [] calm 0). right. right. right.
    unfold start_cells_fit. intros Hfit.
    apply Forall_cons in Hfit as [_ Hfit]. apply Forall_cons in Hfit as [_ Hfit].
    apply Forall_cons in Hfit as [[Hx _] _]. cbn in Hx. lia.
Defined.

(** A board without cells is accepted: the constructor called with the
    width 0 and the height 0, for no firefighter and no POI, creates a
    simulation whose grids are empty and whose wall table holds no wall. *)
Lemma construction_of_void_board :
  FlashPointModel_init 0 0 0 0 2 [] calm 0 = Some (void, 0%nat)
  /\ width void = 0 /\ height void = 0
  /\ fire_grid void = [] /\ walls void = ∅ /\ schedule void = [].
Proof. repeat split; vm_compute; reflexivity. Qed.
